(** * The IDOR scan engine of [src/app/api/scan/route.ts]

    A shallow embedding of the scan route: the response normaliser
    ([redactVolatile]), the similarity scorer ([tokenSet], [jaccard],
    [similarity]), the per-endpoint probe with its confidence score, the
    bounded scheduler ([runWithConcurrency]) and the request handler
    ([POST]).

    Conventions of the embedding.
    - A JavaScript string is a list of code units; the development covers
      code units below 256 (one [ascii] each), on which [toLowerCase], [\w],
      [\s] and [\d] are the tables written out below.
    - A JavaScript number is a binary64 value, modelled by the rational it
      denotes ([Q]).  The scores are computed as the engine computes them:
      every arithmetic operation is followed by the rounding [round64], and
      a decimal constant of the source (0.6, 0.4, 0.05, 0.1, 0.15, 0.65,
      0.35) is the binary64 value nearest to it.  [jaccard] and
      [similarity] are given twice: as the value of the expression in exact
      arithmetic, and as the binary64 value ([jaccard64], [similarity64])
      that the scores, the threshold tests and the findings are made of.  A
      number read from JSON is the value the parser made of it.
    - Builtins of the platform whose behaviour is not in the repository
      (the URL parser, [JSON.parse]/[JSON.stringify] on response bodies,
      [uuidv4], property lookup on [Object.prototype]) are fields of a
      [Runtime] record; theorems hold for every runtime, examples use the
      concrete [demo_rt]. *)

From Stdlib Require Import List Ascii String QArith Qminmax Qround Qpower Lia Lqa DecimalString.
From Stdlib Require SpecFloat.
From stdpp Require Import base tactics option list gmap sets strings.
Import ListNotations.
Local Open Scope list_scope.

(** ** Strings and character classes *)

Definition str := list ascii.

Definition lit (s : string) : str := list_ascii_of_string s.

Definition code (c : ascii) : N := N_of_ascii c.

Definition between (lo hi : N) (c : ascii) : bool :=
  (lo <=? code c)%N && (code c <=? hi)%N.

(** [\d] *)
Definition is_digit (c : ascii) : bool := between 48 57 c.
Definition is_lower (c : ascii) : bool := between 97 122 c.
Definition is_upper (c : ascii) : bool := between 65 90 c.

(** [\w] is [[A-Za-z0-9_]]. *)
Definition is_word (c : ascii) : bool :=
  is_lower c || is_upper c || is_digit c || (code c =? 95)%N.

(** [\s] below code unit 256: TAB, LF, VT, FF, CR, SPACE and NBSP. *)
Definition is_space (c : ascii) : bool :=
  between 9 13 c || (code c =? 32)%N || (code c =? 160)%N.

(** [String.prototype.toLowerCase] on one code unit below 256: the ASCII
    capitals and the Latin-1 capitals U+00C0..U+00DE except U+00D7. *)
Definition lower_char (c : ascii) : ascii :=
  if is_upper c || (between 192 222 c && negb (code c =? 215)%N)
  then ascii_of_N (code c + 32) else c.

Definition toLowerCase (s : str) : str := map lower_char s.

(** Equality of two code units under the [i] flag. *)
Definition eq_ci (a b : ascii) : bool :=
  bool_decide (a = b)
  || ((is_lower a || is_upper a) && bool_decide (lower_char a = lower_char b)).

(** [[0-9a-f]] under the [i] flag. *)
Definition is_hex (c : ascii) : bool :=
  is_digit c || between 97 102 c || between 65 70 c.

Definition is_wordo (o : option ascii) : bool :=
  match o with Some c => is_word c | None => false end.

(** [\b] between the code unit before the position and the one after it. *)
Definition word_boundary (prev next : option ascii) : bool :=
  xorb (is_wordo prev) (is_wordo next).

(** The longest prefix whose code units satisfy [p]. *)
Fixpoint span (p : ascii -> bool) (s : str) : str :=
  match s with
  | c :: s' => if p c then c :: span p s' else []
  | [] => []
  end.

(** ** [String.prototype.replace] with a global regular expression

    A [matcher] is one regular expression tried at one position: it sees the
    code unit before the position (for [\b]) and the rest of the input, and
    answers with the length of the match and the replacement text. *)

Definition matcher := option ascii -> str -> option (nat * str).

(** The scan of [replace(/re/g, ...)]: leftmost match, then the search
    resumes after the match; a position with no match copies its code unit.
    [skip] counts the code units of the current match still to be passed. *)
Fixpoint replace_from (m : matcher) (skip : nat) (prev : option ascii) (s : str) : str :=
  match s with
  | [] =>
      match skip, m prev [] with
      | O, Some (_, r) => r
      | _, _ => []
      end
  | c :: s' =>
      match skip with
      | S k => replace_from m k (Some c) s'
      | O =>
          match m prev s with
          | Some (S n, r) => r ++ replace_from m n (Some c) s'
          | Some (O, r) => r ++ c :: replace_from m 0 (Some c) s'
          | None => c :: replace_from m 0 (Some c) s'
          end
      end
  end.

Definition replace_all (m : matcher) (s : str) : str := replace_from m 0 None s.

(** ** redactVolatile (route.ts, lines 53-58) *)

(** [/\b\d{13,}\b/g]: [\d{13,}] is greedy; giving back digits cannot help,
    there is no word boundary between two digits. *)
Definition m_num : matcher := fun prev s =>
  let ds := span is_digit s in
  if word_boundary prev (head s)
     && (13 <=? length ds)
     && word_boundary (last ds) (head (drop (length ds) s))
  then Some (length ds, lit "<num>") else None.

(** The classes of
    [[0-9a-f]{8}-[0-9a-f]{4}-[1-5][0-9a-f]{3}-[89ab][0-9a-f]{3}-[0-9a-f]{12}],
    one per code unit, under the [i] flag. *)
Definition is_dash (c : ascii) : bool := (code c =? 45)%N.
Definition is_version (c : ascii) : bool := between 49 53 c.
Definition is_variant (c : ascii) : bool :=
  between 56 57 c || between 97 98 c || between 65 66 c.

Definition uuid_classes : list (ascii -> bool) :=
  repeat is_hex 8 ++ [is_dash] ++ repeat is_hex 4 ++ [is_dash]
  ++ [is_version] ++ repeat is_hex 3 ++ [is_dash]
  ++ [is_variant] ++ repeat is_hex 3 ++ [is_dash] ++ repeat is_hex 12.

(** A sequence of one-code-unit classes matched at the head of the input. *)
Fixpoint match_classes (cs : list (ascii -> bool)) (s : str) : bool :=
  match cs, s with
  | [], _ => true
  | p :: cs', c :: s' => p c && match_classes cs' s'
  | _ :: _, [] => false
  end.

(** [/\b<uuid>\b/gi] *)
Definition m_uuid : matcher := fun prev s =>
  if word_boundary prev (head s)
     && match_classes uuid_classes s
     && word_boundary (last (take 36 s)) (head (drop 36 s))
  then Some (36, lit "<uuid>") else None.

(** A literal matched at the head of the input under the [i] flag. *)
Fixpoint prefix_ci (k s : str) : bool :=
  match k, s with
  | [] , _ => true
  | a :: k', c :: s' => eq_ci a c && prefix_ci k' s'
  | _ :: _, [] => false
  end.

Definition dquote : ascii := ascii_of_N 34.
Definition is_dquote (c : ascii) : bool := (code c =? 34)%N.

(** Literals that contain double quotes are written with single quotes:
    [qlit] turns every single quote into a double quote. *)
Definition qlit (s : string) : str :=
  map (fun c => if (code c =? 39)%N then dquote else c) (lit s).

(** The tail [\s*:\s*\x22[^\x22]+\x22] of the timestamp pattern ([\x22] is
    the double quote); the answer is the number of code units matched.  Each
    greedy loop is followed by a code unit outside its class, so no shorter
    iteration can succeed. *)
Definition ts_tail (s : str) : option nat :=
  let w1 := span is_space s in
  match drop (length w1) s with
  | c :: s1 =>
      if (code c =? 58)%N then
        let w2 := span is_space s1 in
        match drop (length w2) s1 with
        | q :: s2 =>
            if is_dquote q then
              let v := span (fun c => negb (is_dquote c)) s2 in
              match v, drop (length v) s2 with
              | _ :: _, q' :: _ =>
                  if is_dquote q'
                  then Some (length w1 + 1 + length w2 + 1 + length v + 1)
                  else None
              | _, _ => None
              end
            else None
        | [] => None
        end
      else None
  | [] => None
  end.

Definition ts_keys : list str :=
  [lit "created"; lit "updated"; lit "timestamp"; lit "ts"; lit "date"].

(** The alternation [(created|updated|timestamp|ts|date)] followed by the
    closing quote and the tail, alternatives tried in order. *)
Fixpoint ts_alternatives (ks : list str) (s : str) : option (nat * str) :=
  match ks with
  | [] => None
  | k :: ks' =>
      let try_next := ts_alternatives ks' s in
      if prefix_ci k s then
        match drop (length k) s with
        | q :: s1 =>
            if is_dquote q then
              match ts_tail s1 with
              | Some n =>
                  Some (1 + length k + 1 + n,
                        dquote :: take (length k) s ++ qlit "':'<ts>'")
              | None => try_next
              end
            else try_next
        | [] => try_next
        end
      else try_next
  end.

(** [/\x22(created|updated|timestamp|ts|date)\x22\s*:\s*\x22[^\x22]+\x22/gi]
    with the replacement [\x22$1\x22:\x22<ts>\x22]. *)
Definition m_ts : matcher := fun _ s =>
  match s with
  | q :: s1 => if is_dquote q then ts_alternatives ts_keys s1 else None
  | [] => None
  end.

Definition redactVolatile (text : str) : str :=
  replace_all m_ts (replace_all m_uuid (replace_all m_num text)).

(** ** tokenSet and jaccard (route.ts, lines 60-74) *)

Definition is_token_char (c : ascii) : bool :=
  is_lower c || is_digit c || (code c =? 95)%N || is_dash c.

(** [/[^a-z0-9_\-]+/g], replaced by one space. *)
Definition m_nontoken : matcher := fun _ s =>
  match span (fun c => negb (is_token_char c)) s with
  | [] => None
  | (_ :: _) as w => Some (length w, lit " ")
  end.

(** [split(/\s+/)]: the pieces between the maximal runs of white space; a
    separator at either end leaves an empty piece there. *)
Fixpoint split_ws (s : str) : list str :=
  match s with
  | [] => [[]]
  | c :: s' =>
      if is_space c then
        match s' with
        | d :: _ => if is_space d then split_ws s' else [] :: split_ws s'
        | [] => [] :: split_ws s'
        end
      else
        match split_ws s' with
        | p :: ps => (c :: p) :: ps
        | [] => [[c]]
        end
  end.

(** [filter(Boolean)] on strings keeps the non-empty ones. *)
Definition truthy (s : str) : bool :=
  match s with [] => false | _ :: _ => true end.

Definition tokenSet (text : str) : gset str :=
  list_to_set
    (List.filter truthy (split_ws (replace_all m_nontoken (toLowerCase text)))).

Definition Q_of_nat (n : nat) : Q := inject_Z (Z.of_nat n).

Definition jaccard (a b : gset str) : Q :=
  let inter : gset str :=
    list_to_set (List.filter (fun x => bool_decide (x ∈ b)) (elements a)) in
  let uni : gset str := list_to_set (elements a ++ elements b) in
  if (size uni =? 0)%nat then 0%Q
  else (Q_of_nat (size inter) / Q_of_nat (size uni))%Q.

(** ** The edit distance of [fastest-levenshtein]

    The package is a dependency, not part of the repository; its [distance]
    is the Levenshtein distance (unit-cost insertion, deletion and
    substitution of code units).  [levenshteinDistance] computes it row by
    row; [lev_spec] is the textbook recurrence it is proved equal to. *)

Definition min3 (a b c : nat) : nat := Nat.min a (Nat.min b c).

Definition subst_cost (x y : ascii) : nat := if bool_decide (x = y) then 0 else 1.

Fixpoint lev_spec (a b : str) : nat :=
  match a with
  | [] => length b
  | x :: a' =>
      (fix inner (b : str) : nat :=
         match b with
         | [] => S (length a')
         | y :: b' =>
             min3 (S (lev_spec a' b)) (S (inner b')) (subst_cost x y + lev_spec a' b')
         end) b
  end.

(** All the suffixes of [b], longest first. *)
Fixpoint tails (b : str) : list str :=
  b :: match b with [] => [] | _ :: b' => tails b' end.

(** One row of the table: from the distances of [a'] to every suffix of [b]
    to the distances of [x :: a']. *)
Fixpoint lev_row (x : ascii) (b : str) (old : list nat) : list nat :=
  match b, old with
  | y :: b', o :: old' =>
      let new' := lev_row x b' old' in
      min3 (S o) (S (hd 0%nat new')) (subst_cost x y + hd 0%nat old') :: new'
  | _, _ => [S (hd 0%nat old)]
  end.

Definition levenshteinDistance (a b : str) : nat :=
  hd 0%nat (fold_right (fun x row => lev_row x b row) (map (@length ascii) (tails b)) a).

(** ** similarity (route.ts, lines 76-84) *)

Definition max3 (a b c : nat) : nat := Nat.max (Nat.max a b) c.

Definition similarity (aRaw bRaw : str) : Q :=
  let a := redactVolatile aRaw in
  let b := redactVolatile bRaw in
  let ta := tokenSet a in
  let tb := tokenSet b in
  let j := jaccard ta tb in
  let lev :=
    (1 - Qmin 1 (Q_of_nat (levenshteinDistance a b)
                 / Q_of_nat (max3 (length a) (length b) 1)))%Q in
  ((j * 0.6) + (lev * 0.4))%Q.


(** ** Numbers as the engine computes them (IEEE 754 binary64)

    A JavaScript number is a binary64 value; it is modelled by the rational
    it denotes.  An arithmetic operation of the source is the exact
    operation followed by [round64], the rounding to the nearest binary64
    value, to the one with the even significand on a tie.  A decimal
    literal [0.6] of the source is [round64 0.6].  Comparisons, [Math.min]
    and [Math.max] are exact.  No operation of the scan comes near 2^1024
    (the operands are sizes, lengths and numbers between -1 and 100), so
    overflow is left out. *)

(** The nearest integer, the even one on a tie. *)
Definition rne (x : Q) : Z :=
  let f := Qfloor x in
  match (x - inject_Z f ?= 1 # 2)%Q with
  | Lt => f
  | Gt => (f + 1)%Z
  | Eq => if Z.even f then f else (f + 1)%Z
  end.

(** The integer part of the binary logarithm of [q > 0], from the lengths
    of the numerator and of the denominator. *)
Definition Qlog2 (q : Q) : Z :=
  let k := (Z.log2 (Qnum q) - Z.log2 (Zpos (Qden q)))%Z in
  if Qle_bool (2 ^ k) q then k else (k - 1)%Z.

(** A number [q >= 0] rounded to a multiple of [2^e]: with 53 significant
    bits for [e = Qlog2 q - 52], and with fewer of them below 2^-1022, where
    the binary64 values are the multiples of 2^-1074. *)
Definition round_pos (q : Q) : Q :=
  let e := Z.max (Qlog2 q - 52) (-1074) in
  (inject_Z (rne (q / 2 ^ e)) * 2 ^ e)%Q.

Definition round64 (q : Q) : Q :=
  if Qle_bool 0 q then Qred (round_pos q) else Qred (- round_pos (- q)).

Definition f64_add (a b : Q) : Q := round64 (a + b).
Definition f64_sub (a b : Q) : Q := round64 (a - b).
Definition f64_mul (a b : Q) : Q := round64 (a * b).
Definition f64_div (a b : Q) : Q := round64 (a / b).

(** ** jaccard and similarity in binary64 (route.ts, lines 70-84)

    [jaccard] and [similarity] above are the values of the two expressions
    in exact arithmetic; [jaccard64] and [similarity64] are the numbers the
    engine computes, and the ones the scores are made of.  Sizes and
    lengths are below 2^53 and so are binary64 values themselves. *)

Definition jaccard64 (a b : gset str) : Q :=
  let inter : gset str :=
    list_to_set (List.filter (fun x => bool_decide (x ∈ b)) (elements a)) in
  let uni : gset str := list_to_set (elements a ++ elements b) in
  if (size uni =? 0)%nat then 0%Q
  else f64_div (Q_of_nat (size inter)) (Q_of_nat (size uni)).

Definition similarity64 (aRaw bRaw : str) : Q :=
  let a := redactVolatile aRaw in
  let b := redactVolatile bRaw in
  let ta := tokenSet a in
  let tb := tokenSet b in
  let j := jaccard64 ta tb in
  let lev :=
    f64_sub 1 (Qmin 1 (f64_div (Q_of_nat (levenshteinDistance a b))
                               (Q_of_nat (max3 (length a) (length b) 1)))) in
  f64_add (f64_mul j (round64 0.6)) (f64_mul lev (round64 0.4)).

(** ** The reference operations of the Standard Library

    [SpecFloat] holds the Standard Library's executable definition of the
    IEEE 754 operations; the examples compare [round64] with it on the
    arithmetic of the scores. *)

Definition Q_of_spec_float (x : SpecFloat.spec_float) : option Q :=
  match x with
  | SpecFloat.S754_zero _ => Some 0%Q
  | SpecFloat.S754_finite s m e =>
      let v := (inject_Z (Zpos m)
                * (if (0 <=? e)%Z then inject_Z (2 ^ e) else / inject_Z (2 ^ (- e))))%Q in
      Some (Qred (if s then (- v)%Q else v))
  | _ => None
  end.

(** The binary64 value of the quotient of two integers: of a decimal
    constant [n / d]. *)
Definition spec_float_ratio (n d : Z) : SpecFloat.spec_float :=
  SpecFloat.SFdiv 53 1024
    (SpecFloat.binary_normalize 53 1024 n 0 false)
    (SpecFloat.binary_normalize 53 1024 d 0 false).

(** ** JSON values and the platform *)

#[local] Unset Elimination Schemes.
Inductive json : Type :=
| JNull
| JBool (b : bool)
| JNum (q : Q)
| JStr (s : str)
| JArr (items : list json)
| JObj (fields : list (str * json)).
#[local] Set Elimination Schemes.

Inductive exn : Type := TypeError | RangeError | SyntaxError.

(** What the platform provides and the repository does not define.
    - [URL_href s qs]: [new URL(s)], then [searchParams.set] of every pair of
      [qs] in order, then [toString()]; [None] when the constructor throws.
    - [JSON_parse], [JSON_stringify]: the builtins, [None] for a thrown
      [SyntaxError].
    - [uuidv4 n]: the identifier returned by the [n]-th call of the scan.
    - [inherited k]: the string a template literal makes of the property [k]
      that a plain object inherits, [None] when it inherits none. *)
Record Runtime : Type := {
  URL_href : str -> list (str * str) -> option str;
  JSON_parse : str -> option json;
  JSON_stringify : json -> str;
  uuidv4 : nat -> str;
  inherited : str -> option str
}.

(** ** Template Resolver (route.ts, lines 31-41) *)

(** [/\{(\w+)\}/g] with the callback [(_, k) => vars[k] ?? `{${k}}`]. *)
Definition m_placeholder (lookup : str -> option str) : matcher := fun _ s =>
  match s with
  | c :: s1 =>
      if (code c =? 123)%N then
        let k := span is_word s1 in
        match k, drop (length k) s1 with
        | _ :: _, d :: _ =>
            if (code d =? 125)%N
            then Some (1 + length k + 1,
                       match lookup k with
                       | Some v => v
                       | None => lit "{" ++ k ++ lit "}"
                       end)
            else None
        | _, _ => None
        end
      else None
  | [] => None
  end.

(** [vars[k]] for an object literal [{ [name]: value }]: the own property,
    else what [Object.prototype] provides. *)
Definition vars_lookup (rt : Runtime) (vars : list (str * option str)) (k : str)
  : option str :=
  match List.find (fun kv => bool_decide (kv.1 = k)) vars with
  | Some kv => kv.2
  | None => inherited rt k
  end.

Definition applyTemplate (rt : Runtime) (input : str) (vars : list (str * option str)) : str :=
  replace_all (m_placeholder (vars_lookup rt vars)) input.

(** [s.replace(/\/$/, ...)] with the empty replacement. *)
Fixpoint strip_trailing_slash (s : str) : str :=
  match s with
  | [] => []
  | [c] => if (code c =? 47)%N then [] else [c]
  | c :: s' => c :: strip_trailing_slash s'
  end.

(** [s.replace(/^\//, ...)] with the empty replacement. *)
Definition strip_leading_slash (s : str) : str :=
  match s with
  | c :: s' => if (code c =? 47)%N then s' else s
  | [] => []
  end.

Definition buildUrl (rt : Runtime) (baseUrl pathTmpl : str) (qp : list (str * option str))
  : option str :=
  URL_href rt
    (strip_trailing_slash baseUrl ++ lit "/" ++ strip_leading_slash pathTmpl)
    (omap (fun kv => match kv.2 with Some v => Some (kv.1, v) | None => None end) qp).

(** ** Numbers *)

Definition is_2xx (status : nat) : bool := (200 <=? status)%nat && (status <? 300)%nat.

(** [x.toFixed(d)], the decimal the string denotes: the multiple of
    [10^-d] nearest to the number, the larger one in magnitude on a tie. *)
Definition toFixed (d : nat) (x : Q) : Q :=
  let nearest (y : Q) : Q :=
    (inject_Z (Qfloor (y * inject_Z (10 ^ Z.of_nat d) + (1 # 2)))
     / inject_Z (10 ^ Z.of_nat d))%Q in
  if Qle_bool 0 x then nearest x else (- nearest (- x))%Q.

(** [Number(s)] for a decimal string [s]: the nearest binary64 value. *)
Definition Number (decimal : Q) : Q := round64 decimal.

Definition Qge_bool (x y : Q) : bool := Qle_bool y x.

(** ** Identifier extraction (route.ts, lines 177-178) *)

(** [/\x22id\x22\s*:\s*\x22?(\w+)\x22?/i] tried at the head of the input;
    the answer is the first capture group.  The optional quote is taken when
    present: without it [\w+] would face the quote and fail. *)
Definition id_at (s : str) : option str :=
  match s with
  | q :: s1 =>
      if is_dquote q && prefix_ci (lit "id") s1 then
        match drop 2 s1 with
        | q2 :: s2 =>
            if is_dquote q2 then
              let s3 := drop (length (span is_space s2)) s2 in
              match s3 with
              | c :: s4 =>
                  if (code c =? 58)%N then
                    let s5 := drop (length (span is_space s4)) s4 in
                    let s6 := match s5 with
                              | q3 :: s6 => if is_dquote q3 then s6 else s5
                              | [] => s5
                              end in
                    match span is_word s6 with
                    | [] => None
                    | (_ :: _) as w => Some w
                    end
                  else None
              | [] => None
              end
            else None
        | [] => None
        end
      else None
  | [] => None
  end.

(** [text.match(re)?.[1]]: the capture of the leftmost match. *)
Fixpoint match_id (s : str) : option str :=
  match id_at s with
  | Some w => Some w
  | None => match s with [] => None | _ :: s' => match_id s' end
  end.

Fixpoint starts_with (needle hay : str) : bool :=
  match needle, hay with
  | [], _ => true
  | a :: n', b :: h' => bool_decide (a = b) && starts_with n' h'
  | _ :: _, [] => false
  end.

(** [hay.includes(needle)] *)
Fixpoint includes (hay needle : str) : bool :=
  starts_with needle hay
  || match hay with [] => false | _ :: h' => includes h' needle end.

(** ** Findings *)

Inductive method : Type := GET | M_POST | PUT | PATCH | DELETE.

Inductive attack_vector : Type :=
| AttackerViaUrlId      (* Attacker requests victim's resource via URL id *)
| UnauthenticatedVector (* Unauthenticated requests victim's resource *).

(** The evidence strings, by their content: the similarity percentage
    printed with one decimal, or the leaked identifier. *)
Inductive evidence : Type :=
| SimilarityVictimAttacker (percent : Q)
| VictimIdPresent (id : str)
| SimilarityVictimUnauth (percent : Q).

Record Finding : Type := {
  f_id : str;
  f_endpoint : str;
  f_method : method;
  f_attackVector : attack_vector;
  f_statusVictim : nat;
  f_statusAttacker : nat;
  f_confidence : Q;
  f_evidence : list evidence
}.

(** ** Attacker-vector scoring (route.ts, lines 159-190) *)

Record scoring : Type := { score : Q; evid : list evidence }.

(** Lines 165-171: the base score from the attacker status, starting from
    [score = 0]. *)
Definition base_scoring (sim : Q) (attackerStatus : nat) : scoring :=
  if is_2xx attackerStatus then
    {| score := f64_add (f64_add 0 (round64 0.6))
                  (Qmin (round64 0.4) (f64_mul sim (round64 0.4)));
       evid := [SimilarityVictimAttacker (toFixed 1 (f64_mul sim 100))] |}
  else if (attackerStatus =? 401)%nat || (attackerStatus =? 403)%nat then
    {| score := f64_add 0 (round64 0.05); evid := [] |}
  else {| score := 0%Q; evid := [] |}.

(** Lines 174-187: the identifier refinement.  A [JSON.parse] that throws
    leaves the score as it was. *)
Definition id_refinement (rt : Runtime) (baselineText attackerText : str)
    (attackerId : option str) (s : scoring) : scoring :=
  match JSON_parse rt baselineText, JSON_parse rt attackerText with
  | Some maybeJsonVictim, Some maybeJsonAtk =>
      let vIdStr := match_id (JSON_stringify rt maybeJsonVictim) in
      let aIdStr := match_id (JSON_stringify rt maybeJsonAtk) in
      let s1 :=
        match vIdStr, aIdStr with
        | Some v, Some _ =>
            if bool_decide (Some v = attackerId)
            then {| score := f64_sub (score s) (round64 0.1); evid := evid s |}
            else s
        | _, _ => s
        end in
      match vIdStr with
      | Some v =>
          if includes (JSON_stringify rt maybeJsonAtk) v
          then {| score := f64_add (score s1) (round64 0.15);
                  evid := evid s1 ++ [VictimIdPresent v] |}
          else s1
      | None => s1
      end
  | _, _ => s
  end.

(** Lines 159-190: the score before the threshold test, clamped to [0, 1]. *)
Definition attacker_scoring (rt : Runtime) (baselineStatus : nat) (baselineText : str)
    (attackerStatus : nat) (attackerText : str) (attackerId : option str) : scoring :=
  let s :=
    if is_2xx baselineStatus then
      let sim := similarity64 baselineText attackerText in
      id_refinement rt baselineText attackerText attackerId
        (base_scoring sim attackerStatus)
    else {| score := 0%Q; evid := [] |} in
  {| score := Qmax 0 (Qmin 1 (score s)); evid := evid s |}.

(** Line 212: the score of the unauthenticated vector. *)
Definition unauth_score (baselineText textUnauth : str) : Q :=
  f64_add (round64 0.65)
    (Qmin (round64 0.35) (f64_mul (similarity64 baselineText textUnauth) (round64 0.35))).

(** ** Requests, responses and header objects *)

Definition header_list := list (str * str).

Record Request : Type := {
  r_url : str;
  r_method : method;
  r_headers : option header_list;   (* [None]: the init carries no headers *)
  r_timeoutMs : Q
}.

(** How one [timedFetch] followed by [text()] ends: the fetch rejects (a
    network error, or the abort at the timeout), the fetch resolves and
    reading the body rejects, or both resolve. *)
Inductive outcome : Type :=
| FetchFailed
| BodyFailed (status : nat)
| Responded (status : nat) (text : str).

(** A header name is an HTTP token. *)
Definition is_tchar (c : ascii) : bool :=
  is_lower c || is_upper c || is_digit c
  || existsb (fun d => bool_decide (c = d)) (lit "!#$%&'*+-.^_`|~").

Definition valid_header_name (k : str) : bool := truthy k && forallb is_tchar k.

Definition is_http_space (c : ascii) : bool :=
  (code c =? 9)%N || (code c =? 10)%N || (code c =? 13)%N || (code c =? 32)%N.

Definition strip_http_space (v : str) : str :=
  let v1 := drop (length (span is_http_space v)) v in
  rev (drop (length (span is_http_space (rev v1))) (rev v1)).

Definition valid_header_value (v : str) : bool :=
  forallb (fun c => negb ((code c =? 0)%N || (code c =? 10)%N || (code c =? 13)%N)) v.

(** [Headers.prototype.append]; [None] is the [TypeError] of an invalid name
    or value.  Names are kept in lower case. *)
Definition Headers_append (h : header_list) (k v : str) : option header_list :=
  let v' := strip_http_space v in
  if valid_header_name k && valid_header_value v'
  then Some (h ++ [(toLowerCase k, v')]) else None.

(** [new Headers(record)] *)
Fixpoint Headers_fill (h : header_list) (init : header_list) : option header_list :=
  match init with
  | [] => Some h
  | (k, v) :: init' =>
      match Headers_append h k v with
      | Some h' => Headers_fill h' init'
      | None => None
      end
  end.

Definition Headers_new (init : header_list) : option header_list := Headers_fill [] init.

Fixpoint replace_header (k v : str) (h : header_list) : header_list :=
  match h with
  | [] => []
  | (k', v') :: h' =>
      if bool_decide (k' = k)
      then (k, v) :: List.filter (fun kv => negb (bool_decide (kv.1 = k))) h'
      else (k', v') :: replace_header k v h'
  end.

(** [Headers.prototype.set] *)
Definition Headers_set (h : header_list) (k v : str) : option header_list :=
  let v' := strip_http_space v in
  let k' := toLowerCase k in
  if valid_header_name k && valid_header_value v' then
    Some (if existsb (fun kv => bool_decide (kv.1 = k')) h
          then replace_header k' v' h else h ++ [(k', v')])
  else None.

(** [parts.join(sep)] *)
Fixpoint join (sep : str) (parts : list str) : str :=
  match parts with
  | [] => []
  | [p] => p
  | p :: ps => p ++ sep ++ join sep ps
  end.

(** buildInit (route.ts, lines 108-115); the answer is the header object of
    the init, [None] when a header operation throws. *)
Definition buildInit (headers cookies : option header_list) : option header_list :=
  h ← Headers_new (default [] headers);
  match cookies with
  | Some ((_ :: _) as cs) =>
      let cookieStr := join (lit "; ") (map (fun kv => kv.1 ++ lit "=" ++ kv.2) cs) in
      Headers_set h (lit "cookie") cookieStr
  | _ => Some h
  end.

(** ** The scan configuration (the output type of the schema) *)

Record PathParam : Type := { pp_name : str; pp_samples : list str }.

Record Endpoint : Type := {
  ep_method : method;
  ep_pathTemplate : str;
  ep_pathParams : list PathParam;
  ep_queryParams : option (list PathParam);
  ep_bodyTemplate : option json
}.

Record AuthCtx : Type := {
  ac_headers : option header_list;
  ac_cookies : option header_list
}.

Record AuthContexts : Type := {
  victim : AuthCtx;
  attacker : option AuthCtx;
  unauthenticated : option bool
}.

Record ScanRequest : Type := {
  baseUrl : str;
  endpoints : list Endpoint;
  authContexts : AuthContexts;
  speedGateThreshold : Q;
  maxConcurrency : Q;
  timeoutMs : Q
}.

(** ** Asynchronous jobs

    A job is the body of an [async] function: it settles ([Done], [Thrown]),
    suspends on a request until the platform supplies its outcome ([Await]),
    or acts on the state shared by the scan without suspending: drawing an
    identifier ([Uuid]) and [findings.push] ([Push]). *)

Inductive task (A : Type) : Type :=
| Done (a : A)
| Thrown (e : exn)
| Await (r : Request) (k : outcome -> task A)
| Uuid (k : str -> task A)
| Push (f : Finding) (k : task A).

Arguments Done {A} a.
Arguments Thrown {A} e.
Arguments Await {A} r k.
Arguments Uuid {A} k.
Arguments Push {A} f k.

(** [if (b) findings.push({ id: uuidv4(), ... })] *)
Definition push_if {A} (b : bool) (mk : str -> Finding) (k : task A) : task A :=
  if b then Uuid (fun id => Push (mk id) k) else k.

(** The three requests of a probe: the victim's, the attacker's on the same
    path, and the one without identity. *)
Definition victim_request (cfg : ScanRequest) (ep : Endpoint) (urlVictim : str)
    (victimInit : header_list) : Request :=
  {| r_url := urlVictim; r_method := ep_method ep;
     r_headers := Some victimInit; r_timeoutMs := timeoutMs cfg |}.

Definition attacker_request (cfg : ScanRequest) (ep : Endpoint) (urlAttackVictim : str)
    (attackerInit : option header_list) : Request :=
  {| r_url := urlAttackVictim; r_method := ep_method ep;
     r_headers := attackerInit; r_timeoutMs := timeoutMs cfg |}.

Definition unauth_request (cfg : ScanRequest) (ep : Endpoint) (urlVictim : str) : Request :=
  {| r_url := urlVictim; r_method := ep_method ep;
     r_headers := None; r_timeoutMs := timeoutMs cfg |}.

(** Lines 215-224. *)
Definition unauth_finding (ep : Endpoint) (pathVictim : str) (baselineStatus : nat)
    (baselineText : str) (status : nat) (textUnauth : str) (id : str) : Finding :=
  {| f_id := id; f_endpoint := pathVictim; f_method := ep_method ep;
     f_attackVector := UnauthenticatedVector;
     f_statusVictim := baselineStatus; f_statusAttacker := status;
     f_confidence := Number (toFixed 3 (unauth_score baselineText textUnauth));
     f_evidence :=
       [SimilarityVictimUnauth
          (toFixed 1 (f64_mul (similarity64 baselineText textUnauth) 100))] |}.

(** Lines 209-226: after the unauthenticated request. *)
Definition after_unauth (cfg : ScanRequest) (ep : Endpoint) (pathVictim : str)
    (baselineStatus : nat) (baselineText : str) (o : outcome) : task unit :=
  match o with
  | Responded status textUnauth =>
      if is_2xx status then
        push_if (Qge_bool (unauth_score baselineText textUnauth) (speedGateThreshold cfg))
          (unauth_finding ep pathVictim baselineStatus baselineText status textUnauth)
          (Done tt)
      else Done tt
  | _ => Done tt
  end.

(** Lines 205-228: the optional unauthenticated attempt. *)
Definition unauth_probe (cfg : ScanRequest) (ep : Endpoint) (pathVictim urlVictim : str)
    (baselineStatus : nat) (baselineText : str) : task unit :=
  match unauthenticated (authContexts cfg) with
  | Some true =>
      Await (unauth_request cfg ep urlVictim)
        (after_unauth cfg ep pathVictim baselineStatus baselineText)
  | _ => Done tt
  end.

(** What the attacker request leaves in [attackerStatus] and
    [attackerText] (lines 149-157). *)
Definition attacker_observed (o : outcome) : nat * str :=
  match o with
  | FetchFailed => (0%nat, [])
  | BodyFailed status => (status, [])
  | Responded status text => (status, text)
  end.

(** Lines 193-202. *)
Definition attacker_finding (ep : Endpoint) (pathVictim : str) (baselineStatus : nat)
    (attackerStatus : nat) (sc : scoring) (id : str) : Finding :=
  {| f_id := id; f_endpoint := pathVictim; f_method := ep_method ep;
     f_attackVector := AttackerViaUrlId;
     f_statusVictim := baselineStatus; f_statusAttacker := attackerStatus;
     f_confidence := Number (toFixed 3 (score sc));
     f_evidence := evid sc |}.

(** Lines 159-228: after the attacker request. *)
Definition after_attacker (rt : Runtime) (cfg : ScanRequest) (ep : Endpoint)
    (attackerId : option str) (pathVictim urlVictim : str)
    (baselineStatus : nat) (baselineText : str) (oa : outcome) : task unit :=
  let sc := attacker_scoring rt baselineStatus baselineText
              (attacker_observed oa).1 (attacker_observed oa).2 attackerId in
  push_if (Qge_bool (score sc) (speedGateThreshold cfg))
    (attacker_finding ep pathVictim baselineStatus (attacker_observed oa).1 sc)
    (unauth_probe cfg ep pathVictim urlVictim baselineStatus baselineText).

(** Line 147: the init of the attacker request; [None] when [buildInit]
    throws, [Some None] for the empty init. *)
Definition attacker_init (cfg : ScanRequest) : option (option header_list) :=
  match attacker (authContexts cfg) with
  | Some a => Some <$> buildInit (ac_headers a) (ac_cookies a)
  | None => Some None
  end.

(** Lines 139-157: after the baseline request. *)
Definition after_baseline (rt : Runtime) (cfg : ScanRequest) (ep : Endpoint)
    (attackerId : option str) (pathVictim urlVictim : str) (o : outcome) : task unit :=
  match o with
  | Responded baselineStatus baselineText =>
      match buildUrl rt (baseUrl cfg) pathVictim [] with
      | None => Thrown TypeError
      | Some urlAttackVictim =>
          match attacker_init cfg with
          | None => Thrown TypeError
          | Some attackerInit =>
              Await (attacker_request cfg ep urlAttackVictim attackerInit)
                (after_attacker rt cfg ep attackerId pathVictim urlVictim
                   baselineStatus baselineText)
          end
      end
  | _ => Done tt   (* baseline failed; skip this endpoint *)
  end.

(** Lines 132-229: the job pushed for one endpoint. *)
Definition probe (rt : Runtime) (cfg : ScanRequest) (ep : Endpoint)
    (attackerId : option str) (pathVictim urlVictim : str) (victimInit : header_list)
  : task unit :=
  Await (victim_request cfg ep urlVictim victimInit)
    (after_baseline rt cfg ep attackerId pathVictim urlVictim).

(** Lines 117-130 for one endpoint: [None] when the endpoint is skipped (no
    path parameter), [Some None] when building its job throws. *)
Definition endpoint_job (rt : Runtime) (cfg : ScanRequest) (ep : Endpoint)
  : option (option (task unit)) :=
  match ep_pathParams ep with
  | [] => None
  | primaryParam :: _ =>
      let victimId := pp_samples primaryParam !! 0%nat in
      let attackerId :=
        match pp_samples primaryParam !! 1%nat with
        | Some a => Some a
        | None => pp_samples primaryParam !! 0%nat
        end in
      let pathVictim :=
        applyTemplate rt (ep_pathTemplate ep) [(pp_name primaryParam, victimId)] in
      Some (urlVictim ← buildUrl rt (baseUrl cfg) pathVictim [];
            victimInit ← buildInit (ac_headers (victim (authContexts cfg)))
                                   (ac_cookies (victim (authContexts cfg)));
            Some (probe rt cfg ep attackerId pathVictim urlVictim victimInit))
  end.

(** The loop of lines 117-230: the jobs in endpoint order, [None] when one
    iteration throws. *)
Fixpoint build_tasks (rt : Runtime) (cfg : ScanRequest) (eps : list Endpoint)
  : option (list (task unit)) :=
  match eps with
  | [] => Some []
  | ep :: eps' =>
      match endpoint_job rt cfg ep with
      | None => build_tasks rt cfg eps'
      | Some None => None
      | Some (Some job) => cons job <$> build_tasks rt cfg eps'
      end
  end.

(** ** runWithConcurrency (route.ts, lines 232-247)

    The state of the pool between two turns of the event loop.  A runner is
    suspended on the promise of its current job, or has left its loop.  The
    log is a ghost record of what each job did, for the statements below. *)

Inductive jev (A : Type) : Type :=
| JStart
| JFetch (r : Request) (o : outcome)
| JUuid (id : str)
| JPush (f : Finding)
| JSettle (res : option A).

Arguments JStart {A}.
Arguments JFetch {A} r o.
Arguments JUuid {A} id.
Arguments JPush {A} f.
Arguments JSettle {A} res.

Inductive runner (A : Type) : Type :=
| Busy (job : nat) (t : task A)
| Finished.

Arguments Busy {A} job t.
Arguments Finished {A}.

Record pool (A : Type) : Type := {
  p_idx : nat;
  p_out : list A;
  p_runners : list (runner A);
  p_findings : list Finding;
  p_nuuid : nat;
  p_log : list (nat * jev A)
}.

Arguments p_idx {A} p.
Arguments p_out {A} p.
Arguments p_runners {A} p.
Arguments p_findings {A} p.
Arguments p_nuuid {A} p.
Arguments p_log {A} p.

Section Pool.
Context {A : Type} (rt : Runtime) (jobs : list (task A)).

Definition log_event (i : nat) (e : jev A) (p : pool A) : pool A :=
  {| p_idx := p_idx p; p_out := p_out p; p_runners := p_runners p;
     p_findings := p_findings p; p_nuuid := p_nuuid p;
     p_log := p_log p ++ [(i, e)] |}.

Definition set_runner (r : nat) (x : runner A) (p : pool A) : pool A :=
  {| p_idx := p_idx p; p_out := p_out p; p_runners := <[r := x]> (p_runners p);
     p_findings := p_findings p; p_nuuid := p_nuuid p; p_log := p_log p |}.

(** The synchronous stretch of job [i] up to its next suspension or its
    end. *)
Fixpoint advance (i : nat) (t : task A) (p : pool A) : task A * pool A :=
  match t with
  | Push f k =>
      advance i k
        (log_event i (JPush f)
           {| p_idx := p_idx p; p_out := p_out p; p_runners := p_runners p;
              p_findings := p_findings p ++ [f]; p_nuuid := p_nuuid p;
              p_log := p_log p |})
  | Uuid k =>
      let id := uuidv4 rt (p_nuuid p) in
      advance i (k id)
        (log_event i (JUuid id)
           {| p_idx := p_idx p; p_out := p_out p; p_runners := p_runners p;
              p_findings := p_findings p; p_nuuid := S (p_nuuid p);
              p_log := p_log p |})
  | _ => (t, p)
  end.

(** The head of the runner's loop: [while (idx < jobs.length)], then
    [current = idx++] and the call of the job, which runs to its first
    suspension.  The answer is what the runner does next. *)
Definition loop_head (p : pool A) : runner A * pool A :=
  match jobs !! p_idx p with
  | Some t =>
      let current := p_idx p in
      let '(t', p') :=
        advance current t
          (log_event current JStart
             {| p_idx := S (p_idx p); p_out := p_out p; p_runners := p_runners p;
                p_findings := p_findings p; p_nuuid := p_nuuid p;
                p_log := p_log p |}) in
      (Busy current t', p')
  | None => (Finished, p)
  end.

Definition next_job (r : nat) (p : pool A) : pool A :=
  let '(x, p') := loop_head p in set_runner r x p'.

(** [map(async () => ...)] calls one more runner, which runs to its first
    suspension. *)
Definition spawn (p : pool A) : pool A :=
  let '(x, p') := loop_head p in
  {| p_idx := p_idx p'; p_out := p_out p'; p_runners := p_runners p' ++ [x];
     p_findings := p_findings p'; p_nuuid := p_nuuid p'; p_log := p_log p' |}.

(** One turn: runner [r] is resumed.  If its job is suspended on a request
    the turn delivers the outcome [o] and runs the job to its next
    suspension; if the job has settled, the runner collects the result
    ([out.push(res)] or the empty [catch]) and goes round its loop. *)
Definition pool_step (c : nat * outcome) (p : pool A) : option (pool A) :=
  let '(r, o) := c in
  match p_runners p !! r with
  | Some (Busy i (Await q k)) =>
      let '(t', p') := advance i (k o) (log_event i (JFetch q o) p) in
      Some (set_runner r (Busy i t') p')
  | Some (Busy i (Done a)) =>
      Some (next_job r
              (log_event i (JSettle (Some a))
                 {| p_idx := p_idx p; p_out := p_out p ++ [a];
                    p_runners := p_runners p; p_findings := p_findings p;
                    p_nuuid := p_nuuid p; p_log := p_log p |}))
  | Some (Busy i (Thrown _)) =>
      Some (next_job r (log_event i (JSettle None) p))
  | _ => None
  end.

Fixpoint pool_exec (script : list (nat * outcome)) (p : pool A) : option (pool A) :=
  match script with
  | [] => Some p
  | c :: script' =>
      match pool_step c p with
      | Some p' => pool_exec script' p'
      | None => None
      end
  end.

Definition runner_finished (x : runner A) : bool :=
  match x with Finished => true | Busy _ _ => false end.

(** [Promise.all(runners)] resolves when every runner has left its loop. *)
Definition terminal (p : pool A) : bool := forallb runner_finished (p_runners p).

(** The runners are created and started one after the other. *)
Definition pool_init (width : nat) (findings : list Finding) : pool A :=
  Nat.iter width spawn
    {| p_idx := 0; p_out := []; p_runners := [];
       p_findings := findings; p_nuuid := 0; p_log := [] |}.

(** What a job does between two of its states: the requests it makes
    with their outcomes, the identifiers it draws, the findings it
    pushes. *)
Inductive job_trace : task A -> list (jev A) -> task A -> Prop :=
| jt_stop t : job_trace t [] t
| jt_fetch q k o evs t' :
    job_trace (k o) evs t' -> job_trace (Await q k) (JFetch q o :: evs) t'
| jt_uuid k id evs t' :
    job_trace (k id) evs t' -> job_trace (Uuid k) (JUuid id :: evs) t'
| jt_push f k evs t' :
    job_trace k evs t' -> job_trace (Push f k) (JPush f :: evs) t'.

(** The events of job [i] in a log. *)
Definition events_of (i : nat) (log : list (nat * jev A)) : list (jev A) :=
  omap (fun e => if bool_decide (e.1 = i) then Some e.2 else None) log.

Definition pushes (log : list (nat * jev A)) : list Finding :=
  omap (fun e => match e.2 with JPush f => Some f | _ => None end) log.

Definition starts (log : list (nat * jev A)) : list nat :=
  omap (fun e => match e.2 with JStart => Some e.1 | _ => None end) log.

Definition successes (log : list (nat * jev A)) : list A :=
  omap (fun e => match e.2 with JSettle (Some a) => Some a | _ => None end) log.

(** How a settled job ended. *)
Definition settled_as (t : task A) (res : option A) : Prop :=
  match t with
  | Done a => res = Some a
  | Thrown _ => res = None
  | _ => False
  end.
End Pool.

Arguments job_trace {A} t evs t'.
Arguments events_of {A} i log.
Arguments pushes {A} log.
Arguments starts {A} log.
Arguments successes {A} log.
Arguments settled_as {A} t res.

(** [new Array(n)] needs an integer below 2^32, else a [RangeError]. *)
Definition array_length (n : Q) : option nat :=
  if Qeq_bool n (inject_Z (Qfloor n)) && (0 <=? Qfloor n)%Z && (Qfloor n <? 2 ^ 32)%Z
  then Some (Z.to_nat (Qfloor n)) else None.

Inductive run (A : Type) : Type :=
| Returned (p : pool A)     (* the promise resolved; [p_out p] is its value *)
| Threw (e : exn)
| Unfinished.               (* the script does not describe a whole run *)

Arguments Returned {A} p.
Arguments Threw {A} e.
Arguments Unfinished {A}.

(** A run of [runWithConcurrency(jobs, max)] under a script: the sequence of
    turns the event loop takes, each naming the runner resumed and the
    outcome delivered to its job. *)
Definition runWithConcurrency {A} (rt : Runtime) (jobs : list (task A)) (max : Q)
    (findings : list Finding) (script : list (nat * outcome)) : run A :=
  match array_length (Qmin max (Q_of_nat (length jobs))) with
  | None => Threw RangeError
  | Some width =>
      match pool_exec rt jobs script (pool_init rt jobs width findings) with
      | Some p => if terminal p then Returned p else Unfinished
      | None => Unfinished
      end
  end.

(** ** The request schema (route.ts, lines 8-29)

    [zod] is a dependency; its combinators are modelled by what they accept
    and by the issues they report.  A parser receives the path of the value
    and the value, [None] standing for [undefined] (an absent key).  An
    object schema parses all of its keys and reports the issues of all of
    them. *)

Inductive path_elem : Type := Key (k : str) | Index (n : nat).

Inductive issue_code : Type :=
| Required | InvalidType | InvalidEnumValue | InvalidUrl
| TooSmall | TooBig | InvalidUnion.

Record issue : Type := { i_path : list path_elem; i_code : issue_code }.

Inductive parsed (A : Type) : Type :=
| Valid (a : A)
| Invalid (issues : list issue).

Arguments Valid {A} a.
Arguments Invalid {A} issues.

Definition issues_of {A} (x : parsed A) : list issue :=
  match x with Valid _ => [] | Invalid l => l end.

Definition zparser (A : Type) : Type := list path_elem -> option json -> parsed A.

Definition zmap {A B} (f : A -> B) (x : parsed A) : parsed B :=
  match x with Valid a => Valid (f a) | Invalid l => Invalid l end.

(** Two keys of one object: both are parsed, the issues are concatenated. *)
Definition both {A B} (x : parsed A) (y : parsed B) : parsed (A * B) :=
  match x, y with
  | Valid a, Valid b => Valid (a, b)
  | _, _ => Invalid (issues_of x ++ issues_of y)
  end.

Fixpoint all_valid {A} (xs : list (parsed A)) : parsed (list A) :=
  match xs with
  | [] => Valid []
  | x :: xs' => zmap (fun p => p.1 :: p.2) (both x (all_valid xs'))
  end.

Definition wrong_type {A} (path : list path_elem) (v : option json) : parsed A :=
  Invalid [{| i_path := path;
              i_code := match v with None => Required | Some _ => InvalidType end |}].

Definition z_string : zparser str := fun path v =>
  match v with Some (JStr s) => Valid s | _ => wrong_type path v end.

(** [z.string().url()]: the check is [new URL(data)] not throwing. *)
Definition z_url (rt : Runtime) : zparser str := fun path v =>
  match v with
  | Some (JStr s) =>
      match URL_href rt s [] with
      | Some _ => Valid s
      | None => Invalid [{| i_path := path; i_code := InvalidUrl |}]
      end
  | _ => wrong_type path v
  end.

Definition z_boolean : zparser bool := fun path v =>
  match v with Some (JBool b) => Valid b | _ => wrong_type path v end.

(** [z.number().min(lo).max(hi)] *)
Definition z_number_range (lo hi : Q) : zparser Q := fun path v =>
  match v with
  | Some (JNum q) =>
      match (if Qle_bool lo q then [] else [{| i_path := path; i_code := TooSmall |}])
            ++ (if Qle_bool q hi then [] else [{| i_path := path; i_code := TooBig |}])
      with
      | [] => Valid q
      | l => Invalid l
      end
  | _ => wrong_type path v
  end.

Definition z_optional {A} (p : zparser A) : zparser (option A) := fun path v =>
  match v with None => Valid None | Some _ => zmap Some (p path v) end.

Definition z_default {A} (d : A) (p : zparser A) : zparser A := fun path v =>
  match v with None => Valid d | Some _ => p path v end.

(** [z.array(elem).min(n)] *)
Definition z_array {A} (elem : zparser A) (n : nat) : zparser (list A) := fun path v =>
  match v with
  | Some (JArr items) =>
      let small :=
        if (length items <? n)%nat then [{| i_path := path; i_code := TooSmall |}] else [] in
      let parsed_items :=
        all_valid (imap (fun i x => elem (path ++ [Index i]) (Some x)) items) in
      match small, parsed_items with
      | [], Valid l => Valid l
      | _, _ => Invalid (small ++ issues_of parsed_items)
      end
  | _ => wrong_type path v
  end.

Definition get_field (k : str) (fields : list (str * json)) : option json :=
  snd <$> List.find (fun kv => bool_decide (kv.1 = k)) fields.

(** [z.record(z.string())] *)
Definition z_record_string : zparser header_list := fun path v =>
  match v with
  | Some (JObj fields) =>
      all_valid (map (fun kv => zmap (pair kv.1) (z_string (path ++ [Key kv.1]) (Some kv.2)))
                     fields)
  | _ => wrong_type path v
  end.

Definition HeaderSchema : zparser (option header_list) := z_optional z_record_string.

Definition z_method : zparser method := fun path v =>
  match v with
  | Some (JStr s) =>
      if bool_decide (s = lit "GET") then Valid GET
      else if bool_decide (s = lit "POST") then Valid M_POST
      else if bool_decide (s = lit "PUT") then Valid PUT
      else if bool_decide (s = lit "PATCH") then Valid PATCH
      else if bool_decide (s = lit "DELETE") then Valid DELETE
      else Invalid [{| i_path := path; i_code := InvalidEnumValue |}]
  | _ => wrong_type path v
  end.

(** [z.object({ name: z.string(), samples: z.array(z.string()).min(1) })] *)
Definition ParamSchema : zparser PathParam := fun path v =>
  match v with
  | Some (JObj fields) =>
      zmap (fun p => {| pp_name := p.1; pp_samples := p.2 |})
        (both (z_string (path ++ [Key (lit "name")]) (get_field (lit "name") fields))
              (z_array z_string 1 (path ++ [Key (lit "samples")])
                 (get_field (lit "samples") fields)))
  | _ => wrong_type path v
  end.

(** [z.union([z.string(), z.record(z.any())])] *)
Definition z_body_template : zparser json := fun path v =>
  match v with
  | Some (JStr s) => Valid (JStr s)
  | Some (JObj fields) => Valid (JObj fields)
  | _ => Invalid [{| i_path := path; i_code := InvalidUnion |}]
  end.

Definition EndpointSchema : zparser Endpoint := fun path v =>
  match v with
  | Some (JObj fields) =>
      let at_key k := path ++ [Key (lit k)] in
      let field k := get_field (lit k) fields in
      zmap (fun p =>
              let '(m, t, pp, qp, bt) := p in
              {| ep_method := m; ep_pathTemplate := t; ep_pathParams := pp;
                 ep_queryParams := qp; ep_bodyTemplate := bt |})
        (both (both (both (both
           (z_default GET z_method (at_key "method") (field "method"))
           (z_string (at_key "pathTemplate") (field "pathTemplate")))
           (z_default [] (z_array ParamSchema 0) (at_key "pathParams") (field "pathParams")))
           (z_optional (z_array ParamSchema 0) (at_key "queryParams") (field "queryParams")))
           (z_optional z_body_template (at_key "bodyTemplate") (field "bodyTemplate")))
  | _ => wrong_type path v
  end.

(** [z.object({ headers: HeaderSchema, cookies: HeaderSchema }).partial()] *)
Definition AuthCtxSchema : zparser AuthCtx := fun path v =>
  match v with
  | Some (JObj fields) =>
      zmap (fun p => {| ac_headers := p.1; ac_cookies := p.2 |})
        (both (HeaderSchema (path ++ [Key (lit "headers")]) (get_field (lit "headers") fields))
              (HeaderSchema (path ++ [Key (lit "cookies")]) (get_field (lit "cookies") fields)))
  | _ => wrong_type path v
  end.

Definition AuthContextsSchema : zparser AuthContexts := fun path v =>
  match v with
  | Some (JObj fields) =>
      zmap (fun p =>
              let '(vi, atk, un) := p in
              {| victim := vi; attacker := atk; unauthenticated := un |})
        (both (both
           (AuthCtxSchema (path ++ [Key (lit "victim")]) (get_field (lit "victim") fields))
           (z_optional AuthCtxSchema (path ++ [Key (lit "attacker")])
              (get_field (lit "attacker") fields)))
           (z_optional z_boolean (path ++ [Key (lit "unauthenticated")])
              (get_field (lit "unauthenticated") fields)))
  | _ => wrong_type path v
  end.

(** The six keys of [ScanRequestSchema], in the order of the source. *)
Inductive top_field : Type :=
| F_baseUrl | F_endpoints | F_authContexts
| F_speedGateThreshold | F_maxConcurrency | F_timeoutMs.

Definition field_name (f : top_field) : str :=
  match f with
  | F_baseUrl => lit "baseUrl"
  | F_endpoints => lit "endpoints"
  | F_authContexts => lit "authContexts"
  | F_speedGateThreshold => lit "speedGateThreshold"
  | F_maxConcurrency => lit "maxConcurrency"
  | F_timeoutMs => lit "timeoutMs"
  end.

Definition baseUrl_schema (rt : Runtime) := z_url rt.
Definition endpoints_schema := z_array EndpointSchema 1.
Definition speedGateThreshold_schema := z_default 0.8%Q (z_number_range 0 1).
Definition maxConcurrency_schema := z_default 5%Q (z_number_range 1 12).
Definition timeoutMs_schema := z_default 8000%Q (z_number_range 1000 60000).

Definition ScanRequestSchema (rt : Runtime) : zparser ScanRequest := fun path v =>
  match v with
  | Some (JObj fields) =>
      let at_key f := path ++ [Key (field_name f)] in
      let field f := get_field (field_name f) fields in
      zmap (fun p =>
              let '(b, e, a, s, m, t) := p in
              {| baseUrl := b; endpoints := e; authContexts := a;
                 speedGateThreshold := s; maxConcurrency := m; timeoutMs := t |})
        (both (both (both (both (both
           (baseUrl_schema rt (at_key F_baseUrl) (field F_baseUrl))
           (endpoints_schema (at_key F_endpoints) (field F_endpoints)))
           (AuthContextsSchema (at_key F_authContexts) (field F_authContexts)))
           (speedGateThreshold_schema (at_key F_speedGateThreshold) (field F_speedGateThreshold)))
           (maxConcurrency_schema (at_key F_maxConcurrency) (field F_maxConcurrency)))
           (timeoutMs_schema (at_key F_timeoutMs) (field F_timeoutMs)))
  | _ => wrong_type path v
  end.

Definition safeParse (rt : Runtime) (body : json) : parsed ScanRequest :=
  ScanRequestSchema rt [] (Some body).

(** [error.flatten()]: the messages of the issues with an empty path, and
    the messages of the others grouped under the first element of their
    path. *)
Record flattened : Type := {
  formErrors : list issue_code;
  fieldErrors : list (path_elem * list issue_code)
}.

Global Instance path_elem_eq_dec : EqDecision path_elem.
Proof. solve_decision. Defined.

Fixpoint add_field_error (k : path_elem) (c : issue_code)
    (fe : list (path_elem * list issue_code)) : list (path_elem * list issue_code) :=
  match fe with
  | [] => [(k, [c])]
  | (k', cs) :: fe' =>
      if bool_decide (k' = k) then (k', cs ++ [c]) :: fe'
      else (k', cs) :: add_field_error k c fe'
  end.

Definition flatten (issues : list issue) : flattened :=
  fold_left
    (fun acc i =>
       match i_path i with
       | [] => {| formErrors := formErrors acc ++ [i_code i];
                  fieldErrors := fieldErrors acc |}
       | k :: _ => {| formErrors := formErrors acc;
                      fieldErrors := add_field_error k (i_code i) (fieldErrors acc) |}
       end)
    issues {| formErrors := []; fieldErrors := [] |}.

(** ** POST (route.ts, lines 98-252) *)

Inductive response_body : Type :=
| ErrorBody (error : flattened)
| FindingsBody (findings : list Finding).

Inductive http_result : Type :=
| Response (status : nat) (body : response_body)
| Uncaught (e : exn)      (* the handler's promise rejects *)
| Incomplete.             (* the script does not describe a whole run *)

(** What a call of the handler amounts to: its result, and the record of
    what its jobs did. *)
Record served : Type := {
  result : http_result;
  trace : list (nat * jev unit)
}.

(** The handler, on the body of the request ([None] when [req.json()]
    rejects) and under a script of turns for the pool. *)
Definition POST (rt : Runtime) (body : option json) (script : list (nat * outcome)) : served :=
  match body with
  | None => {| result := Uncaught SyntaxError; trace := [] |}
  | Some b =>
      match safeParse rt b with
      | Invalid issues =>
          {| result := Response 400 (ErrorBody (flatten issues)); trace := [] |}
      | Valid cfg =>
          match build_tasks rt cfg (endpoints cfg) with
          | None => {| result := Uncaught TypeError; trace := [] |}
          | Some tasks =>
              match runWithConcurrency rt tasks (maxConcurrency cfg) [] script with
              | Returned p =>
                  {| result := Response 200 (FindingsBody (p_findings p));
                     trace := p_log p |}
              | Threw e => {| result := Uncaught e; trace := [] |}
              | Unfinished => {| result := Incomplete; trace := [] |}
              end
          end
      end
  end.

(** ** A concrete runtime for the examples

    [demo_rt] implements each builtin on a fragment of its inputs, where it
    agrees with the platform; outside the fragment its answers carry no
    meaning and no example goes there.
    - JSON: objects whose keys are distinct and not numeric, arrays, strings
      without escapes, integers below 2^53, [true], [false], [null].
    - URLs: [scheme://host/path] with a lower-case scheme, no port,
      credentials, query or fragment, and a path of letters, digits, [/],
      [_] and [-].  A host with a forbidden code point, and an empty host
      under a special scheme, are rejected as the URL standard rejects them. *)

Module Demo.

Definition is_json_space (c : ascii) : bool := is_http_space c.

Definition skip_ws (s : str) : str := drop (length (span is_json_space s)) s.

Definition plain_char (c : ascii) : bool :=
  (32 <=? code c)%N && negb (is_dquote c) && negb (code c =? 92)%N.

(** After the opening quote: the characters up to the closing quote. *)
Definition parse_string (s : str) : option (str * str) :=
  let body := span plain_char s in
  match drop (length body) s with
  | q :: rest => if is_dquote q then Some (body, rest) else None
  | [] => None
  end.

Definition digit_value (c : ascii) : Z := Z.of_N (code c) - 48.

Definition parse_nat (ds : str) : Z :=
  fold_left (fun acc c => 10 * acc + digit_value c)%Z ds 0%Z.

Definition parse_number (s : str) : option (json * str) :=
  let '(neg, s1) :=
    match s with
    | c :: s' => if is_dash c then (true, s') else (false, s)
    | [] => (false, s)
    end in
  let ds := span is_digit s1 in
  let rest := drop (length ds) s1 in
  let leading_zero :=
    match ds with c :: _ :: _ => (code c =? 48)%N | _ => false end in
  let continues :=
    match rest with
    | c :: _ => (code c =? 46)%N || (code c =? 101)%N || (code c =? 69)%N
    | [] => false
    end in
  if truthy ds && negb leading_zero && negb continues
     && (parse_nat ds <? 2 ^ 53)%Z
  then Some (JNum (inject_Z (if neg then - parse_nat ds else parse_nat ds)), rest)
  else None.

Definition expect (word : str) (v : json) (s : str) : option (json * str) :=
  if starts_with word s then Some (v, drop (length word) s) else None.

Definition key_ok (k : str) (seen : list (str * json)) : bool :=
  truthy k && negb (forallb is_digit k)
  && negb (existsb (fun kv => bool_decide (kv.1 = k)) seen).

Fixpoint parse_value (fuel : nat) (s : str) : option (json * str) :=
  match fuel with
  | O => None
  | S fuel' =>
      match skip_ws s with
      | c :: s' =>
          if (code c =? 123)%N then
            match skip_ws s' with
            | d :: s'' =>
                if (code d =? 125)%N then Some (JObj [], s'')
                else parse_members fuel' [] (d :: s'')
            | [] => None
            end
          else if (code c =? 91)%N then
            match skip_ws s' with
            | d :: s'' =>
                if (code d =? 93)%N then Some (JArr [], s'')
                else parse_items fuel' [] (d :: s'')
            | [] => None
            end
          else if is_dquote c then
            match parse_string s' with
            | Some (body, rest) => Some (JStr body, rest)
            | None => None
            end
          else if (code c =? 116)%N then expect (lit "true") (JBool true) (c :: s')
          else if (code c =? 102)%N then expect (lit "false") (JBool false) (c :: s')
          else if (code c =? 110)%N then expect (lit "null") JNull (c :: s')
          else parse_number (c :: s')
      | [] => None
      end
  end
with parse_items (fuel : nat) (acc : list json) (s : str) : option (json * str) :=
  match fuel with
  | O => None
  | S fuel' =>
      match parse_value fuel' s with
      | Some (v, rest) =>
          match skip_ws rest with
          | c :: rest' =>
              if (code c =? 44)%N then parse_items fuel' (acc ++ [v]) rest'
              else if (code c =? 93)%N then Some (JArr (acc ++ [v]), rest')
              else None
          | [] => None
          end
      | None => None
      end
  end
with parse_members (fuel : nat) (acc : list (str * json)) (s : str)
  : option (json * str) :=
  match fuel with
  | O => None
  | S fuel' =>
      match skip_ws s with
      | q :: s1 =>
          if is_dquote q then
            match parse_string s1 with
            | Some (k, s2) =>
                match skip_ws s2 with
                | c :: s3 =>
                    if (code c =? 58)%N && key_ok k acc then
                      match parse_value fuel' s3 with
                      | Some (v, rest) =>
                          match skip_ws rest with
                          | d :: rest' =>
                              if (code d =? 44)%N
                              then parse_members fuel' (acc ++ [(k, v)]) rest'
                              else if (code d =? 125)%N
                              then Some (JObj (acc ++ [(k, v)]), rest')
                              else None
                          | [] => None
                          end
                      | None => None
                      end
                    else None
                | [] => None
                end
            | None => None
            end
          else None
      | [] => None
      end
  end.

Definition parse (s : str) : option json :=
  match parse_value (S (length s)) s with
  | Some (v, rest) => match skip_ws rest with [] => Some v | _ :: _ => None end
  | None => None
  end.

Definition decimal (z : Z) : str :=
  lit (DecimalString.NilZero.string_of_int (Z.to_int z)).

Definition quote (s : str) : str :=
  dquote :: flat_map (fun c => if is_dquote c || (code c =? 92)%N
                               then [ascii_of_N 92; c] else [c]) s
  ++ [dquote].

Fixpoint stringify (v : json) : str :=
  match v with
  | JNull => lit "null"
  | JBool true => lit "true"
  | JBool false => lit "false"
  | JNum q => decimal (Qfloor q)
  | JStr s => quote s
  | JArr items =>
      lit "[" ++ join (lit ",") (map stringify items) ++ lit "]"
  | JObj fields =>
      lit "{"
      ++ join (lit ",")
           ((fix members (l : list (str * json)) : list str :=
               match l with
               | [] => []
               | (k, x) :: l' => (quote k ++ lit ":" ++ stringify x) :: members l'
               end) fields)
      ++ lit "}"
  end.

Definition forbidden_host_char (c : ascii) : bool :=
  (code c <=? 32)%N || existsb (fun d => bool_decide (c = d)) (lit "#%/:<>?@[\]^|")
  || (code c =? 127)%N.

Definition special_scheme (scheme : str) : bool :=
  existsb (fun k => bool_decide (scheme = lit k)) ["http"; "https"; "ws"; "wss"; "ftp"]%string.

Definition host_char (c : ascii) : bool :=
  is_lower c || is_digit c || (code c =? 46)%N || is_dash c.

Definition path_char (c : ascii) : bool :=
  is_lower c || is_upper c || is_digit c
  || (code c =? 47)%N || (code c =? 95)%N || is_dash c.

Definition url_href (s : str) (qs : list (str * str)) : option str :=
  let scheme := span is_lower s in
  let rest := drop (length scheme) s in
  if truthy scheme && starts_with (lit "://") rest && bool_decide (qs = []) then
    let rest := drop 3 rest in
    let host := span (fun c => negb (code c =? 47)%N) rest in
    let path := drop (length host) rest in
    if existsb forbidden_host_char host then None
    else if special_scheme scheme && negb (truthy host) then None
    else if forallb host_char host && forallb path_char path then
      Some (if special_scheme scheme && negb (truthy path) then s ++ lit "/" else s)
    else None
  else None.

Definition uuid (n : nat) : str := lit "uuid-" ++ decimal (Z.of_nat n).

(** The properties of [Object.prototype], as a template literal prints
    them. *)
Definition proto (k : str) : option str :=
  if bool_decide (k = lit "__proto__") then Some (lit "[object Object]")
  else if existsb (fun n => bool_decide (k = lit n))
            ["constructor"; "hasOwnProperty"; "isPrototypeOf";
             "propertyIsEnumerable"; "toLocaleString"; "toString"; "valueOf";
             "__defineGetter__"; "__defineSetter__"; "__lookupGetter__";
             "__lookupSetter__"]%string
  then Some (lit "function " ++ (if bool_decide (k = lit "constructor")
                                 then lit "Object" else k)
             ++ lit "() { [native code] }")
  else None.

End Demo.

Definition demo_rt : Runtime := {|
  URL_href := Demo.url_href;
  JSON_parse := Demo.parse;
  JSON_stringify := Demo.stringify;
  uuidv4 := Demo.uuid;
  inherited := Demo.proto
|}.

(** ** Auxiliary definitions for the statements *)

(** The edit-distance term [1 - min(1, d / max(|a|, |b|, 1))]. *)
Definition edit_term (a b : str) : Q :=
  (1 - Qmin 1 (Q_of_nat (levenshteinDistance a b)
               / Q_of_nat (max3 (length a) (length b) 1)))%Q.

(** The same term as the engine computes it. *)
Definition edit_term64 (a b : str) : Q :=
  f64_sub 1 (Qmin 1 (f64_div (Q_of_nat (levenshteinDistance a b))
                             (Q_of_nat (max3 (length a) (length b) 1)))).

(** The identifier refinement subtracts 0.1 exactly when both bodies parse,
    both yield an identifier, and the identifier of the victim's body is the
    attacker's sample. *)
Definition discount_applies (rt : Runtime) (baselineText attackerText : str)
    (attackerId : option str) : bool :=
  match JSON_parse rt baselineText, JSON_parse rt attackerText with
  | Some jv, Some ja =>
      match match_id (JSON_stringify rt jv), match_id (JSON_stringify rt ja) with
      | Some v, Some _ => bool_decide (Some v = attackerId)
      | _, _ => false
      end
  | _, _ => false
  end.

(** It adds 0.15 exactly when both bodies parse and the identifier of the
    victim's body occurs in the attacker's body. *)
Definition leak_applies (rt : Runtime) (baselineText attackerText : str) : bool :=
  match JSON_parse rt baselineText, JSON_parse rt attackerText with
  | Some jv, Some ja =>
      match match_id (JSON_stringify rt jv) with
      | Some v => includes (JSON_stringify rt ja) v
      | None => false
      end
  | _, _ => false
  end.


Definition is_settled {A} (t : task A) : bool :=
  match t with Done _ | Thrown _ => true | _ => false end.


(** Whether the unauthenticated attempt ends with a finding, and from which
    response: the response must be read in full, its status must be 2xx and
    the score must reach the threshold. *)
Definition unauth_emits (cfg : ScanRequest) (baselineText : str) (ou : outcome)
  : option (nat * str) :=
  match ou with
  | Responded su tu =>
      if is_2xx su && Qge_bool (unauth_score baselineText tu) (speedGateThreshold cfg)
      then Some (su, tu) else None
  | _ => None
  end.


(** What the attacker step contributes before the unauthenticated
    attempt. *)
Definition attacker_emits (rt : Runtime) (cfg : ScanRequest) (attackerId : option str)
    (bs : nat) (bt : str) (oa : outcome) : bool :=
  Qge_bool
    (score (attacker_scoring rt bs bt (attacker_observed oa).1 (attacker_observed oa).2
              attackerId))
    (speedGateThreshold cfg).


(** The events of the two optional pushes. *)
Definition attacker_events (rt : Runtime) (cfg : ScanRequest) (ep : Endpoint)
    (attackerId : option str) (pathVictim : str) (bs : nat) (bt : str)
    (oa : outcome) (id : str) : list (jev unit) :=
  if attacker_emits rt cfg attackerId bs bt oa then
    [JUuid id;
     JPush (attacker_finding ep pathVictim bs (attacker_observed oa).1
              (attacker_scoring rt bs bt (attacker_observed oa).1
                 (attacker_observed oa).2 attackerId) id)]
  else [].

Definition unauth_events (cfg : ScanRequest) (ep : Endpoint) (pathVictim : str)
    (bs : nat) (bt : str) (ou : outcome) (id : str) : list (jev unit) :=
  match unauth_emits cfg bt ou with
  | Some (su, tu) => [JUuid id; JPush (unauth_finding ep pathVictim bs bt su tu id)]
  | None => []
  end.

(** Everything a probe does when it runs to its end, as a function of the
    outcomes of its three requests and of the identifiers drawn. *)
Definition probe_events (rt : Runtime) (cfg : ScanRequest) (ep : Endpoint)
    (attackerId : option str) (pathVictim urlVictim : str) (victimInit : header_list)
    (o oa ou : outcome) (id1 id2 : str) : list (jev unit) :=
  JFetch (victim_request cfg ep urlVictim victimInit) o
  :: match o with
     | Responded bs bt =>
         match buildUrl rt (baseUrl cfg) pathVictim [], attacker_init cfg with
         | Some urlAttackVictim, Some attackerInit =>
             JFetch (attacker_request cfg ep urlAttackVictim attackerInit) oa
             :: attacker_events rt cfg ep attackerId pathVictim bs bt oa id1
             ++ match unauthenticated (authContexts cfg) with
                | Some true =>
                    JFetch (unauth_request cfg ep urlVictim) ou
                    :: unauth_events cfg ep pathVictim bs bt ou id2
                | _ => []
                end
         | _, _ => []
         end
     | _ => []
     end.

(** How that run settles: rejected when the attacker request cannot be
    prepared, resolved otherwise. *)
Definition probe_result (rt : Runtime) (cfg : ScanRequest) (pathVictim : str)
    (o : outcome) : option unit :=
  match o with
  | Responded _ _ =>
      match buildUrl rt (baseUrl cfg) pathVictim [], attacker_init cfg with
      | Some _, Some _ => Some tt
      | _, _ => None
      end
  | _ => Some tt
  end.

(** ** The invariant of the pool *)

(** A job held by a runner is suspended or settled: the synchronous steps
    have been taken. *)
Definition suspended {A} (t : task A) : bool :=
  match t with Uuid _ | Push _ _ => false | _ => true end.

(** The settlements recorded in a log: which job, and how it ended. *)
Definition settlements {A} (log : list (nat * jev A)) : list (nat * option A) :=
  omap (fun e => match e.2 with JSettle res => Some (e.1, res) | _ => None end) log.

(** The events of a job's own steps: no start, no settlement. *)
Definition internal {A} (e : jev A) : Prop :=
  match e with JStart | JSettle _ => False | _ => True end.

Definition with_runners {A} (rs : list (runner A)) (p : pool A) : pool A :=
  {| p_idx := p_idx p; p_out := p_out p; p_runners := rs;
     p_findings := p_findings p; p_nuuid := p_nuuid p; p_log := p_log p |}.

(** The pool after the runner has collected the result [res] of job [i]:
    [out.push(res)] for a resolved job, nothing for a rejected one. *)
Definition collect {A} (i : nat) (res : option A) (p : pool A) : pool A :=
  {| p_idx := p_idx p;
     p_out := match res with Some a => p_out p ++ [a] | None => p_out p end;
     p_runners := p_runners p; p_findings := p_findings p;
     p_nuuid := p_nuuid p; p_log := p_log p ++ [(i, JSettle res)] |}.

Section Invariant.
Context {A : Type} (jobs : list (task A)) (F0 : list Finding).

(** Job [i] has run from [t0] to [t], and the log shows it. *)
Definition running (log : list (nat * jev A)) (i : nat) (t : task A) : Prop :=
  exists t0 evs,
    jobs !! i = Some t0 /\ events_of i log = JStart :: evs /\ job_trace t0 evs t.

(** Job [i] has run to its end and the runner has collected it. *)
Definition collected (log : list (nat * jev A)) (i : nat) (res : option A) : Prop :=
  exists t0 evs t,
    jobs !! i = Some t0 /\ events_of i log = JStart :: evs ++ [JSettle res]
    /\ job_trace t0 evs t /\ settled_as t res.

(** The invariant; with a hole [Some r] the slot of runner [r] is left out
    (the runner is between two jobs). *)
Record pool_inv (hole : option nat) (p : pool A) : Prop := {
  inv_idx : p_idx p <= length jobs;
  inv_starts : starts (p_log p) = seq 0 (p_idx p);
  inv_findings : p_findings p = F0 ++ pushes (p_log p);
  inv_out : p_out p = successes (p_log p);
  inv_busy : forall r i t,
      hole <> Some r -> p_runners p !! r = Some (Busy i t) ->
      suspended t = true /\ running (p_log p) i t;
  inv_inj : forall r r' i t t',
      hole <> Some r -> hole <> Some r' ->
      p_runners p !! r = Some (Busy i t) -> p_runners p !! r' = Some (Busy i t') ->
      r = r';
  inv_started : forall i,
      i < p_idx p ->
      (exists r t, hole <> Some r /\ p_runners p !! r = Some (Busy i t))
      \/ (exists res, collected (p_log p) i res);
  inv_fresh : forall i, p_idx p <= i -> events_of i (p_log p) = [];
  inv_finished : forall r,
      hole <> Some r -> p_runners p !! r = Some Finished -> p_idx p = length jobs
}.

(** A bound on the number of requests a job can still make. *)
Fixpoint bounded (t : task A) (n : nat) : Prop :=
  match t with
  | Done _ | Thrown _ => True
  | Await _ k => match n with O => False | S n' => forall o, bounded (k o) n' end
  | Uuid k => forall id, bounded (k id) n
  | Push _ k => bounded k n
  end.

(** The turns a runner can still take, given such a bound for its job. *)
Definition runner_budget (x : runner A) (b : nat) : Prop :=
  match x with
  | Busy _ t => exists m, bounded t m /\ b = S m
  | Finished => b = 0
  end.

End Invariant.

(** The turns of a pool with one runner, for the outcomes [outcomes s],
    [outcomes (s + 1)], ... *)
Definition turns (outcomes : nat -> outcome) (s k : nat) : list (nat * outcome) :=
  map (fun j => (0, outcomes j)) (seq s k).

(** With one runner the jobs settle in the order of the list: the runner
    holds the last job started, and the jobs before it have settled. *)
Definition in_order {A} (p : pool A) : Prop :=
  match p_runners p with
  | [] => settlements (p_log p) = []
  | [Busy i _] => S i = p_idx p /\ map fst (settlements (p_log p)) = seq 0 i
  | [Finished] => map fst (settlements (p_log p)) = seq 0 (p_idx p)
  | _ => False
  end.

(** ** The issues of one top-level key of the request *)

Global Instance top_field_eq_dec : EqDecision top_field.
Proof. solve_decision. Defined.

Definition all_fields : list top_field :=
  [F_baseUrl; F_endpoints; F_authContexts;
   F_speedGateThreshold; F_maxConcurrency; F_timeoutMs].

(** What the schema of key [f] reports on an object with the given
    fields. *)
Definition field_issues (rt : Runtime) (fields : list (str * json)) (f : top_field)
  : list issue :=
  let path := [Key (field_name f)] in
  let v := get_field (field_name f) fields in
  match f with
  | F_baseUrl => issues_of (baseUrl_schema rt path v)
  | F_endpoints => issues_of (endpoints_schema path v)
  | F_authContexts => issues_of (AuthContextsSchema path v)
  | F_speedGateThreshold => issues_of (speedGateThreshold_schema path v)
  | F_maxConcurrency => issues_of (maxConcurrency_schema path v)
  | F_timeoutMs => issues_of (timeoutMs_schema path v)
  end.

(** The messages listed under key [k] of [fieldErrors]. *)
Definition field_errors_of (k : path_elem) (fl : flattened) : option (list issue_code) :=
  snd <$> List.find (fun kc => bool_decide (kc.1 = k)) (fieldErrors fl).

(** Every issue a parser reports lies at or below the path it was given. *)
Definition rooted {A} (p : zparser A) : Prop :=
  forall path v i, In i (issues_of (p path v)) -> exists rest, i_path i = path ++ rest.

(** The baseline request did not yield a response that could be read. *)
Definition baseline_failed (o : outcome) : Prop :=
  match o with Responded _ _ => False | _ => True end.

(** The messages of the issues whose path starts with [k]. *)
Definition codes_under (k : path_elem) (issues : list issue) : list issue_code :=
  map i_code (List.filter (fun i => bool_decide (head (i_path i) = Some k)) issues).

(** What the specification allows for a numeric key: absent (the default
    applies) or a number within the bounds. *)
Definition in_range_or_absent (lo hi : Q) (v : option json) : Prop :=
  match v with
  | None => True
  | Some (JNum q) => (lo <= q)%Q /\ (q <= hi)%Q
  | Some _ => False
  end.

(** The turns the pool can still take: [B + 2] for every job not yet
    started, and the budget of every runner. *)
Definition potential {A} (jobs : list (task A)) (B : nat) (p : pool A) (N : nat) : Prop :=
  exists bs,
    Forall2 runner_budget (p_runners p) bs
    /\ (length jobs - p_idx p) * (B + 2) + list_sum bs <= N.

(** ** Auxiliary definitions for the scheduler at any width *)

(** The jobs the runners hold. *)
Definition held {A} (rs : list (runner A)) : list nat :=
  omap (fun x => match x with Busy i _ => Some i | Finished => None end) rs.

(** The jobs a log shows started and not yet collected by a runner. *)
Definition in_flight {A} (log : list (nat * jev A)) : list nat :=
  List.filter
    (fun i => negb (existsb (fun s => Nat.eqb s.1 i) (settlements log)))
    (starts log).

(** A number with no fractional part. *)
Definition is_integer (n : Q) : bool := Qeq_bool n (inject_Z (Qfloor n)).

(** Line 122: an endpoint is probed only when it has a path parameter. *)
Definition has_path_param (ep : Endpoint) : bool :=
  match ep_pathParams ep with [] => false | _ :: _ => true end.

(** Lines 124-127: the path of the victim's resource and the attacker's
    sample, from the first path parameter. *)
Definition victim_path (rt : Runtime) (ep : Endpoint) (primaryParam : PathParam) : str :=
  applyTemplate rt (ep_pathTemplate ep)
    [(pp_name primaryParam, pp_samples primaryParam !! 0%nat)].

Definition attacker_sample (primaryParam : PathParam) : option str :=
  match pp_samples primaryParam !! 1%nat with
  | Some a => Some a
  | None => pp_samples primaryParam !! 0%nat
  end.

(** An endpoint without the two keys the scan never reads. *)
Definition path_only (ep : Endpoint) : Endpoint :=
  {| ep_method := ep_method ep; ep_pathTemplate := ep_pathTemplate ep;
     ep_pathParams := ep_pathParams ep;
     ep_queryParams := None; ep_bodyTemplate := None |}.

Definition with_endpoints (eps : list Endpoint) (cfg : ScanRequest) : ScanRequest :=
  {| baseUrl := baseUrl cfg; endpoints := eps; authContexts := authContexts cfg;
     speedGateThreshold := speedGateThreshold cfg;
     maxConcurrency := maxConcurrency cfg; timeoutMs := timeoutMs cfg |}.

(** A code unit that is neither a digit nor a double quote. *)
Definition is_plain (c : ascii) : bool := negb (is_digit c || is_dquote c).

(** Line 111: the value of the [cookie] header. *)
Definition cookie_string (cookies : header_list) : str :=
  join (lit "; ") (map (fun kv => kv.1 ++ lit "=" ++ kv.2) cookies).

Definition is_cookie (kv : str * str) : bool := bool_decide (kv.1 = lit "cookie").

(** ** Auxiliary definitions for the scans of [redactVolatile] *)

(** The pattern matches at no position of the text; [prev] is the code
    unit before the text. *)
Fixpoint nomatch (m : matcher) (prev : option ascii) (s : str) : Prop :=
  match s with
  | [] => m prev [] = None
  | c :: s' => m prev s = None /\ nomatch m (Some c) s'
  end.

(** The text up to its first code unit of the class [stop], that one
    included. *)
Fixpoint upto (stop : ascii -> bool) (s : str) : str :=
  match s with
  | [] => []
  | c :: s' => if stop c then [c] else c :: upto stop s'
  end.

(** The scan is at the start of the text or just after a code unit of the
    class. *)
Definition is_stopo (stop : ascii -> bool) (o : option ascii) : bool :=
  match o with Some c => stop c | None => true end.

(** The code unit before the rest of a text of which [w] has been read. *)
Definition prev_after (prev : option ascii) (w : str) : option ascii :=
  match last w with Some c => Some c | None => prev end.

Definition is_hexdash (c : ascii) : bool := is_hex c || is_dash c.

Definition nonword (c : ascii) : bool := negb (is_word c).

(** The text one of the keys of the timestamp pattern is written with. *)
Definition is_ts_key (k : str) : bool :=
  existsb (fun key => (length k =? length key)%nat && prefix_ci key k) ts_keys.

Definition is_letter (c : ascii) : bool := is_lower c || is_upper c.

Definition nonquote (c : ascii) : bool := negb (is_dquote c).

(** The text of a match of the timestamp pattern, from its parts, and what
    replaces it. *)
Definition ts_text (k ws1 ws2 v : str) : str :=
  dquote :: k ++ dquote :: ws1 ++ ":"%char :: ws2 ++ dquote :: v ++ [dquote].

Definition ts_repl (k : str) : str := dquote :: k ++ qlit "':'<ts>'".

Definition ts_ok (k ws1 ws2 v : str) : bool :=
  is_ts_key k && forallb is_space ws1 && forallb is_space ws2
  && truthy v && forallb nonquote v.

(** ** The scan of the demonstration page (page.tsx, lines 54-72)

    One endpoint [GET /users/{id}] with the samples 1001 and 1002, the two
    identities told apart by the header [x-user-id], and the unauthenticated
    attempt switched on. *)

Definition demo_endpoint : Endpoint := {|
  ep_method := GET;
  ep_pathTemplate := lit "/users/{id}";
  ep_pathParams := [{| pp_name := lit "id"; pp_samples := [lit "1001"; lit "1002"] |}];
  ep_queryParams := None;
  ep_bodyTemplate := None
|}.

Definition demo_cfg_with (base attackerHeader : str) (eps : list Endpoint) : ScanRequest := {|
  baseUrl := base;
  endpoints := eps;
  authContexts := {|
    victim := {| ac_headers := Some [(lit "x-user-id", lit "1001")]; ac_cookies := None |};
    attacker := Some {| ac_headers := Some [(attackerHeader, lit "1002")];
                        ac_cookies := None |};
    unauthenticated := Some true |};
  speedGateThreshold := 0.8;
  maxConcurrency := 4;
  timeoutMs := 8000
|}.

Definition demo_cfg : ScanRequest :=
  demo_cfg_with (lit "http://api.test/api/mock") (lit "x-user-id") [demo_endpoint].

Definition endpoint_json (template : string) : json :=
  JObj [(lit "method", JStr (lit "GET"));
        (lit "pathTemplate", JStr (lit template));
        (lit "pathParams",
         JArr [JObj [(lit "name", JStr (lit "id"));
                     (lit "samples", JArr [JStr (lit "1001"); JStr (lit "1002")])]])].

(** The request body the page sends, with its variable parts. *)
Definition demo_body_with (base attackerHeader : string) (templates : list string)
    (threshold : Q) : json :=
  JObj [(lit "baseUrl", JStr (lit base));
        (lit "endpoints", JArr (map endpoint_json templates));
        (lit "authContexts",
         JObj [(lit "victim",
                JObj [(lit "headers", JObj [(lit "x-user-id", JStr (lit "1001"))])]);
               (lit "attacker",
                JObj [(lit "headers", JObj [(lit attackerHeader, JStr (lit "1002"))])]);
               (lit "unauthenticated", JBool true)]);
        (lit "speedGateThreshold", JNum threshold);
        (lit "maxConcurrency", JNum 4);
        (lit "timeoutMs", JNum 8000)].

Definition demo_body : json :=
  demo_body_with "http://api.test/api/mock" "x-user-id" ["/users/{id}"%string] 0.8.

(** The body the mock target answers with (part_001, lines 5-16), asked for
    user 1001 by [who]. *)
Definition mock_user (who : string) : str :=
  qlit "{'ok':true,'requestedBy':'" ++ lit who
  ++ qlit "','user':{'id':'1001','email':'user1001@example.com','name':'User 1001','role':'customer','created':'2024-05-01T10:00:00.000Z','profile':{'address':'1001 Main St','phone':'+1-555-1001'}}}".

Definition demo_victim_request : Request :=
  victim_request demo_cfg demo_endpoint (lit "http://api.test/api/mock/users/1001")
    [(lit "x-user-id", lit "1001")].

Definition demo_attacker_request : Request :=
  attacker_request demo_cfg demo_endpoint (lit "http://api.test/api/mock/users/1001")
    (Some [(lit "x-user-id", lit "1002")]).

Definition demo_unauth_request : Request :=
  unauth_request demo_cfg demo_endpoint (lit "http://api.test/api/mock/users/1001").

Definition demo_probe : task unit :=
  probe demo_rt demo_cfg demo_endpoint (Some (lit "1002")) (lit "/users/1001")
    (lit "http://api.test/api/mock/users/1001") [(lit "x-user-id", lit "1001")].

(** * The page of [src/app/page.tsx]

    The pure part of the page: the parser of the two header boxes
    ([headersFromText], lines 30-46) and the request the page sends
    (lines 54-72).  A [Record<string, string>] is a finite map. *)

(** [String.prototype.trim]: the white space of [\s], at both ends. *)
Fixpoint drop_while (p : ascii -> bool) (s : str) : str :=
  match s with
  | c :: s' => if p c then drop_while p s' else s
  | [] => []
  end.

Definition trim (s : str) : str :=
  rev (drop_while is_space (rev (drop_while is_space s))).

(** [/\n|,/]: one line feed or one comma. *)
Definition is_sep (c : ascii) : bool := (code c =? 10)%N || (code c =? 44)%N.

(** [text.split(/\n|,/)]: every separator ends a piece; the pieces may be
    empty. *)
Fixpoint split_lines (s : str) : list str :=
  match s with
  | [] => [[]]
  | c :: s' =>
      if is_sep c then [] :: split_lines s'
      else match split_lines s' with
           | p :: ps => (c :: p) :: ps
           | [] => [[c]]
           end
  end.

Definition is_colon (c : ascii) : bool := (code c =? 58)%N.

(** [line.indexOf(":")], [None] for -1. *)
Fixpoint indexOf_colon (s : str) : option nat :=
  match s with
  | [] => None
  | c :: s' => if is_colon c then Some 0%nat else S <$> indexOf_colon s'
  end.

(** The body of the [forEach] (lines 36-43).  The assignment
    [map[k] = v] adds or overwrites the key [k]; for the key [__proto__] it
    calls the setter of [Object.prototype], which ignores a string and adds
    no key. *)
Definition header_line (map : gmap str str) (line : str) : gmap str str :=
  match indexOf_colon line with
  | Some (S i) =>
      let idx := S i in
      let k := trim (take idx line) in
      let v := trim (drop (idx + 1) line) in
      if truthy k then
        if bool_decide (k = lit "__proto__") then map else <[k := v]> map
      else map
  | _ => map
  end.

Definition headersFromText (text : str) : gmap str str :=
  fold_left header_line (List.filter truthy (map trim (split_lines text))) ∅.

(** The request body of [onRun] (lines 54-72) as the route receives it;
    the keys of a header record come in the order of [map_to_list]. *)
Definition headers_json (m : gmap str str) : json :=
  JObj (map (fun kv => (kv.1, JStr kv.2)) (map_to_list m)).

Definition page_body (baseUrl victimId attackerId victimHeader attackerHeader : str)
    (threshold : Q) : json :=
  JObj [(lit "baseUrl", JStr baseUrl);
        (lit "endpoints",
         JArr [JObj [(lit "method", JStr (lit "GET"));
                     (lit "pathTemplate", JStr (lit "/users/{id}"));
                     (lit "pathParams",
                      JArr [JObj [(lit "name", JStr (lit "id"));
                                  (lit "samples",
                                   JArr [JStr victimId; JStr attackerId])]])]]);
        (lit "authContexts",
         JObj [(lit "victim",
                JObj [(lit "headers", headers_json (headersFromText victimHeader))]);
               (lit "attacker",
                JObj [(lit "headers", headers_json (headersFromText attackerHeader))]);
               (lit "unauthenticated", JBool true)]);
        (lit "speedGateThreshold", JNum threshold);
        (lit "maxConcurrency", JNum 4);
        (lit "timeoutMs", JNum 8000)].

(** The configuration the route makes of it. *)
Definition page_cfg (baseUrl victimId attackerId victimHeader attackerHeader : str)
    (threshold : Q) : ScanRequest :=
  {| baseUrl := baseUrl;
     endpoints :=
       [{| ep_method := GET; ep_pathTemplate := lit "/users/{id}";
           ep_pathParams := [{| pp_name := lit "id";
                                pp_samples := [victimId; attackerId] |}];
           ep_queryParams := None; ep_bodyTemplate := None |}];
     authContexts := {|
       victim := {| ac_headers := Some (map_to_list (headersFromText victimHeader));
                    ac_cookies := None |};
       attacker := Some {| ac_headers := Some (map_to_list (headersFromText attackerHeader));
                           ac_cookies := None |};
       unauthenticated := Some true |};
     speedGateThreshold := threshold;
     maxConcurrency := 4;
     timeoutMs := 8000 |}.

(** What makes a key and a value come back from the box as they went in. *)
Definition is_spaceo (o : option ascii) : bool :=
  match o with Some c => is_space c | None => false end.

Definition trimmed (s : str) : bool := negb (is_spaceo (head s)) && negb (is_spaceo (last s)).

Definition clean_key (k : str) : bool :=
  truthy k && trimmed k
  && forallb (fun c => negb (is_sep c || is_colon c)) k
  && negb (bool_decide (k = lit "__proto__")).

Definition clean_value (v : str) : bool :=
  trimmed v && forallb (fun c => negb (is_sep c)) v.

(** ** More requests for the examples *)

(** The request body of the page with every part variable. *)
Definition scan_body (base : string) (victimHeaders attackerHeaders : list (string * string))
    (templates : list string) (threshold conc : Q) : json :=
  let headers_json hs := JObj (map (fun kv => (lit kv.1, JStr (lit kv.2))) hs) in
  JObj [(lit "baseUrl", JStr (lit base));
        (lit "endpoints", JArr (map endpoint_json templates));
        (lit "authContexts",
         JObj [(lit "victim", JObj [(lit "headers", headers_json victimHeaders)]);
               (lit "attacker", JObj [(lit "headers", headers_json attackerHeaders)]);
               (lit "unauthenticated", JBool true)]);
        (lit "speedGateThreshold", JNum threshold);
        (lit "maxConcurrency", JNum conc);
        (lit "timeoutMs", JNum 8000)].

(** The configuration that body is parsed to, for the endpoints [eps]. *)
Definition scan_cfg (base : string) (victimHeaders attackerHeaders : list (string * string))
    (eps : list Endpoint) (threshold conc : Q) : ScanRequest :=
  let header_list_of hs := map (fun kv : string * string => (lit kv.1, lit kv.2)) hs in
  {| baseUrl := lit base;
     endpoints := eps;
     authContexts := {|
       victim := {| ac_headers := Some (header_list_of victimHeaders); ac_cookies := None |};
       attacker := Some {| ac_headers := Some (header_list_of attackerHeaders);
                           ac_cookies := None |};
       unauthenticated := Some true |};
     speedGateThreshold := threshold;
     maxConcurrency := conc;
     timeoutMs := 8000 |}.

(** A request whose only endpoint has no path parameter. *)
Definition plain_body : json :=
  JObj [(lit "baseUrl", JStr (lit "http://api.test/api/mock"));
        (lit "endpoints", JArr [JObj [(lit "pathTemplate", JStr (lit "/health"))]]);
        (lit "authContexts", JObj [(lit "victim", JObj [])])].
(** * Properties

    ** Worked examples of the text functions *)

Example redact_demo :
  redactVolatile (qlit "{'id':1700000000000,'Created' : '2024-01-01','u':'123e4567-e89b-12d3-a456-426614174000'}")
  = qlit "{'id':<num>,'Created':'<ts>','u':'<uuid>'}".
Proof. vm_compute. reflexivity. Qed.

Example tokenSet_demo :
  tokenSet (qlit "{'Id':'A-1', 'x_y':  [1,1]}")
  = list_to_set [lit "id"; lit "a-1"; lit "x_y"; lit "1"].
Proof. vm_compute. reflexivity. Qed.

Example split_demo :
  split_ws (lit " a  b ") = [lit ""; lit "a"; lit "b"; lit ""].
Proof. reflexivity. Qed.

Example lev_demo : levenshteinDistance (lit "kitten") (lit "sitting") = 3%nat.
Proof. reflexivity. Qed.

Example similarity_demo :
  (similarity (qlit "{'id':'1001'}") (qlit "{'id':'1002'}") == 37#65)%Q.
Proof. vm_compute. reflexivity. Qed.

Example json_demo :
  JSON_stringify demo_rt <$> JSON_parse demo_rt
    (qlit "{ 'ok': true, 'requestedBy' : '1002', 'user': {'id':'1001', 'tags': [1, -2, null]} }")
  = Some (qlit "{'ok':true,'requestedBy':'1002','user':{'id':'1001','tags':[1,-2,null]}}").
Proof. vm_compute. reflexivity. Qed.

Example json_reject_demo : JSON_parse demo_rt (lit "Forbidden") = None.
Proof. reflexivity. Qed.

Example match_id_demo :
  match_id (qlit "{'ok':true,'user':{'ID' : 1001,'email':'a@b'}}") = Some (lit "1001").
Proof. vm_compute. reflexivity. Qed.

Example applyTemplate_demo :
  applyTemplate demo_rt (lit "/users/{id}/items/{item}") [(lit "id", Some (lit "1001"))]
  = lit "/users/1001/items/{item}".
Proof. vm_compute. reflexivity. Qed.

Example buildUrl_demo :
  buildUrl demo_rt (lit "http://api.test/") (lit "/users/1001") []
  = Some (lit "http://api.test/users/1001").
Proof. vm_compute. reflexivity. Qed.

Example toFixed_demo : (toFixed 3 (37 # 65) == 0.569)%Q /\ (toFixed 1 ((2 # 3) * 100) == 66.7)%Q.
Proof. split; vm_compute; reflexivity. Qed.

(** The number [0.1] is 0x1.999999999999ap-4; powers of two and small
    integers are numbers themselves; a tie goes to the even significand. *)
Example round64_demo :
  round64 0.1 = 3602879701896397 # 36028797018963968
  /\ round64 (3 # 8) = 3 # 8 /\ round64 100 = 100%Q
  /\ round64 (inject_Z (2 ^ 53 + 1)) = inject_Z (2 ^ 53)
  /\ round64 (inject_Z (2 ^ 53 + 3)) = inject_Z (2 ^ 53 + 4)
  /\ round64 (- (1 # 3)) = (- round64 (1 # 3))%Q.
Proof. vm_compute. repeat split; reflexivity. Qed.

(** Sums of the source as the engine computes them: 0.6 + 0.4 and
    0.65 + 0.35 are 1, 0.05 + 0.15 is 0.2, but 0.05 - 0.1 + 0.15 is
    0.09999999999999999 and not 0.1, and 0.65 + 0.39 * 0.35 is below
    0.7865 and is printed 0.786. *)
Example binary64_demo :
  f64_add (round64 0.6) (round64 0.4) = 1%Q
  /\ f64_add (round64 0.65) (round64 0.35) = 1%Q
  /\ f64_add (round64 0.05) (round64 0.15) = round64 0.2
  /\ f64_add (f64_sub (round64 0.05) (round64 0.1)) (round64 0.15)
     = round64 0.09999999999999999
  /\ round64 0.09999999999999999 <> round64 0.1
  /\ (f64_add (round64 0.65) (f64_mul (round64 0.39) (round64 0.35)) < 0.7865)%Q
  /\ toFixed 3 (f64_add (round64 0.65) (f64_mul (round64 0.39) (round64 0.35))) = 0.786%Q
  /\ Number (toFixed 3 (f64_add (round64 0.65) (f64_mul (round64 0.39) (round64 0.35))))
     = round64 0.786.
Proof.
  vm_compute.
  split; [reflexivity|]. split; [reflexivity|]. split; [reflexivity|].
  split; [reflexivity|]. split; [discriminate|]. split; [reflexivity|].
  split; reflexivity.
Qed.

(** [round64] against the reference operations of the Standard Library,
    on the arithmetic of the scores. *)
Example round64_agrees_with_SpecFloat :
  let c := spec_float_ratio in
  Q_of_spec_float (c 6 10)%Z = Some (round64 0.6)
  /\ Q_of_spec_float (c 15 100)%Z = Some (round64 0.15)
  /\ Q_of_spec_float (SpecFloat.SFadd 53 1024 (c 6 10)%Z (c 4 10)%Z)
     = Some (f64_add (round64 0.6) (round64 0.4))
  /\ Q_of_spec_float
       (SpecFloat.SFadd 53 1024 (SpecFloat.SFsub 53 1024 (c 5 100)%Z (c 1 10)%Z) (c 15 100)%Z)
     = Some (f64_add (f64_sub (round64 0.05) (round64 0.1)) (round64 0.15))
  /\ Q_of_spec_float
       (SpecFloat.SFadd 53 1024 (c 65 100)%Z (SpecFloat.SFmul 53 1024 (c 39 100)%Z (c 35 100)%Z))
     = Some (f64_add (round64 0.65) (f64_mul (round64 0.39) (round64 0.35)))
  /\ Q_of_spec_float (SpecFloat.SFmul 53 1024 (c 2 3)%Z (c 100 1)%Z)
     = Some (f64_mul (f64_div 2 3) 100)
  /\ Q_of_spec_float (SpecFloat.SFsub 53 1024 (c 1 1)%Z (c 7 13)%Z)
     = Some (f64_sub 1 (f64_div 7 13)).
Proof. vm_compute. repeat split; reflexivity. Qed.

Example demo_body_parses : safeParse demo_rt demo_body = Valid demo_cfg.
Proof. vm_compute. reflexivity. Qed.

Example demo_job : endpoint_job demo_rt demo_cfg demo_endpoint = Some (Some demo_probe).
Proof.
  assert (E1 : applyTemplate demo_rt (lit "/users/{id}") [(lit "id", Some (lit "1001"))]
               = lit "/users/1001") by (vm_compute; reflexivity).
  assert (E2 : buildUrl demo_rt (baseUrl demo_cfg) (lit "/users/1001") []
               = Some (lit "http://api.test/api/mock/users/1001"))
    by (vm_compute; reflexivity).
  assert (E3 : buildInit (ac_headers (victim (authContexts demo_cfg)))
                 (ac_cookies (victim (authContexts demo_cfg)))
               = Some [(lit "x-user-id", lit "1001")]) by (vm_compute; reflexivity).
  unfold endpoint_job, demo_probe.
  cbn [demo_endpoint ep_pathParams ep_pathTemplate pp_samples pp_name lookup list_lookup].
  change (lit "1001" :: [lit "1002"]) with [lit "1001"; lit "1002"].
  cbn [lookup list_lookup].
  rewrite E1, E2. cbn [mbind option_bind]. rewrite E3. reflexivity.
Qed.

(** The first end-to-end scenario of the specification: the target echoes
    the record of user 1001 to everybody; one finding per vector. *)
Example demo_scan_vulnerable :
  let r := POST demo_rt (Some demo_body)
             [(0%nat, Responded 200 (mock_user "1001"));
              (0%nat, Responded 200 (mock_user "1002"));
              (0%nat, Responded 200 (mock_user "anonymous"));
              (0%nat, FetchFailed)] in
  match result r with
  | Response 200 (FindingsBody [f1; f2]) =>
      f_attackVector f1 = AttackerViaUrlId /\ f_statusVictim f1 = 200%nat
      /\ f_statusAttacker f1 = 200%nat /\ (f_confidence f1 == 1)%Q
      /\ f_attackVector f2 = UnauthenticatedVector /\ f_confidence f2 = round64 0.984
  | _ => False
  end.
Proof. vm_compute. repeat split; reflexivity. Qed.

(** The second one: the attacker is answered 403; no attacker finding. *)
Example demo_scan_protected :
  let r := POST demo_rt (Some demo_body)
             [(0%nat, Responded 200 (mock_user "1001"));
              (0%nat, Responded 403 (lit "Forbidden"));
              (0%nat, Responded 401 (lit "Unauthorized"));
              (0%nat, FetchFailed)] in
  result r = Response 200 (FindingsBody []).
Proof. vm_compute. reflexivity. Qed.

(** ** Rounding to binary64 *)

Lemma rne_proper (x y : Q) : (x == y)%Q -> rne x = rne y.
Proof.
  intros E. unfold rne. rewrite (Qfloor_comp _ _ E).
  assert (Ec : (x - inject_Z (Qfloor y) ?= 1 # 2)%Q = (y - inject_Z (Qfloor y) ?= 1 # 2)%Q).
  { apply Qcompare_comp; [now rewrite E | reflexivity]. }
  now rewrite Ec.
Qed.

Lemma rne_bounds (x : Q) : (Qfloor x <= rne x <= Qfloor x + 1)%Z.
Proof.
  unfold rne. destruct (_ ?= _)%Q; [destruct (Z.even _)| |]; lia.
Qed.

Lemma rne_Z (z : Z) : rne (inject_Z z) = z.
Proof.
  unfold rne. rewrite Qfloor_Z.
  assert (H : (inject_Z z - inject_Z z ?= 1 # 2)%Q = Lt).
  { apply Qlt_alt. assert (E : (inject_Z z - inject_Z z == 0)%Q) by ring.
    rewrite E. reflexivity. }
  now rewrite H.
Qed.

Lemma Qcompare_cases (p q : Q) :
  match (p ?= q)%Q with
  | Eq => (p == q)%Q
  | Lt => (p < q)%Q
  | Gt => (q < p)%Q
  end.
Proof.
  destruct (p ?= q)%Q eqn:C; [apply Qeq_alt | apply Qlt_alt | apply Qgt_alt]; exact C.
Qed.

Lemma rne_mono (x y : Q) : (x <= y)%Q -> (rne x <= rne y)%Z.
Proof.
  intros Hxy. pose proof (Qfloor_resp_le _ _ Hxy) as Hf.
  destruct (Z.eq_dec (Qfloor x) (Qfloor y)) as [E|E].
  - unfold rne. rewrite E. set (f := Qfloor y).
    pose proof (Qcompare_cases (x - inject_Z f) (1 # 2)) as Cx.
    pose proof (Qcompare_cases (y - inject_Z f) (1 # 2)) as Cy.
    destruct (x - inject_Z f ?= 1 # 2)%Q; destruct (y - inject_Z f ?= 1 # 2)%Q;
      try destruct (Z.even f); try lia; exfalso; lra.
  - pose proof (rne_bounds x) as Bx. pose proof (rne_bounds y) as By. lia.
Qed.

(** *** Powers of two *)

Lemma pow2_pos (e : Z) : (0 < 2 ^ e)%Q.
Proof. apply Qpower_0_lt. reflexivity. Qed.

Lemma pow2_add (a b : Z) : (2 ^ (a + b) == 2 ^ a * 2 ^ b)%Q.
Proof. apply Qpower_plus. discriminate. Qed.

Lemma pow2_mono (a b : Z) : (a <= b)%Z -> (2 ^ a <= 2 ^ b)%Q.
Proof. intros H. apply Qpower_le_compat_l; [exact H | discriminate]. Qed.

Lemma pow2_lt_inv (a b : Z) : (2 ^ a < 2 ^ b)%Q -> (a < b)%Z.
Proof. intros H. apply (Qpower_lt_compat_l_inv 2); [exact H | reflexivity]. Qed.

Lemma pow2_Z (n : Z) : (0 <= n)%Z -> (inject_Z (2 ^ n) == 2 ^ n)%Q.
Proof. intros H. now rewrite Zpower_Qpower. Qed.

(** *** The binary logarithm *)

Lemma Qlog2_spec (q : Q) :
  (0 < q)%Q -> (2 ^ Qlog2 q <= q)%Q /\ (q < 2 ^ (Qlog2 q + 1))%Q.
Proof.
  intros Hq. unfold Qlog2.
  destruct q as [n d]. cbn [Qnum Qden].
  assert (Hn : (0 < n)%Z) by (unfold Qlt in Hq; cbn in Hq; lia).
  set (a := Z.log2 n). set (b := Z.log2 (Z.pos d)).
  destruct (Z.log2_spec n Hn) as [Ha1 Ha2]. fold a in Ha1, Ha2.
  destruct (Z.log2_spec (Z.pos d) eq_refl) as [Hb1 Hb2]. fold b in Hb1, Hb2.
  assert (Ha0 : (0 <= a)%Z) by apply Z.log2_nonneg.
  assert (Hb0 : (0 <= b)%Z) by apply Z.log2_nonneg.
  assert (Hd : (0 < inject_Z (Z.pos d))%Q) by reflexivity.
  assert (E : (n # d == inject_Z n / inject_Z (Z.pos d))%Q) by apply Qmake_Qdiv.
  assert (Qa1 : (2 ^ a <= inject_Z n)%Q) by (rewrite <- pow2_Z, <- Zle_Qle; assumption).
  assert (Qa2 : (inject_Z n < 2 ^ (a + 1))%Q).
  { rewrite <- pow2_Z by lia. rewrite <- Zlt_Qlt. exact Ha2. }
  assert (Qb1 : (2 ^ b <= inject_Z (Z.pos d))%Q) by (rewrite <- pow2_Z, <- Zle_Qle; assumption).
  assert (Qb2 : (inject_Z (Z.pos d) < 2 ^ (b + 1))%Q).
  { rewrite <- pow2_Z by lia. rewrite <- Zlt_Qlt. exact Hb2. }
  assert (Hup : (n # d < 2 ^ (a - b + 1))%Q).
  { rewrite E. apply Qlt_shift_div_r; [exact Hd|].
    apply Qlt_le_trans with (2 ^ (a + 1))%Q; [exact Qa2|].
    replace (a + 1)%Z with ((a - b + 1) + b)%Z by lia. rewrite pow2_add.
    rewrite (Qmult_comm (2 ^ (a - b + 1)) (2 ^ b)),
      (Qmult_comm (2 ^ (a - b + 1)) (inject_Z (Z.pos d))).
    apply Qmult_le_compat_r; [exact Qb1 | apply Qlt_le_weak, pow2_pos]. }
  assert (Hlow : (2 ^ (a - b - 1) <= n # d)%Q).
  { rewrite E. apply Qle_shift_div_l; [exact Hd|].
    apply Qle_trans with (2 ^ a)%Q; [|exact Qa1].
    replace a with ((a - b - 1) + (b + 1))%Z at 2 by lia. rewrite pow2_add.
    rewrite (Qmult_comm (2 ^ (a - b - 1)) (inject_Z (Z.pos d))),
      (Qmult_comm (2 ^ (a - b - 1)) (2 ^ (b + 1))).
    apply Qmult_le_compat_r; [apply Qlt_le_weak, Qb2 | apply Qlt_le_weak, pow2_pos]. }
  destruct (Qle_bool (2 ^ (a - b)) (n # d)) eqn:Hc.
  - apply Qle_bool_iff in Hc. split; assumption.
  - split; [exact Hlow|].
    replace (a - b - 1 + 1)%Z with (a - b)%Z by lia.
    apply Qnot_le_lt. intros Hle. apply Qle_bool_iff in Hle. congruence.
Qed.



Lemma Qlog2_mono (p q : Q) : (0 < p)%Q -> (p <= q)%Q -> (Qlog2 p <= Qlog2 q)%Z.
Proof.
  intros Hp Hpq.
  assert (Hq : (0 < q)%Q) by (eapply Qlt_le_trans; eassumption).
  destruct (Qlog2_spec p Hp) as [S1 _]. destruct (Qlog2_spec q Hq) as [_ T2].
  assert (A : (Qlog2 p < Qlog2 q + 1)%Z).
  { apply pow2_lt_inv. eapply Qle_lt_trans; [exact S1|].
    eapply Qle_lt_trans; eassumption. }
  lia.
Qed.

(** *** Rounding a positive number *)

Lemma round_pos_zero (q : Q) : (q == 0)%Q -> (round_pos q == 0)%Q.
Proof.
  intros E. unfold round_pos.
  set (e := Z.max (Qlog2 q - 52) (-1074)).
  assert (E0 : (q / 2 ^ e == inject_Z 0)%Q).
  { rewrite E. unfold Qdiv. apply Qmult_0_l. }
  rewrite (rne_proper _ _ E0), rne_Z. apply Qmult_0_l.
Qed.


Lemma rne_nonneg (x : Q) : (0 <= x)%Q -> (0 <= rne x)%Z.
Proof.
  intros Hx. pose proof (rne_bounds x) as [Hb _].
  apply Qfloor_resp_le in Hx. change (Qfloor 0) with 0%Z in Hx. lia.
Qed.

Lemma round_pos_nonneg (q : Q) : (0 <= q)%Q -> (0 <= round_pos q)%Q.
Proof.
  intros Hq. unfold round_pos.
  set (e := Z.max (Qlog2 q - 52) (-1074)).
  pose proof (pow2_pos e) as He.
  apply Qmult_le_0_compat; [|now apply Qlt_le_weak].
  change 0%Q with (inject_Z 0). rewrite <- Zle_Qle. apply rne_nonneg.
  apply Qle_shift_div_l; [exact He|]. now rewrite Qmult_0_l.
Qed.

Lemma round_pos_mono (p q : Q) :
  (0 < p)%Q -> (p <= q)%Q -> (round_pos p <= round_pos q)%Q.
Proof.
  intros Hp Hpq.
  assert (Hq : (0 < q)%Q) by (eapply Qlt_le_trans; eassumption).
  pose proof (Qlog2_mono p q Hp Hpq) as Hl.
  destruct (Qlog2_spec p Hp) as [_ Sp]. destruct (Qlog2_spec q Hq) as [Sq _].
  unfold round_pos.
  set (ep := Z.max (Qlog2 p - 52) (-1074)). set (eq := Z.max (Qlog2 q - 52) (-1074)).
  assert (He : (ep <= eq)%Z) by (subst ep eq; lia).
  pose proof (pow2_pos ep) as Hpp. pose proof (pow2_pos eq) as Hpq'.
  destruct (Z.eq_dec ep eq) as [E|E].
  - rewrite <- E. apply Qmult_le_compat_r; [|now apply Qlt_le_weak].
    rewrite <- Zle_Qle. apply rne_mono.
    unfold Qdiv. apply Qmult_le_compat_r; [exact Hpq|].
    apply Qlt_le_weak, Qinv_lt_0_compat, Hpp.
  - assert (Hup : (inject_Z (rne (p / 2 ^ ep)) <= 2 ^ 53)%Q).
    { rewrite <- (pow2_Z 53) by lia. rewrite <- Zle_Qle.
      rewrite <- (rne_Z (2 ^ 53)). apply rne_mono.
      rewrite (pow2_Z 53) by lia.
      apply Qle_shift_div_r; [exact Hpp|]. rewrite <- pow2_add.
      apply Qlt_le_weak. eapply Qlt_le_trans; [exact Sp|].
      apply pow2_mono. subst ep. lia. }
    assert (Hlow : (2 ^ 52 <= inject_Z (rne (q / 2 ^ eq)))%Q).
    { rewrite <- (pow2_Z 52) by lia. rewrite <- Zle_Qle.
      rewrite <- (rne_Z (2 ^ 52)) at 1. apply rne_mono.
      rewrite (pow2_Z 52) by lia.
      apply Qle_shift_div_l; [exact Hpq'|]. rewrite <- pow2_add.
      eapply Qle_trans; [|exact Sq].
      apply pow2_mono. subst ep eq. lia. }
    apply Qle_trans with (2 ^ 53 * 2 ^ ep)%Q.
    { apply Qmult_le_compat_r; [exact Hup | now apply Qlt_le_weak]. }
    apply Qle_trans with (2 ^ 52 * 2 ^ eq)%Q.
    { rewrite <- !pow2_add. apply pow2_mono. lia. }
    apply Qmult_le_compat_r; [exact Hlow | now apply Qlt_le_weak].
Qed.

(** *** round64 *)


Lemma round64_nonneg (q : Q) : (0 <= q)%Q -> (0 <= round64 q)%Q.
Proof.
  intros Hq. unfold round64.
  apply Qle_bool_iff in Hq as Hb. rewrite Hb, Qred_correct.
  now apply round_pos_nonneg.
Qed.

Lemma round64_opp (q : Q) : (q < 0)%Q -> (round64 q == - round64 (- q))%Q.
Proof.
  intros Hq. unfold round64.
  assert (H1 : Qle_bool 0 q = false).
  { destruct (Qle_bool 0 q) eqn:E; [|reflexivity]. apply Qle_bool_iff in E. lra. }
  assert (H2 : Qle_bool 0 (- q) = true) by (apply Qle_bool_iff; lra).
  rewrite H1, H2, !Qred_correct. reflexivity.
Qed.

Lemma round64_mono_nonneg (p q : Q) :
  (0 <= p)%Q -> (p <= q)%Q -> (round64 p <= round64 q)%Q.
Proof.
  intros Hp Hpq. unfold round64.
  assert (Hq : (0 <= q)%Q) by lra.
  apply Qle_bool_iff in Hp as Hbp. apply Qle_bool_iff in Hq as Hbq.
  rewrite Hbp, Hbq, !Qred_correct.
  destruct (Qlt_le_dec 0 p) as [Hp'|Hp'].
  - now apply round_pos_mono.
  - assert (E0 : (p == 0)%Q) by now apply Qle_antisym.
    rewrite (round_pos_zero p E0). now apply round_pos_nonneg.
Qed.

(** Rounding keeps the order. *)
Lemma round64_mono (p q : Q) : (p <= q)%Q -> (round64 p <= round64 q)%Q.
Proof.
  intros Hpq.
  destruct (Qlt_le_dec p 0) as [Hp|Hp]; [|now apply round64_mono_nonneg].
  rewrite (round64_opp p Hp).
  destruct (Qlt_le_dec q 0) as [Hq|Hq].
  - rewrite (round64_opp q Hq).
    assert (H : (round64 (- q) <= round64 (- p))%Q) by (apply round64_mono_nonneg; lra).
    lra.
  - pose proof (round64_nonneg q Hq). pose proof (round64_nonneg (- p) ltac:(lra)). lra.
Qed.

Lemma f64_add_mono (a b c d : Q) :
  (a <= c)%Q -> (b <= d)%Q -> (f64_add a b <= f64_add c d)%Q.
Proof. intros. apply round64_mono. lra. Qed.

Lemma f64_mul_mono (a b c d : Q) :
  (0 <= a)%Q -> (a <= c)%Q -> (0 <= b)%Q -> (b <= d)%Q -> (f64_mul a b <= f64_mul c d)%Q.
Proof.
  intros Ha Hac Hb Hbd. apply round64_mono.
  apply Qle_trans with (c * b)%Q.
  - apply Qmult_le_compat_r; assumption.
  - rewrite (Qmult_comm c b), (Qmult_comm c d). apply Qmult_le_compat_r; lra.
Qed.

(** From here on [round64] is used through the lemmas above and through
    evaluation. *)
Global Opaque round_pos.

(** ** The edit distance: the table and the recurrence agree *)

Lemma lev_spec_nil_r (a : str) : lev_spec a [] = length a.
Proof. destruct a; reflexivity. Qed.

Lemma lev_spec_cons (x y : ascii) (a b : str) :
  lev_spec (x :: a) (y :: b)
  = min3 (S (lev_spec a (y :: b))) (S (lev_spec (x :: a) b))
         (subst_cost x y + lev_spec a b).
Proof. reflexivity. Qed.

Lemma hd_tails_map (f : str -> nat) (b : str) :
  hd 0%nat (map f (tails b)) = f b.
Proof. destruct b; reflexivity. Qed.

Lemma lev_row_spec (x : ascii) (a b : str) :
  lev_row x b (map (lev_spec a) (tails b)) = map (lev_spec (x :: a)) (tails b).
Proof.
  induction b as [|y b IH].
  - cbn [tails map lev_row hd]. now rewrite lev_spec_nil_r.
  - change (tails (y :: b)) with ((y :: b) :: tails b).
    cbn [map lev_row]. rewrite IH, !hd_tails_map.
    now rewrite lev_spec_cons.
Qed.

Lemma lev_table_spec (a b : str) :
  fold_right (fun x row => lev_row x b row) (map (@length ascii) (tails b)) a
  = map (lev_spec a) (tails b).
Proof.
  induction a as [|x a IH]; cbn [fold_right].
  - reflexivity.
  - now rewrite IH, lev_row_spec.
Qed.

Lemma levenshteinDistance_spec (a b : str) :
  levenshteinDistance a b = lev_spec a b.
Proof. unfold levenshteinDistance. now rewrite lev_table_spec, hd_tails_map. Qed.

Lemma subst_cost_sym (x y : ascii) : subst_cost x y = subst_cost y x.
Proof. unfold subst_cost. repeat case_bool_decide; congruence. Qed.

Lemma lev_spec_sym (a b : str) : lev_spec a b = lev_spec b a.
Proof.
  revert b. induction a as [|x a IHa]; intros b.
  - now rewrite lev_spec_nil_r.
  - induction b as [|y b IHb].
    + reflexivity.
    + rewrite !lev_spec_cons, IHb, (IHa (y :: b)), (IHa b), (subst_cost_sym x y).
      unfold min3. lia.
Qed.

Lemma lev_spec_refl (a : str) : lev_spec a a = 0%nat.
Proof.
  induction a as [|x a IH]; [reflexivity|].
  rewrite lev_spec_cons, IH. unfold subst_cost, min3.
  rewrite bool_decide_eq_true_2 by reflexivity. lia.
Qed.

Lemma lev_spec_bound (a b : str) :
  (lev_spec a b <= Nat.max (length a) (length b))%nat.
Proof.
  revert b. induction a as [|x a IHa]; intros b.
  - cbn. lia.
  - destruct b as [|y b].
    + cbn. lia.
    + rewrite lev_spec_cons. specialize (IHa b).
      unfold min3, subst_cost. cbn [length]. case_bool_decide; lia.
Qed.

(** ** Jaccard similarity of two token sets *)

Lemma jaccard_inter (a b : gset str) :
  list_to_set (List.filter (fun x => bool_decide (x ∈ b)) (elements a)) =@{gset str} a ∩ b.
Proof.
  apply set_eq. intros x.
  rewrite elem_of_list_to_set, elem_of_intersection, list_elem_of_In,
    filter_In, <- list_elem_of_In, elem_of_elements, bool_decide_eq_true.
  reflexivity.
Qed.

Lemma jaccard_union (a b : gset str) :
  list_to_set (elements a ++ elements b) =@{gset str} a ∪ b.
Proof.
  apply set_eq. intros x.
  rewrite elem_of_list_to_set, elem_of_app, elem_of_union, !elem_of_elements.
  reflexivity.
Qed.

Lemma jaccard_sets (a b : gset str) :
  jaccard a b
  = if (size (a ∪ b) =? 0)%nat then 0%Q
    else (Q_of_nat (size (a ∩ b)) / Q_of_nat (size (a ∪ b)))%Q.
Proof. unfold jaccard. now rewrite jaccard_inter, jaccard_union. Qed.

Lemma Q_of_nat_nonneg (n : nat) : (0 <= Q_of_nat n)%Q.
Proof. unfold Q_of_nat, Qle. cbn. lia. Qed.

Lemma Q_of_nat_pos (n : nat) : (0 < n)%nat -> (0 < Q_of_nat n)%Q.
Proof. intros H. unfold Q_of_nat, Qlt. cbn. lia. Qed.

Lemma Q_of_nat_le (n m : nat) : (n <= m)%nat -> (Q_of_nat n <= Q_of_nat m)%Q.
Proof. intros H. unfold Q_of_nat, Qle. cbn. lia. Qed.

Lemma Q_ratio_unit (n m : nat) :
  (n <= m)%nat -> (0 < m)%nat ->
  (0 <= Q_of_nat n / Q_of_nat m /\ Q_of_nat n / Q_of_nat m <= 1)%Q.
Proof.
  intros Hle Hpos. split.
  - apply Qle_shift_div_l; [now apply Q_of_nat_pos|].
    rewrite Qmult_0_l. apply Q_of_nat_nonneg.
  - apply Qle_shift_div_r; [now apply Q_of_nat_pos|].
    rewrite Qmult_1_l. now apply Q_of_nat_le.
Qed.

Lemma Q_ratio_same (n : nat) : (0 < n)%nat -> (Q_of_nat n / Q_of_nat n == 1)%Q.
Proof.
  intros H. unfold Qdiv. apply Qmult_inv_r.
  intros E. apply Q_of_nat_pos in H. rewrite E in H. now apply Qlt_irrefl in H.
Qed.



Lemma jaccard_self (a : gset str) :
  (jaccard a a == if bool_decide (a = ∅) then 0 else 1)%Q.
Proof.
  rewrite jaccard_sets.
  rewrite (idemp_L (∪) a), (idemp_L (∩) a).
  case_bool_decide as Ha.
  - subst a. reflexivity.
  - destruct (Nat.eqb_spec (size a) 0) as [E|E].
    + apply size_empty_inv in E. apply leibniz_equiv in E. contradiction.
    + apply Q_ratio_same. lia.
Qed.

(** ** The similarity score *)

Lemma similarity_unfold (x y : str) :
  similarity x y
  = (jaccard (tokenSet (redactVolatile x)) (tokenSet (redactVolatile y)) * 0.6
     + edit_term (redactVolatile x) (redactVolatile y) * 0.4)%Q.
Proof. reflexivity. Qed.



Lemma edit_term_self (a : str) : (edit_term a a == 1)%Q.
Proof.
  unfold edit_term. rewrite levenshteinDistance_spec, lev_spec_refl.
  assert (E : (Q_of_nat 0 / Q_of_nat (max3 (length a) (length a) 1) == 0)%Q).
  { unfold Qdiv. apply Qmult_0_l. }
  rewrite E. rewrite Q.min_r by discriminate. reflexivity.
Qed.




(** ** The similarity score in binary64 *)


Lemma round64_1 : round64 1 = 1%Q.
Proof. vm_compute. reflexivity. Qed.

Lemma round64_unit (q : Q) : (0 <= q)%Q -> (q <= 1)%Q -> (0 <= round64 q /\ round64 q <= 1)%Q.
Proof.
  intros H0 H1. split.
  - now apply round64_nonneg.
  - rewrite <- round64_1. now apply round64_mono.
Qed.

Lemma jaccard64_sets (a b : gset str) :
  jaccard64 a b
  = if (size (a ∪ b) =? 0)%nat then 0%Q
    else f64_div (Q_of_nat (size (a ∩ b))) (Q_of_nat (size (a ∪ b))).
Proof. unfold jaccard64. now rewrite jaccard_inter, jaccard_union. Qed.

Lemma jaccard64_sym (a b : gset str) : jaccard64 a b = jaccard64 b a.
Proof.
  rewrite !jaccard64_sets.
  now rewrite (comm_L (∪) a b), (comm_L (∩) a b).
Qed.

Lemma jaccard64_unit (a b : gset str) : (0 <= jaccard64 a b /\ jaccard64 a b <= 1)%Q.
Proof.
  rewrite jaccard64_sets.
  destruct (Nat.eqb_spec (size (a ∪ b)) 0) as [E|E].
  - split; [apply Qle_refl | discriminate].
  - apply round64_unit; apply Q_ratio_unit; try lia;
      (apply subseteq_size;
       etrans; [apply intersection_subseteq_l | apply union_subseteq_l]).
Qed.


Lemma edit_term64_sym (a b : str) : edit_term64 a b = edit_term64 b a.
Proof.
  unfold edit_term64. rewrite !levenshteinDistance_spec, (lev_spec_sym a b).
  unfold max3. now rewrite (Nat.max_comm (length a) (length b)).
Qed.

Lemma edit_term64_unit (a b : str) : (0 <= edit_term64 a b /\ edit_term64 a b <= 1)%Q.
Proof.
  unfold edit_term64, f64_sub.
  set (r := f64_div _ _).
  assert (Hr : (0 <= r)%Q).
  { subst r. apply round64_nonneg. apply Q_ratio_unit; unfold max3; [|lia].
    rewrite levenshteinDistance_spec. pose proof (lev_spec_bound a b). lia. }
  pose proof (Q.le_min_l 1 r) as H1.
  assert (H0 : (0 <= Qmin 1 r)%Q).
  { apply Q.min_glb; [discriminate | exact Hr]. }
  apply round64_unit; lra.
Qed.


Lemma similarity64_unfold (x y : str) :
  similarity64 x y
  = f64_add
      (f64_mul (jaccard64 (tokenSet (redactVolatile x)) (tokenSet (redactVolatile y)))
         (round64 0.6))
      (f64_mul (edit_term64 (redactVolatile x) (redactVolatile y)) (round64 0.4)).
Proof. reflexivity. Qed.


(** The binary64 score is symmetric and lies in [0, 1]. *)
Lemma similarity64_symmetric_bounded (a b : str) :
  similarity64 a b = similarity64 b a
  /\ (0 <= similarity64 a b)%Q /\ (similarity64 a b <= 1)%Q.
Proof.
  rewrite !similarity64_unfold. split.
  - now rewrite jaccard64_sym, edit_term64_sym.
  - destruct (jaccard64_unit (tokenSet (redactVolatile a)) (tokenSet (redactVolatile b)))
      as [Hj0 Hj1].
    destruct (edit_term64_unit (redactVolatile a) (redactVolatile b)) as [He0 He1].
    set (j := jaccard64 _ _) in *. set (e := edit_term64 _ _) in *.
    assert (Hc6 : (0 <= round64 0.6)%Q) by (vm_compute; discriminate).
    assert (Hc4 : (0 <= round64 0.4)%Q) by (vm_compute; discriminate).
    assert (Hm6 : (0 <= f64_mul j (round64 0.6) /\ f64_mul j (round64 0.6) <= round64 0.6)%Q).
    { split.
      - apply round64_nonneg. now apply Qmult_le_0_compat.
      - assert (E : round64 0.6 = f64_mul 1 (round64 0.6)) by (vm_compute; reflexivity).
        rewrite E at 2. apply f64_mul_mono; lra. }
    assert (Hm4 : (0 <= f64_mul e (round64 0.4) /\ f64_mul e (round64 0.4) <= round64 0.4)%Q).
    { split.
      - apply round64_nonneg. now apply Qmult_le_0_compat.
      - assert (E : round64 0.4 = f64_mul 1 (round64 0.4)) by (vm_compute; reflexivity).
        rewrite E at 2. apply f64_mul_mono; lra. }
    split.
    + apply round64_nonneg. lra.
    + assert (E : f64_add (round64 0.6) (round64 0.4) = 1%Q) by (vm_compute; reflexivity).
      rewrite <- E. apply f64_add_mono; tauto.
Qed.

(** ** Attacker-vector scoring *)

Lemma Qge_bool_iff (x y : Q) : Qge_bool x y = true <-> (y <= x)%Q.
Proof. unfold Qge_bool. apply Qle_bool_iff. Qed.

Lemma Qge_bool_false (x y : Q) : (x < y)%Q -> Qge_bool x y = false.
Proof.
  intros H. destruct (Qge_bool x y) eqn:E; [|reflexivity].
  apply Qge_bool_iff in E. exfalso. apply (Qlt_not_le _ _ H E).
Qed.

Lemma clamp_unit (x : Q) : (0 <= Qmax 0 (Qmin 1 x) /\ Qmax 0 (Qmin 1 x) <= 1)%Q.
Proof.
  split.
  - apply Q.le_max_l.
  - apply Q.max_lub; [discriminate | apply Q.le_min_l].
Qed.

Lemma id_refinement_score (rt : Runtime) (bt atxt : str) (aid : option str) (s : scoring) :
  score (id_refinement rt bt atxt aid s)
  = (if leak_applies rt bt atxt
     then fun x => f64_add x (round64 0.15) else fun x => x)
      ((if discount_applies rt bt atxt aid
        then fun x => f64_sub x (round64 0.1) else fun x => x) (score s)).
Proof.
  unfold id_refinement, leak_applies, discount_applies.
  destruct (JSON_parse rt bt) as [jv|]; [|reflexivity].
  destruct (JSON_parse rt atxt) as [ja|]; [|reflexivity].
  destruct (match_id (JSON_stringify rt jv)) as [v|]; [|reflexivity].
  destruct (match_id (JSON_stringify rt ja)) as [a|];
    [destruct (bool_decide (Some v = aid))|];
    destruct (includes (JSON_stringify rt ja) v); reflexivity.
Qed.

(** C1, the code at the failing input: both bodies parse, the identifier
    extracted from the attacker's body (1002) is the attacker's own sample,
    the identifier of the victim's body (1001) is not, and the score is the
    base score 0.6 + min(0.4, 0.4 * similarity) with nothing subtracted:
    the number 0.8276923076923077. *)
Theorem attacker_own_id_not_discounted :
  let baselineText := qlit "{'id':'1001'}" in
  let attackerText := qlit "{'id':'1002'}" in
  let attackerId := Some (lit "1002") in
  (match_id <$> (JSON_stringify demo_rt <$> JSON_parse demo_rt baselineText))
    = Some (Some (lit "1001"))
  /\ (match_id <$> (JSON_stringify demo_rt <$> JSON_parse demo_rt attackerText))
    = Some attackerId
  /\ discount_applies demo_rt baselineText attackerText attackerId = false
  /\ (score (attacker_scoring demo_rt 200 baselineText 200 attackerText attackerId)
      == f64_add (f64_add 0 (round64 0.6))
           (Qmin (round64 0.4)
              (f64_mul (similarity64 baselineText attackerText) (round64 0.4))))%Q
  /\ (score (attacker_scoring demo_rt 200 baselineText 200 attackerText attackerId)
      == round64 0.8276923076923077)%Q.
Proof. split; [|split; [|split; [|split]]]; vm_compute; reflexivity. Qed.



(** ** What one probe does *)

Lemma job_trace_done {A} (a : A) evs t' :
  job_trace (Done a) evs t' -> evs = [] /\ t' = Done a.
Proof. inversion 1; subst; auto. Qed.

Lemma job_trace_thrown {A} (e : exn) evs (t' : task A) :
  job_trace (Thrown e) evs t' -> evs = [] /\ t' = Thrown e.
Proof. inversion 1; subst; auto. Qed.

Lemma job_trace_await {A} q (k : outcome -> task A) evs t' :
  job_trace (Await q k) evs t' ->
  (evs = [] /\ t' = Await q k)
  \/ exists o evs', evs = JFetch q o :: evs' /\ job_trace (k o) evs' t'.
Proof. inversion 1; subst; eauto. Qed.


Lemma job_trace_app {A} (t1 t2 t3 : task A) evs1 evs2 :
  job_trace t1 evs1 t2 -> job_trace t2 evs2 t3 -> job_trace t1 (evs1 ++ evs2) t3.
Proof. induction 1; intros; cbn; [assumption | constructor; auto ..]. Qed.

(** A complete run of [push_if]: the identifier is drawn and the finding
    pushed when the test holds, then the continuation runs. *)
Lemma job_trace_push_if {A} (b : bool) mk (k : task A) evs t' :
  job_trace (push_if b mk k) evs t' -> is_settled t' = true ->
  exists evs',
    job_trace k evs' t'
    /\ if b then exists id, evs = JUuid id :: JPush (mk id) :: evs' else evs = evs'.
Proof.
  intros H Hs. destruct b; cbn in H.
  - inversion H; subst; [discriminate|].
    match goal with X : job_trace (Push _ _) _ _ |- _ => inversion X; subst end;
      [discriminate|].
    eauto.
  - eauto.
Qed.

Lemma unauth_score_bounds (bt tu : str) :
  (round64 0.65 <= unauth_score bt tu /\ unauth_score bt tu <= 1)%Q.
Proof.
  unfold unauth_score.
  destruct (similarity64_symmetric_bounded bt tu) as (_ & H0 & H1).
  set (x := f64_mul (similarity64 bt tu) (round64 0.35)).
  assert (Hc : (0 <= round64 0.35)%Q) by (vm_compute; discriminate).
  assert (Hx : (0 <= x)%Q).
  { subst x. apply round64_nonneg. now apply Qmult_le_0_compat. }
  pose proof (Q.le_min_l (round64 0.35) x).
  assert ((0 <= Qmin (round64 0.35) x)%Q) by (apply Q.min_glb; assumption).
  split.
  - assert (E : round64 0.65 = f64_add (round64 0.65) 0) by (vm_compute; reflexivity).
    rewrite E at 1. apply f64_add_mono; [apply Qle_refl | assumption].
  - assert (E : f64_add (round64 0.65) (round64 0.35) = 1%Q) by (vm_compute; reflexivity).
    rewrite <- E. apply f64_add_mono; [apply Qle_refl | assumption].
Qed.

(** Rounding to three decimals keeps a number between two multiples of
    0.001. *)
Lemma toFixed3_between (lo hi : Z) (x : Q) :
  (0 <= x)%Q ->
  (inject_Z lo <= x * 1000)%Q -> (x * 1000 <= inject_Z hi)%Q ->
  (inject_Z lo <= toFixed 3 x * 1000 /\ toFixed 3 x * 1000 <= inject_Z hi)%Q.
Proof.
  intros Hx Hlo Hhi. unfold toFixed.
  apply Qle_bool_iff in Hx. rewrite Hx.
  change (inject_Z (10 ^ Z.of_nat 3)) with 1000%Q.
  set (y := (x * 1000 + (1 # 2))%Q).
  assert (H1 : (lo <= Qfloor y)%Z).
  { rewrite <- (Qfloor_Z lo). apply Qfloor_resp_le. subst y. lra. }
  assert (H2 : (Qfloor y <= hi)%Z).
  { pose proof (Qfloor_le y) as Hf.
    assert (Hlt : (inject_Z (Qfloor y) < inject_Z (hi + 1))%Q).
    { rewrite inject_Z_plus. subst y. change (inject_Z 1) with 1%Q. lra. }
    rewrite <- Zlt_Qlt in Hlt. lia. }
  rewrite Zle_Qle in H1, H2.
  assert (E : (inject_Z (Qfloor y) / 1000 * 1000 == inject_Z (Qfloor y))%Q) by field.
  rewrite E. split; assumption.
Qed.

(** The decimal is read back as a number between the numbers the two
    bounds denote. *)
Lemma Number_toFixed3_between (lo hi : Z) (x : Q) :
  (0 <= x)%Q ->
  (inject_Z lo <= x * 1000)%Q -> (x * 1000 <= inject_Z hi)%Q ->
  (round64 (inject_Z lo / 1000) <= Number (toFixed 3 x)
   /\ Number (toFixed 3 x) <= round64 (inject_Z hi / 1000))%Q.
Proof.
  intros Hx Hlo Hhi. destruct (toFixed3_between lo hi x Hx Hlo Hhi) as [A B].
  unfold Number. split; apply round64_mono.
  - apply Qle_shift_div_r; [reflexivity | exact A].
  - apply Qle_shift_div_l; [reflexivity | exact B].
Qed.

Lemma unauth_confidence_bounds (bt tu : str) :
  (round64 0.65 <= Number (toFixed 3 (unauth_score bt tu))
   /\ Number (toFixed 3 (unauth_score bt tu)) <= 1)%Q.
Proof.
  destruct (unauth_score_bounds bt tu) as [H0 H1].
  assert (Hc : (0.65 <= round64 0.65)%Q) by (vm_compute; discriminate).
  destruct (Number_toFixed3_between 650 1000 (unauth_score bt tu)) as [A B].
  - lra.
  - change (inject_Z 650) with 650%Q. lra.
  - change (inject_Z 1000) with 1000%Q. lra.
  - assert (E1 : round64 (inject_Z 650 / 1000) = round64 0.65) by (vm_compute; reflexivity).
    assert (E2 : round64 (inject_Z 1000 / 1000) = 1%Q) by (vm_compute; reflexivity).
    rewrite E1 in A. rewrite E2 in B. split; assumption.
Qed.

Lemma job_trace_await_settled {A} q (k : outcome -> task A) evs t' :
  job_trace (Await q k) evs t' -> is_settled t' = true ->
  exists o evs', evs = JFetch q o :: evs' /\ job_trace (k o) evs' t'.
Proof.
  intros H Hs. apply job_trace_await in H as [[_ ->]|H]; [discriminate | exact H].
Qed.

Lemma after_unauth_trace cfg ep path bs bt ou evs t' :
  job_trace (after_unauth cfg ep path bs bt ou) evs t' -> is_settled t' = true ->
  t' = Done tt /\ exists id, evs = unauth_events cfg ep path bs bt ou id.
Proof.
  intros H Hs. unfold after_unauth, unauth_events, unauth_emits in *.
  destruct ou as [| |su tu];
    try (apply job_trace_done in H as [-> ->]; split; [|exists []]; reflexivity).
  destruct (is_2xx su); cbn [andb];
    [|apply job_trace_done in H as [-> ->]; split; [|exists []]; reflexivity].
  apply job_trace_push_if in H as (evs' & Hk & Hev); [|exact Hs].
  apply job_trace_done in Hk as [-> ->].
  destruct (Qge_bool _ _).
  - destruct Hev as [id ->]. eauto.
  - subst evs. split; [|exists []]; reflexivity.
Qed.

Lemma unauth_probe_trace cfg ep path url bs bt evs t' :
  job_trace (unauth_probe cfg ep path url bs bt) evs t' -> is_settled t' = true ->
  t' = Done tt
  /\ exists ou id,
      evs = match unauthenticated (authContexts cfg) with
            | Some true =>
                JFetch (unauth_request cfg ep url) ou
                :: unauth_events cfg ep path bs bt ou id
            | _ => []
            end.
Proof.
  intros H Hs. unfold unauth_probe in H.
  destruct (unauthenticated (authContexts cfg)) as [[|]|];
    try (apply job_trace_done in H as [-> ->]; split;
         [|exists FetchFailed, []]; reflexivity).
  apply job_trace_await_settled in H as (ou & evs' & -> & H); [|exact Hs].
  apply after_unauth_trace in H as [-> [id ->]]; [|exact Hs]. eauto.
Qed.

Lemma after_attacker_trace rt cfg ep aid path url bs bt oa evs t' :
  job_trace (after_attacker rt cfg ep aid path url bs bt oa) evs t' ->
  is_settled t' = true ->
  t' = Done tt
  /\ exists id1 ou id2,
      evs = attacker_events rt cfg ep aid path bs bt oa id1
            ++ match unauthenticated (authContexts cfg) with
               | Some true =>
                   JFetch (unauth_request cfg ep url) ou
                   :: unauth_events cfg ep path bs bt ou id2
               | _ => []
               end.
Proof.
  intros H Hs. unfold after_attacker in H.
  apply job_trace_push_if in H as (evs' & Hk & Hev); [|exact Hs].
  apply unauth_probe_trace in Hk as [-> (ou & id2 & ->)]; [|exact Hs].
  split; [reflexivity|].
  unfold attacker_events, attacker_emits. destruct (Qge_bool _ _).
  - destruct Hev as [id ->]. exists id, ou, id2. reflexivity.
  - subst evs. exists [], ou, id2. reflexivity.
Qed.

(** A probe that runs to its end does what [probe_events] says, and
    settles as [probe_result] says. *)
Lemma probe_trace_complete rt cfg ep aid path url vinit evs t' :
  job_trace (probe rt cfg ep aid path url vinit) evs t' -> is_settled t' = true ->
  exists o oa ou id1 id2,
    evs = probe_events rt cfg ep aid path url vinit o oa ou id1 id2
    /\ settled_as t' (probe_result rt cfg path o).
Proof.
  intros H Hs. unfold probe in H.
  apply job_trace_await_settled in H as (o & evs' & -> & H); [|exact Hs].
  exists o. unfold probe_events, probe_result, after_baseline in *.
  destruct o as [| |bs bt];
    try (apply job_trace_done in H as [-> ->];
         exists FetchFailed, FetchFailed, [], []; split; reflexivity).
  destruct (buildUrl rt (baseUrl cfg) path []) as [u|];
    [|apply job_trace_thrown in H as [-> ->];
      exists FetchFailed, FetchFailed, [], []; split; reflexivity].
  destruct (attacker_init cfg) as [ai|];
    [|apply job_trace_thrown in H as [-> ->];
      exists FetchFailed, FetchFailed, [], []; split; reflexivity].
  apply job_trace_await_settled in H as (oa & evs'' & -> & H); [|exact Hs].
  apply after_attacker_trace in H as [-> (id1 & ou & id2 & ->)]; [|exact Hs].
  exists oa, ou, id1, id2. split; reflexivity.
Qed.

(** Conversely, every choice of outcomes and identifiers is a run. *)
Lemma probe_events_trace rt cfg ep aid path url vinit o oa ou id1 id2 :
  exists t',
    job_trace (probe rt cfg ep aid path url vinit)
      (probe_events rt cfg ep aid path url vinit o oa ou id1 id2) t'
    /\ settled_as t' (probe_result rt cfg path o).
Proof.
  unfold probe, probe_events, probe_result.
  destruct o as [| |bs bt];
    try (exists (Done tt); split; [apply jt_fetch, jt_stop | reflexivity]).
  destruct (buildUrl rt (baseUrl cfg) path []) as [u|] eqn:Eu;
    [|exists (Thrown TypeError); split; [|reflexivity];
      apply jt_fetch; cbn; rewrite Eu; apply jt_stop].
  destruct (attacker_init cfg) as [ai|] eqn:Ea;
    [|exists (Thrown TypeError); split; [|reflexivity];
      apply jt_fetch; cbn; rewrite Eu, Ea; apply jt_stop].
  exists (Done tt). split; [|reflexivity].
  apply jt_fetch. cbn. rewrite Eu, Ea. apply jt_fetch.
  unfold after_attacker, attacker_events, attacker_emits.
  assert (Hun : job_trace (unauth_probe cfg ep path url bs bt)
                  match unauthenticated (authContexts cfg) with
                  | Some true =>
                      JFetch (unauth_request cfg ep url) ou
                      :: unauth_events cfg ep path bs bt ou id2
                  | _ => []
                  end (Done tt)).
  { unfold unauth_probe.
    destruct (unauthenticated (authContexts cfg)) as [[|]|]; try apply jt_stop.
    apply jt_fetch. unfold after_unauth, unauth_events, unauth_emits.
    destruct ou as [| |su tu]; try apply jt_stop.
    destruct (is_2xx su); cbn [andb]; [|apply jt_stop].
    destruct (Qge_bool _ _); cbn [push_if]; [|apply jt_stop].
    apply jt_uuid, jt_push, jt_stop. }
  destruct (Qge_bool _ _); cbn [push_if app].
  - apply jt_uuid, jt_push. exact Hun.
  - exact Hun.
Qed.

(** ** Findings of the attacker vector and of the unauthenticated vector *)




Ltac in_inv :=
  repeat match goal with
    | H : In _ [] |- _ => destruct H
    | H : In _ (_ :: _) |- _ => destruct H as [H | H]; [try discriminate H|]
    end.






(** C10, the claim as stated fails: with an attacker header whose name is
    not a valid header name, the job throws while it prepares the attacker
    request (line 147), the scheduler discards it, and the unauthenticated
    request is never made although the flag is set and the baseline
    answered. *)
Lemma unauth_probe_skipped_when_attacker_init_throws :
  let body := demo_body_with "http://api.test/api/mock" "x user"
                ["/users/{id}"%string] 0.8 in
  let r := POST demo_rt (Some body)
             [(0%nat, Responded 404 (lit "Not Found")); (0%nat, FetchFailed)] in
  let cfg := demo_cfg_with (lit "http://api.test/api/mock") (lit "x user")
               [demo_endpoint] in
  safeParse demo_rt body = Valid cfg
  /\ unauthenticated (authContexts cfg) = Some true
  /\ attacker_init cfg = None
  /\ result r = Response 200 (FindingsBody [])
  /\ trace r = [(0%nat, JStart);
                (0%nat, JFetch demo_victim_request (Responded 404 (lit "Not Found")));
                (0%nat, JSettle None)].
Proof. vm_compute. repeat split; reflexivity. Qed.

(** C10, amended: when the unauthenticated flag is set, the baseline request
    does not throw and the attacker request can be prepared, a probe that
    runs to its end makes the unauthenticated request whatever the status
    of the baseline; it pushes a finding of the unauthenticated vector
    exactly when that request is answered with a 2xx status and the score
    0.65 + min(0.35, similarity * 0.35), computed in binary64, reaches the
    threshold; the confidence of such a finding is that score printed with
    three decimals and read back, and it lies between the numbers 0.65
    and 1. *)
Theorem unauth_vector_gate (rt : Runtime) (cfg : ScanRequest) (ep : Endpoint)
    (aid : option str) (path url : str) (vinit : header_list)
    (q : Request) (bs : nat) (bt : str) (evs : list (jev unit)) (t' : task unit) :
  unauthenticated (authContexts cfg) = Some true ->
  buildUrl rt (baseUrl cfg) path [] <> None ->
  attacker_init cfg <> None ->
  job_trace (probe rt cfg ep aid path url vinit) (JFetch q (Responded bs bt) :: evs) t' ->
  is_settled t' = true ->
  let s (tu : str) :=
    f64_add (round64 0.65)
      (Qmin (round64 0.35) (f64_mul (similarity64 bt tu) (round64 0.35))) in
  exists ou,
    In (JFetch (unauth_request cfg ep url) ou) evs
    /\ (forall f, In (JPush f) evs -> f_attackVector f = UnauthenticatedVector ->
        exists su tu id,
          ou = Responded su tu /\ is_2xx su = true
          /\ f = unauth_finding ep path bs bt su tu id
          /\ f_confidence f = Number (toFixed 3 (s tu))
          /\ (speedGateThreshold cfg <= s tu)%Q
          /\ (round64 0.65 <= f_confidence f)%Q /\ (f_confidence f <= 1)%Q)
    /\ (forall su tu,
          ou = Responded su tu -> is_2xx su = true ->
          (speedGateThreshold cfg <= s tu)%Q ->
          exists id, In (JPush (unauth_finding ep path bs bt su tu id)) evs).
Proof.
  intros Hflag Hurl Hinit Htr Hs s.
  apply probe_trace_complete in Htr as (o & oa & ou & id1 & id2 & Hev & _); [|exact Hs].
  unfold probe_events in Hev. injection Hev as _ <- ->.
  destruct (buildUrl rt (baseUrl cfg) path []) as [u|]; [|contradiction].
  destruct (attacker_init cfg) as [ai|]; [|contradiction].
  rewrite Hflag. exists ou.
  assert (Hatk : forall f, In (JPush f) (attacker_events rt cfg ep aid path bs bt oa id1) ->
                           f_attackVector f = AttackerViaUrlId).
  { intros f Hin. unfold attacker_events in Hin.
    destruct (attacker_emits rt cfg aid bs bt oa); in_inv.
    injection Hin as <-. reflexivity. }
  split; [|split].
  - right. apply in_or_app. right. left. reflexivity.
  - intros f Hin Hvec.
    destruct Hin as [Hin|Hin]; [discriminate|].
    apply in_app_or in Hin as [Hin|Hin].
    { apply Hatk in Hin. congruence. }
    destruct Hin as [Hin|Hin]; [discriminate|].
    unfold unauth_events, unauth_emits in Hin.
    destruct ou as [| |su tu]; in_inv.
    destruct (is_2xx su) eqn:E2; cbn [andb] in Hin; in_inv.
    destruct (Qge_bool _ _) eqn:Eg; in_inv.
    injection Hin as <-. exists su, tu, id2.
    apply Qge_bool_iff in Eg.
    destruct (unauth_confidence_bounds bt tu) as [B0 B1].
    split; [reflexivity|]. split; [exact E2|]. split; [reflexivity|].
    split; [reflexivity|]. split; [exact Eg|]. split; [exact B0 | exact B1].
  - intros su tu -> E2 Hge. exists id2.
    right. apply in_or_app. right. right.
    unfold unauth_events, unauth_emits. rewrite E2.
    apply Qge_bool_iff in Hge. change (s tu) with (unauth_score bt tu) in Hge.
    cbn [andb]. rewrite Hge.
    right. left. reflexivity.
Qed.

Lemma unauth_vector_gate_witness :
  exists f,
    In (JPush f)
      (probe_events demo_rt demo_cfg demo_endpoint (Some (lit "1002")) (lit "/users/1001")
         (lit "http://api.test/api/mock/users/1001") [(lit "x-user-id", lit "1001")]
         (Responded 500 (lit "oops")) FetchFailed (Responded 200 (lit "oops"))
         (lit "id-1") (lit "id-2"))
    /\ f_attackVector f = UnauthenticatedVector
    /\ f_statusVictim f = 500%nat.
Proof.
  destruct (probe_events_trace demo_rt demo_cfg demo_endpoint (Some (lit "1002"))
              (lit "/users/1001") (lit "http://api.test/api/mock/users/1001")
              [(lit "x-user-id", lit "1001")]
              (Responded 500 (lit "oops")) FetchFailed (Responded 200 (lit "oops"))
              (lit "id-1") (lit "id-2")) as (t' & Htr & Hres).
  assert (Hs : is_settled t' = true).
  { destruct t'; cbn in Hres; try contradiction; reflexivity. }
  destruct (unauth_vector_gate demo_rt demo_cfg demo_endpoint (Some (lit "1002"))
              (lit "/users/1001") (lit "http://api.test/api/mock/users/1001")
              [(lit "x-user-id", lit "1001")] demo_victim_request 500 (lit "oops")
              _ t' eq_refl ltac:(vm_compute; discriminate) ltac:(vm_compute; discriminate)
              Htr Hs)
    as (ou & Hin & _ & Hemit).
  assert (Hou : ou = Responded 200 (lit "oops")).
  { vm_compute in Hin.
    repeat (destruct Hin as [Hin|Hin]; [try discriminate Hin|]);
      [injection Hin as <-; reflexivity | destruct Hin]. }
  destruct (Hemit 200%nat (lit "oops") Hou eq_refl ltac:(vm_compute; discriminate))
    as (id & Hpush).
  eexists. split; [right; exact Hpush|]. split; reflexivity.
Defined.

(** ** The scheduler: what every run of the pool preserves *)

Section PoolFacts.
Context {A : Type} (rt : Runtime) (jobs : list (task A)) (F0 : list Finding).

Implicit Types (p : pool A) (t : task A) (log : list (nat * jev A)).

Lemma events_of_app i log1 log2 :
  events_of i (log1 ++ log2) = events_of i log1 ++ events_of i log2.
Proof. apply omap_app. Qed.

Lemma starts_app log1 log2 : starts (log1 ++ log2) = starts log1 ++ starts log2.
Proof. apply omap_app. Qed.

Lemma pushes_app log1 log2 : pushes (log1 ++ log2) = pushes log1 ++ pushes log2.
Proof. apply omap_app. Qed.

Lemma successes_app log1 log2 :
  successes (log1 ++ log2) = successes log1 ++ successes log2.
Proof. apply omap_app. Qed.

Lemma settlements_app log1 log2 :
  settlements (log1 ++ log2) = settlements log1 ++ settlements log2.
Proof. apply omap_app. Qed.

Lemma events_of_tag_same i (evs : list (jev A)) :
  events_of i (map (pair i) evs) = evs.
Proof.
  unfold events_of. induction evs as [|e evs IH]; cbn; [reflexivity|].
  rewrite bool_decide_eq_true_2 by reflexivity. cbn. now rewrite IH.
Qed.

Lemma events_of_tag_other i j (evs : list (jev A)) :
  i <> j -> events_of i (map (pair j) evs) = [].
Proof.
  intros Hne. unfold events_of. induction evs as [|e evs IH]; cbn; [reflexivity|].
  rewrite bool_decide_eq_false_2 by congruence. cbn. exact IH.
Qed.

Lemma job_trace_internal t (evs : list (jev A)) t' :
  job_trace t evs t' -> Forall internal evs.
Proof. induction 1; constructor; cbn; auto. Qed.

Lemma starts_internal i (evs : list (jev A)) : Forall internal evs -> starts (map (pair i) evs) = [].
Proof.
  induction 1 as [|e evs He _ IH]; [reflexivity|].
  unfold starts in *. cbn. destruct e; cbn in *; try contradiction; exact IH.
Qed.

Lemma successes_internal i (evs : list (jev A)) :
  Forall internal evs -> successes (map (pair i) evs) = [].
Proof.
  induction 1 as [|e evs He _ IH]; [reflexivity|].
  unfold successes in *. cbn. destruct e; cbn in *; try contradiction; exact IH.
Qed.

Lemma settlements_internal i (evs : list (jev A)) :
  Forall internal evs -> settlements (map (pair i) evs) = [].
Proof.
  induction 1 as [|e evs He _ IH]; [reflexivity|].
  unfold settlements in *. cbn. destruct e; cbn in *; try contradiction; exact IH.
Qed.

(** The synchronous stretch of a job: a piece of its trace made of draws and
    pushes, appended to the log; the findings pushed are appended to the
    shared list; nothing else changes. *)
Lemma advance_spec i t p :
  exists evs,
    job_trace t evs (advance rt i t p).1
    /\ suspended (advance rt i t p).1 = true
    /\ p_log (advance rt i t p).2 = p_log p ++ map (pair i) evs
    /\ p_findings (advance rt i t p).2 = p_findings p ++ pushes (map (pair i) evs)
    /\ p_idx (advance rt i t p).2 = p_idx p
    /\ p_out (advance rt i t p).2 = p_out p
    /\ p_runners (advance rt i t p).2 = p_runners p.
Proof.
  revert p. induction t as [a|e|q k IH|k IH|f k IH]; intros p.
  - exists []. cbn. rewrite !app_nil_r. repeat split; constructor.
  - exists []. cbn. rewrite !app_nil_r. repeat split; constructor.
  - exists []. cbn. rewrite !app_nil_r. repeat split; constructor.
  - cbn [advance].
    edestruct (IH (uuidv4 rt (p_nuuid p))) as (evs & Htr & Hs & Hlog & Hf & Hi & Ho & Hr).
    exists (JUuid (uuidv4 rt (p_nuuid p)) :: evs).
    rewrite Hlog, Hf, Hi, Ho, Hr. cbn.
    rewrite <- !app_assoc. repeat split; try assumption. now constructor.
  - cbn [advance].
    edestruct IH as (evs & Htr & Hs & Hlog & Hf & Hi & Ho & Hr).
    exists (JPush f :: evs).
    rewrite Hlog, Hf, Hi, Ho, Hr. cbn.
    rewrite <- !app_assoc. repeat split; try assumption. now constructor.
Qed.


Lemma loop_head_spec p :
  match jobs !! p_idx p with
  | Some t0 =>
      exists evs t' p2,
        loop_head rt jobs p = (Busy (p_idx p) t', p2)
        /\ job_trace t0 evs t' /\ suspended t' = true
        /\ p_log p2 = p_log p ++ (p_idx p, JStart) :: map (pair (p_idx p)) evs
        /\ p_findings p2 = p_findings p ++ pushes (map (pair (p_idx p)) evs)
        /\ p_idx p2 = S (p_idx p) /\ p_out p2 = p_out p
        /\ p_runners p2 = p_runners p
  | None => loop_head rt jobs p = (Finished, p)
  end.
Proof.
  unfold loop_head. destruct (jobs !! p_idx p) as [t0|]; [|reflexivity].
  match goal with |- context [advance rt ?i ?t ?q] =>
    destruct (advance_spec i t q) as (evs & Htr & Hs & Hlog & Hf & Hi & Ho & Hr);
    destruct (advance rt i t q) as [t' p2] end.
  cbn in *. exists evs, t', p2. rewrite Hlog, <- app_assoc. auto 10.
Qed.

Lemma running_lt hole p i t :
  pool_inv jobs F0 hole p -> running jobs (p_log p) i t -> i < p_idx p.
Proof.
  intros Hinv (t0 & evs & _ & Hev & _).
  destruct (Nat.lt_ge_cases i (p_idx p)) as [H|H]; [exact H|].
  rewrite (inv_fresh _ _ _ _ Hinv i H) in Hev. discriminate.
Qed.

Lemma running_extend log i t j more :
  i <> j -> running jobs log i t -> running jobs (log ++ map (pair j) more) i t.
Proof.
  intros Hne (t0 & evs & Hj & Hev & Htr). exists t0, evs.
  rewrite events_of_app, events_of_tag_other, app_nil_r by exact Hne. auto.
Qed.

Lemma collected_extend log i res j more :
  i <> j -> collected jobs log i res -> collected jobs (log ++ map (pair j) more) i res.
Proof.
  intros Hne (t0 & evs & t & Hj & Hev & Htr & Hs). exists t0, evs, t.
  rewrite events_of_app, events_of_tag_other, app_nil_r by exact Hne. auto.
Qed.

Lemma running_not_collected log i t res :
  running jobs log i t -> collected jobs log i res -> False.
Proof.
  intros (t0 & evs & _ & Hev & Htr) (t0' & evs' & t' & _ & Hev' & _).
  rewrite Hev in Hev'. injection Hev' as ->.
  apply job_trace_internal in Htr. apply Forall_app in Htr as [_ Htr].
  inversion Htr as [|? ? Hbad]. exact Hbad.
Qed.

(** The runner in the hole takes its next job, or leaves its loop. *)
Lemma place_inv r p1 x p2 rs :
  pool_inv jobs F0 (Some r) p1 ->
  loop_head rt jobs p1 = (x, p2) ->
  rs !! r = Some x ->
  (forall r0, r0 <> r -> rs !! r0 = p_runners p1 !! r0) ->
  pool_inv jobs F0 None (with_runners rs p2).
Proof.
  intros Hinv Hlh Hr Hrs.
  pose proof (loop_head_spec p1) as Hspec.
  destruct (jobs !! p_idx p1) as [t0|] eqn:Hjob.
  - destruct Hspec as (evs & t' & p2' & Hlh' & Htr & Hsus & Hlog & Hf & Hi & Ho & Hrun).
    rewrite Hlh in Hlh'. injection Hlh' as -> <-.
    pose proof (job_trace_internal _ _ _ Htr) as Hint.
    assert (Hlt : p_idx p1 < length jobs) by (eapply lookup_lt_Some; eauto).
    assert (Hlog' : p_log p2
                    = p_log p1 ++ map (pair (p_idx p1)) (JStart :: evs)) by exact Hlog.
    constructor; cbn [with_runners p_idx p_out p_runners p_findings p_log].
    + lia.
    + rewrite Hlog, Hi, starts_app, (inv_starts _ _ _ _ Hinv), seq_S.
      unfold starts at 1. cbn. fold (starts (map (pair (p_idx p1)) evs)).
      now rewrite starts_internal.
    + rewrite Hf, Hlog, pushes_app, (inv_findings _ _ _ _ Hinv), <- app_assoc.
      reflexivity.
    + rewrite Ho, Hlog, successes_app, (inv_out _ _ _ _ Hinv).
      unfold successes at 3. cbn. fold (successes (map (pair (p_idx p1)) evs)).
      now rewrite successes_internal, app_nil_r.
    + intros r0 i t _ Hl. destruct (decide (r0 = r)) as [->|Hne].
      * rewrite Hr in Hl. injection Hl as <- <-. split; [exact Hsus|].
        exists t0, evs. rewrite Hlog', events_of_app, events_of_tag_same,
          (inv_fresh _ _ _ _ Hinv) by lia. auto.
      * rewrite Hrs in Hl by exact Hne.
        destruct (inv_busy _ _ _ _ Hinv r0 i t) as [Hs Hrn]; [congruence | exact Hl |].
        split; [exact Hs|]. rewrite Hlog'. apply running_extend; [|exact Hrn].
        pose proof (running_lt _ _ _ _ Hinv Hrn). lia.
    + intros r0 r0' i t t1 _ _ Hl Hl'.
      assert (Hold : forall r1 t2, r1 <> r -> rs !! r1 = Some (Busy i t2) ->
                                   i < p_idx p1).
      { intros r1 t2 Hne H1. rewrite Hrs in H1 by exact Hne.
        destruct (inv_busy _ _ _ _ Hinv r1 i t2) as [_ Hrn]; [congruence | exact H1 |].
        eapply running_lt; eauto. }
      destruct (decide (r0 = r)) as [->|Hne], (decide (r0' = r)) as [->|Hne'].
      * reflexivity.
      * rewrite Hr in Hl. injection Hl as <- <-.
        pose proof (Hold r0' t1 Hne' Hl'). lia.
      * rewrite Hr in Hl'. injection Hl' as <- <-.
        pose proof (Hold r0 t Hne Hl). lia.
      * rewrite Hrs in Hl, Hl' by assumption.
        eapply (inv_inj _ _ _ _ Hinv); [| | exact Hl | exact Hl']; congruence.
    + intros i Hi'. rewrite Hi in Hi'.
      destruct (decide (i = p_idx p1)) as [->|Hne].
      * left. exists r, t'. auto.
      * destruct (inv_started _ _ _ _ Hinv i) as [(r0 & t & Hh & Hl)|[res Hc]]; [lia| |].
        -- left. exists r0, t. split; [discriminate|].
           rewrite Hrs by congruence. exact Hl.
        -- right. exists res. rewrite Hlog'. now apply collected_extend.
    + intros i Hi'. rewrite Hi in Hi'.
      rewrite Hlog', events_of_app, events_of_tag_other, app_nil_r by lia.
      apply (inv_fresh _ _ _ _ Hinv). lia.
    + intros r0 _ Hl. destruct (decide (r0 = r)) as [->|Hne].
      * rewrite Hr in Hl. discriminate.
      * rewrite Hrs in Hl by exact Hne.
        pose proof (inv_finished _ _ _ _ Hinv r0 ltac:(congruence) Hl). lia.
  - rewrite Hlh in Hspec. injection Hspec as -> ->.
    assert (Hfull : p_idx p1 = length jobs).
    { apply lookup_ge_None in Hjob. pose proof (inv_idx _ _ _ _ Hinv). lia. }
    constructor; cbn [with_runners p_idx p_out p_runners p_findings p_log];
      try apply Hinv.
    + intros r0 i t _ Hl. destruct (decide (r0 = r)) as [->|Hne].
      * rewrite Hr in Hl. discriminate.
      * rewrite Hrs in Hl by exact Hne.
        apply (inv_busy _ _ _ _ Hinv r0); [congruence | exact Hl].
    + intros r0 r0' i t t1 _ _ Hl Hl'.
      destruct (decide (r0 = r)) as [->|Hne]; [rewrite Hr in Hl; discriminate|].
      destruct (decide (r0' = r)) as [->|Hne']; [rewrite Hr in Hl'; discriminate|].
      rewrite Hrs in Hl, Hl' by assumption.
      eapply (inv_inj _ _ _ _ Hinv); [| | exact Hl | exact Hl']; congruence.
    + intros i Hi'.
      destruct (inv_started _ _ _ _ Hinv i Hi') as [(r0 & t & Hh & Hl)|Hc].
      * left. exists r0, t. split; [discriminate|].
        rewrite Hrs by congruence. exact Hl.
      * right. exact Hc.
    + intros. exact Hfull.
Qed.


(** The runner collects its settled job: the slot becomes the hole. *)
Lemma collect_inv r i t res p :
  pool_inv jobs F0 None p ->
  p_runners p !! r = Some (Busy i t) -> settled_as t res ->
  pool_inv jobs F0 (Some r) (collect i res p).
Proof.
  intros Hinv Hl Hset.
  destruct (inv_busy _ _ _ _ Hinv r i t) as [_ Hrn]; [discriminate | exact Hl |].
  pose proof (running_lt _ _ _ _ Hinv Hrn) as Hlt.
  assert (Hlog : p_log (collect i res p) = p_log p ++ map (pair i) [JSettle res])
    by reflexivity.
  constructor; cbn [collect p_idx p_out p_runners p_findings].
  - apply Hinv.
  - rewrite Hlog, starts_app. cbn. rewrite app_nil_r. apply Hinv.
  - rewrite Hlog, pushes_app. cbn. rewrite app_nil_r. apply Hinv.
  - rewrite Hlog, successes_app, <- (inv_out _ _ _ _ Hinv).
    destruct res; cbn; [reflexivity | now rewrite app_nil_r].
  - intros r0 i0 t0 Hh Hl0.
    destruct (inv_busy _ _ _ _ Hinv r0 i0 t0) as [Hs Hrn0]; [discriminate | exact Hl0 |].
    split; [exact Hs|]. rewrite Hlog. apply running_extend; [|exact Hrn0].
    intros ->. apply Hh. f_equal.
    eapply (inv_inj _ _ _ _ Hinv); [| | exact Hl | exact Hl0]; discriminate.
  - intros r0 r0' i0 t0 t1 _ _. apply (inv_inj _ _ _ _ Hinv); discriminate.
  - intros j Hj.
    destruct (decide (j = i)) as [->|Hne].
    + right. exists res. destruct Hrn as (t0 & evs & Hjob & Hev & Htr).
      exists t0, evs, t. rewrite Hlog, events_of_app, events_of_tag_same, Hev. auto.
    + destruct (inv_started _ _ _ _ Hinv j Hj) as [(r0 & t0 & _ & Hl0)|[res0 Hc]].
      * left. exists r0, t0. split; [|exact Hl0].
        intros [= ->]. rewrite Hl in Hl0. congruence.
      * right. exists res0. rewrite Hlog. now apply collected_extend.
  - intros j Hj.
    rewrite Hlog, events_of_app, events_of_tag_other, app_nil_r by lia.
    now apply Hinv.
  - intros r0 _. apply (inv_finished _ _ _ _ Hinv). discriminate.
Qed.

(** The outcome of a request is delivered to a suspended job. *)
Lemma deliver_inv r i q k o p :
  pool_inv jobs F0 None p ->
  p_runners p !! r = Some (Busy i (Await q k)) ->
  pool_inv jobs F0 None
    (set_runner r (Busy i (advance rt i (k o) (log_event i (JFetch q o) p)).1)
       (advance rt i (k o) (log_event i (JFetch q o) p)).2).
Proof.
  intros Hinv Hl.
  destruct (inv_busy _ _ _ _ Hinv r i (Await q k)) as [_ Hrn];
    [discriminate | exact Hl |].
  pose proof (running_lt _ _ _ _ Hinv Hrn) as Hlt.
  destruct (advance_spec i (k o) (log_event i (JFetch q o) p))
    as (evs & Htr & Hsus & Hlog & Hf & Hi & Ho & Hr).
  destruct (advance rt i (k o) (log_event i (JFetch q o) p)) as [t' p'].
  cbn [fst snd log_event p_log p_findings p_idx p_out p_runners] in *.
  pose proof (job_trace_internal _ _ _ Htr) as Hint.
  assert (Hlog' : p_log p' = p_log p ++ map (pair i) (JFetch q o :: evs)).
  { rewrite Hlog, <- app_assoc. reflexivity. }
  assert (Hlen : r < length (p_runners p)) by (eapply lookup_lt_Some; eauto).
  constructor; cbn [set_runner p_idx p_out p_runners p_findings p_log].
  - rewrite Hi. apply Hinv.
  - rewrite Hlog', Hi, starts_app, starts_internal, app_nil_r;
      [apply Hinv | constructor; [exact I | exact Hint]].
  - rewrite Hf, Hlog, !pushes_app, (inv_findings _ _ _ _ Hinv), <- !app_assoc.
    reflexivity.
  - rewrite Ho, Hlog', successes_app, successes_internal, app_nil_r;
      [apply Hinv | constructor; [exact I | exact Hint]].
  - intros r0 i0 t0 _ Hl0. rewrite Hr in Hl0.
    destruct (decide (r0 = r)) as [->|Hne].
    + rewrite list_lookup_insert_eq in Hl0 by exact Hlen. injection Hl0 as <- <-.
      split; [exact Hsus|].
      destruct Hrn as (t0 & evs0 & Hjob & Hev & Htr0). exists t0, (evs0 ++ JFetch q o :: evs).
      rewrite Hlog', events_of_app, events_of_tag_same, Hev. split; [exact Hjob|].
      split; [reflexivity|].
      eapply job_trace_app; [exact Htr0 | now constructor].
    + rewrite list_lookup_insert_ne in Hl0 by congruence.
      destruct (inv_busy _ _ _ _ Hinv r0 i0 t0) as [Hs Hrn0]; [discriminate | exact Hl0 |].
      split; [exact Hs|]. rewrite Hlog'. apply running_extend; [|exact Hrn0].
      intros ->. apply Hne.
      eapply (inv_inj _ _ _ _ Hinv); [| | exact Hl0 | exact Hl]; discriminate.
  - intros r0 r0' i0 t0 t1 _ _ Hl0 Hl1. rewrite Hr in Hl0, Hl1.
    assert (Hsame : forall r1 t2, <[r:=Busy i t']> (p_runners p) !! r1 = Some (Busy i0 t2) ->
                                  exists t3, p_runners p !! r1 = Some (Busy i0 t3)).
    { intros r1 t2 H1. destruct (decide (r1 = r)) as [->|Hne].
      - rewrite list_lookup_insert_eq in H1 by exact Hlen. injection H1 as <- <-. eauto.
      - rewrite list_lookup_insert_ne in H1 by congruence. eauto. }
    destruct (Hsame _ _ Hl0) as [t3 H3], (Hsame _ _ Hl1) as [t4 H4].
    eapply (inv_inj _ _ _ _ Hinv); [| | exact H3 | exact H4]; discriminate.
  - intros j Hj. rewrite Hi in Hj.
    destruct (inv_started _ _ _ _ Hinv j Hj) as [(r0 & t0 & _ & Hl0)|[res Hc]].
    + left. destruct (decide (r0 = r)) as [->|Hne].
      * exists r, t'. split; [discriminate|]. rewrite Hr.
        rewrite Hl in Hl0. injection Hl0 as ->.
        now rewrite list_lookup_insert_eq.
      * exists r0, t0. split; [discriminate|]. rewrite Hr.
        now rewrite list_lookup_insert_ne by congruence.
    + right. exists res. rewrite Hlog'. apply collected_extend; [|exact Hc].
      intros ->. eapply running_not_collected; eauto.
  - intros j Hj. rewrite Hi in Hj.
    rewrite Hlog', events_of_app, events_of_tag_other, app_nil_r by lia.
    now apply Hinv.
  - intros r0 _ Hl0. rewrite Hr in Hl0. rewrite Hi.
    destruct (decide (r0 = r)) as [->|Hne].
    + rewrite list_lookup_insert_eq in Hl0 by exact Hlen. discriminate.
    + rewrite list_lookup_insert_ne in Hl0 by congruence.
      apply (inv_finished _ _ _ _ Hinv r0); [discriminate | exact Hl0].
Qed.

Lemma next_job_inv r p :
  pool_inv jobs F0 (Some r) p -> r < length (p_runners p) ->
  pool_inv jobs F0 None (next_job rt jobs r p).
Proof.
  intros Hinv Hlen. unfold next_job.
  destruct (loop_head rt jobs p) as [x p2] eqn:Hlh.
  assert (Hrun : p_runners p2 = p_runners p).
  { pose proof (loop_head_spec p) as Hs. rewrite Hlh in Hs.
    destruct (jobs !! p_idx p).
    - destruct Hs as (? & ? & ? & [= -> ->] & ? & ? & ? & ? & ? & ? & ?). assumption.
    - now injection Hs as -> ->. }
  change (set_runner r x p2) with (with_runners (<[r:=x]> (p_runners p2)) p2).
  eapply place_inv; [exact Hinv | exact Hlh | |].
  - rewrite Hrun. now apply list_lookup_insert_eq.
  - intros r0 Hne. rewrite Hrun. now apply list_lookup_insert_ne.
Qed.

(** Every turn preserves the invariant. *)
Lemma pool_step_inv c p p' :
  pool_inv jobs F0 None p -> pool_step rt jobs c p = Some p' ->
  pool_inv jobs F0 None p'.
Proof.
  intros Hinv Hstep. destruct c as [r o]. unfold pool_step in Hstep.
  destruct (p_runners p !! r) as [[i t|]|] eqn:Hl; try discriminate.
  assert (Hlen : r < length (p_runners p)) by (eapply lookup_lt_Some; eauto).
  destruct t as [a|e|q k|k|f k]; try discriminate.
  - injection Hstep as <-.
    apply next_job_inv; [|exact Hlen].
    apply (collect_inv r i (Done a) (Some a) p Hinv Hl). reflexivity.
  - injection Hstep as <-.
    apply next_job_inv; [|exact Hlen].
    apply (collect_inv r i (Thrown e) None p Hinv Hl). reflexivity.
  - pose proof (deliver_inv r i q k o p Hinv Hl) as H.
    destruct (advance rt i (k o) (log_event i (JFetch q o) p)) as [t' p2].
    injection Hstep as <-. exact H.
Qed.

Lemma pool_exec_inv script p p' :
  pool_inv jobs F0 None p -> pool_exec rt jobs script p = Some p' ->
  pool_inv jobs F0 None p'.
Proof.
  revert p. induction script as [|c script IH]; intros p Hinv Hex; cbn in Hex.
  - now injection Hex as <-.
  - destruct (pool_step rt jobs c p) as [p1|] eqn:Hstep; [|discriminate].
    eapply IH; [|exact Hex]. eapply pool_step_inv; eauto.
Qed.

Lemma spawn_inv p :
  pool_inv jobs F0 None p -> pool_inv jobs F0 None (spawn rt jobs p).
Proof.
  intros Hinv. unfold spawn.
  destruct (loop_head rt jobs p) as [x p2] eqn:Hlh.
  assert (Hrun : p_runners p2 = p_runners p).
  { pose proof (loop_head_spec p) as Hs. rewrite Hlh in Hs.
    destruct (jobs !! p_idx p).
    - destruct Hs as (? & ? & ? & [= -> ->] & ? & ? & ? & ? & ? & ? & ?). assumption.
    - now injection Hs as -> ->. }
  change (pool_inv jobs F0 None (with_runners (p_runners p2 ++ [x]) p2)).
  eapply (place_inv (length (p_runners p))); [| exact Hlh | |].
  - constructor; try apply Hinv.
    + intros r i t _. apply (inv_busy _ _ _ _ Hinv). discriminate.
    + intros r r' i t t' _ _. apply (inv_inj _ _ _ _ Hinv); discriminate.
    + intros i Hi. destruct (inv_started _ _ _ _ Hinv i Hi) as [(r & t & _ & Hl)|Hc].
      * left. exists r, t. split; [|exact Hl].
        intros [= <-]. apply lookup_lt_Some in Hl. lia.
      * right. exact Hc.
    + intros r _. apply (inv_finished _ _ _ _ Hinv). discriminate.
  - rewrite Hrun. apply list_lookup_middle. reflexivity.
  - intros r0 Hne. rewrite Hrun.
    destruct (Nat.lt_ge_cases r0 (length (p_runners p))) as [Hlt|Hge].
    + now apply lookup_app_l.
    + rewrite (lookup_ge_None_2 (p_runners p)) by lia.
      apply lookup_ge_None_2. rewrite length_app. cbn. lia.
Qed.

Lemma pool_init_inv width :
  pool_inv jobs F0 None (pool_init rt jobs width F0).
Proof.
  unfold pool_init. induction width as [|w IH]; cbn [Nat.iter nat_rect].
  - constructor; cbn; try reflexivity; try lia.
    + now rewrite app_nil_r.
    + intros r i t _ Hl. discriminate.
    + intros r r' i t t' _ _ Hl. discriminate.
    + intros r _ Hl. discriminate.
  - now apply spawn_inv.
Qed.

End PoolFacts.

(** ** One runner: the jobs run one after the other *)

Section Sequential.
Context {A : Type} (rt : Runtime) (jobs : list (task A)) (F0 : list Finding).

Implicit Types (p : pool A) (t : task A) (log : list (nat * jev A)).

Lemma successes_settlements log : successes log = omap snd (settlements log).
Proof.
  induction log as [|[i e] log IH]; [reflexivity|].
  unfold successes, settlements in *. cbn.
  destruct e as [| | | |[a|]]; cbn; rewrite ?IH; reflexivity.
Qed.

Lemma settlements_events i res log :
  In (i, res) (settlements log) -> In (JSettle res) (events_of i log).
Proof.
  induction log as [|[j e] log IH]; [intros []|].
  unfold settlements, events_of in *. cbn.
  destruct e; cbn; case_bool_decide as Hj; cbn; auto.
  all: intros [[= -> ->]|Hin]; [first [now left | contradiction] | auto].
Qed.

(** A settlement in the log is the collection of that job's own result. *)
Lemma settlement_collected p i res :
  pool_inv jobs F0 None p -> terminal p = true ->
  In (i, res) (settlements (p_log p)) -> collected jobs (p_log p) i res.
Proof.
  intros Hinv Hterm Hin. apply settlements_events in Hin.
  destruct (Nat.lt_ge_cases i (p_idx p)) as [Hlt|Hge].
  2: { rewrite (inv_fresh _ _ _ _ Hinv i Hge) in Hin. destruct Hin. }
  destruct (inv_started _ _ _ _ Hinv i Hlt) as [(r & t & _ & Hl)|[res' Hc]].
  { unfold terminal in Hterm. rewrite forallb_forall in Hterm.
    apply list_elem_of_lookup_2, list_elem_of_In, Hterm in Hl. discriminate. }
  destruct Hc as (t0 & evs & t & Hj & Hev & Htr & Hs).
  assert (res = res') as ->; [|exists t0, evs, t; auto].
  rewrite Hev in Hin. destruct Hin as [Hin|Hin]; [discriminate|].
  apply in_app_or in Hin as [Hin|[Hin|[]]]; [|congruence].
  apply job_trace_internal in Htr. rewrite Forall_forall in Htr.
  apply list_elem_of_In, Htr in Hin. destruct Hin.
Qed.

(** With at least one runner, or no job at all, a pool whose runners have
    all left their loop has started every job. *)
Lemma terminal_all_started p :
  pool_inv jobs F0 None p -> terminal p = true ->
  p_runners p <> [] \/ jobs = [] ->
  p_idx p = length jobs.
Proof.
  intros Hinv Hterm [Hne| ->].
  - unfold terminal in Hterm.
    destruct (p_runners p) as [|x rs] eqn:E; [contradiction|].
    cbn in Hterm. apply andb_true_iff in Hterm as [Hx _].
    destruct x; [discriminate|].
    apply (inv_finished _ _ _ _ Hinv 0); [discriminate|]. now rewrite E.
  - pose proof (inv_idx _ _ _ _ Hinv). cbn in *. lia.
Qed.

(** The pool with the single runner [x]. *)
Lemma set_single_runner x y p :
  p_runners p = [y] -> set_runner 0 x p = with_runners [x] p.
Proof. intros E. unfold set_runner, with_runners. now rewrite E. Qed.

Lemma advance_runners i t p : p_runners (advance rt i t p).2 = p_runners p.
Proof. destruct (advance_spec rt i t p) as (? & ? & ? & ? & ? & ? & ? & ?). assumption. Qed.

Lemma advance_idx i t p : p_idx (advance rt i t p).2 = p_idx p.
Proof. destruct (advance_spec rt i t p) as (? & ? & ? & ? & ? & ? & ? & ?). assumption. Qed.

(** A single runner whose job has settled collects it and goes on with the
    next job, if any. *)
Lemma settled_runner_finishes (outcomes : nat -> outcome) i t res p1 s :
  settled_as t res ->
  (forall tn q s',
      jobs !! p_idx p1 = Some tn -> p_idx q = S (p_idx p1) ->
      exists k p',
        pool_exec rt jobs (turns outcomes s' k)
          (with_runners [Busy (p_idx p1) (advance rt (p_idx p1) tn q).1]
             (advance rt (p_idx p1) tn q).2) = Some p'
        /\ terminal p' = true) ->
  exists k p',
    pool_exec rt jobs (turns outcomes s k) (with_runners [Busy i t] p1) = Some p'
    /\ terminal p' = true.
Proof.
  intros Hset Hnext.
  assert (Hstep : pool_step rt jobs (0, outcomes s) (with_runners [Busy i t] p1)
                  = Some (next_job rt jobs 0
                            (collect i res (with_runners [Busy i t] p1)))).
  { destruct t; cbn in Hset; try contradiction; subst res; reflexivity. }
  unfold next_job, loop_head in Hstep.
  cbn [collect with_runners p_idx p_runners p_out p_findings p_nuuid p_log] in Hstep.
  destruct (jobs !! p_idx p1) as [tnew|] eqn:Hjob.
  - match type of Hstep with context [advance rt ?j ?tn ?q] =>
      destruct (Hnext tn q (S s) eq_refl eq_refl) as (k & p' & Hex & Hterm);
      pose proof (advance_runners j tn q) as Hr;
      destruct (advance rt j tn q) as [t' p2]
    end.
    cbn [fst snd log_event p_runners] in *.
    rewrite (set_single_runner _ _ _ Hr) in Hstep.
    exists (S k), p'. split; [|exact Hterm].
    cbn [turns seq map pool_exec]. rewrite Hstep. exact Hex.
  - eexists 1, _. split.
    + cbn [turns seq map pool_exec]. rewrite Hstep. reflexivity.
    + reflexivity.
Qed.

(** Whatever the outcomes, a single runner works through the job it holds
    and all the jobs after it. *)
Lemma single_runner_finishes (outcomes : nat -> outcome) (m : nat) :
  forall i t0 p1 s,
    length jobs - p_idx p1 <= m ->
    exists k p',
      pool_exec rt jobs (turns outcomes s k)
        (with_runners [Busy i (advance rt i t0 p1).1] (advance rt i t0 p1).2) = Some p'
      /\ terminal p' = true.
Proof.
  induction m as [|m IHm].
  all: intros i t0; induction t0 as [a|e|q k0 IH|k0 IH|f k0 IH]; intros p1 s Hm.
  all: try (cbn [advance]; apply IH; cbn; exact Hm).
  all: cbn [advance fst snd].
  all: try (destruct (IH (outcomes s)
                        (log_event i (JFetch q (outcomes s))
                           (with_runners [Busy i (Await q k0)] p1)) (S s))
              as (k & p' & Hex & Hterm); [cbn; exact Hm|];
            exists (S k), p'; split; [|exact Hterm];
            cbn [turns seq map pool_exec pool_step with_runners p_runners lookup
                   list_lookup];
            match goal with |- context [advance rt ?i ?t ?q] =>
              pose proof (advance_runners i t q) as Hr;
              destruct (advance rt i t q) as [t' p2] end;
            cbn [fst snd log_event with_runners p_runners] in *;
            rewrite (set_single_runner _ _ _ Hr); exact Hex).
  all: first [ eapply (settled_runner_finishes outcomes i (Done a) (Some a))
             | eapply (settled_runner_finishes outcomes i (Thrown e) None) ];
         [reflexivity|].
  all: intros tn q0 s' Hjob Hq0.
  all: try (apply lookup_lt_Some in Hjob; lia).
  all: apply IHm; apply lookup_lt_Some in Hjob; lia.
Qed.

Lemma in_order_step c p p' :
  in_order p -> pool_step rt jobs c p = Some p' -> in_order p'.
Proof.
  unfold in_order. intros Hord Hstep. destruct c as [r o]. unfold pool_step in Hstep.
  destruct (p_runners p) as [|x [|y rs]] eqn:Hrun;
    [destruct r; discriminate | | destruct x; contradiction].
  destruct r as [|r]; [|discriminate]. cbn in Hstep.
  destruct x as [i t|]; [|discriminate]. destruct Hord as [Hi Hord].
  assert (Hnext : forall res,
             settled_as t res ->
             Some (next_job rt jobs 0 (collect i res p)) = Some p' ->
             match p_runners p' with
             | [] => settlements (p_log p') = []
             | [Busy i0 _] =>
                 S i0 = p_idx p' /\ map fst (settlements (p_log p')) = seq 0 i0
             | [Finished] => map fst (settlements (p_log p')) = seq 0 (p_idx p')
             | _ => False
             end).
  { intros res Hset [= <-]. unfold next_job.
    pose proof (loop_head_spec rt jobs (collect i res p)) as Hs.
    assert (Hsettle : map fst (settlements (p_log (collect i res p)))
                      = seq 0 (p_idx p)).
    { cbn [collect p_log]. rewrite settlements_app, map_app, Hord, <- Hi, seq_S.
      reflexivity. }
    destruct (jobs !! p_idx (collect i res p)) as [tn|].
    - destruct Hs as (evs & t' & p2 & -> & Htr & _ & Hlog & _ & Hidx & _ & Hr).
      cbn [set_runner p_runners p_idx p_log]. rewrite Hr. cbn [collect p_runners].
      rewrite Hrun. cbn. rewrite Hidx. split; [reflexivity|].
      change ((p_idx (collect i res p), JStart)
              :: map (pair (p_idx (collect i res p))) evs)
        with (map (pair (p_idx (collect i res p))) (JStart :: evs)) in Hlog.
      rewrite Hlog, settlements_app.
      assert (E : settlements (map (pair (p_idx (collect i res p))) (JStart :: evs))
                  = []).
      { unfold settlements. cbn. apply (settlements_internal _ evs).
        eapply job_trace_internal; eauto. }
      rewrite E, app_nil_r. exact Hsettle.
    - rewrite Hs. cbn [set_runner p_runners p_idx p_log collect]. rewrite Hrun. cbn.
      exact Hsettle. }
  destruct t as [a|e|q k|k|f k]; try discriminate.
  - rewrite <- Hrun in Hstep. apply (Hnext (Some a)); [reflexivity | exact Hstep].
  - apply (Hnext None); [reflexivity | exact Hstep].
  - destruct (advance_spec rt i (k o) (log_event i (JFetch q o) p))
      as (evs & Htr & _ & Hlog & _ & Hidx & _ & Hr).
    destruct (advance rt i (k o) (log_event i (JFetch q o) p)) as [t' p2].
    injection Hstep as <-. cbn [fst snd log_event p_log p_idx p_runners] in *.
    cbn [set_runner p_runners p_idx p_log]. rewrite Hr, Hrun. cbn.
    rewrite Hidx. split; [exact Hi|].
    rewrite Hlog, <- app_assoc.
    change ([(i, JFetch q o)] ++ map (pair i) evs)
      with (map (pair i) (JFetch q o :: evs)).
    rewrite settlements_app, settlements_internal, app_nil_r; [exact Hord|].
    constructor; [exact I|]. eapply job_trace_internal; eauto.
Qed.

Lemma in_order_exec script p p' :
  in_order p -> pool_exec rt jobs script p = Some p' -> in_order p'.
Proof.
  revert p. induction script as [|c script IH]; intros p Hord Hex; cbn in Hex.
  - now injection Hex as <-.
  - destruct (pool_step rt jobs c p) as [p1|] eqn:Hstep; [|discriminate].
    eapply IH; [|exact Hex]. eapply in_order_step; eauto.
Qed.

Lemma in_order_init width : width <= 1 -> in_order (pool_init rt jobs width F0).
Proof.
  intros Hw. destruct width as [|[|w]]; [reflexivity | | lia].
  unfold in_order, pool_init. cbn [Nat.iter nat_rect]. unfold spawn.
  match goal with |- context [loop_head rt jobs ?q] =>
    pose proof (loop_head_spec rt jobs q) as Hs; set (p0 := q) in * end.
  destruct (jobs !! p_idx p0) as [tn|].
  - destruct Hs as (evs & t' & p2 & -> & Htr & _ & Hlog & _ & Hidx & _ & Hr).
    cbn [p_runners p_idx p_log]. rewrite Hr. cbn. rewrite Hidx. split; [reflexivity|].
    rewrite Hlog. cbn [app p_log p0].
    change (settlements ((p_idx p0, JStart) :: map (pair (p_idx p0)) evs))
      with (settlements (map (pair (p_idx p0)) evs)).
    rewrite (settlements_internal (p_idx p0) evs); [reflexivity|].
    eapply job_trace_internal; eauto.
  - rewrite Hs. reflexivity.
Qed.

(** [Math.min(1, n)] is a valid length: one runner, or none for no job. *)
Lemma one_runner_width (n : nat) :
  array_length (Qmin 1 (Q_of_nat n)) = Some (Nat.min 1 n).
Proof.
  destruct n as [|n]; [reflexivity|].
  assert (H : Qmin 1 (Q_of_nat (S n)) = 1%Q).
  { unfold Qmin, GenericMinMax.gmin.
    destruct (1 ?= Q_of_nat (S n))%Q eqn:E; try reflexivity.
    apply Qgt_alt in E. unfold Qlt, Q_of_nat in E. cbn in E. lia. }
  rewrite H. reflexivity.
Qed.

End Sequential.

Section Width.
Context {A : Type} (rt : Runtime) (jobs : list (task A)) (F0 : list Finding).

Lemma loop_head_runners (p : pool A) :
  p_runners (loop_head rt jobs p).2 = p_runners p.
Proof.
  pose proof (loop_head_spec rt jobs p) as Hs.
  destruct (jobs !! p_idx p).
  - destruct Hs as (? & ? & ? & -> & ? & ? & ? & ? & ? & ? & ?). assumption.
  - now rewrite Hs.
Qed.

Lemma pool_step_length c (p p' : pool A) :
  pool_step rt jobs c p = Some p' -> length (p_runners p') = length (p_runners p).
Proof.
  destruct c as [r o]. unfold pool_step, next_job.
  destruct (p_runners p !! r) as [[i [a|e|q k|k|f k]|]|]; try discriminate.
  - match goal with |- context [loop_head rt jobs ?q] =>
      pose proof (loop_head_runners q) as Hr; destruct (loop_head rt jobs q) end.
    intros [= <-]. cbn in *. now rewrite length_insert, Hr.
  - match goal with |- context [loop_head rt jobs ?q] =>
      pose proof (loop_head_runners q) as Hr; destruct (loop_head rt jobs q) end.
    intros [= <-]. cbn in *. now rewrite length_insert, Hr.
  - match goal with |- context [advance rt ?i ?t ?q] =>
      pose proof (advance_runners rt i t q) as Hr; destruct (advance rt i t q) end.
    intros [= <-]. cbn in *. now rewrite length_insert, Hr.
Qed.

Lemma pool_exec_length script (p p' : pool A) :
  pool_exec rt jobs script p = Some p' -> length (p_runners p') = length (p_runners p).
Proof.
  revert p. induction script as [|c script IH]; intros p Hex; cbn in Hex.
  - now injection Hex as <-.
  - destruct (pool_step rt jobs c p) as [p1|] eqn:Hstep; [|discriminate].
    rewrite (IH _ Hex). eapply pool_step_length; eauto.
Qed.

Lemma pool_init_length width :
  length (p_runners (pool_init rt jobs width F0)) = width.
Proof.
  unfold pool_init. induction width as [|w IH]; [reflexivity|].
  rewrite Nat.iter_succ. unfold spawn at 1.
  match goal with |- context [loop_head rt jobs ?q] =>
    pose proof (loop_head_runners q) as Hr; destruct (loop_head rt jobs q) end.
  cbn in *. rewrite length_app, Hr, IH. cbn. lia.
Qed.

End Width.

(** C6: with [maxConcurrency = 1], whatever the outcomes of the requests,
    [runWithConcurrency] returns; and in every run that returns, every job
    is started exactly once, in the order of the list, every job settles
    exactly once and is collected in that same order, each settlement is
    the job's own result, and [out] holds exactly the results of the jobs
    that resolved: a job that throws is dropped and the jobs after it run
    all the same. *)
Theorem runWithConcurrency_one_at_a_time {A : Type} (rt : Runtime)
    (jobs : list (task A)) (F0 : list Finding) :
  (forall outcomes : nat -> outcome,
      exists k p,
        runWithConcurrency rt jobs 1 F0 (turns outcomes 0 k) = Returned p)
  /\ (forall script p,
        runWithConcurrency rt jobs 1 F0 script = Returned p ->
        starts (p_log p) = seq 0 (length jobs)
        /\ map fst (settlements (p_log p)) = seq 0 (length jobs)
        /\ (forall i res,
              In (i, res) (settlements (p_log p)) -> collected jobs (p_log p) i res)
        /\ p_out p = omap snd (settlements (p_log p))).
Proof.
  unfold runWithConcurrency. rewrite one_runner_width. split.
  - intros outcomes. destruct jobs as [|t0 jobs'] eqn:Ej.
    + exists 0, (pool_init rt [] 0 F0). reflexivity.
    + rewrite <- Ej. replace (Nat.min 1 (length jobs)) with 1 by (subst; reflexivity).
      unfold pool_init. cbn [Nat.iter nat_rect]. unfold spawn, loop_head.
      cbn [p_idx]. replace (jobs !! 0) with (Some t0) by (subst; reflexivity).
      match goal with |- context [advance rt 0 t0 ?q] =>
        destruct (single_runner_finishes rt jobs outcomes (length jobs) 0 t0 q 0)
          as (k & p' & Hex & Hterm); [lia|];
        pose proof (advance_runners rt 0 t0 q) as Hr;
        destruct (advance rt 0 t0 q) as [t' p2]
      end.
      cbn [fst snd p_runners] in *. exists k, p'.
      unfold with_runners in Hex. cbn in Hr. rewrite Hr. cbn [app].
      rewrite Hex, Hterm.
      reflexivity.
  - intros script p Hrun.
    destruct (pool_exec rt jobs script (pool_init rt jobs (Nat.min 1 (length jobs)) F0))
      as [p1|] eqn:Hex; [|discriminate].
    destruct (terminal p1) eqn:Hterm; [|discriminate]. injection Hrun as ->.
    pose proof (pool_exec_inv rt jobs F0 _ _ _ (pool_init_inv rt jobs F0 _) Hex) as Hinv.
    pose proof (in_order_exec rt jobs _ _ _
                  (in_order_init rt jobs F0 _ (Nat.le_min_l 1 _)) Hex) as Hord.
    pose proof (pool_exec_length rt jobs _ _ _ Hex) as Hlen.
    rewrite pool_init_length in Hlen.
    assert (Hidx : p_idx p = length jobs).
    { apply (terminal_all_started jobs F0 p Hinv Hterm).
      destruct jobs; [now right|]. left. intros E. rewrite E in Hlen. discriminate. }
    assert (Hsettled : map fst (settlements (p_log p)) = seq 0 (p_idx p)).
    { unfold in_order in Hord. unfold terminal in Hterm.
      destruct (p_runners p) as [|[i t|] [|y rs]]; try contradiction; try discriminate.
      - destruct jobs; [|discriminate]. rewrite Hord, Hidx. reflexivity.
      - exact Hord. }
    rewrite <- Hidx. split; [apply Hinv|]. split; [exact Hsettled|]. split.
    + intros i res. now apply (settlement_collected jobs F0).
    + rewrite (inv_out _ _ _ _ Hinv). apply successes_settlements.
Qed.

(** ** Validation: what is rejected, and what the error reports *)

Lemma issues_of_zmap {A B} (f : A -> B) (x : parsed A) :
  issues_of (zmap f x) = issues_of x.
Proof. destruct x; reflexivity. Qed.

Lemma issues_of_both {A B} (x : parsed A) (y : parsed B) :
  issues_of (both x y) = issues_of x ++ issues_of y.
Proof. destruct x, y; cbn; rewrite ?app_nil_r; reflexivity. Qed.

Lemma issues_of_all_valid {A} (xs : list (parsed A)) :
  issues_of (all_valid xs) = flat_map issues_of xs.
Proof.
  induction xs as [|x xs IH]; [reflexivity|].
  cbn [all_valid flat_map]. now rewrite issues_of_zmap, issues_of_both, IH.
Qed.

(** An object reports the issues of all its keys. *)
Lemma safeParse_object_issues (rt : Runtime) (fields : list (str * json)) :
  issues_of (safeParse rt (JObj fields)) = flat_map (field_issues rt fields) all_fields.
Proof.
  unfold safeParse, ScanRequestSchema.
  rewrite issues_of_zmap, !issues_of_both. cbn [flat_map all_fields app].
  unfold field_issues. rewrite app_nil_r, <- !app_assoc. reflexivity.
Qed.

Lemma safeParse_not_object (rt : Runtime) (body : json) :
  (forall fields, body <> JObj fields) ->
  safeParse rt body = Invalid [{| i_path := []; i_code := InvalidType |}].
Proof. intros H. destruct body; try reflexivity. now destruct (H fields). Qed.

(** *** Where the issues of a parser lie *)

Lemma rooted_here {A} (p : zparser A) :
  (forall path v i, In i (issues_of (p path v)) -> i_path i = path) -> rooted p.
Proof. intros H path v i Hin. exists []. rewrite app_nil_r. eauto. Qed.

Lemma wrong_type_path {A} path v i :
  In i (issues_of (@wrong_type A path v)) -> i_path i = path.
Proof. cbn. intros [<-|[]]. reflexivity. Qed.

Lemma rooted_z_string : rooted z_string.
Proof.
  apply rooted_here. intros path v i. unfold z_string.
  destruct v as [[]|]; try apply wrong_type_path. intros [].
Qed.

Lemma rooted_z_boolean : rooted z_boolean.
Proof.
  apply rooted_here. intros path v i. unfold z_boolean.
  destruct v as [[]|]; try apply wrong_type_path. intros [].
Qed.

Lemma rooted_z_url rt : rooted (z_url rt).
Proof.
  apply rooted_here. intros path v i. unfold z_url.
  destruct v as [[]|]; try apply wrong_type_path.
  destruct (URL_href rt s []); cbn; [intros [] | intros [<-|[]]; reflexivity].
Qed.

Lemma rooted_z_method : rooted z_method.
Proof.
  apply rooted_here. intros path v i. unfold z_method.
  destruct v as [[]|]; try apply wrong_type_path.
  repeat case_bool_decide; cbn; try (intros []; fail).
  intros [<-|[]]. reflexivity.
Qed.

Lemma rooted_z_number_range lo hi : rooted (z_number_range lo hi).
Proof.
  apply rooted_here. intros path v i. unfold z_number_range.
  destruct v as [[]|]; try apply wrong_type_path.
  destruct (Qle_bool lo q), (Qle_bool q hi); cbn; intros H;
    repeat (destruct H as [<-|H]; [reflexivity|]); destruct H.
Qed.

Lemma rooted_z_body_template : rooted z_body_template.
Proof.
  apply rooted_here. intros path v i. unfold z_body_template.
  destruct v as [[]|]; cbn; try (intros [<-|[]]; reflexivity); intros [].
Qed.

Lemma rooted_z_optional {A} (p : zparser A) : rooted p -> rooted (z_optional p).
Proof.
  intros Hp path v i. unfold z_optional. destruct v; [|intros []].
  rewrite issues_of_zmap. apply Hp.
Qed.

Lemma rooted_z_default {A} (d : A) (p : zparser A) : rooted p -> rooted (z_default d p).
Proof.
  intros Hp path v i. unfold z_default. destruct v; [|intros []]. apply Hp.
Qed.

Lemma rooted_z_array {A} (elem : zparser A) n : rooted elem -> rooted (z_array elem n).
Proof.
  intros He path v i. unfold z_array.
  destruct v as [[]|]; try (intros H; exists []; rewrite app_nil_r;
                            revert H; apply wrong_type_path).
  set (small := if (length items <? n)%nat then _ else _).
  set (ps := all_valid _).
  assert (Hall : In i (small ++ issues_of ps) -> exists rest, i_path i = path ++ rest).
  { intros Hin. apply in_app_or in Hin as [Hin|Hin].
    - exists []. rewrite app_nil_r. subst small.
      destruct (length items <? n)%nat; [destruct Hin as [<-|[]]; reflexivity | destruct Hin].
    - subst ps. rewrite issues_of_all_valid in Hin.
      apply in_flat_map in Hin as (x & Hx & Hin).
      apply list_elem_of_In, list_elem_of_lookup in Hx as [j Hj].
      rewrite list_lookup_imap in Hj.
      destruct (items !! j) as [y|]; [|discriminate]. injection Hj as <-.
      apply He in Hin as [rest ->]. exists (Index j :: rest).
      now rewrite <- app_assoc. }
  destruct small eqn:Es, ps eqn:Ep; cbn [issues_of]; exact Hall.
Qed.

Lemma rooted_z_record_string : rooted z_record_string.
Proof.
  intros path v i. unfold z_record_string.
  destruct v as [[]|]; try (intros H; exists []; rewrite app_nil_r;
                            revert H; apply wrong_type_path).
  unfold header_list. rewrite issues_of_all_valid. intros Hin.
  apply in_flat_map in Hin as (x & Hx & Hin).
  apply in_map_iff in Hx as (kv & <- & _).
  rewrite issues_of_zmap in Hin. apply rooted_z_string in Hin as [rest ->].
  exists (Key kv.1 :: rest). now rewrite <- app_assoc.
Qed.

(** Issues of a parser run one level down are issues below the path. *)
Lemma rooted_below {A} (p : zparser A) (k : path_elem) path v i :
  rooted p -> In i (issues_of (p (path ++ [k]) v)) -> exists rest, i_path i = path ++ rest.
Proof.
  intros Hp Hin. apply Hp in Hin as [rest ->]. exists (k :: rest).
  now rewrite <- app_assoc.
Qed.

Ltac rooted_object :=
  let path := fresh "path" in
  let v := fresh "v" in
  let i := fresh "i" in
  let H := fresh "H" in
  intros path v i;
  match goal with |- In _ (issues_of (?f _ _)) -> _ => unfold f end;
  destruct v as [[]|];
  try (intros H; exists []; rewrite app_nil_r; revert H; apply wrong_type_path);
  rewrite issues_of_zmap, ?issues_of_both; intros H;
  repeat (apply in_app_or in H as [H|H]);
  (eapply rooted_below; [|exact H]).

Lemma rooted_ParamSchema : rooted ParamSchema.
Proof.
  rooted_object; [apply rooted_z_string | apply rooted_z_array, rooted_z_string].
Qed.

Lemma rooted_EndpointSchema : rooted EndpointSchema.
Proof.
  rooted_object.
  - apply rooted_z_default, rooted_z_method.
  - apply rooted_z_string.
  - apply rooted_z_default, rooted_z_array, rooted_ParamSchema.
  - apply rooted_z_optional, rooted_z_array, rooted_ParamSchema.
  - apply rooted_z_optional, rooted_z_body_template.
Qed.

Lemma rooted_AuthCtxSchema : rooted AuthCtxSchema.
Proof. rooted_object; apply rooted_z_optional, rooted_z_record_string. Qed.

Lemma rooted_AuthContextsSchema : rooted AuthContextsSchema.
Proof.
  rooted_object.
  - apply rooted_AuthCtxSchema.
  - apply rooted_z_optional, rooted_AuthCtxSchema.
  - apply rooted_z_optional, rooted_z_boolean.
Qed.

(** The issues of key [f] all start with that key. *)
Lemma field_issues_head rt fields f i :
  In i (field_issues rt fields f) -> head (i_path i) = Some (Key (field_name f)).
Proof.
  intros Hin.
  assert (H : exists rest, i_path i = [Key (field_name f)] ++ rest).
  { destruct f; cbn [field_issues] in Hin; revert Hin.
    - apply rooted_z_url.
    - apply rooted_z_array, rooted_EndpointSchema.
    - apply rooted_AuthContextsSchema.
    - apply rooted_z_default, rooted_z_number_range.
    - apply rooted_z_default, rooted_z_number_range.
    - apply rooted_z_default, rooted_z_number_range. }
  destruct H as [rest ->]. reflexivity.
Qed.

(** *** What [flatten] lists under a key *)

Lemma field_errors_add k k' c fe :
  (snd <$> List.find (fun kc => bool_decide (kc.1 = k)) (add_field_error k' c fe))
  = if bool_decide (k' = k)
    then Some (default [] (snd <$> List.find (fun kc => bool_decide (kc.1 = k)) fe) ++ [c])
    else snd <$> List.find (fun kc => bool_decide (kc.1 = k)) fe.
Proof.
  induction fe as [|[k0 cs] fe IH]; cbn [add_field_error List.find fst snd].
  - destruct (decide (k' = k)) as [->|Hne].
    + rewrite !bool_decide_eq_true_2 by reflexivity. reflexivity.
    + rewrite !bool_decide_eq_false_2 by exact Hne. reflexivity.
  - destruct (decide (k0 = k')) as [->|Hne0].
    + rewrite (bool_decide_eq_true_2 (k' = k')) by reflexivity.
      cbn [List.find fst snd].
      destruct (decide (k' = k)) as [->|Hne].
      * rewrite !bool_decide_eq_true_2 by reflexivity. reflexivity.
      * rewrite !bool_decide_eq_false_2 by exact Hne. reflexivity.
    + rewrite (bool_decide_eq_false_2 (k0 = k')) by exact Hne0.
      cbn [List.find fst snd].
      destruct (decide (k0 = k)) as [->|Hne].
      * rewrite (bool_decide_eq_true_2 (k = k)) by reflexivity.
        rewrite (bool_decide_eq_false_2 (k' = k)) by congruence. reflexivity.
      * rewrite (bool_decide_eq_false_2 (k0 = k)) by exact Hne. exact IH.
Qed.

Lemma flatten_step_field k issues acc :
  field_errors_of k
    (fold_left
       (fun acc i =>
          match i_path i with
          | [] => {| formErrors := formErrors acc ++ [i_code i];
                     fieldErrors := fieldErrors acc |}
          | k :: _ => {| formErrors := formErrors acc;
                         fieldErrors := add_field_error k (i_code i) (fieldErrors acc) |}
          end) issues acc)
  = match field_errors_of k acc, codes_under k issues with
    | None, [] => None
    | old, cs => Some (default [] old ++ cs)
    end.
Proof.
  revert acc. induction issues as [|i issues IH]; intros acc.
  - cbn. destruct (field_errors_of k acc); cbn; [now rewrite app_nil_r | reflexivity].
  - cbn [fold_left]. rewrite IH. unfold codes_under. cbn [List.filter].
    destruct (i_path i) as [|k0 rest]; cbn [head].
    + rewrite bool_decide_eq_false_2 by discriminate. reflexivity.
    + unfold field_errors_of at 1. cbn [fieldErrors]. rewrite field_errors_add.
      fold (field_errors_of k acc).
      destruct (decide (k0 = k)) as [->|Hne].
      * rewrite !bool_decide_eq_true_2 by reflexivity. cbn [map].
        destruct (field_errors_of k acc); cbn;
          rewrite <- ?app_assoc; reflexivity.
      * rewrite !bool_decide_eq_false_2 by congruence. reflexivity.
Qed.

Lemma flatten_field k issues :
  field_errors_of k (flatten issues)
  = match codes_under k issues with [] => None | cs => Some cs end.
Proof. unfold flatten. rewrite flatten_step_field. reflexivity. Qed.

Lemma filter_keep {X} (P : X -> bool) (l : list X) :
  (forall x, In x l -> P x = true) -> List.filter P l = l.
Proof.
  induction l as [|x l IH]; intros H; [reflexivity|]. cbn.
  rewrite H by now left. f_equal. apply IH. intros. apply H. now right.
Qed.

Lemma filter_drop {X} (P : X -> bool) (l : list X) :
  (forall x, In x l -> P x = false) -> List.filter P l = [].
Proof.
  induction l as [|x l IH]; intros H; [reflexivity|]. cbn.
  rewrite H by now left. apply IH. intros. apply H. now right.
Qed.

Lemma field_name_inj f f' : field_name f = field_name f' -> f = f'.
Proof. destruct f, f'; (reflexivity || (intros H; vm_compute in H; discriminate H)). Qed.

Lemma codes_under_field rt fields f f' :
  codes_under (Key (field_name f)) (field_issues rt fields f')
  = if decide (f = f') then map i_code (field_issues rt fields f') else [].
Proof.
  unfold codes_under. destruct (decide (f = f')) as [->|Hne].
  - rewrite filter_keep; [reflexivity|]. intros i Hin.
    apply field_issues_head in Hin. now apply bool_decide_eq_true.
  - rewrite filter_drop; [reflexivity|]. intros i Hin.
    apply field_issues_head in Hin. apply bool_decide_eq_false. rewrite Hin.
    intros [= E]. apply field_name_inj in E. congruence.
Qed.

Lemma codes_under_app k l1 l2 :
  codes_under k (l1 ++ l2) = codes_under k l1 ++ codes_under k l2.
Proof. unfold codes_under. now rewrite List.filter_app, map_app. Qed.

(** Under the key of [f], exactly the messages of the issues of [f]. *)
Lemma codes_under_object rt fields f :
  codes_under (Key (field_name f)) (issues_of (safeParse rt (JObj fields)))
  = map i_code (field_issues rt fields f).
Proof.
  rewrite safeParse_object_issues. cbn [flat_map all_fields].
  rewrite !codes_under_app, !codes_under_field.
  destruct f; cbn; rewrite ?app_nil_r; reflexivity.
Qed.

(** *** The bounds of the numeric keys *)

Lemma number_range_issues lo hi d path v :
  issues_of (z_default d (z_number_range lo hi) path v) = []
  <-> in_range_or_absent lo hi v.
Proof.
  unfold z_default, z_number_range, in_range_or_absent.
  destruct v as [[]|]; cbn; try (split; [discriminate | contradiction]);
    [|split; auto].
  destruct (Qle_bool lo q) eqn:E1, (Qle_bool q hi) eqn:E2; cbn;
    rewrite <- !Qle_bool_iff, ?E1, ?E2; split; intros H;
    try discriminate; try reflexivity; try tauto;
    destruct H; discriminate.
Qed.

Lemma speedGateThreshold_issues rt fields :
  field_issues rt fields F_speedGateThreshold = []
  <-> in_range_or_absent 0 1 (get_field (lit "speedGateThreshold") fields).
Proof. apply number_range_issues. Qed.

Lemma maxConcurrency_issues rt fields :
  field_issues rt fields F_maxConcurrency = []
  <-> in_range_or_absent 1 12 (get_field (lit "maxConcurrency") fields).
Proof. apply number_range_issues. Qed.

Lemma timeoutMs_issues rt fields :
  field_issues rt fields F_timeoutMs = []
  <-> in_range_or_absent 1000 60000 (get_field (lit "timeoutMs") fields).
Proof. apply number_range_issues. Qed.

Lemma baseUrl_issues rt fields :
  field_issues rt fields F_baseUrl = []
  <-> exists s, get_field (lit "baseUrl") fields = Some (JStr s)
                /\ URL_href rt s [] <> None.
Proof.
  unfold field_issues, baseUrl_schema, z_url. cbn [field_name].
  destruct (get_field (lit "baseUrl") fields) as [[]|]; cbn;
    try (split; [discriminate | intros (? & [=] & _)]).
  destruct (URL_href rt s []) eqn:E; cbn; split.
  - intros _. exists s. rewrite E. split; [reflexivity | discriminate].
  - reflexivity.
  - discriminate.
  - intros (s' & [= <-] & H). congruence.
Qed.

(** C7: a request that is not an object, or one of whose keys violates
    its schema (lines 99-102), is answered with status 400 and the flattened
    error of all the issues found; no job is started and no request is
    made; under each top-level key the error lists exactly the messages of
    the issues of that key, for all the violated keys at once. *)
Theorem invalid_request_rejected (rt : Runtime) (body : json)
    (script : list (nat * outcome)) :
  (forall fields, body <> JObj fields)
  \/ (exists fields f, body = JObj fields /\ field_issues rt fields f <> []) ->
  exists issues,
    safeParse rt body = Invalid issues
    /\ POST rt (Some body) script
       = {| result := Response 400 (ErrorBody (flatten issues)); trace := [] |}
    /\ (forall fields f,
          body = JObj fields ->
          field_errors_of (Key (field_name f)) (flatten issues)
          = match field_issues rt fields f with
            | [] => None
            | l => Some (map i_code l)
            end)
    /\ ((forall fields, body <> JObj fields) ->
        flatten issues = {| formErrors := [InvalidType]; fieldErrors := [] |}).
Proof.
  intros Hbad.
  assert (Hinv : exists issues, safeParse rt body = Invalid issues).
  { destruct Hbad as [Hno|(fields & f & -> & Hf)].
    - rewrite safeParse_not_object by exact Hno. eauto.
    - destruct (safeParse rt (JObj fields)) as [cfg|issues] eqn:E; [|eauto].
      exfalso. apply Hf.
      assert (Hnil : flat_map (field_issues rt fields) all_fields = []).
      { rewrite <- safeParse_object_issues, E. reflexivity. }
      cbn [flat_map all_fields] in Hnil.
      destruct f; repeat (apply app_eq_nil in Hnil as [? Hnil]); assumption. }
  destruct Hinv as [issues Hparse]. exists issues.
  split; [exact Hparse|]. split; [unfold POST; now rewrite Hparse|]. split.
  - intros fields f ->. rewrite flatten_field.
    replace issues with (issues_of (safeParse rt (JObj fields)))
      by (rewrite Hparse; reflexivity).
    rewrite codes_under_object.
    destruct (field_issues rt fields f); reflexivity.
  - intros Hno. rewrite safeParse_not_object in Hparse by exact Hno.
    injection Hparse as <-. reflexivity.
Qed.

Lemma invalid_request_rejected_witness :
  exists issues,
    POST demo_rt
      (Some (demo_body_with "not a url" "x-user-id" ["/users/{id}"%string] 1.5))
      [(0%nat, FetchFailed)]
    = {| result := Response 400 (ErrorBody (flatten issues)); trace := [] |}
    /\ field_errors_of (Key (lit "baseUrl")) (flatten issues) = Some [InvalidUrl]
    /\ field_errors_of (Key (lit "speedGateThreshold")) (flatten issues) = Some [TooBig]
    /\ field_errors_of (Key (lit "endpoints")) (flatten issues) = None.
Proof.
  destruct (invalid_request_rejected demo_rt
              (demo_body_with "not a url" "x-user-id" ["/users/{id}"%string] 1.5)
              [(0%nat, FetchFailed)]) as (issues & _ & Hpost & Hfields & _).
  { right. eexists _, F_speedGateThreshold. split; [reflexivity|].
    vm_compute. discriminate. }
  exists issues. split; [exact Hpost|].
  split; [|split].
  - exact (Hfields _ F_baseUrl eq_refl).
  - exact (Hfields _ F_speedGateThreshold eq_refl).
  - exact (Hfields _ F_endpoints eq_refl).
Defined.

(** ** A target that cannot be formed *)

Lemma build_tasks_throws (rt : Runtime) (cfg : ScanRequest) (eps : list Endpoint) ep :
  In ep eps -> endpoint_job rt cfg ep = Some None -> build_tasks rt cfg eps = None.
Proof.
  induction eps as [|ep0 eps IH]; intros Hin Hjob; [destruct Hin|].
  cbn [build_tasks]. destruct Hin as [->|Hin].
  - now rewrite Hjob.
  - destruct (endpoint_job rt cfg ep0) as [[job|]|]; [|reflexivity|]; now rewrite IH.
Qed.

(** C4, the claim as stated fails.  A URL that cannot be formed is not
    confined to its endpoint: the base [app://] is a valid URL, the first
    endpoint alone is scanned and yields a finding, the path of the second
    endpoint puts a space in the host; with both endpoints the handler
    throws while it builds the jobs and returns no finding at all. *)
Lemma malformed_target_not_scoped :
  let good := demo_body_with "app://" "x-user-id" ["/users/{id}"%string] 0.8 in
  let body := demo_body_with "app://" "x-user-id"
                ["/users/{id}"; "/u s/{id}"]%string 0.8 in
  let script := [(0%nat, Responded 200 (mock_user "1001"));
                 (0%nat, Responded 200 (mock_user "1002"));
                 (0%nat, FetchFailed); (0%nat, FetchFailed)] in
  URL_href demo_rt (lit "app://") [] = Some (lit "app://")
  /\ buildUrl demo_rt (lit "app://") (lit "/u s/1001") [] = None
  /\ match result (POST demo_rt (Some good) script) with
     | Response 200 (FindingsBody [f]) => f_attackVector f = AttackerViaUrlId
     | _ => False
     end
  /\ POST demo_rt (Some body) script = {| result := Uncaught TypeError; trace := [] |}.
Proof. vm_compute. repeat split; reflexivity. Qed.

(** C4, amended: line 128 is outside every [try]; when the URL of one
    endpoint that has a path parameter cannot be formed, the handler throws
    before any job is started: no request is made and no finding is
    returned, whatever the other endpoints are. *)
Theorem malformed_target_aborts_scan (rt : Runtime) (body : json) (cfg : ScanRequest)
    (ep : Endpoint) (primaryParam : PathParam) (others : list PathParam)
    (script : list (nat * outcome)) :
  safeParse rt body = Valid cfg ->
  In ep (endpoints cfg) ->
  ep_pathParams ep = primaryParam :: others ->
  buildUrl rt (baseUrl cfg)
    (applyTemplate rt (ep_pathTemplate ep)
       [(pp_name primaryParam, pp_samples primaryParam !! 0%nat)]) [] = None ->
  POST rt (Some body) script = {| result := Uncaught TypeError; trace := [] |}.
Proof.
  intros Hparse Hin Hpp Hurl. unfold POST. rewrite Hparse.
  rewrite (build_tasks_throws rt cfg (endpoints cfg) ep Hin); [reflexivity|].
  unfold endpoint_job. rewrite Hpp, Hurl. reflexivity.
Qed.

Lemma malformed_target_aborts_scan_witness :
  POST demo_rt
    (Some (demo_body_with "app://" "x-user-id" ["/users/{id}"; "/u s/{id}"]%string 0.8))
    [(0%nat, Responded 200 (mock_user "1001"))]
  = {| result := Uncaught TypeError; trace := [] |}.
Proof.
  apply (malformed_target_aborts_scan demo_rt _
           (demo_cfg_with (lit "app://") (lit "x-user-id")
              [demo_endpoint;
               {| ep_method := GET; ep_pathTemplate := lit "/u s/{id}";
                  ep_pathParams := ep_pathParams demo_endpoint;
                  ep_queryParams := None; ep_bodyTemplate := None |}])
           {| ep_method := GET; ep_pathTemplate := lit "/u s/{id}";
              ep_pathParams := ep_pathParams demo_endpoint;
              ep_queryParams := None; ep_bodyTemplate := None |}
           {| pp_name := lit "id"; pp_samples := [lit "1001"; lit "1002"] |} []).
  - vm_compute. reflexivity.
  - right. left. reflexivity.
  - reflexivity.
  - vm_compute. reflexivity.
Defined.

(** ** A baseline that fails *)

Section Budget.
Context {A : Type} (rt : Runtime) (jobs : list (task A)) (B : nat).
Hypothesis jobs_bounded : forall t, In t jobs -> bounded t B.

Lemma bounded_advance i (t : task A) p n :
  bounded t n -> bounded (advance rt i t p).1 n.
Proof.
  revert p. induction t as [a|e|q k IH|k IH|f k IH]; intros p Hb; cbn in *; auto.
Qed.

Lemma list_sum_insert (bs : list nat) r b b' :
  bs !! r = Some b -> list_sum (<[r:=b']> bs) + b = list_sum bs + b'.
Proof.
  revert r. induction bs as [|x bs IH]; intros [|r] H; try discriminate.
  - injection H as ->. cbn [insert list_insert list_sum fold_right]. unfold list_sum. cbn. lia.
  - specialize (IH r H). change (<[S r:=b']> (x :: bs)) with (x :: <[r:=b']> bs).
    unfold list_sum in *. cbn [fold_right]. lia.
Qed.

Lemma loop_head_potential (p : pool A) :
  exists b,
    runner_budget (loop_head rt jobs p).1 b
    /\ (length jobs - p_idx (loop_head rt jobs p).2) * (B + 2) + b
       <= (length jobs - p_idx p) * (B + 2).
Proof.
  pose proof (loop_head_spec rt jobs p) as Hs. unfold loop_head in *.
  destruct (jobs !! p_idx p) as [t0|] eqn:Hjob.
  - match goal with |- context [advance rt ?i ?t ?q] =>
      pose proof (bounded_advance i t q B) as Hb;
      pose proof (advance_idx rt i t q) as Hi;
      destruct (advance rt i t q) as [t' p2] end.
    cbn [fst snd p_idx log_event] in *. exists (S B). split.
    + exists B. split; [|reflexivity]. apply Hb, jobs_bounded.
      eapply list_elem_of_In, list_elem_of_lookup_2; eauto.
    + apply lookup_lt_Some in Hjob. rewrite Hi. nia.
  - exists 0. cbn. split; [reflexivity | lia].
Qed.

(** Every turn uses up some of the potential. *)
Lemma pool_step_potential c (p p' : pool A) N :
  pool_step rt jobs c p = Some p' -> potential jobs B p N ->
  exists N', N = S N' /\ potential jobs B p' N'.
Proof.
  intros Hstep (bs & Hbs & Hle). destruct c as [r o]. unfold pool_step in Hstep.
  destruct (p_runners p !! r) as [[i t|]|] eqn:Hl; try discriminate.
  destruct (Forall2_lookup_l _ _ _ _ _ Hbs Hl) as (b & Hb & (m & Hm & ->)).
  assert (Hsettled :
            forall q, p_runners q = p_runners p -> p_idx q = p_idx p ->
                      Some (next_job rt jobs r q) = Some p' ->
                      exists N', N = S N' /\ potential jobs B p' N').
  { intros q Hrq Hiq [= <-]. unfold next_job.
    destruct (loop_head_potential q) as (b' & Hb' & Hle').
    pose proof (loop_head_runners rt jobs q) as Hr.
    destruct (loop_head rt jobs q) as [x q2]. cbn [fst snd] in *.
    destruct N as [|N']; [pose proof (list_sum_insert bs r (S m) 0 Hb); lia|].
    exists N'. split; [reflexivity|]. exists (<[r:=b']> bs). split.
    - cbn. rewrite Hr, Hrq. now apply Forall2_insert.
    - cbn [set_runner p_idx].
      pose proof (list_sum_insert bs r (S m) b' Hb). rewrite Hiq in Hle'. lia. }
  destruct t as [a|e|q k|k|f k]; try discriminate.
  - eapply Hsettled; [| |exact Hstep]; reflexivity.
  - eapply Hsettled; [| |exact Hstep]; reflexivity.
  - destruct m as [|m]; [destruct Hm|]. cbn in Hm. specialize (Hm o).
    match type of Hstep with context [advance rt ?i ?t ?q] =>
      pose proof (bounded_advance i t q m Hm) as Hb';
      pose proof (advance_idx rt i t q) as Hi;
      pose proof (advance_runners rt i t q) as Hr;
      destruct (advance rt i t q) as [t' p2] end.
    injection Hstep as <-. cbn [fst snd log_event p_idx p_runners] in *.
    pose proof (list_sum_insert bs r (S (S m)) (S m) Hb).
    destruct N as [|N']; [lia|].
    exists N'. split; [reflexivity|]. exists (<[r:=S m]> bs). split.
    + cbn. rewrite Hr. apply Forall2_insert; [exact Hbs|]. exists m. auto.
    + cbn [set_runner p_idx]. rewrite Hi. lia.
Qed.

Lemma pool_exec_potential script (p p' : pool A) N :
  pool_exec rt jobs script p = Some p' -> potential jobs B p N -> length script <= N.
Proof.
  revert p N. induction script as [|c script IH]; intros p N Hex Hpot; cbn in *; [lia|].
  destruct (pool_step rt jobs c p) as [p1|] eqn:Hstep; [|discriminate].
  destruct (pool_step_potential _ _ _ _ Hstep Hpot) as (N' & -> & Hpot').
  specialize (IH _ _ Hex Hpot'). lia.
Qed.

Lemma pool_init_potential width F0 :
  potential jobs B (pool_init rt jobs width F0) (length jobs * (B + 2)).
Proof.
  unfold pool_init. induction width as [|w IH].
  - exists []. cbn. split; [constructor | lia].
  - rewrite Nat.iter_succ. destruct IH as (bs & Hbs & Hle). unfold spawn at 1.
    match goal with |- context [loop_head rt jobs ?q] =>
      destruct (loop_head_potential q) as (b' & Hb' & Hle');
      pose proof (loop_head_runners rt jobs q) as Hr;
      destruct (loop_head rt jobs q) as [x q2] end.
    cbn [fst snd] in *. exists (bs ++ [b']). split.
    + cbn. rewrite Hr. apply Forall2_app; [exact Hbs | now constructor].
    + cbn [p_idx]. rewrite list_sum_app. cbn. lia.
Qed.

End Budget.

(** A probe makes at most three requests. *)
Lemma probe_bounded rt cfg ep aid path url vinit :
  bounded (probe rt cfg ep aid path url vinit) 3.
Proof.
  cbn. intros o. unfold after_baseline.
  destruct o; cbn; auto.
  destruct (buildUrl rt (baseUrl cfg) path []); cbn; auto.
  destruct (attacker_init cfg); cbn; auto.
  intros oa. unfold after_attacker.
  assert (Hun : bounded (unauth_probe cfg ep path url status text) 1).
  { unfold unauth_probe. destruct (unauthenticated (authContexts cfg)) as [[|]|]; cbn; auto.
    intros ou. unfold after_unauth. destruct ou; cbn; auto.
    destruct (is_2xx _); cbn; auto. destruct (Qge_bool _ _); cbn; auto. }
  destruct (Qge_bool _ _); cbn; auto.
Qed.

(** The jobs of a scan are the probes of its endpoints. *)
Lemma build_tasks_probes rt cfg eps tasks :
  build_tasks rt cfg eps = Some tasks ->
  forall t, In t tasks ->
  exists ep aid path url vinit,
    In ep eps /\ t = probe rt cfg ep aid path url vinit
    /\ endpoint_job rt cfg ep = Some (Some t).
Proof.
  revert tasks. induction eps as [|ep eps IH]; intros tasks Hb t Hin; cbn in Hb.
  - injection Hb as <-. destruct Hin.
  - destruct (endpoint_job rt cfg ep) as [[job|]|] eqn:Hjob; try discriminate.
    + destruct (build_tasks rt cfg eps) as [ts|]; [|discriminate].
      injection Hb as <-. destruct Hin as [<-|Hin].
      * pose proof Hjob as Hjob0. unfold endpoint_job in Hjob.
        destruct (ep_pathParams ep) as [|pp rest] eqn:Hpp; [discriminate|].
        injection Hjob as Hjob.
        destruct (buildUrl rt (baseUrl cfg) _ []) as [u|] eqn:Eu; [|discriminate].
        cbn in Hjob. destruct (buildInit _ _) as [vi|] eqn:Ev; [|discriminate].
        injection Hjob as <-.
        do 5 eexists. split; [now left|]. split; [reflexivity | exact Hjob0].
      * destruct (IH ts eq_refl t Hin) as (ep' & ? & ? & ? & ? & ? & ? & ?).
        do 5 eexists. split; [right; eassumption|]. split; eassumption.
    + destruct (IH tasks Hb t Hin) as (ep' & ? & ? & ? & ? & ? & ? & ?).
      do 5 eexists. split; [right; eassumption|]. split; eassumption.
Qed.

Lemma events_of_In {A} i (e : jev A) log :
  In e (events_of i log) <-> In (i, e) log.
Proof.
  unfold events_of. induction log as [|[j e'] log IH]; cbn; [tauto|].
  case_bool_decide as Hj; cbn in *.
  - subst j. rewrite IH. split; intros [H|H]; auto; [left; congruence|].
    injection H as <-. now left.
  - rewrite IH. split; [auto|]. intros [[= -> _]|H]; [contradiction | exact H].
Qed.

Lemma pushes_In {A} f (log : list (nat * jev A)) :
  In f (pushes log) <-> exists i, In (i, JPush f) log.
Proof.
  unfold pushes. induction log as [|[j e] log IH]; cbn.
  - split; [intros [] | intros [_ []]].
  - destruct e; cbn; rewrite ?IH; cbn.
    all: split;
      [ intros H; try (destruct H as [<-|H]; [exists j; now left|]);
        destruct H as [i H]; exists i; now right
      | intros [i [H|H]]; try discriminate H;
        try (injection H as _ <-; now left);
        try right; eauto ].
Qed.

Lemma forallb_false {X} (f : X -> bool) (l : list X) :
  forallb f l = false -> exists x, In x l /\ f x = false.
Proof.
  induction l as [|x l IH]; cbn; [discriminate|].
  destruct (f x) eqn:Hx; cbn.
  - intros H. destruct (IH H) as (y & Hy & Hfy). exists y. auto.
  - intros _. exists x. auto.
Qed.

(** In a pool that is not done, some runner can take a turn whatever
    outcome is delivered. *)
Lemma pool_progress {A} rt (jobs : list (task A)) F0 (p : pool A) :
  pool_inv jobs F0 None p -> terminal p = false ->
  exists r, forall o, pool_step rt jobs (r, o) p <> None.
Proof.
  intros Hinv Hterm. unfold terminal in Hterm.
  apply forallb_false in Hterm as (x & Hx & Hxf).
  destruct x as [i t|]; [|discriminate].
  apply list_elem_of_In, list_elem_of_lookup in Hx as [r Hl].
  destruct (inv_busy _ _ _ _ Hinv r i t ltac:(discriminate) Hl) as [Hs _].
  exists r. intros o. unfold pool_step. rewrite Hl.
  destruct t; try discriminate.
  match goal with |- context [advance rt ?i ?t ?q] => destruct (advance rt i t q) end.
  discriminate.
Qed.

(** ** The scheduler at any width *)

Section AnyWidth.
Context {A : Type} (rt : Runtime) (jobs : list (task A)) (F0 : list Finding).

Implicit Types (p : pool A) (log : list (nat * jev A)).

Lemma reachable_inv width script p :
  pool_exec rt jobs script (pool_init rt jobs width F0) = Some p ->
  pool_inv jobs F0 None p /\ length (p_runners p) = width.
Proof.
  intros Hex. split.
  - eapply pool_exec_inv; [apply pool_init_inv | exact Hex].
  - rewrite (pool_exec_length rt jobs _ _ _ Hex). apply pool_init_length.
Qed.

Lemma collected_settlement log i res :
  collected jobs log i res -> In (i, res) (settlements log).
Proof.
  intros (t0 & evs & t & _ & Hev & _ & _).
  assert (Hin : In (JSettle res) (events_of i log)).
  { rewrite Hev. right. apply in_or_app. right. now left. }
  apply events_of_In in Hin. clear Hev.
  induction log as [|[j e] log IH]; [destruct Hin|].
  unfold settlements in *. cbn. destruct Hin as [[= -> ->]|Hin].
  - now left.
  - destruct e; cbn; auto.
Qed.

Lemma held_lookup (rs : list (runner A)) r i t :
  rs !! r = Some (Busy i t) -> In i (held rs).
Proof.
  revert r. induction rs as [|x rs IH]; intros [|r] H; try discriminate.
  - injection H as ->. now left.
  - cbn in H. unfold held. cbn. destruct x; [right|]; eapply IH; eassumption.
Qed.

Lemma held_length (rs : list (runner A)) : length (held rs) <= length rs.
Proof.
  induction rs as [|x rs IH]; [reflexivity|].
  unfold held in *. cbn. destruct x; cbn; lia.
Qed.

(** A job in flight is held by a runner. *)
Lemma in_flight_held hole p :
  hole = None -> pool_inv jobs F0 hole p -> incl (in_flight (p_log p)) (held (p_runners p)).
Proof.
  intros -> Hinv i Hin. unfold in_flight in Hin.
  apply filter_In in Hin as [Hst Hno].
  rewrite (inv_starts _ _ _ _ Hinv) in Hst. apply in_seq in Hst as [_ Hlt].
  destruct (inv_started _ _ _ _ Hinv i Hlt) as [(r & t & _ & Hl)|[res Hc]].
  - eapply held_lookup; eassumption.
  - apply collected_settlement in Hc.
    apply negb_true_iff in Hno.
    assert (existsb (fun s : nat * option A => s.1 =? i) (settlements (p_log p)) = true)
      as Hyes; [|congruence].
    apply existsb_exists. exists (i, res). split; [exact Hc | apply Nat.eqb_refl].
Qed.

Lemma in_flight_NoDup hole p :
  pool_inv jobs F0 hole p -> List.NoDup (in_flight (p_log p)).
Proof.
  intros Hinv. unfold in_flight. apply List.NoDup_filter.
  rewrite (inv_starts _ _ _ _ Hinv). apply List.seq_NoDup.
Qed.

End AnyWidth.

Lemma array_length_spec (n : Q) (w : nat) :
  array_length n = Some w -> (n == Q_of_nat w)%Q.
Proof.
  unfold array_length. destruct (Qeq_bool _ _) eqn:He; [|discriminate].
  destruct (0 <=? Qfloor n)%Z eqn:H0; [|discriminate].
  destruct (Qfloor n <? 2 ^ 32)%Z; [|discriminate]. cbn. intros [= <-].
  apply Qeq_bool_iff in He. rewrite He at 1. unfold Q_of_nat.
  apply Z.leb_le in H0. now rewrite Z2Nat.id.
Qed.

Lemma Q_of_nat_inj_le (n m : nat) : (Q_of_nat n <= Q_of_nat m)%Q -> n <= m.
Proof. unfold Q_of_nat. rewrite <- Zle_Qle. lia. Qed.

Lemma Q_of_nat_inj_lt (n m : nat) : (Q_of_nat n < Q_of_nat m)%Q -> n < m.
Proof. unfold Q_of_nat. rewrite <- Zlt_Qlt. lia. Qed.

(** The width of the pool is [min(max, jobs.length)]. *)
Lemma width_spec (max : Q) (n w : nat) :
  array_length (Qmin max (Q_of_nat n)) = Some w ->
  w <= n /\ (Q_of_nat w <= max)%Q /\ ((1 <= max)%Q -> 0 < n -> 0 < w).
Proof.
  intros H. apply array_length_spec in H.
  pose proof (Q.le_min_l max (Q_of_nat n)) as Hl.
  pose proof (Q.le_min_r max (Q_of_nat n)) as Hr.
  rewrite H in Hl, Hr. repeat split; auto.
  - now apply Q_of_nat_inj_le.
  - intros Hmax Hn. apply Q_of_nat_inj_lt.
    rewrite <- H. apply Q.min_glb_lt.
    + eapply Qlt_le_trans; [|exact Hmax]. reflexivity.
    + change 0%Q with (Q_of_nat 0). unfold Q_of_nat. rewrite <- Zlt_Qlt. lia.
Qed.

(** What a run that returns has done, at any width of at least one. *)
Lemma returned_run {A : Type} (rt : Runtime)
    (jobs : list (task A)) (max : Q) (F0 : list Finding)
    (script : list (nat * outcome)) (p : pool A) :
  (1 <= max)%Q ->
  runWithConcurrency rt jobs max F0 script = Returned p ->
  starts (p_log p) = seq 0 (length jobs)
  /\ (forall i, i < length jobs -> exists res, collected jobs (p_log p) i res)
  /\ (forall i res,
        In (i, res) (settlements (p_log p)) -> collected jobs (p_log p) i res)
  /\ p_out p = omap snd (settlements (p_log p))
  /\ p_findings p = F0 ++ pushes (p_log p)
  /\ (forall i, length jobs <= i -> events_of i (p_log p) = []).
Proof.
  intros Hmax Hrun. unfold runWithConcurrency in Hrun.
  destruct (array_length _) as [width|] eqn:Hw; [|discriminate].
  destruct (pool_exec rt jobs script _) as [p'|] eqn:Hex; [|discriminate].
  destruct (terminal p') eqn:Hterm; [|discriminate]. injection Hrun as ->.
  destruct (reachable_inv rt jobs F0 _ _ _ Hex) as [Hinv Hlen].
  destruct (width_spec _ _ _ Hw) as (_ & _ & Hpos).
  assert (Hidx : p_idx p = length jobs).
  { apply (terminal_all_started jobs F0 p Hinv Hterm).
    destruct jobs as [|t0 js] eqn:Ej; [now right|left].
    intros E. rewrite E in Hlen. cbn in Hlen, Hpos. specialize (Hpos Hmax). lia. }
  split; [rewrite <- Hidx; apply (inv_starts _ _ _ _ Hinv)|].
  split.
  { intros i Hi. rewrite <- Hidx in Hi.
    destruct (inv_started _ _ _ _ Hinv i Hi) as [(r & t & _ & Hl)|Hc]; [|exact Hc].
    unfold terminal in Hterm. rewrite forallb_forall in Hterm.
    apply list_elem_of_lookup_2, list_elem_of_In, Hterm in Hl. discriminate. }
  split; [intros i res; now apply (settlement_collected jobs F0)|].
  split; [rewrite (inv_out _ _ _ _ Hinv); apply successes_settlements|].
  split; [apply (inv_findings _ _ _ _ Hinv)|].
  intros i Hi. apply (inv_fresh _ _ _ _ Hinv). lia.
Qed.

(** At any width of at least one, a run that returns has started every job
    exactly once, in the order of the list, every job has run to its end
    and has been collected with its own result, [out] holds the results of
    the jobs that resolved, in the order they were collected, and the
    findings are those pushed by the jobs. *)
Theorem runWithConcurrency_runs_every_job {A : Type} (rt : Runtime)
    (jobs : list (task A)) (max : Q) (F0 : list Finding)
    (script : list (nat * outcome)) (p : pool A) :
  (1 <= max)%Q ->
  runWithConcurrency rt jobs max F0 script = Returned p ->
  starts (p_log p) = seq 0 (length jobs)
  /\ (forall i, i < length jobs -> exists res, collected jobs (p_log p) i res)
  /\ (forall i res,
        In (i, res) (settlements (p_log p)) -> collected jobs (p_log p) i res)
  /\ p_out p = omap snd (settlements (p_log p))
  /\ p_findings p = F0 ++ pushes (p_log p).
Proof.
  intros Hmax Hrun.
  destruct (returned_run rt jobs max F0 script p Hmax Hrun) as (? & ? & ? & ? & ? & _).
  auto.
Qed.

Lemma runWithConcurrency_runs_every_job_witness :
  exists p,
    runWithConcurrency demo_rt [Done 5; Thrown TypeError; Done 7] 2 []
      [(0, FetchFailed); (1, FetchFailed); (0, FetchFailed)] = Returned p
    /\ starts (p_log p) = [0; 1; 2]
    /\ p_out p = [5; 7].
Proof.
  eexists. split; [vm_compute; reflexivity|].
  match goal with |- starts (p_log ?q) = _ /\ _ =>
    destruct (runWithConcurrency_runs_every_job demo_rt
                [Done 5; Thrown TypeError; Done 7] 2 []
                [(0, FetchFailed); (1, FetchFailed); (0, FetchFailed)] q)
      as (Hs & _ & _ & Ho & _)
  end.
  - vm_compute. discriminate.
  - vm_compute. reflexivity.
  - split; [exact Hs | rewrite Ho; reflexivity].
Defined.

(** However the turns are taken, the jobs started and not yet collected
    never outnumber the runners, and there are at most [max] runners and at
    most one per job. *)
Theorem runWithConcurrency_bounded_parallelism {A : Type} (rt : Runtime)
    (jobs : list (task A)) (max : Q) (F0 : list Finding) (width : nat)
    (script : list (nat * outcome)) (p : pool A) :
  array_length (Qmin max (Q_of_nat (length jobs))) = Some width ->
  pool_exec rt jobs script (pool_init rt jobs width F0) = Some p ->
  length (in_flight (p_log p)) <= width
  /\ (Q_of_nat width <= max)%Q /\ width <= length jobs.
Proof.
  intros Hw Hex.
  destruct (reachable_inv rt jobs F0 _ _ _ Hex) as [Hinv Hlen].
  destruct (width_spec _ _ _ Hw) as (Hn & Hm & _).
  split; [|split; assumption].
  rewrite <- Hlen.
  etransitivity; [|apply held_length].
  apply List.NoDup_incl_length.
  - eapply in_flight_NoDup; eassumption.
  - eapply in_flight_held; [reflexivity | eassumption].
Qed.

Lemma runWithConcurrency_bounded_parallelism_witness :
  exists p,
    pool_exec demo_rt [Done 5; Thrown TypeError; Done 7] [(0, FetchFailed)]
      (pool_init demo_rt [Done 5; Thrown TypeError; Done 7] 2 []) = Some p
    /\ in_flight (p_log p) = [1; 2]
    /\ length (in_flight (p_log p)) <= 2.
Proof.
  eexists. split; [vm_compute; reflexivity|]. split; [vm_compute; reflexivity|].
  match goal with |- length (in_flight (p_log ?q)) <= _ =>
    apply (runWithConcurrency_bounded_parallelism demo_rt
             [Done 5; Thrown TypeError; Done 7] 2 [] 2 [(0, FetchFailed)] q)
  end; vm_compute; reflexivity.
Defined.

(** ** The width of the pool *)

Lemma array_length_None (x : Q) :
  array_length x = None
  <-> is_integer x = false \/ (x < 0)%Q \/ (inject_Z (2 ^ 32) <= x)%Q.
Proof.
  unfold array_length, is_integer.
  destruct (Qeq_bool x (inject_Z (Qfloor x))) eqn:He; cbn [andb].
  2: { split; [now left | reflexivity]. }
  apply Qeq_bool_iff in He.
  destruct (0 <=? Qfloor x)%Z eqn:H0; cbn [andb].
  - apply Z.leb_le in H0.
    destruct (Qfloor x <? 2 ^ 32)%Z eqn:H1.
    + apply Z.ltb_lt in H1. split; [discriminate|].
      intros [H|[H|H]]; [discriminate| |]; exfalso; rewrite He in H.
      * change 0%Q with (inject_Z 0) in H. rewrite <- Zlt_Qlt in H. lia.
      * rewrite <- Zle_Qle in H. lia.
    + apply Z.ltb_ge in H1. split; [|reflexivity]. intros _. right. right.
      rewrite He. now rewrite <- Zle_Qle.
  - apply Z.leb_gt in H0. split; [|reflexivity]. intros _. right. left.
    rewrite He. change 0%Q with (inject_Z 0). now rewrite <- Zlt_Qlt.
Qed.

Lemma is_integer_Q_of_nat (n : nat) : is_integer (Q_of_nat n) = true.
Proof.
  unfold is_integer, Q_of_nat. apply Qeq_bool_iff. now rewrite Qfloor_Z.
Qed.

Lemma is_integer_proper (x y : Q) : (x == y)%Q -> is_integer x = is_integer y.
Proof.
  intros H. unfold is_integer.
  destruct (Qeq_bool y _) eqn:Hy.
  - apply Qeq_bool_iff. apply Qeq_bool_iff in Hy. now rewrite H.
  - destruct (Qeq_bool x _) eqn:Hx; [|reflexivity].
    apply Qeq_bool_iff in Hx. rewrite H in Hx. apply Qeq_bool_iff in Hx. congruence.
Qed.

(** [new Array(Math.min(max, jobs.length))] throws exactly when [max] is
    below the number of jobs and is negative or has a fractional part. *)
Lemma width_throws (max : Q) (n : nat) :
  (Z.of_nat n < 2 ^ 32)%Z ->
  array_length (Qmin max (Q_of_nat n)) = None
  <-> (max < Q_of_nat n)%Q /\ ((max < 0)%Q \/ is_integer max = false).
Proof.
  intros Hn. rewrite array_length_None.
  assert (H0 : (0 <= Q_of_nat n)%Q) by apply Q_of_nat_nonneg.
  assert (H32 : (Q_of_nat n < inject_Z (2 ^ 32))%Q).
  { unfold Q_of_nat. now rewrite <- Zlt_Qlt. }
  destruct (Qlt_le_dec max (Q_of_nat n)) as [Hlt|Hge].
  - assert (E : (Qmin max (Q_of_nat n) == max)%Q) by (apply Q.min_l; lra).
    rewrite (is_integer_proper _ _ E), E. split.
    + intros [H|[H|H]]; [auto|auto|lra].
    + intros [_ [H|H]]; auto.
  - assert (E : (Qmin max (Q_of_nat n) == Q_of_nat n)%Q) by (apply Q.min_r; lra).
    rewrite (is_integer_proper _ _ E), E, is_integer_Q_of_nat. split.
    + intros [H|[H|H]]; [discriminate|lra|lra].
    + intros [H _]. lra.
Qed.

(** The edges of the width: [runWithConcurrency] throws a [RangeError]
    exactly when [max] is below the number of jobs and is negative or not
    an integer; with [max = 0] it returns at once and starts no job. *)
Theorem runWithConcurrency_width_edges {A : Type} (rt : Runtime)
    (jobs : list (task A)) (max : Q) (F0 : list Finding)
    (script : list (nat * outcome)) :
  (Z.of_nat (length jobs) < 2 ^ 32)%Z ->
  (runWithConcurrency rt jobs max F0 script = Threw RangeError
   <-> (max < Q_of_nat (length jobs))%Q /\ ((max < 0)%Q \/ is_integer max = false))
  /\ ((max == 0)%Q ->
      runWithConcurrency rt jobs max F0 []
      = Returned {| p_idx := 0; p_out := []; p_runners := [];
                    p_findings := F0; p_nuuid := 0; p_log := [] |}).
Proof.
  intros Hn. split.
  - rewrite <- (width_throws max (length jobs) Hn). unfold runWithConcurrency.
    destruct (array_length _) as [w|]; [|tauto].
    split; [|discriminate].
    destruct (pool_exec rt jobs script _) as [p|]; [|discriminate].
    destruct (terminal p); discriminate.
  - intros H0. unfold runWithConcurrency.
    destruct (array_length _) as [w|] eqn:Hw.
    + destruct (width_spec _ _ _ Hw) as (_ & Hle & _).
      assert (w = 0) as ->.
      { rewrite H0 in Hle. change 0%Q with (Q_of_nat 0) in Hle.
        apply Q_of_nat_inj_le in Hle. lia. }
      reflexivity.
    + apply (width_throws max (length jobs) Hn) in Hw as [_ [H|H]].
      * rewrite H0 in H. discriminate.
      * rewrite (is_integer_proper _ _ H0) in H. discriminate.
Qed.

Lemma runWithConcurrency_width_edges_witness :
  runWithConcurrency demo_rt [Done 5; Thrown TypeError; Done 7] (5 # 2) []
    [(0, FetchFailed)] = Threw RangeError
  /\ runWithConcurrency demo_rt [Done 5; Thrown TypeError; Done 7] (-1) []
       [(0, FetchFailed)] = Threw RangeError.
Proof.
  split.
  - apply (runWithConcurrency_width_edges demo_rt
             [Done 5; Thrown TypeError; Done 7] (5 # 2) [] [(0, FetchFailed)]);
      [reflexivity|]. split; [reflexivity | right; reflexivity].
  - apply (runWithConcurrency_width_edges demo_rt
             [Done 5; Thrown TypeError; Done 7] (-1) [] [(0, FetchFailed)]);
      [reflexivity|]. split; [reflexivity | left; reflexivity].
Defined.

(** ** What an accepted request looks like *)

Lemma zmap_Valid {A B} (f : A -> B) (x : parsed A) (b : B) :
  zmap f x = Valid b -> exists a, x = Valid a /\ b = f a.
Proof. destruct x; cbn; [intros [= <-]; eauto | discriminate]. Qed.

Lemma both_Valid {A B} (x : parsed A) (y : parsed B) (a : A) (b : B) :
  both x y = Valid (a, b) -> x = Valid a /\ y = Valid b.
Proof. destruct x, y; cbn; try discriminate. intros [= -> ->]. auto. Qed.

Lemma all_valid_Valid {A} (xs : list (parsed A)) (l : list A) :
  all_valid xs = Valid l -> Forall2 (fun x a => x = Valid a) xs l.
Proof.
  revert l. induction xs as [|x xs IH]; intros l; cbn.
  - intros [= <-]. constructor.
  - intros H. apply zmap_Valid in H as ([a l'] & H & ->).
    apply both_Valid in H as [-> H]. constructor; auto.
Qed.

Lemma z_number_range_Valid (lo hi : Q) path v (q : Q) :
  z_number_range lo hi path v = Valid q ->
  v = Some (JNum q) /\ (lo <= q)%Q /\ (q <= hi)%Q.
Proof.
  unfold z_number_range, wrong_type. destruct v as [[]|]; try discriminate.
  destruct (Qle_bool lo q0) eqn:Hlo, (Qle_bool q0 hi) eqn:Hhi; cbn; try discriminate.
  intros [= <-]. apply Qle_bool_iff in Hlo, Hhi. auto.
Qed.

Lemma z_default_Valid {A} (d : A) (p : zparser A) path v (a : A) :
  z_default d p path v = Valid a ->
  (v = None /\ a = d) \/ (v <> None /\ p path v = Valid a).
Proof.
  unfold z_default. destruct v; [right | left].
  - split; [discriminate | assumption].
  - injection H as <-. auto.
Qed.

(** An accepted array has at least the required number of items, and every
    element of the result is the parse of one of them. *)
Lemma z_array_Valid {A} (elem : zparser A) (n : nat) path v (l : list A) :
  z_array elem n path v = Valid l ->
  exists items,
    v = Some (JArr items) /\ n <= length items /\ length l = length items
    /\ forall a, In a l -> exists i x, elem (path ++ [Index i]) (Some x) = Valid a.
Proof.
  unfold z_array, wrong_type. destruct v as [[]|]; try discriminate.
  destruct (length items <? n) eqn:Hn; [destruct (all_valid _); discriminate|].
  destruct (all_valid _) as [l'|] eqn:Hall; [|discriminate]. intros [= <-].
  apply Nat.ltb_ge in Hn. apply all_valid_Valid in Hall.
  exists items. split; [reflexivity|]. split; [exact Hn|].
  pose proof (Forall2_length _ _ _ Hall) as Hlen. rewrite length_imap in Hlen.
  split; [auto|].
  intros a Ha. apply list_elem_of_In, list_elem_of_lookup in Ha as [i Hi].
  destruct (Forall2_lookup_r _ _ _ _ _ Hall Hi) as (x & Hx & Hxa).
  rewrite list_lookup_imap in Hx.
  destruct (items !! i) as [y|] eqn:Hy; [|discriminate]. cbn in Hx.
  injection Hx as <-. eauto.
Qed.

(** An accepted request is an object, and every key of the configuration is
    the parse of the key of that name. *)
Lemma safeParse_Valid (rt : Runtime) (body : json) (cfg : ScanRequest) :
  safeParse rt body = Valid cfg ->
  exists fields,
    body = JObj fields
    /\ baseUrl_schema rt [Key (lit "baseUrl")] (get_field (lit "baseUrl") fields)
       = Valid (baseUrl cfg)
    /\ endpoints_schema [Key (lit "endpoints")] (get_field (lit "endpoints") fields)
       = Valid (endpoints cfg)
    /\ AuthContextsSchema [Key (lit "authContexts")]
         (get_field (lit "authContexts") fields) = Valid (authContexts cfg)
    /\ speedGateThreshold_schema [Key (lit "speedGateThreshold")]
         (get_field (lit "speedGateThreshold") fields) = Valid (speedGateThreshold cfg)
    /\ maxConcurrency_schema [Key (lit "maxConcurrency")]
         (get_field (lit "maxConcurrency") fields) = Valid (maxConcurrency cfg)
    /\ timeoutMs_schema [Key (lit "timeoutMs")] (get_field (lit "timeoutMs") fields)
       = Valid (timeoutMs cfg).
Proof.
  unfold safeParse, ScanRequestSchema, wrong_type.
  destruct body as [| | | | |fields]; try discriminate.
  intros H. exists fields. split; [reflexivity|].
  apply zmap_Valid in H as ([[[[[b e] a] s] m] t] & H & ->).
  repeat (apply both_Valid in H as [H ?]). cbn in *. repeat split; assumption.
Qed.

Lemma default_range_Valid (d lo hi : Q) path v (q : Q) :
  (lo <= d)%Q -> (d <= hi)%Q ->
  z_default d (z_number_range lo hi) path v = Valid q ->
  (lo <= q)%Q /\ (q <= hi)%Q
  /\ match v with
     | None => q = d
     | Some j => j = JNum q
     end.
Proof.
  intros Hlo Hhi H. apply z_default_Valid in H as [[-> ->]|[Hv H]]; [auto|].
  apply z_number_range_Valid in H as (-> & ? & ?). auto.
Qed.

Lemma ParamSchema_Valid path v (pp : PathParam) :
  ParamSchema path v = Valid pp -> pp_samples pp <> [].
Proof.
  unfold ParamSchema, wrong_type. destruct v as [[]|]; try discriminate.
  intros H. apply zmap_Valid in H as ([n s] & H & ->).
  apply both_Valid in H as [_ H]. cbn.
  apply z_array_Valid in H as (items & _ & Hn & Hlen & _).
  intros ->. cbn in Hlen. lia.
Qed.

Lemma params_Valid path v (l : list PathParam) :
  z_array ParamSchema 0 path v = Valid l ->
  forall pp, In pp l -> pp_samples pp <> [].
Proof.
  intros H pp Hin. apply z_array_Valid in H as (items & _ & _ & _ & Hel).
  destruct (Hel pp Hin) as (i & x & Hx). eapply ParamSchema_Valid; eassumption.
Qed.

Lemma EndpointSchema_Valid path v (ep : Endpoint) :
  EndpointSchema path v = Valid ep ->
  (forall pp, In pp (ep_pathParams ep) -> pp_samples pp <> [])
  /\ (forall qps pp, ep_queryParams ep = Some qps -> In pp qps -> pp_samples pp <> []).
Proof.
  unfold EndpointSchema, wrong_type. destruct v as [[]|]; try discriminate.
  intros H. apply zmap_Valid in H as ([[[[m t] pp] qp] bt] & H & ->).
  repeat (apply both_Valid in H as [H ?]). cbn. split.
  - match goal with Hp : z_default [] _ _ _ = Valid pp |- _ =>
      apply z_default_Valid in Hp as [[_ ->]|[_ Hp]];
        [intros ? [] | eapply params_Valid; eassumption]
    end.
  - intros qps p0 ->.
    match goal with Hq : z_optional _ _ _ = Valid (Some qps) |- _ =>
      unfold z_optional in Hq;
      destruct (get_field (lit "queryParams") fields) eqn:Eq; [|discriminate];
      apply zmap_Valid in Hq as (l & Hq & [= ->])
    end.
    eapply params_Valid; eassumption.
Qed.

(** The concurrency of an accepted request. *)
Lemma accepted_bounds (rt : Runtime) (body : json) (cfg : ScanRequest) :
  safeParse rt body = Valid cfg ->
  (1 <= maxConcurrency cfg)%Q /\ (maxConcurrency cfg <= 12)%Q.
Proof.
  intros H. apply safeParse_Valid in H as (fields & -> & _ & _ & _ & _ & Hm & _).
  apply default_range_Valid in Hm as (? & ? & _); [auto|discriminate..].
Qed.

(** Every configuration the handler works with satisfies the bounds of the
    schema: the base URL is one the URL parser accepts, there is at least
    one endpoint, every path or query parameter has at least one sample,
    the threshold lies in [0, 1], the concurrency in [1, 12] and the
    time-out in [1000, 60000]. *)
Theorem accepted_config_is_within_bounds (rt : Runtime) (body : json) (cfg : ScanRequest) :
  safeParse rt body = Valid cfg ->
  URL_href rt (baseUrl cfg) [] <> None
  /\ endpoints cfg <> []
  /\ (forall ep pp, In ep (endpoints cfg) -> In pp (ep_pathParams ep) ->
        pp_samples pp <> [])
  /\ (forall ep qps pp, In ep (endpoints cfg) -> ep_queryParams ep = Some qps ->
        In pp qps -> pp_samples pp <> [])
  /\ (0 <= speedGateThreshold cfg)%Q /\ (speedGateThreshold cfg <= 1)%Q
  /\ (1 <= maxConcurrency cfg)%Q /\ (maxConcurrency cfg <= 12)%Q
  /\ (1000 <= timeoutMs cfg)%Q /\ (timeoutMs cfg <= 60000)%Q.
Proof.
  intros H. apply safeParse_Valid in H as (fields & -> & Hb & He & _ & Hs & Hm & Ht).
  apply default_range_Valid in Hs as (? & ? & _); [|discriminate..].
  apply default_range_Valid in Hm as (? & ? & _); [|discriminate..].
  apply default_range_Valid in Ht as (? & ? & _); [|discriminate..].
  apply z_array_Valid in He as (items & _ & Hn & Hlen & Hel).
  assert (Hurl : URL_href rt (baseUrl cfg) [] <> None).
  { unfold baseUrl_schema, z_url, wrong_type in Hb.
    destruct (get_field (lit "baseUrl") fields) as [[]|]; try discriminate.
    destruct (URL_href rt s []) eqn:Hu; [|discriminate].
    injection Hb as <-. congruence. }
  repeat split; try assumption.
  - intros E. rewrite E in Hlen. cbn in Hlen. lia.
  - intros ep pp Hep. destruct (Hel ep Hep) as (i & x & Hx).
    apply EndpointSchema_Valid in Hx as [Hx _]. apply Hx.
  - intros ep qps pp Hep. destruct (Hel ep Hep) as (i & x & Hx).
    apply EndpointSchema_Valid in Hx as [_ Hx]. apply Hx.
Qed.


Lemma accepted_config_is_within_bounds_witness :
  exists cfg,
    safeParse demo_rt demo_body = Valid cfg
    /\ endpoints cfg <> []
    /\ (1 <= maxConcurrency cfg)%Q /\ (maxConcurrency cfg <= 12)%Q.
Proof.
  eexists. split; [vm_compute; reflexivity|].
  match goal with |- endpoints ?c <> [] /\ _ =>
    destruct (accepted_config_is_within_bounds demo_rt demo_body c)
      as (_ & He & _ & _ & _ & _ & Hlo & Hhi & _)
  end.
  - vm_compute. reflexivity.
  - auto.
Defined.

(** The three numeric keys: a key that is absent takes its default (0.8, 5,
    8000); a key that is present is a number and is taken as it is. *)
Theorem numeric_keys_default_or_given (rt : Runtime) (fields : list (str * json))
    (cfg : ScanRequest) :
  safeParse rt (JObj fields) = Valid cfg ->
  match get_field (lit "speedGateThreshold") fields with
  | None => speedGateThreshold cfg = 0.8%Q
  | Some j => j = JNum (speedGateThreshold cfg)
  end
  /\ match get_field (lit "maxConcurrency") fields with
     | None => maxConcurrency cfg = 5%Q
     | Some j => j = JNum (maxConcurrency cfg)
     end
  /\ match get_field (lit "timeoutMs") fields with
     | None => timeoutMs cfg = 8000%Q
     | Some j => j = JNum (timeoutMs cfg)
     end
  /\ get_field (lit "baseUrl") fields = Some (JStr (baseUrl cfg)).
Proof.
  intros H. apply safeParse_Valid in H as (fields' & [= <-] & Hb & _ & _ & Hs & Hm & Ht).
  apply default_range_Valid in Hs as (_ & _ & Hs); [|discriminate..].
  apply default_range_Valid in Hm as (_ & _ & Hm); [|discriminate..].
  apply default_range_Valid in Ht as (_ & _ & Ht); [|discriminate..].
  repeat split; try assumption.
  unfold baseUrl_schema, z_url, wrong_type in Hb.
  destruct (get_field (lit "baseUrl") fields) as [[]|]; try discriminate.
  destruct (URL_href rt s []); [|discriminate]. now injection Hb as <-.
Qed.

Lemma numeric_keys_default_or_given_witness :
  exists cfg,
    safeParse demo_rt
      (JObj [(lit "baseUrl", JStr (lit "http://api.test"));
             (lit "endpoints", JArr [endpoint_json "/users/{id}"]);
             (lit "authContexts", JObj [(lit "victim", JObj [])]);
             (lit "timeoutMs", JNum 1500)]) = Valid cfg
    /\ speedGateThreshold cfg = 0.8%Q /\ maxConcurrency cfg = 5%Q
    /\ JNum 1500 = JNum (timeoutMs cfg).
Proof.
  eexists. split; [vm_compute; reflexivity|].
  match goal with |- speedGateThreshold ?c = _ /\ _ =>
    destruct (numeric_keys_default_or_given demo_rt
                [(lit "baseUrl", JStr (lit "http://api.test"));
                 (lit "endpoints", JArr [endpoint_json "/users/{id}"]);
                 (lit "authContexts", JObj [(lit "victim", JObj [])]);
                 (lit "timeoutMs", JNum 1500)] c) as (Hs & Hm & Ht & _)
  end.
  - vm_compute. reflexivity.
  - auto.
Defined.

(** ** The handler as a whole *)

Lemma settled_as_inj {A} (t : task A) (r1 r2 : option A) :
  settled_as t r1 -> settled_as t r2 -> r1 = r2.
Proof. destruct t; cbn; try contradiction; congruence. Qed.

Lemma settled_as_settled {A} (t : task A) (res : option A) :
  settled_as t res -> is_settled t = true.
Proof. destruct t; cbn; auto; contradiction. Qed.

(** A response with status 200 comes from a run of the pool that
    returned. *)
Lemma POST_200 (rt : Runtime) (body : json) script fs log :
  POST rt (Some body) script = {| result := Response 200 (FindingsBody fs); trace := log |} ->
  exists cfg tasks p,
    safeParse rt body = Valid cfg
    /\ build_tasks rt cfg (endpoints cfg) = Some tasks
    /\ runWithConcurrency rt tasks (maxConcurrency cfg) [] script = Returned p
    /\ fs = p_findings p /\ log = p_log p.
Proof.
  unfold POST. destruct (safeParse rt body) as [cfg|issues] eqn:Hp; [|discriminate].
  destruct (build_tasks rt cfg (endpoints cfg)) as [tasks|] eqn:Hb; [|discriminate].
  destruct (runWithConcurrency rt tasks (maxConcurrency cfg) [] script) as [p| |] eqn:Hrun;
    try discriminate.
  intros [= <- <-]. exists cfg, tasks, p. repeat split; auto.
Qed.

(** The jobs of a scan, one for each endpoint that has a path parameter. *)
Lemma build_tasks_jobs rt cfg eps tasks :
  build_tasks rt cfg eps = Some tasks ->
  forall t, In t tasks ->
  exists ep pp rest url vinit,
    In ep eps /\ ep_pathParams ep = pp :: rest
    /\ buildUrl rt (baseUrl cfg) (victim_path rt ep pp) [] = Some url
    /\ buildInit (ac_headers (victim (authContexts cfg)))
         (ac_cookies (victim (authContexts cfg))) = Some vinit
    /\ t = probe rt cfg ep (attacker_sample pp) (victim_path rt ep pp) url vinit.
Proof.
  revert tasks. induction eps as [|ep eps IH]; intros tasks Hb t Hin; cbn in Hb.
  - injection Hb as <-. destruct Hin.
  - destruct (endpoint_job rt cfg ep) as [[job|]|] eqn:Hjob; try discriminate.
    + destruct (build_tasks rt cfg eps) as [ts|]; [|discriminate].
      injection Hb as <-. destruct Hin as [<-|Hin].
      * unfold endpoint_job in Hjob.
        destruct (ep_pathParams ep) as [|pp rest] eqn:Hpp; [discriminate|].
        injection Hjob as Hjob.
        destruct (buildUrl rt (baseUrl cfg) _ []) as [u|] eqn:Eu; [|discriminate].
        cbn in Hjob. destruct (buildInit _ _) as [vi|] eqn:Ev; [|discriminate].
        injection Hjob as <-.
        exists ep, pp, rest, u, vi. repeat split; auto. now left.
      * destruct (IH ts eq_refl t Hin) as (ep' & pp & rest & u & vi & ? & ?).
        exists ep', pp, rest, u, vi. split; [now right | assumption].
    + destruct (IH tasks Hb t Hin) as (ep' & pp & rest & u & vi & ? & ?).
      exists ep', pp, rest, u, vi. split; [now right | assumption].
Qed.

Lemma build_tasks_filter rt cfg eps :
  build_tasks rt cfg eps = build_tasks rt cfg (List.filter has_path_param eps).
Proof.
  induction eps as [|ep eps IH]; [reflexivity|].
  cbn [build_tasks List.filter]. destruct (has_path_param ep) eqn:Hh.
  - cbn [build_tasks]. now rewrite IH.
  - unfold has_path_param in Hh. unfold endpoint_job.
    destruct (ep_pathParams ep); [exact IH | discriminate].
Qed.

Lemma build_tasks_length rt cfg eps tasks :
  build_tasks rt cfg eps = Some tasks ->
  length tasks = length (List.filter has_path_param eps).
Proof.
  revert tasks. induction eps as [|ep eps IH]; intros tasks.
  - now intros [= <-].
  - cbn [build_tasks List.filter]. unfold has_path_param, endpoint_job.
    destruct (ep_pathParams ep) as [|pp rest]; [apply IH|].
    destruct (_ ≫= _) as [job|]; [|discriminate].
    destruct (build_tasks rt cfg eps) as [ts|]; [|discriminate].
    intros [= <-]. cbn. now rewrite (IH ts eq_refl).
Qed.

(** In a scan that is answered with status 200, every job has gone through
    a whole probe. *)
Lemma scan_job_events rt cfg tasks script p i :
  (1 <= maxConcurrency cfg)%Q ->
  build_tasks rt cfg (endpoints cfg) = Some tasks ->
  runWithConcurrency rt tasks (maxConcurrency cfg) [] script = Returned p ->
  i < length tasks ->
  exists ep pp rest url vinit o oa ou id1 id2,
    In ep (endpoints cfg) /\ ep_pathParams ep = pp :: rest
    /\ buildUrl rt (baseUrl cfg) (victim_path rt ep pp) [] = Some url
    /\ buildInit (ac_headers (victim (authContexts cfg)))
         (ac_cookies (victim (authContexts cfg))) = Some vinit
    /\ events_of i (p_log p)
       = JStart
         :: probe_events rt cfg ep (attacker_sample pp) (victim_path rt ep pp) url vinit
              o oa ou id1 id2
         ++ [JSettle (probe_result rt cfg (victim_path rt ep pp) o)].
Proof.
  intros Hmax Hb Hrun Hi.
  destruct (returned_run rt tasks _ [] script p Hmax Hrun) as (_ & Hall & _).
  destruct (Hall i Hi) as (res & t0 & evs & t & Hl & Hev & Htr & Hs).
  apply list_elem_of_lookup_2, list_elem_of_In in Hl.
  destruct (build_tasks_jobs rt cfg _ _ Hb t0 Hl)
    as (ep & pp & rest & url & vinit & Hep & Hpp & Hurl & Hvinit & ->).
  apply probe_trace_complete in Htr as (o & oa & ou & id1 & id2 & -> & Hs');
    [|eapply settled_as_settled; eassumption].
  rewrite (settled_as_inj _ _ _ Hs Hs') in Hev.
  exists ep, pp, rest, url, vinit, o, oa, ou, id1, id2. auto.
Qed.

(** The findings a probe can push, and the answers they are made of. *)
Lemma probe_events_push rt cfg ep aid path url vinit o oa ou id1 id2 f :
  let evs := probe_events rt cfg ep aid path url vinit o oa ou id1 id2 in
  In (JPush f) evs ->
  exists bs bt u ai,
    o = Responded bs bt
    /\ buildUrl rt (baseUrl cfg) path [] = Some u /\ attacker_init cfg = Some ai
    /\ In (JFetch (victim_request cfg ep url vinit) (Responded bs bt)) evs
    /\ In (JFetch (attacker_request cfg ep u ai) oa) evs
    /\ ((f = attacker_finding ep path bs (attacker_observed oa).1
               (attacker_scoring rt bs bt (attacker_observed oa).1
                  (attacker_observed oa).2 aid) id1
         /\ attacker_emits rt cfg aid bs bt oa = true)
        \/ (unauthenticated (authContexts cfg) = Some true
            /\ exists su tu,
                ou = Responded su tu /\ is_2xx su = true
                /\ Qge_bool (unauth_score bt tu) (speedGateThreshold cfg) = true
                /\ f = unauth_finding ep path bs bt su tu id2
                /\ In (JFetch (unauth_request cfg ep url) (Responded su tu)) evs)).
Proof.
  intros evs. subst evs. unfold probe_events. intros [H|H]; [discriminate H|].
  destruct o as [| |bs bt]; [destruct H|destruct H|].
  destruct (buildUrl rt (baseUrl cfg) path []) as [u|]; [|destruct H].
  destruct (attacker_init cfg) as [ai|]; [|destruct H].
  destruct H as [H|H]; [discriminate H|].
  exists bs, bt, u, ai. split; [reflexivity|]. split; [reflexivity|]. split; [reflexivity|].
  split; [now left|]. split; [right; now left|].
  apply in_app_or in H as [H|H].
  - left. unfold attacker_events in H.
    destruct (attacker_emits rt cfg aid bs bt oa); [|destruct H].
    destruct H as [H|[H|[]]]; [discriminate H|]. injection H as <-. auto.
  - right. destruct (unauthenticated (authContexts cfg)) as [[|]|];
      [|destruct H|destruct H].
    split; [reflexivity|]. destruct H as [H|H]; [discriminate H|].
    unfold unauth_events, unauth_emits in H.
    destruct ou as [| |su tu]; [destruct H|destruct H|].
    destruct (is_2xx su) eqn:H2; [|destruct H]. cbn [andb] in H.
    destruct (Qge_bool _ _) eqn:Hq; [|destruct H].
    destruct H as [H|[H|[]]]; [discriminate H|]. injection H as <-.
    exists su, tu. split; [reflexivity|]. split; [exact H2|]. split; [exact Hq|].
    split; [reflexivity|].
    right. right. apply in_or_app. right. now left.
Qed.

Lemma Number_toFixed3_unit (x : Q) :
  (0 <= x)%Q -> (x <= 1)%Q ->
  (0 <= Number (toFixed 3 x) /\ Number (toFixed 3 x) <= 1)%Q.
Proof.
  intros H0 H1.
  destruct (Number_toFixed3_between 0 1000 x) as [Hlo Hhi].
  - exact H0.
  - change (inject_Z 0) with 0%Q. lra.
  - change (inject_Z 1000) with 1000%Q. lra.
  - assert (E1 : round64 (inject_Z 0 / 1000) = 0%Q) by (vm_compute; reflexivity).
    assert (E2 : round64 (inject_Z 1000 / 1000) = 1%Q) by (vm_compute; reflexivity).
    rewrite E1 in Hlo. rewrite E2 in Hhi. split; assumption.
Qed.

(** Every finding of a 200 response was pushed by the probe of a
    configured endpoint with a path parameter, out of what the target
    answered to that probe.  The victim's request was answered, and the
    attacker's request was made.  A finding of the attacker vector is the
    one lines 193-202 build from the score of these two answers, and that
    score reached the threshold.  A finding of the unauthenticated vector
    exists only when the flag is set; it is the one lines 215-224 build from
    the victim's answer and a 2xx answer to the request without identity,
    whose score reached the threshold; its confidence is at least 0.65.
    The confidence of every finding lies in [0, 1]. *)
Theorem findings_come_from_probes (rt : Runtime) (body : json)
    (script : list (nat * outcome)) (fs : list Finding) (log : list (nat * jev unit)) :
  POST rt (Some body) script
  = {| result := Response 200 (FindingsBody fs); trace := log |} ->
  exists cfg,
    safeParse rt body = Valid cfg
    /\ fs = pushes log
    /\ forall f, In f fs ->
       (0 <= f_confidence f)%Q /\ (f_confidence f <= 1)%Q
       /\ exists i ep pp rest url vinit bs bt u ai oa id,
           In ep (endpoints cfg) /\ ep_pathParams ep = pp :: rest
           /\ buildUrl rt (baseUrl cfg) (victim_path rt ep pp) [] = Some url
           /\ buildUrl rt (baseUrl cfg) (victim_path rt ep pp) [] = Some u
           /\ attacker_init cfg = Some ai
           /\ In (i, JFetch (victim_request cfg ep url vinit) (Responded bs bt)) log
           /\ In (i, JFetch (attacker_request cfg ep u ai) oa) log
           /\ match f_attackVector f with
              | AttackerViaUrlId =>
                  let sc := attacker_scoring rt bs bt (attacker_observed oa).1
                              (attacker_observed oa).2 (attacker_sample pp) in
                  f = attacker_finding ep (victim_path rt ep pp) bs
                        (attacker_observed oa).1 sc id
                  /\ (speedGateThreshold cfg <= score sc)%Q
              | UnauthenticatedVector =>
                  unauthenticated (authContexts cfg) = Some true
                  /\ exists su tu,
                      In (i, JFetch (unauth_request cfg ep url) (Responded su tu)) log
                      /\ is_2xx su = true
                      /\ f = unauth_finding ep (victim_path rt ep pp) bs bt su tu id
                      /\ (speedGateThreshold cfg <= unauth_score bt tu)%Q
                      /\ (round64 0.65 <= f_confidence f)%Q
              end.
Proof.
  intros H. apply POST_200 in H as (cfg & tasks & p & Hp & Hb & Hrun & -> & ->).
  exists cfg. split; [exact Hp|].
  destruct (accepted_bounds rt body cfg Hp) as [Hmax _].
  destruct (returned_run rt tasks _ [] script p Hmax Hrun) as (_ & _ & _ & _ & Hf & Hfresh).
  split; [exact Hf|]. intros f Hin. rewrite Hf in Hin. cbn in Hin.
  apply pushes_In in Hin as [i Hin]. apply events_of_In in Hin.
  destruct (Nat.lt_ge_cases i (length tasks)) as [Hi|Hi];
    [|rewrite (Hfresh i Hi) in Hin; destruct Hin].
  destruct (scan_job_events rt cfg tasks script p i Hmax Hb Hrun Hi)
    as (ep & pp & rest & url & vinit & o & oa & ou & id1 & id2 & Hep & Hpp & Hurl & _ & Hev).
  assert (Hlog : forall e,
             In e (probe_events rt cfg ep (attacker_sample pp) (victim_path rt ep pp)
                     url vinit o oa ou id1 id2) ->
             In (i, e) (p_log p)).
  { intros e He. apply events_of_In. rewrite Hev. right. apply in_or_app. now left. }
  rewrite Hev in Hin. destruct Hin as [Hin|Hin]; [discriminate Hin|].
  apply in_app_or in Hin as [Hin|[Hin|[]]]; [|discriminate Hin].
  apply probe_events_push in Hin
    as (bs & bt & u & ai & -> & Hu & Hai & Hfv & Hfa
        & [[-> Hem]|(Hun & su & tu & -> & H2 & Hq & -> & Hfu)]).
  - cbn [attacker_finding f_confidence f_attackVector].
    split; [|split]; [apply Number_toFixed3_unit; apply clamp_unit..|].
    exists i, ep, pp, rest, url, vinit, bs, bt, u, ai, oa, id1.
    split; [exact Hep|]. split; [exact Hpp|]. split; [exact Hurl|]. split; [exact Hu|].
    split; [exact Hai|]. split; [apply Hlog, Hfv|]. split; [apply Hlog, Hfa|].
    split; [reflexivity|]. apply Qge_bool_iff. exact Hem.
  - cbn [unauth_finding f_confidence f_attackVector].
    pose proof (unauth_confidence_bounds bt tu) as [Hlo Hhi].
    assert (Hc : (0 <= round64 0.65)%Q) by (vm_compute; discriminate).
    split; [eapply Qle_trans; eassumption|]. split; [exact Hhi|].
    exists i, ep, pp, rest, url, vinit, bs, bt, u, ai, oa, id2.
    split; [exact Hep|]. split; [exact Hpp|]. split; [exact Hurl|]. split; [exact Hu|].
    split; [exact Hai|]. split; [apply Hlog, Hfv|]. split; [apply Hlog, Hfa|].
    split; [exact Hun|]. exists su, tu.
    split; [apply Hlog, Hfu|]. split; [exact H2|]. split; [reflexivity|].
    split; [apply Qge_bool_iff; exact Hq | exact Hlo].
Qed.

(** ** Edge cases of a scan *)

Lemma findings_come_from_probes_witness :
  exists fs log cfg,
    POST demo_rt (Some demo_body)
      [(0%nat, Responded 200 (mock_user "1001"));
       (0%nat, Responded 200 (mock_user "1002"));
       (0%nat, Responded 200 (mock_user "anonymous"));
       (0%nat, FetchFailed)]
    = {| result := Response 200 (FindingsBody fs); trace := log |}
    /\ safeParse demo_rt demo_body = Valid cfg
    /\ fs = pushes log.
Proof.
  eexists _, _.
  match goal with |- exists cfg, ?r = ?v /\ _ =>
    assert (E : r = v) by (vm_compute; reflexivity)
  end.
  destruct (findings_come_from_probes _ _ _ _ _ E) as (cfg & Hp & Hf & _).
  exists cfg. auto.
Defined.

(** With the bounds of the schema, the array of runners cannot be made
    exactly when [max] is below the number of jobs and not an integer. *)
Lemma width_throws_bounded (max : Q) (n : nat) :
  (0 <= max)%Q -> (max < inject_Z (2 ^ 32))%Q ->
  array_length (Qmin max (Q_of_nat n)) = None
  <-> (max < Q_of_nat n)%Q /\ is_integer max = false.
Proof.
  intros H0 H32. rewrite array_length_None.
  pose proof (Q_of_nat_nonneg n) as Hn.
  destruct (Qlt_le_dec max (Q_of_nat n)) as [Hlt|Hge].
  - assert (E : (Qmin max (Q_of_nat n) == max)%Q) by (apply Q.min_l; lra).
    rewrite (is_integer_proper _ _ E), E. split.
    + intros [H|[H|H]]; [auto|lra|lra].
    + intros [_ H]; auto.
  - assert (E : (Qmin max (Q_of_nat n) == Q_of_nat n)%Q) by (apply Q.min_r; lra).
    rewrite (is_integer_proper _ _ E), E, is_integer_Q_of_nat. split.
    + intros [H|[H|H]]; [discriminate|lra|lra].
    + intros [H _]. lra.
Qed.

Ltac jobs_built :=
  let H := fresh in
  intros H;
  match type of H with
  | ?b = None =>
      let t := fresh in
      let Ht := fresh in
      assert (exists t, b = Some t) as [t Ht] by (eexists; reflexivity);
      rewrite Ht in H; discriminate H
  end.

(** A [maxConcurrency] with a fractional part passes the schema; when it is
    below the number of endpoints to probe, [new Array] throws a
    [RangeError] and the handler rejects without making a request.  This is
    the only way the handler rejects once the jobs are built. *)
Theorem fractional_maxConcurrency_throws (rt : Runtime) (body : json) (cfg : ScanRequest)
    (script : list (nat * outcome)) :
  safeParse rt body = Valid cfg ->
  build_tasks rt cfg (endpoints cfg) <> None ->
  (exists e, result (POST rt (Some body) script) = Uncaught e)
  <-> ((maxConcurrency cfg
        < Q_of_nat (length (List.filter has_path_param (endpoints cfg))))%Q
       /\ is_integer (maxConcurrency cfg) = false
       /\ POST rt (Some body) script = {| result := Uncaught RangeError; trace := [] |}).
Proof.
  intros Hp Hb.
  destruct (accepted_bounds rt body cfg Hp) as [Hlo Hhi].
  unfold POST. rewrite Hp.
  destruct (build_tasks rt cfg (endpoints cfg)) as [tasks|] eqn:Ht; [|contradiction].
  rewrite <- (build_tasks_length _ _ _ _ Ht).
  pose proof (width_throws_bounded (maxConcurrency cfg) (length tasks)) as Hw.
  unfold runWithConcurrency.
  destruct (array_length _) as [w|].
  - split.
    + intros [e He].
      destruct (pool_exec rt tasks script _) as [p|]; [|discriminate].
      destruct (terminal p); discriminate.
    + intros (Hlt & Hint & _). destruct Hw as [_ Hw]; [lra| |].
      { eapply Qle_lt_trans; [exact Hhi|]. reflexivity. }
      specialize (Hw (conj Hlt Hint)). discriminate.
  - destruct Hw as [Hw _]; [lra| |].
    { eapply Qle_lt_trans; [exact Hhi|]. reflexivity. }
    destruct (Hw eq_refl) as [Hlt Hint]. split.
    + intros _. auto.
    + intros _. exists RangeError. reflexivity.
Qed.

Lemma fractional_maxConcurrency_throws_witness :
  POST demo_rt
    (Some (scan_body "http://api.test/api/mock" [("x-user-id", "1001")]
             [("x-user-id", "1002")] ["/users/{id}"; "/users/{id}"; "/users/{id}"]
             0.8 (5 # 2))%string)
    [(0%nat, FetchFailed)]
  = {| result := Uncaught RangeError; trace := [] |}.
Proof.
  apply (fractional_maxConcurrency_throws demo_rt _
           (scan_cfg "http://api.test/api/mock" [("x-user-id", "1001")]
              [("x-user-id", "1002")] [demo_endpoint; demo_endpoint; demo_endpoint]
              0.8 (5 # 2))%string).
  - vm_compute. reflexivity.
  - jobs_built.
  - exists RangeError. vm_compute. reflexivity.
Defined.

(** Line 122: an endpoint without a path parameter is passed over, as if
    it were not listed; when no endpoint has one, the scan makes no request
    and answers with an empty list of findings. *)
Theorem endpoints_without_path_parameter_are_skipped (rt : Runtime) (body : json)
    (cfg : ScanRequest) :
  safeParse rt body = Valid cfg ->
  build_tasks rt cfg (endpoints cfg)
  = build_tasks rt cfg (List.filter has_path_param (endpoints cfg))
  /\ ((forall ep, In ep (endpoints cfg) -> ep_pathParams ep = []) ->
      POST rt (Some body) []
      = {| result := Response 200 (FindingsBody []); trace := [] |}).
Proof.
  intros Hp. split; [apply build_tasks_filter|]. intros Hno.
  destruct (accepted_bounds rt body cfg Hp) as [Hlo Hhi].
  unfold POST. rewrite Hp, build_tasks_filter.
  rewrite (filter_drop has_path_param (endpoints cfg)).
  2: { intros ep Hep. unfold has_path_param. now rewrite (Hno ep Hep). }
  cbn [build_tasks]. unfold runWithConcurrency. cbn [length].
  destruct (array_length _) as [w|] eqn:Hw.
  - destruct (width_spec _ _ _ Hw) as (Hle & _). assert (w = 0) as -> by lia.
    reflexivity.
  - apply width_throws_bounded in Hw as [Hlt _]; [|lra|].
    + change (Q_of_nat 0) with 0%Q in Hlt. lra.
    + eapply Qle_lt_trans; [exact Hhi|]. reflexivity.
Qed.

Lemma endpoints_without_path_parameter_are_skipped_witness :
  POST demo_rt (Some plain_body) []
  = {| result := Response 200 (FindingsBody []); trace := [] |}.
Proof.
  eapply endpoints_without_path_parameter_are_skipped.
  - vm_compute. reflexivity.
  - cbn. intros ep [<-|[]]. reflexivity.
Defined.

Lemma endpoint_job_path_only rt cfg eps ep :
  endpoint_job rt cfg ep = endpoint_job rt (with_endpoints eps cfg) (path_only ep).
Proof. reflexivity. Qed.

(** The keys [queryParams] and [bodyTemplate] of an endpoint are validated
    and then never read: the jobs built are those of the same endpoints
    without them. *)
Theorem query_and_body_templates_unused (rt : Runtime) (cfg : ScanRequest) :
  build_tasks rt cfg (endpoints cfg)
  = build_tasks rt (with_endpoints (map path_only (endpoints cfg)) cfg)
      (map path_only (endpoints cfg)).
Proof.
  generalize (map path_only (endpoints cfg)) at 1. intros eps'.
  induction (endpoints cfg) as [|ep eps IH]; [reflexivity|].
  cbn [build_tasks map]. rewrite <- endpoint_job_path_only, IH. reflexivity.
Qed.

(** Line 130 is outside every [try]: when the victim's headers cannot be
    put into a [Headers] object and some endpoint has a path parameter, the
    handler rejects with a [TypeError] and makes no request. *)
Theorem invalid_victim_header_aborts_scan (rt : Runtime) (body : json) (cfg : ScanRequest)
    (ep : Endpoint) (script : list (nat * outcome)) :
  safeParse rt body = Valid cfg ->
  In ep (endpoints cfg) -> has_path_param ep = true ->
  buildInit (ac_headers (victim (authContexts cfg)))
    (ac_cookies (victim (authContexts cfg))) = None ->
  POST rt (Some body) script = {| result := Uncaught TypeError; trace := [] |}.
Proof.
  intros Hp Hep Hpp Hinit. unfold POST. rewrite Hp.
  rewrite (build_tasks_throws rt cfg (endpoints cfg) ep Hep); [reflexivity|].
  unfold endpoint_job, has_path_param in *.
  destruct (ep_pathParams ep) as [|pp rest]; [discriminate|].
  destruct (buildUrl rt (baseUrl cfg) _ []); cbn; [|reflexivity].
  now rewrite Hinit.
Qed.

Lemma invalid_victim_header_aborts_scan_witness :
  POST demo_rt
    (Some (scan_body "http://api.test/api/mock" [("x user", "1001")]
             [("x-user-id", "1002")] ["/users/{id}"] 0.8 4)%string)
    [(0%nat, Responded 200 (mock_user "1001"))]
  = {| result := Uncaught TypeError; trace := [] |}.
Proof.
  apply (invalid_victim_header_aborts_scan demo_rt _
           (scan_cfg "http://api.test/api/mock" [("x user", "1001")]
              [("x-user-id", "1002")] [demo_endpoint] 0.8 4)%string demo_endpoint).
  - vm_compute. reflexivity.
  - now left.
  - reflexivity.
  - vm_compute. reflexivity.
Defined.

(** Lines 139-142: when the request of the victim fails, or its body
    cannot be read, the probe ends there: it makes no other request,
    pushes no finding and resolves; the scan is answered with status 200
    all the same. *)
Theorem failed_baseline_ends_probe (rt : Runtime) (body : json)
    (script : list (nat * outcome)) (fs : list Finding) (log : list (nat * jev unit))
    (i : nat) (q : Request) (o : outcome) (rest : list (jev unit)) :
  POST rt (Some body) script
  = {| result := Response 200 (FindingsBody fs); trace := log |} ->
  events_of i log = JStart :: JFetch q o :: rest ->
  baseline_failed o ->
  rest = [JSettle (Some tt)] /\ forall f, ~ In (i, JPush f) log.
Proof.
  intros H Hev Hfail.
  apply POST_200 in H as (cfg & tasks & p & Hp & Hb & Hrun & -> & ->).
  destruct (accepted_bounds rt body cfg Hp) as [Hmax _].
  destruct (returned_run rt tasks _ [] script p Hmax Hrun) as (_ & _ & _ & _ & _ & Hfresh).
  destruct (Nat.lt_ge_cases i (length tasks)) as [Hi|Hi];
    [|rewrite (Hfresh i Hi) in Hev; discriminate].
  destruct (scan_job_events rt cfg tasks script p i Hmax Hb Hrun Hi)
    as (ep & pp & rest' & url & vinit & o' & oa & ou & id1 & id2 & _ & _ & _ & _ & Hev').
  pose proof Hev as Hev0.
  rewrite Hev' in Hev. unfold probe_events in Hev. cbn [app] in Hev.
  injection Hev as _ <- Hrest.
  assert (Hshape : rest = [JSettle (Some tt)]).
  { destruct o' as [| |bs bt]; [| |destruct Hfail]; cbn in Hrest; congruence. }
  split; [exact Hshape|].
  intros f Hin. apply events_of_In in Hin. rewrite Hev0, Hshape in Hin.
  destruct Hin as [|[|[|[]]]]; discriminate.
Qed.

Lemma failed_baseline_ends_probe_witness :
  exists fs log,
    POST demo_rt
      (Some (demo_body_with "http://api.test/api/mock" "x-user-id"
               ["/users/{id}"; "/accounts/{id}"]%string 0.8))
      [(0%nat, FetchFailed); (1%nat, Responded 200 (mock_user "1001"));
       (0%nat, FetchFailed); (1%nat, Responded 200 (mock_user "1002"));
       (1%nat, FetchFailed); (1%nat, FetchFailed)]
    = {| result := Response 200 (FindingsBody fs); trace := log |}
    /\ length fs = 1%nat
    /\ forall f, ~ In (0%nat, JPush f) log.
Proof.
  eexists _, _.
  match goal with |- ?r = ?v /\ _ =>
    assert (E : r = v) by (vm_compute; reflexivity)
  end.
  split; [exact E|]. split; [reflexivity|].
  eapply (failed_baseline_ends_probe _ _ _ _ _ 0%nat _ FetchFailed _ E).
  - vm_compute. reflexivity.
  - exact I.
Defined.

(** The work of a scan is bounded.  A job awaits at most three requests,
    whatever they are answered.  A turn of the scheduler is the moment an
    awaited request settles (answered and read, or failed) or a settled
    job is collected; however the turns are taken, at most five of them are
    taken per job.  And as long as some runner has not left its loop, one
    of them can take its next turn whatever outcome is delivered to it: the
    scheduler itself never blocks.  How long a target takes to answer is
    not part of this: a request that never settles keeps its job
    pending. *)
Theorem scan_takes_at_most_five_turns_per_job (rt : Runtime) (cfg : ScanRequest)
    (tasks : list (task unit)) (width : nat) (script : list (nat * outcome))
    (p : pool unit) :
  build_tasks rt cfg (endpoints cfg) = Some tasks ->
  pool_exec rt tasks script (pool_init rt tasks width []) = Some p ->
  (forall t, In t tasks -> bounded t 3)
  /\ length script <= 5 * length tasks
  /\ (terminal p = false ->
      exists r, forall o, pool_step rt tasks (r, o) p <> None).
Proof.
  intros Hb Hex.
  assert (Hbound : forall t, In t tasks -> bounded t 3).
  { intros t Ht.
    destruct (build_tasks_jobs rt cfg _ _ Hb t Ht)
      as (ep & pp & rest & u & vi & _ & _ & _ & _ & ->).
    apply probe_bounded. }
  split; [exact Hbound|]. split.
  - pose proof (pool_exec_potential rt tasks 3 Hbound script _ p _ Hex
                  (pool_init_potential rt tasks 3 Hbound width [])) as Hlen.
    lia.
  - intros Hterm. apply (pool_progress rt tasks [] p); [|exact Hterm].
    eapply pool_exec_inv; [apply pool_init_inv | exact Hex].
Qed.

Lemma scan_takes_at_most_five_turns_per_job_witness :
  exists p,
    pool_exec demo_rt [demo_probe] [(0%nat, FetchFailed); (0%nat, FetchFailed)]
      (pool_init demo_rt [demo_probe] 1 []) = Some p
    /\ 2 <= 5 * 1.
Proof.
  eexists. split; [vm_compute; reflexivity|].
  match goal with |- _ <= 5 * 1 =>
    refine (proj1 (proj2 (scan_takes_at_most_five_turns_per_job demo_rt demo_cfg
                            [demo_probe] 1
                            [(0%nat, FetchFailed); (0%nat, FetchFailed)] _ _ _)))
  end.
  - reflexivity.
  - vm_compute. reflexivity.
Defined.

(** The requests a probe can make. *)
Lemma probe_events_fetch rt cfg ep aid path url vinit o oa ou id1 id2 q o' :
  In (JFetch q o') (probe_events rt cfg ep aid path url vinit o oa ou id1 id2) ->
  q = victim_request cfg ep url vinit
  \/ (exists u ai,
        buildUrl rt (baseUrl cfg) path [] = Some u /\ attacker_init cfg = Some ai
        /\ q = attacker_request cfg ep u ai)
  \/ q = unauth_request cfg ep url.
Proof.
  unfold probe_events. intros [H|H]; [injection H as <- _; now left|].
  destruct o as [| |bs bt]; [destruct H|destruct H|].
  destruct (buildUrl rt (baseUrl cfg) path []) as [u|]; [|destruct H].
  destruct (attacker_init cfg) as [ai|]; [|destruct H].
  destruct H as [H|H]; [injection H as <- _; right; left; eauto|].
  apply in_app_or in H as [H|H].
  - unfold attacker_events in H. destruct (attacker_emits _ _ _ _ _ _); [|destruct H].
    destruct H as [H|[H|[]]]; discriminate.
  - destruct (unauthenticated (authContexts cfg)) as [[|]|]; [|destruct H|destruct H].
    destruct H as [H|H]; [injection H as <- _; now right; right|].
    unfold unauth_events in H. destruct (unauth_emits cfg bt ou) as [[su tu]|]; [|destruct H].
    destruct H as [H|[H|[]]]; discriminate.
Qed.

(** No request of a scan goes anywhere but to the URL of a configured
    endpoint with a path parameter, with that endpoint's method and the
    configured time-out; and it carries the victim's headers, or the
    attacker's (none when no attacker is configured), or none at all. *)
Theorem requests_stay_on_configured_endpoints (rt : Runtime) (body : json)
    (script : list (nat * outcome)) (fs : list Finding) (log : list (nat * jev unit))
    (i : nat) (q : Request) (o : outcome) :
  POST rt (Some body) script
  = {| result := Response 200 (FindingsBody fs); trace := log |} ->
  In (i, JFetch q o) log ->
  exists cfg ep pp rest,
    safeParse rt body = Valid cfg
    /\ In ep (endpoints cfg) /\ ep_pathParams ep = pp :: rest
    /\ buildUrl rt (baseUrl cfg) (victim_path rt ep pp) [] = Some (r_url q)
    /\ r_method q = ep_method ep /\ r_timeoutMs q = timeoutMs cfg
    /\ (Some (r_headers q)
        = (Some <$> buildInit (ac_headers (victim (authContexts cfg)))
                      (ac_cookies (victim (authContexts cfg))))
        \/ Some (r_headers q) = attacker_init cfg
        \/ r_headers q = None).
Proof.
  intros H Hin.
  apply POST_200 in H as (cfg & tasks & p & Hp & Hb & Hrun & -> & ->).
  destruct (accepted_bounds rt body cfg Hp) as [Hmax _].
  destruct (returned_run rt tasks _ [] script p Hmax Hrun) as (_ & _ & _ & _ & _ & Hfresh).
  apply events_of_In in Hin.
  destruct (Nat.lt_ge_cases i (length tasks)) as [Hi|Hi];
    [|rewrite (Hfresh i Hi) in Hin; destruct Hin].
  destruct (scan_job_events rt cfg tasks script p i Hmax Hb Hrun Hi)
    as (ep & pp & rest & url & vinit & o1 & oa & ou & id1 & id2
        & Hep & Hpp & Hurl & Hvinit & Hev).
  exists cfg, ep, pp, rest. split; [exact Hp|]. split; [exact Hep|]. split; [exact Hpp|].
  rewrite Hev in Hin. destruct Hin as [Hin|Hin]; [discriminate|].
  apply in_app_or in Hin as [Hin|[Hin|[]]]; [|discriminate].
  apply probe_events_fetch in Hin as [->|[(u & ai & Hu & Hai & ->)| ->]]; cbn.
  - repeat split; auto. left. now rewrite Hvinit.
  - rewrite Hu in Hurl. injection Hurl as ->. repeat split; auto.
  - repeat split; auto.
Qed.

Lemma requests_stay_on_configured_endpoints_witness :
  exists fs log,
    POST demo_rt (Some demo_body)
      [(0%nat, Responded 200 (mock_user "1001"));
       (0%nat, Responded 403 (lit "Forbidden"));
       (0%nat, FetchFailed); (0%nat, FetchFailed)]
    = {| result := Response 200 (FindingsBody fs); trace := log |}
    /\ exists cfg ep pp rest,
         safeParse demo_rt demo_body = Valid cfg
         /\ In ep (endpoints cfg) /\ ep_pathParams ep = pp :: rest.
Proof.
  eexists _, _.
  match goal with |- ?r = ?v /\ _ =>
    assert (E : r = v) by (vm_compute; reflexivity)
  end.
  split; [exact E|].
  destruct (requests_stay_on_configured_endpoints _ _ _ _ _ 0%nat demo_victim_request
              (Responded 200 (mock_user "1001")) E)
    as (cfg & ep & pp & rest & H1 & H2 & H3 & _).
  - right. left. reflexivity.
  - exists cfg, ep, pp, rest. auto.
Defined.

(** ** A baseline that fails, and the scan around it *)




(** ** Facts about [replace] with a global pattern *)

(** A pattern that matches nowhere in a text leaves it as it is.  [P]
    holds of the text and of all its suffixes. *)
Lemma replace_from_unmatched (m : matcher) (P : str -> Prop) :
  (forall s prev, P s -> m prev s = None) ->
  (forall c s, P (c :: s) -> P s) ->
  forall s prev, P s -> replace_from m 0 prev s = s.
Proof.
  intros Hm Htl s. induction s as [|c s IH]; intros prev HP; cbn.
  - now rewrite (Hm [] prev HP).
  - rewrite (Hm (c :: s) prev HP). f_equal. apply IH. eapply Htl; eassumption.
Qed.

(** Passing over the rest of a match. *)
Lemma replace_from_skip (m : matcher) (a b : str) (c : ascii) (prev : option ascii) :
  replace_from m (length (a ++ [c])) prev (a ++ c :: b) = replace_from m 0 (Some c) b.
Proof.
  revert prev. induction a as [|x a IH]; intros prev; cbn.
  - reflexivity.
  - apply IH.
Qed.

(** A pattern that does not look behind scans a text the same way whatever
    precedes it. *)
Lemma replace_from_prev (m : matcher) :
  (forall prev prev' s, m prev s = m prev' s) ->
  forall s n prev prev', replace_from m n prev s = replace_from m n prev' s.
Proof.
  intros Hm s. induction s as [|c s IH]; intros n prev prev'; cbn.
  - destruct n; [|reflexivity]. now rewrite (Hm prev prev').
  - destruct n; [|apply IH]. now rewrite (Hm prev prev').
Qed.

(** The scan of a text that starts with code units at which the pattern
    cannot match. *)
Lemma replace_from_prefix (m : matcher) (ok : ascii -> bool) :
  (forall prev c s, ok c = true -> m prev (c :: s) = None) ->
  forall pre s prev,
    forallb ok pre = true ->
    replace_from m 0 prev (pre ++ s) = pre ++ replace_from m 0 (from_option Some prev (last pre)) s.
Proof.
  intros Hm pre. induction pre as [|c pre IH]; intros s prev Hok; [reflexivity|].
  cbn in Hok. apply andb_true_iff in Hok as [Hc Hok].
  cbn [app replace_from]. rewrite (Hm prev c (pre ++ s) Hc). f_equal.
  rewrite (IH s (Some c) Hok). f_equal. f_equal.
  destruct pre as [|d pre]; [reflexivity|]. cbn [last].
  change (last (c :: d :: pre)) with (last (d :: pre)).
  destruct (last (d :: pre)) eqn:E; [reflexivity|].
  apply last_None in E. discriminate.
Qed.

Lemma span_all (p : ascii -> bool) (k s : str) :
  forallb p k = true -> head s ≫= (fun c => if p c then Some c else None) = None ->
  span p (k ++ s) = k.
Proof.
  intros Hk Hs. induction k as [|c k IH]; cbn in *.
  - destruct s as [|d s]; [reflexivity|]. cbn in *. destruct (p d); [discriminate|reflexivity].
  - apply andb_true_iff in Hk as [-> Hk]. f_equal. auto.
Qed.

(** ** applyTemplate and buildUrl *)

Lemma is_word_brace (c : ascii) : (code c =? 125)%N = true -> is_word c = false.
Proof.
  intros H. apply N.eqb_eq in H. unfold is_word, is_lower, is_upper, is_digit, between.
  rewrite H. reflexivity.
Qed.

(** A placeholder [{k}] at the head of a text. *)
Lemma m_placeholder_hit (lookup : str -> option str) (k post : str) (prev : option ascii) :
  k <> [] -> forallb is_word k = true ->
  m_placeholder lookup prev (lit "{" ++ k ++ lit "}" ++ post)
  = Some (length (lit "{" ++ k ++ lit "}"),
          match lookup k with Some v => v | None => lit "{" ++ k ++ lit "}" end).
Proof.
  intros Hne Hk. unfold m_placeholder. cbn [lit list_ascii_of_string app].
  change (code "{" =? 123)%N with true. cbv iota.
  rewrite (span_all is_word k ("}"%char :: post) Hk) by reflexivity.
  destruct k as [|c k'] eqn:E; [contradiction|]. rewrite <- E.
  rewrite drop_app_length.
  change (code "}" =? 125)%N with true. cbv iota.
  cbn [length]. rewrite length_app. cbn [length]. do 2 f_equal.
Qed.

(** Text before the first brace is copied; a placeholder [{k}] is replaced
    by the value of [k], or left as it is when [vars] has none (and the
    prototype has none either); the text after it is resolved the same
    way, and the value put in is not looked at again. *)
Theorem applyTemplate_fills_placeholder (rt : Runtime) (vars : list (str * option str))
    (pre k post : str) :
  forallb (fun c => negb (code c =? 123)%N) pre = true ->
  k <> [] -> forallb is_word k = true ->
  applyTemplate rt pre vars = pre
  /\ applyTemplate rt (pre ++ lit "{" ++ k ++ lit "}" ++ post) vars
     = pre
       ++ match vars_lookup rt vars k with
          | Some v => v
          | None => lit "{" ++ k ++ lit "}"
          end
       ++ applyTemplate rt post vars.
Proof.
  intros Hpre Hne Hk. unfold applyTemplate, replace_all.
  set (m := m_placeholder (vars_lookup rt vars)).
  assert (Hm : forall prev c s,
             negb (code c =? 123)%N = true -> m prev (c :: s) = None).
  { intros prev c s Hc. unfold m, m_placeholder.
    apply negb_true_iff in Hc. now rewrite Hc. }
  assert (Hprev : forall prev prev' s, m prev s = m prev' s) by reflexivity.
  split.
  - rewrite <- (app_nil_r pre) at 1.
    rewrite (replace_from_prefix m _ Hm pre [] None Hpre). cbn. now rewrite app_nil_r.
  - rewrite (replace_from_prefix m _ Hm pre _ None Hpre). f_equal.
    remember (from_option Some None (last pre)) as prev eqn:Eprev. clear Eprev.
    pose proof (m_placeholder_hit (vars_lookup rt vars) k post prev Hne Hk) as Hhit.
    fold m in Hhit.
    cbn [lit list_ascii_of_string app] in *.
    cbn [replace_from]. rewrite Hhit. cbn [length].
    f_equal.
    change ("{"%char :: k ++ "}"%char :: post) with (["{"%char] ++ k ++ "}"%char :: post).
    rewrite (replace_from_skip m k post "}"%char (Some "{"%char)).
    apply replace_from_prev. exact Hprev.
Qed.

Lemma applyTemplate_fills_placeholder_witness :
  applyTemplate demo_rt (lit "/users/" ++ lit "{" ++ lit "id" ++ lit "}" ++ lit "/posts")
    [(lit "id", Some (lit "{id}"))]
  = lit "/users/" ++ lit "{id}" ++ lit "/posts"
  /\ applyTemplate demo_rt (lit "/users/" ++ lit "{" ++ lit "id" ++ lit "}" ++ lit "/posts")
       [(lit "name", Some (lit "x"))]
     = lit "/users/" ++ lit "{id}" ++ lit "/posts".
Proof.
  split.
  - refine (eq_trans
              (proj2 (applyTemplate_fills_placeholder demo_rt [(lit "id", Some (lit "{id}"))]
                        (lit "/users/") (lit "id") (lit "/posts") _ _ _)) _);
      [reflexivity | discriminate | reflexivity | vm_compute; reflexivity].
  - refine (eq_trans
              (proj2 (applyTemplate_fills_placeholder demo_rt [(lit "name", Some (lit "x"))]
                        (lit "/users/") (lit "id") (lit "/posts") _ _ _)) _);
      [reflexivity | discriminate | reflexivity | vm_compute; reflexivity].
Defined.

Lemma strip_trailing_slash_app (b : str) :
  strip_trailing_slash (b ++ lit "/") = b.
Proof.
  induction b as [|c b IH]; [reflexivity|].
  cbn [app strip_trailing_slash]. rewrite IH.
  destruct (b ++ lit "/") eqn:E; [|reflexivity].
  destruct b; discriminate.
Qed.

Lemma strip_trailing_slash_none (b : str) :
  last b <> Some "/"%char -> strip_trailing_slash b = b.
Proof.
  induction b as [|c b IH]; [reflexivity|]. intros Hl.
  destruct b as [|d b].
  - cbn. destruct (code c =? 47)%N eqn:Hc; [|reflexivity].
    exfalso. apply Hl. cbn. f_equal. apply N.eqb_eq in Hc.
    rewrite <- (ascii_N_embedding c). unfold code in Hc. now rewrite Hc.
  - change (strip_trailing_slash (c :: d :: b)) with (c :: strip_trailing_slash (d :: b)).
    f_equal. apply IH. exact Hl.
Qed.

(** The base and the path are joined by exactly one slash: one slash at
    the end of the base and one at the head of the path are dropped, and
    no more than one. *)
Theorem buildUrl_joins_with_one_slash (rt : Runtime) (b p : str)
    (qp : list (str * option str)) :
  last b <> Some "/"%char -> head p <> Some "/"%char ->
  buildUrl rt (b ++ lit "/") (lit "/" ++ p) qp = buildUrl rt b p qp
  /\ buildUrl rt (b ++ lit "/") p qp = buildUrl rt b p qp
  /\ buildUrl rt b (lit "/" ++ p) qp = buildUrl rt b p qp
  /\ buildUrl rt (b ++ lit "//") (lit "//" ++ p) []
     = URL_href rt (b ++ lit "/" ++ lit "/" ++ lit "/" ++ p) [].
Proof.
  intros Hb Hp. unfold buildUrl.
  rewrite strip_trailing_slash_app, (strip_trailing_slash_none b Hb).
  assert (Hs : strip_leading_slash p = p).
  { destruct p as [|c p]; [reflexivity|]. cbn.
    destruct (code c =? 47)%N eqn:Hc; [|reflexivity].
    exfalso. apply Hp. cbn. f_equal. apply N.eqb_eq in Hc.
    rewrite <- (ascii_N_embedding c). unfold code in Hc. now rewrite Hc. }
  rewrite Hs. repeat split.
  assert (E : strip_trailing_slash (b ++ lit "//") = b ++ lit "/").
  { change (b ++ lit "//") with (b ++ (lit "/" ++ lit "/")).
    rewrite app_assoc. apply strip_trailing_slash_app. }
  rewrite E. cbn. now rewrite <- app_assoc.
Qed.

Lemma buildUrl_joins_with_one_slash_witness :
  buildUrl demo_rt (lit "http://api.test/api" ++ lit "/") (lit "/" ++ lit "users/1001") []
  = buildUrl demo_rt (lit "http://api.test/api") (lit "users/1001") [].
Proof.
  apply (buildUrl_joins_with_one_slash demo_rt (lit "http://api.test/api")
           (lit "users/1001") []); discriminate.
Defined.

(** ** Text the normaliser leaves alone *)

Lemma m_num_plain (prev : option ascii) (s : str) :
  forallb is_plain s = true -> m_num prev s = None.
Proof.
  intros H. unfold m_num.
  assert (E : span is_digit s = []).
  { destruct s as [|c s]; [reflexivity|]. cbn in *.
    apply andb_true_iff in H as [H _]. unfold is_plain in H.
    apply negb_true_iff, orb_false_iff in H as [-> _]. reflexivity. }
  rewrite E. cbn. now rewrite andb_false_r.
Qed.

Lemma is_version_digit (c : ascii) : is_version c = true -> is_digit c = true.
Proof.
  unfold is_version, is_digit, between. rewrite !andb_true_iff, !N.leb_le. lia.
Qed.

(** A UUID has a digit: its version. *)
Lemma uuid_has_digit (s : str) :
  match_classes uuid_classes s = true -> existsb is_digit s = true.
Proof.
  intros H. unfold uuid_classes in H. cbn [repeat app] in H.
  do 14 (destruct s as [|? s]; [discriminate H|];
         cbn [match_classes] in H; apply andb_true_iff in H as [_ H]).
  destruct s as [|c s]; [discriminate H|].
  cbn [match_classes] in H. apply andb_true_iff in H as [Hv _].
  apply is_version_digit in Hv. cbn [existsb]. rewrite Hv.
  now rewrite !orb_true_r.
Qed.

Lemma plain_no_digit (s : str) :
  forallb is_plain s = true -> existsb is_digit s = false.
Proof.
  induction s as [|c s IH]; [reflexivity|]. cbn.
  intros H. apply andb_true_iff in H as [Hc H]. rewrite (IH H).
  unfold is_plain in Hc. apply negb_true_iff, orb_false_iff in Hc as [-> _]. reflexivity.
Qed.

Lemma m_uuid_plain (prev : option ascii) (s : str) :
  forallb is_plain s = true -> m_uuid prev s = None.
Proof.
  intros H. unfold m_uuid.
  destruct (match_classes uuid_classes s) eqn:Hm.
  - apply uuid_has_digit in Hm. rewrite (plain_no_digit s H) in Hm. discriminate.
  - now rewrite andb_false_r.
Qed.

Lemma m_ts_plain (prev : option ascii) (s : str) :
  forallb is_plain s = true -> m_ts prev s = None.
Proof.
  intros H. unfold m_ts. destruct s as [|c s]; [reflexivity|]. cbn in H.
  apply andb_true_iff in H as [H _]. unfold is_plain in H.
  apply negb_true_iff, orb_false_iff in H as [_ ->]. reflexivity.
Qed.

Lemma plain_tail (c : ascii) (s : str) :
  forallb is_plain (c :: s) = true -> forallb is_plain s = true.
Proof. cbn. intros H. now apply andb_true_iff in H as [_ H]. Qed.

(** A text with no digit and no double quote has nothing volatile in it:
    none of the three patterns matches and the text is returned as it
    is. *)
Theorem redactVolatile_keeps_plain_text (text : str) :
  forallb is_plain text = true -> redactVolatile text = text.
Proof.
  intros H. unfold redactVolatile, replace_all.
  rewrite (replace_from_unmatched m_num (fun s => forallb is_plain s = true));
    [|intros; now apply m_num_plain|apply plain_tail|exact H].
  rewrite (replace_from_unmatched m_uuid (fun s => forallb is_plain s = true));
    [|intros; now apply m_uuid_plain|apply plain_tail|exact H].
  apply (replace_from_unmatched m_ts (fun s => forallb is_plain s = true));
    [intros; now apply m_ts_plain|apply plain_tail|exact H].
Qed.

Lemma redactVolatile_keeps_plain_text_witness :
  redactVolatile (lit "Forbidden: no access") = lit "Forbidden: no access".
Proof. apply redactVolatile_keeps_plain_text. reflexivity. Defined.

(** ** The tokens of a text *)

Lemma nontoken_output (s : str) (n : nat) (prev : option ascii) :
  Forall (fun c => is_token_char c = true \/ c = " "%char)
    (replace_from m_nontoken n prev s).
Proof.
  revert n prev. induction s as [|c s IH]; intros n prev; cbn [replace_from].
  - destruct n; constructor.
  - destruct n as [|n]; [|apply IH].
    unfold m_nontoken. cbn [span].
    destruct (negb (is_token_char c)) eqn:Hc.
    + cbn [length]. cbn [lit list_ascii_of_string app]. constructor; [now right | apply IH].
    + constructor; [|apply IH]. left. now apply negb_false_iff in Hc.
Qed.

Lemma split_ws_pieces (s : str) :
  Forall (fun p => Forall (fun c => is_space c = false /\ In c s) p) (split_ws s).
Proof.
  induction s as [|c s IH]; [repeat constructor|].
  assert (IH' : Forall (fun p => Forall (fun c0 => is_space c0 = false /\ In c0 (c :: s)) p)
                  (split_ws s)).
  { eapply Forall_impl; [exact IH|]. intros p Hp.
    eapply Forall_impl; [exact Hp|]. intros d [? ?]. split; [assumption | now right]. }
  cbn [split_ws]. destruct (is_space c) eqn:Hc.
  - destruct s as [|d s']; [constructor; [constructor | exact IH']|].
    destruct (is_space d); [exact IH' | constructor; [constructor | exact IH']].
  - destruct (split_ws s) as [|p ps]; [repeat constructor; auto|].
    apply Forall_cons in IH' as [Hp Hps]. constructor; [|exact Hps].
    constructor; [split; [exact Hc | now left] | exact Hp].
Qed.

Lemma lower_char_idem (c : ascii) : lower_char (lower_char c) = lower_char c.
Proof.
  destruct c as [[] [] [] [] [] [] [] []]; vm_compute; reflexivity.
Qed.

(** Every token is a non-empty run of lower-case letters, digits,
    underscores and dashes, and the tokens of a text are those of its
    lower-case form. *)
Theorem tokenSet_tokens_are_words (text : str) :
  tokenSet (toLowerCase text) = tokenSet text
  /\ forall t, t ∈ tokenSet text -> t <> [] /\ forallb is_token_char t = true.
Proof.
  split.
  - unfold tokenSet. f_equal. f_equal. f_equal. f_equal.
    unfold toLowerCase. rewrite map_map. apply map_ext. apply lower_char_idem.
  - intros t Ht. unfold tokenSet in Ht.
    apply elem_of_list_to_set, list_elem_of_In, filter_In in Ht as [Hin Hne].
    split; [destruct t; [discriminate | discriminate]|].
    pose proof (split_ws_pieces (replace_all m_nontoken (toLowerCase text))) as Hp.
    rewrite Forall_forall in Hp. apply list_elem_of_In, Hp in Hin.
    apply forallb_forall. intros c Hc.
    rewrite Forall_forall in Hin. apply list_elem_of_In, Hin in Hc as [Hsp Hc].
    pose proof (nontoken_output (toLowerCase text) 0 None) as Ho.
    rewrite Forall_forall in Ho. apply list_elem_of_In, Ho in Hc as [Hc| ->];
      [exact Hc | discriminate].
Qed.

(** ** When two texts score 1 *)









(** ** buildInit: the cookie header *)

Lemma filter_neg_none {X} (P : X -> bool) (l : list X) :
  List.filter P (List.filter (fun x => negb (P x)) l) = [].
Proof.
  induction l as [|x l IH]; [reflexivity|]. cbn.
  destruct (P x) eqn:Hx; cbn; [exact IH|]. now rewrite Hx.
Qed.

Lemma filter_neg_idem {X} (P : X -> bool) (l : list X) :
  List.filter (fun x => negb (P x)) (List.filter (fun x => negb (P x)) l)
  = List.filter (fun x => negb (P x)) l.
Proof.
  induction l as [|x l IH]; [reflexivity|]. cbn.
  destruct (P x) eqn:Hx; cbn; [exact IH|]. rewrite Hx. cbn. now f_equal.
Qed.

Lemma replace_header_same (k v : str) (h : header_list) :
  existsb (fun kv => bool_decide (kv.1 = k)) h = true ->
  List.filter (fun kv => bool_decide (kv.1 = k)) (replace_header k v h) = [(k, v)].
Proof.
  induction h as [|[k' v'] h IH]; [discriminate|]. cbn.
  case_bool_decide as Hk; cbn.
  - intros _. rewrite bool_decide_eq_true_2 by reflexivity. f_equal.
    apply (filter_neg_none (fun kv : str * str => bool_decide (kv.1 = k))).
  - intros H. rewrite bool_decide_eq_false_2 by assumption. auto.
Qed.

Lemma replace_header_others (k v : str) (h : header_list) :
  List.filter (fun kv => negb (bool_decide (kv.1 = k))) (replace_header k v h)
  = List.filter (fun kv => negb (bool_decide (kv.1 = k))) h.
Proof.
  induction h as [|[k' v'] h IH]; [reflexivity|]. cbn.
  case_bool_decide as Hk; cbn.
  - rewrite bool_decide_eq_true_2 by reflexivity. cbn.
    apply (filter_neg_idem (fun kv : str * str => bool_decide (kv.1 = k))).
  - rewrite bool_decide_eq_false_2 by assumption. cbn. now f_equal.
Qed.

Lemma filter_none_exists {X} (P : X -> bool) (l : list X) :
  existsb P l = false -> List.filter P l = [] /\ List.filter (fun x => negb (P x)) l = l.
Proof.
  induction l as [|x l IH]; [auto|]. cbn. intros H.
  apply orb_false_iff in H as [Hx H]. rewrite Hx. cbn.
  destruct (IH H) as [-> ->]. auto.
Qed.

(** Lines 108-115: without cookies, or with an empty record of cookies,
    the init carries the given headers and nothing else; with cookies, the
    result has exactly one [cookie] header, the cookies joined by a
    semicolon and a space, whatever [cookie] headers were given, and the
    other headers are as given. *)
Theorem buildInit_sets_one_cookie_header (headers : option header_list) :
  buildInit headers None = Headers_new (default [] headers)
  /\ buildInit headers (Some []) = Headers_new (default [] headers)
  /\ forall cookies h,
       cookies <> [] -> buildInit headers (Some cookies) = Some h ->
       exists h0,
         Headers_new (default [] headers) = Some h0
         /\ List.filter is_cookie h
            = [(lit "cookie", strip_http_space (cookie_string cookies))]
         /\ List.filter (fun kv => negb (is_cookie kv)) h
            = List.filter (fun kv => negb (is_cookie kv)) h0.
Proof.
  unfold buildInit. split; [|split].
  - destruct (Headers_new _); reflexivity.
  - destruct (Headers_new _); reflexivity.
  - intros cookies h Hne H.
    destruct (Headers_new (default [] headers)) as [h0|]; [|discriminate].
    cbn [mbind option_bind] in H. exists h0. split; [reflexivity|].
    destruct cookies as [|c cs]; [contradiction|].
    fold (cookie_string (c :: cs)) in H. unfold Headers_set in H.
    change (toLowerCase (lit "cookie")) with (lit "cookie") in H.
    destruct (valid_header_name (lit "cookie") && valid_header_value _); [|discriminate].
    unfold is_cookie.
    destruct (existsb (fun kv : str * str => bool_decide (kv.1 = lit "cookie")) h0) eqn:Hex;
      apply (inj Some) in H; subst h.
    + split; [now apply replace_header_same | apply replace_header_others].
    + apply filter_none_exists in Hex as [Hc Ho].
      rewrite !List.filter_app, Hc, Ho. cbn. now rewrite app_nil_r.
Qed.

(** ** The attacker vector at the edges *)








Lemma similarity_self_tokens (a : str) :
  tokenSet (redactVolatile a) <> ∅ -> (similarity a a == 1)%Q.
Proof.
  intros Hne. rewrite similarity_unfold, jaccard_self, edit_term_self.
  rewrite bool_decide_eq_false_2 by assumption. reflexivity.
Qed.




(** With an attacker status outside 2xx the score is at most the number
    0.2: the base score is 0 or 0.05, and the refinement adds at most
    0.15. *)
Lemma unanswered_score_le (rt : Runtime) (bs : nat) (bt : str) (st : nat) (tx : str)
    (aid : option str) :
  is_2xx st = false ->
  (score (attacker_scoring rt bs bt st tx aid) <= round64 0.2)%Q.
Proof.
  intros Hst. unfold attacker_scoring. cbn [score].
  destruct (is_2xx bs); [|vm_compute; discriminate].
  rewrite id_refinement_score. unfold base_scoring. rewrite Hst.
  destruct ((st =? 401)%nat || (st =? 403)%nat); cbn [score];
    destruct (leak_applies rt bt tx); destruct (discount_applies rt bt tx aid);
    vm_compute; discriminate.
Qed.

(** A probe that pushes no finding of the attacker vector. *)
Lemma attacker_silent rt cfg ep aid path url vinit bs bt oa ou id1 id2 :
  attacker_emits rt cfg aid bs bt oa = false ->
  forall f,
    In (JPush f) (probe_events rt cfg ep aid path url vinit (Responded bs bt) oa ou id1 id2) ->
    f_attackVector f = UnauthenticatedVector.
Proof.
  intros Hem f Hin.
  apply probe_events_push in Hin
    as (bs' & bt' & u & ai & Eo & _ & _ & _ & _
        & [[_ Hem']|(_ & su & tu & _ & _ & _ & -> & _)]).
  - injection Eo as <- <-. rewrite Hem in Hem'. discriminate Hem'.
  - reflexivity.
Qed.

(** What makes the attacker vector speak and what keeps it silent, for a
    probe whose baseline was read and which runs to its end.  The score
    lies in [0, 1].  At a threshold of 0 the probe pushes the finding of
    the attacker vector whenever the attacker request can be prepared; when
    it cannot (the URL does not build, or the attacker's headers are
    refused) the probe pushes nothing at all.  With a positive threshold
    the attacker vector is silent unless the baseline status is 2xx.  When
    the attacker's status is not 2xx the score is at most the number 0.2,
    and the attacker vector is silent at every threshold above it. *)
Theorem attacker_vector_gate (rt : Runtime) (cfg : ScanRequest) (ep : Endpoint)
    (aid : option str) (path url : str) (vinit : header_list)
    (bs : nat) (bt : str) (oa ou : outcome) (id1 id2 : str) :
  let evs := probe_events rt cfg ep aid path url vinit (Responded bs bt) oa ou id1 id2 in
  let sc := attacker_scoring rt bs bt (attacker_observed oa).1
              (attacker_observed oa).2 aid in
  let silent := forall f, In (JPush f) evs -> f_attackVector f = UnauthenticatedVector in
  ((0 <= score sc)%Q /\ (score sc <= 1)%Q)
  /\ ((speedGateThreshold cfg <= 0)%Q ->
      buildUrl rt (baseUrl cfg) path [] <> None -> attacker_init cfg <> None ->
      In (JPush (attacker_finding ep path bs (attacker_observed oa).1 sc id1)) evs)
  /\ (buildUrl rt (baseUrl cfg) path [] = None \/ attacker_init cfg = None ->
      forall f, ~ In (JPush f) evs)
  /\ ((0 < speedGateThreshold cfg)%Q -> is_2xx bs = false -> silent)
  /\ (is_2xx (attacker_observed oa).1 = false ->
      (score sc <= round64 0.2)%Q
      /\ ((round64 0.2 < speedGateThreshold cfg)%Q -> silent)).
Proof.
  intros evs sc silent.
  assert (Hunit : (0 <= score sc)%Q /\ (score sc <= 1)%Q) by apply clamp_unit.
  split; [exact Hunit|]. split; [|split; [|split]].
  - intros Hthr Hurl Hinit. subst evs. unfold probe_events.
    destruct (buildUrl rt (baseUrl cfg) path []) as [u|]; [|contradiction].
    destruct (attacker_init cfg) as [ai|]; [|contradiction].
    right. right. apply in_or_app. left.
    unfold attacker_events, attacker_emits. fold sc.
    assert (Hem : Qge_bool (score sc) (speedGateThreshold cfg) = true).
    { apply Qge_bool_iff. eapply Qle_trans; [exact Hthr | apply Hunit]. }
    rewrite Hem. right. now left.
  - intros Hno f Hin. subst evs.
    apply probe_events_push in Hin as (bs' & bt' & u & ai & _ & Hu & Hai & _).
    destruct Hno as [E|E]; [rewrite E in Hu; discriminate Hu | rewrite E in Hai; discriminate Hai].
  - intros Hthr Hbs. subst silent evs. apply attacker_silent.
    unfold attacker_emits. apply Qge_bool_false.
    unfold attacker_scoring. rewrite Hbs. cbn [score].
    assert (E : Qmax 0 (Qmin 1 0) = 0%Q) by reflexivity. rewrite E. exact Hthr.
  - intros Hst.
    pose proof (unanswered_score_le rt bs bt _ (attacker_observed oa).2 aid Hst) as Hle.
    split; [exact Hle|]. intros Hthr. subst silent evs. apply attacker_silent.
    unfold attacker_emits. apply Qge_bool_false.
    eapply Qle_lt_trans; [exact Hle | exact Hthr].
Qed.

Lemma attacker_vector_gate_witness :
  In (JPush (attacker_finding demo_endpoint (lit "/users/1001") 500 403
               (attacker_scoring demo_rt 500 (lit "oops") 403 (lit "Forbidden")
                  (Some (lit "1002"))) (lit "id-1")))
    (probe_events demo_rt (scan_cfg "http://api.test/api/mock" [("x-user-id", "1001")]
                              [("x-user-id", "1002")] [demo_endpoint] 0 4)%string
       demo_endpoint (Some (lit "1002")) (lit "/users/1001")
       (lit "http://api.test/api/mock/users/1001") [(lit "x-user-id", lit "1001")]
       (Responded 500 (lit "oops")) (Responded 403 (lit "Forbidden")) FetchFailed
       (lit "id-1") (lit "id-2")).
Proof.
  refine (proj1 (proj2 (attacker_vector_gate demo_rt _ demo_endpoint (Some (lit "1002"))
                          (lit "/users/1001") (lit "http://api.test/api/mock/users/1001")
                          [(lit "x-user-id", lit "1001")] 500 (lit "oops")
                          (Responded 403 (lit "Forbidden")) FetchFailed
                          (lit "id-1") (lit "id-2"))) _ _ _).
  - vm_compute. discriminate.
  - vm_compute. discriminate.
  - vm_compute. discriminate.
Defined.

(** ** The header boxes of the page *)

Lemma drop_while_sub (p : ascii -> bool) (s : str) (c : ascii) :
  In c (drop_while p s) -> In c s.
Proof.
  induction s as [|x s IH]; [auto|]. cbn. destruct (p x); [right; auto | auto].
Qed.

Lemma trim_sub (s : str) (c : ascii) : In c (trim s) -> In c s.
Proof.
  unfold trim. intros H. apply in_rev, drop_while_sub, in_rev in H.
  eapply drop_while_sub, H.
Qed.

Lemma head_drop_while (p : ascii -> bool) (s : str) (c : ascii) :
  head (drop_while p s) = Some c -> p c = false.
Proof.
  induction s as [|x s IH]; [discriminate|]. cbn.
  destruct (p x) eqn:Hx; [exact IH|]. cbn. now intros [= <-].
Qed.

Lemma drop_while_id (p : ascii -> bool) (s : str) :
  (forall c, head s = Some c -> p c = false) -> drop_while p s = s.
Proof.
  destruct s as [|x s]; [reflexivity|]. cbn. intros H. now rewrite (H x eq_refl).
Qed.

Lemma last_drop_while (p : ascii -> bool) (s : str) :
  drop_while p s <> [] -> last (drop_while p s) = last s.
Proof.
  induction s as [|x s IH]; [reflexivity|]. cbn. destruct (p x); [|reflexivity].
  intros H. rewrite (IH H). destruct s as [|y s]; [contradiction|]. reflexivity.
Qed.

Lemma last_rev_head (l : str) : last (rev l) = head l.
Proof. destruct l as [|x l]; [reflexivity|]. cbn. apply last_snoc. Qed.

Lemma head_rev_last (l : str) : head (rev l) = last l.
Proof. rewrite <- (rev_involutive l) at 2. now rewrite last_rev_head. Qed.

Lemma is_spaceo_false (o : option ascii) :
  (forall c, o = Some c -> is_space c = false) -> is_spaceo o = false.
Proof. destruct o as [c|]; [intros H; exact (H c eq_refl) | reflexivity]. Qed.

Lemma trimmed_trim (s : str) : trimmed (trim s) = true.
Proof.
  unfold trimmed, trim.
  set (y := drop_while is_space s). set (z := drop_while is_space (rev y)).
  rewrite head_rev_last, last_rev_head.
  rewrite (is_spaceo_false (head z)) by apply head_drop_while.
  rewrite andb_true_r. apply negb_true_iff.
  destruct z as [|c z'] eqn:Ez; [reflexivity|].
  assert (Hz : z <> []) by (rewrite Ez; discriminate).
  rewrite <- Ez. unfold z. rewrite last_drop_while by exact Hz.
  rewrite last_rev_head. apply is_spaceo_false, head_drop_while.
Qed.

Lemma trim_fixed (s : str) : trimmed s = true -> trim s = s.
Proof.
  unfold trimmed, trim. intros H. apply andb_true_iff in H as [Hh Hl].
  apply negb_true_iff in Hh, Hl.
  rewrite (drop_while_id is_space s).
  2: { intros c E. rewrite E in Hh. exact Hh. }
  rewrite (drop_while_id is_space (rev s)); [apply rev_involutive|].
  intros c E. rewrite head_rev_last in E. rewrite E in Hl. exact Hl.
Qed.

Lemma split_lines_no_sep (s : str) :
  Forall (fun p => forallb (fun c => negb (is_sep c)) p = true) (split_lines s).
Proof.
  induction s as [|c s IH]; [repeat constructor|]. cbn.
  destruct (is_sep c) eqn:Hc; [constructor; [reflexivity | exact IH]|].
  destruct (split_lines s) as [|p ps]; [repeat constructor; cbn; now rewrite Hc|].
  apply Forall_cons in IH as [Hp Hps]. constructor; [|exact Hps].
  cbn. now rewrite Hc.
Qed.

Lemma split_lines_nonempty (s : str) : split_lines s <> [].
Proof.
  destruct s as [|c s]; [discriminate|]. cbn.
  destruct (is_sep c); [discriminate|]. destruct (split_lines s); discriminate.
Qed.

Lemma split_lines_app (a b : str) (c : ascii) :
  is_sep c = true -> split_lines (a ++ c :: b) = split_lines a ++ split_lines b.
Proof.
  intros Hc. induction a as [|x a IH]; cbn; [now rewrite Hc|].
  rewrite IH. destruct (is_sep x); [reflexivity|].
  pose proof (split_lines_nonempty a) as Hne.
  destruct (split_lines a); [contradiction | reflexivity].
Qed.

Lemma split_lines_single (s : str) :
  forallb (fun c => negb (is_sep c)) s = true -> split_lines s = [s].
Proof.
  induction s as [|c s IH]; [reflexivity|]. cbn. intros H.
  apply andb_true_iff in H as [Hc H]. apply negb_true_iff in Hc.
  now rewrite Hc, (IH H).
Qed.

Lemma header_line_union (m : gmap str str) (line : str) :
  header_line m line = header_line ∅ line ∪ m.
Proof.
  unfold header_line. destruct (indexOf_colon line) as [[|i]|];
    try (now rewrite (left_id_L ∅ (∪))).
  destruct (truthy _); [|now rewrite (left_id_L ∅ (∪))].
  case_bool_decide; [now rewrite (left_id_L ∅ (∪))|].
  rewrite insert_union_singleton_l. f_equal.
Qed.

Lemma fold_header_line_union (ls : list str) (m : gmap str str) :
  fold_left header_line ls m = fold_left header_line ls ∅ ∪ m.
Proof.
  revert m. induction ls as [|l ls IH]; intros m; cbn.
  - now rewrite (left_id_L ∅ (∪)).
  - rewrite (IH (header_line m l)), (IH (header_line ∅ l)), (header_line_union m l).
    now rewrite (assoc_L (∪)).
Qed.

Lemma forallb_sub (p : ascii -> bool) (s t : str) :
  (forall c, In c t -> In c s) -> forallb p s = true -> forallb p t = true.
Proof.
  intros Hsub H. apply forallb_forall. intros c Hc.
  rewrite forallb_forall in H. auto.
Qed.

Lemma In_take {X} (x : X) (n : nat) (l : list X) : In x (take n l) -> In x l.
Proof.
  revert n. induction l as [|y l IH]; intros [|n]; cbn; try tauto.
  intros [H|H]; [now left | right; eauto].
Qed.

Lemma In_drop {X} (x : X) (n : nat) (l : list X) : In x (drop n l) -> In x l.
Proof.
  revert n. induction l as [|y l IH]; intros [|n]; cbn; try tauto.
  intros H. right. eauto.
Qed.

Lemma indexOf_colon_take (s : str) (n : nat) :
  indexOf_colon s = Some n -> forallb (fun c => negb (is_colon c)) (take n s) = true.
Proof.
  revert n. induction s as [|c s IH]; intros n; [discriminate|]. cbn.
  destruct (is_colon c) eqn:Hc; [now intros [= <-]|].
  destruct (indexOf_colon s) as [i|]; [|discriminate]. cbn. intros [= <-].
  cbn. now rewrite Hc, (IH i eq_refl).
Qed.

(** What one line adds to the record. *)
Lemma header_line_entry (m : gmap str str) (line k v : str) :
  forallb (fun c => negb (is_sep c)) line = true ->
  header_line m line !! k = Some v ->
  m !! k = Some v \/ (clean_key k = true /\ clean_value v = true).
Proof.
  intros Hline. unfold header_line.
  destruct (indexOf_colon line) as [[|i]|] eqn:Hidx; auto.
  destruct (truthy (trim (take (S i) line))) eqn:Hk; auto.
  case_bool_decide as Hproto; auto.
  destruct (decide (k = trim (take (S i) line))) as [->|Hne].
  2: { rewrite lookup_insert_ne by congruence. auto. }
  rewrite lookup_insert_eq. intros [= <-]. right.
  unfold clean_key, clean_value. rewrite Hk, !trimmed_trim. cbn [andb].
  rewrite (bool_decide_eq_false_2 _ Hproto). cbn [negb]. rewrite andb_true_r.
  split; [|eapply forallb_sub; [|exact Hline];
           intros c Hc; apply trim_sub in Hc; eapply In_drop; eassumption].
  apply forallb_forall. intros c Hc. apply trim_sub in Hc.
  apply negb_true_iff, orb_false_iff. split.
  - rewrite forallb_forall in Hline. apply negb_true_iff, Hline.
    eapply In_take; eassumption.
  - pose proof (indexOf_colon_take line (S i) Hidx) as Hcol.
    rewrite forallb_forall in Hcol. apply negb_true_iff. auto.
Qed.

(** Every header read from the box has a key that is not empty, has no
    white space at its ends, holds no comma, line feed or colon and is not
    [__proto__], and a value with no white space at its ends and no comma
    or line feed. *)
Theorem headersFromText_entries_are_clean (text k v : str) :
  headersFromText text !! k = Some v -> clean_key k = true /\ clean_value v = true.
Proof.
  unfold headersFromText.
  assert (Hlines : Forall (fun l => forallb (fun c => negb (is_sep c)) l = true)
                     (List.filter truthy (map trim (split_lines text)))).
  { apply Forall_forall. intros l Hl.
    apply list_elem_of_In, filter_In in Hl as [Hl _]. apply in_map_iff in Hl as (l0 & <- & Hl0).
    pose proof (split_lines_no_sep text) as Hs. rewrite Forall_forall in Hs.
    eapply forallb_sub; [apply trim_sub|]. apply Hs, list_elem_of_In, Hl0. }
  revert Hlines. generalize (List.filter truthy (map trim (split_lines text))).
  intros ls Hls.
  assert (Hgen : forall m,
             (forall k v, m !! k = Some v -> clean_key k = true /\ clean_value v = true) ->
             fold_left header_line ls m !! k = Some v ->
             clean_key k = true /\ clean_value v = true).
  { induction Hls as [|l ls Hl Hls IH]; intros m Hm; cbn; [apply Hm|].
    apply IH. intros k' v' H'.
    apply (header_line_entry m l k' v' Hl) in H' as [H'|H']; auto. }
  apply Hgen. intros k' v' H'. rewrite lookup_empty in H'. discriminate.
Qed.

Lemma headersFromText_entries_are_clean_witness :
  clean_key (lit "x-user-id") = true /\ clean_value (lit "1001") = true.
Proof.
  apply (headersFromText_entries_are_clean (lit " x-user-id : 1001 ,junk")).
  vm_compute. reflexivity.
Defined.

Lemma indexOf_colon_app (k v : str) :
  forallb (fun c => negb (is_colon c)) k = true ->
  indexOf_colon (k ++ lit ":" ++ v) = Some (length k).
Proof.
  induction k as [|c k IH]; [reflexivity|]. cbn. intros H.
  apply andb_true_iff in H as [Hc H]. apply negb_true_iff in Hc.
  rewrite Hc. cbn in IH. now rewrite (IH H).
Qed.

Lemma last_app_cons (k v : str) (c : ascii) :
  last (k ++ c :: v) = match last v with Some x => Some x | None => Some c end.
Proof.
  induction k as [|x k IH]; cbn.
  - destruct v as [|y v]; [reflexivity|]. cbn.
    destruct (last (y :: v)) eqn:E; [reflexivity|]. apply last_None in E. discriminate.
  - rewrite <- IH. destruct (k ++ c :: v) eqn:E; [|reflexivity].
    destruct k; discriminate.
Qed.

(** A clean key and a clean value written as [key:value] are read back as
    that one header. *)
Theorem headersFromText_reads_back (k v : str) :
  clean_key k = true -> clean_value v = true ->
  headersFromText (k ++ lit ":" ++ v) = {[ k := v ]}.
Proof.
  unfold clean_key, clean_value. rewrite !andb_true_iff.
  intros [[[Hne Htk] Hk] Hproto] [Htv Hv].
  apply negb_true_iff, bool_decide_eq_false in Hproto.
  assert (Hksep : forallb (fun c => negb (is_sep c)) k = true).
  { apply forallb_forall. intros c Hc. rewrite forallb_forall in Hk.
    specialize (Hk c Hc). apply negb_true_iff, orb_false_iff in Hk as [-> _]. reflexivity. }
  assert (Hkcol : forallb (fun c => negb (is_colon c)) k = true).
  { apply forallb_forall. intros c Hc. rewrite forallb_forall in Hk.
    specialize (Hk c Hc). apply negb_true_iff, orb_false_iff in Hk as [_ ->]. reflexivity. }
  set (line := k ++ lit ":" ++ v).
  assert (Hline : forallb (fun c => negb (is_sep c)) line = true).
  { unfold line. rewrite !forallb_app, Hksep, Hv. reflexivity. }
  assert (Htl : trimmed line = true).
  { unfold trimmed, line in *. destruct k as [|c k]; [discriminate|].
    apply andb_true_iff in Htk as [Hh _]. cbn [app head] in *. rewrite Hh. cbn [andb].
    change (lit ":" ++ v) with (":"%char :: v).
    change (c :: k ++ ":"%char :: v) with ((c :: k) ++ ":"%char :: v).
    rewrite last_app_cons. apply andb_true_iff in Htv as [_ Hl].
    destruct (last v); [exact Hl | reflexivity]. }
  unfold headersFromText. rewrite (split_lines_single line Hline). cbn [map].
  rewrite (trim_fixed line Htl). cbn [List.filter].
  assert (Hnl : truthy line = true) by (unfold line; destruct k; [discriminate|reflexivity]).
  rewrite Hnl. cbn [fold_left]. unfold header_line.
  unfold line at 1. rewrite (indexOf_colon_app k v Hkcol).
  assert (Hlen : exists n, length k = S n)
    by (destruct k; [discriminate | eexists; reflexivity]).
  destruct Hlen as [n Hlen]. rewrite Hlen. cbv zeta. rewrite <- Hlen.
  unfold line. rewrite take_app_length.
  replace (length k + 1) with (length (k ++ lit ":")) by (rewrite length_app; reflexivity).
  rewrite (app_assoc k (lit ":") v), drop_app_length.
  rewrite (trim_fixed k Htk), (trim_fixed v Htv), Hne.
  rewrite bool_decide_eq_false_2 by exact Hproto.
  apply insert_empty.
Qed.


Lemma headersFromText_reads_back_witness :
  headersFromText (lit "x-user-id" ++ lit ":" ++ lit "1001")
  = {[ lit "x-user-id" := lit "1001" ]}.
Proof. apply headersFromText_reads_back; reflexivity. Defined.

(** The lines are read in order: what comes after a comma or a line feed
    is added to what came before, and a key given again takes the later
    value. *)
Theorem headersFromText_later_lines_win (a b : str) (c : ascii) :
  is_sep c = true ->
  headersFromText (a ++ c :: b) = headersFromText b ∪ headersFromText a.
Proof.
  intros Hc. unfold headersFromText.
  rewrite (split_lines_app a b c Hc), map_app, List.filter_app, fold_left_app.
  apply fold_header_line_union.
Qed.

Lemma headersFromText_later_lines_win_witness :
  headersFromText (lit "x-user-id:1001" ++ ","%char :: lit "x-user-id:1002")
  !! lit "x-user-id" = Some (lit "1002").
Proof.
  rewrite (headersFromText_later_lines_win (lit "x-user-id:1001") (lit "x-user-id:1002")
             ","%char eq_refl).
  vm_compute. reflexivity.
Defined.

(** ** The request of the page, as the route reads it *)

Lemma all_valid_map_Valid {X Y} (h : X -> Y) (l : list X) :
  all_valid (map (fun x => Valid (h x)) l) = Valid (map h l).
Proof. induction l as [|x l IH]; [reflexivity|]. cbn. now rewrite IH. Qed.

Lemma HeaderSchema_headers_json (path : list path_elem) (m : gmap str str) :
  HeaderSchema path (Some (headers_json m)) = Valid (Some (map_to_list m)).
Proof.
  unfold HeaderSchema, z_optional, z_record_string, headers_json.
  rewrite map_map. cbn [fst snd z_string zmap].
  rewrite (all_valid_map_Valid (fun kv : str * str => (kv.1, kv.2))). cbn.
  do 2 f_equal. rewrite <- (map_id (map_to_list m)) at 2.
  apply map_ext. now intros [].
Qed.

Lemma AuthCtxSchema_headers_json (path : list path_elem) (m : gmap str str) :
  AuthCtxSchema path (Some (JObj [(lit "headers", headers_json m)]))
  = Valid {| ac_headers := Some (map_to_list m); ac_cookies := None |}.
Proof.
  unfold AuthCtxSchema.
  change (get_field (lit "headers") [(lit "headers", headers_json m)])
    with (Some (headers_json m)).
  change (get_field (lit "cookies") [(lit "headers", headers_json m)]) with (@None json).
  rewrite HeaderSchema_headers_json. reflexivity.
Qed.

Lemma page_fields (b e a s m t : json) :
  let fields := [(lit "baseUrl", b); (lit "endpoints", e); (lit "authContexts", a);
                 (lit "speedGateThreshold", s); (lit "maxConcurrency", m);
                 (lit "timeoutMs", t)] in
  get_field (field_name F_baseUrl) fields = Some b
  /\ get_field (field_name F_endpoints) fields = Some e
  /\ get_field (field_name F_authContexts) fields = Some a
  /\ get_field (field_name F_speedGateThreshold) fields = Some s
  /\ get_field (field_name F_maxConcurrency) fields = Some m
  /\ get_field (field_name F_timeoutMs) fields = Some t.
Proof. repeat split; reflexivity. Qed.

Lemma auth_fields (v a u : json) :
  let fields := [(lit "victim", v); (lit "attacker", a); (lit "unauthenticated", u)] in
  get_field (lit "victim") fields = Some v
  /\ get_field (lit "attacker") fields = Some a
  /\ get_field (lit "unauthenticated") fields = Some u.
Proof. repeat split; reflexivity. Qed.

(** Whatever is typed into the boxes of the identifiers and of the
    headers, the request of the page passes the schema as soon as the base
    URL is one and the threshold lies in [0, 1]; the route then works
    with the headers exactly as [headersFromText] read them. *)
Theorem page_request_is_accepted (rt : Runtime)
    (baseUrl victimId attackerId victimHeader attackerHeader : str) (threshold : Q) :
  URL_href rt baseUrl [] <> None ->
  (0 <= threshold)%Q -> (threshold <= 1)%Q ->
  safeParse rt (page_body baseUrl victimId attackerId victimHeader attackerHeader threshold)
  = Valid (page_cfg baseUrl victimId attackerId victimHeader attackerHeader threshold).
Proof.
  intros Hurl Hlo Hhi. unfold safeParse, ScanRequestSchema, page_body.
  match goal with |- context [get_field _ ?fs] =>
    match fs with
    | [(_, ?b); (_, ?e); (_, ?a); (_, ?s); (_, ?m); (_, ?t)] =>
        destruct (page_fields b e a s m t) as (-> & -> & -> & -> & -> & ->)
    end
  end.
  assert (Eb : baseUrl_schema rt ([] ++ [Key (field_name F_baseUrl)]) (Some (JStr baseUrl))
               = Valid baseUrl).
  { unfold baseUrl_schema, z_url. destruct (URL_href rt baseUrl []); [reflexivity | contradiction]. }
  assert (Es : speedGateThreshold_schema ([] ++ [Key (field_name F_speedGateThreshold)])
                 (Some (JNum threshold)) = Valid threshold).
  { unfold speedGateThreshold_schema, z_default, z_number_range.
    rewrite (proj2 (Qle_bool_iff 0 threshold) Hlo), (proj2 (Qle_bool_iff threshold 1) Hhi).
    reflexivity. }
  assert (Ea : AuthContextsSchema ([] ++ [Key (field_name F_authContexts)])
                 (Some (JObj [(lit "victim",
                               JObj [(lit "headers", headers_json (headersFromText victimHeader))]);
                              (lit "attacker",
                               JObj [(lit "headers", headers_json (headersFromText attackerHeader))]);
                              (lit "unauthenticated", JBool true)]))
               = Valid (authContexts (page_cfg baseUrl victimId attackerId victimHeader
                                        attackerHeader threshold))).
  { unfold AuthContextsSchema.
    match goal with |- context [get_field _ ?fs] =>
      match fs with
      | [(_, ?v); (_, ?a); (_, ?u)] =>
          destruct (auth_fields v a u) as (-> & -> & ->)
      end
    end.
    unfold z_optional. rewrite !AuthCtxSchema_headers_json. reflexivity. }
  rewrite Eb, Es, Ea. reflexivity.
Qed.

Lemma page_request_is_accepted_witness :
  exists cfg,
    maxConcurrency cfg = 4%Q
    /\ safeParse demo_rt
         (page_body (lit "http://api.test/api/mock") (lit "1001") (lit "1002")
            (lit "x-user-id:1001") (lit "x-user-id:1002") 0.8) = Valid cfg.
Proof.
  eexists. split; [|
  apply (page_request_is_accepted demo_rt (lit "http://api.test/api/mock") (lit "1001")
           (lit "1002") (lit "x-user-id:1001") (lit "x-user-id:1002") 0.8);
    vm_compute; discriminate].
  reflexivity.
Defined.

(** ** Normalising twice *)

Lemma nomatch_id (m : matcher) (s : str) (p : option ascii) :
  nomatch m p s -> replace_from m 0 p s = s.
Proof.
  revert p. induction s as [|c s IH]; intros p; cbn.
  - now intros ->.
  - intros [-> H]. f_equal. auto.
Qed.

Lemma prev_after_cons (p : option ascii) (c : ascii) (w : str) :
  prev_after p (c :: w) = prev_after (Some c) w.
Proof.
  unfold prev_after. destruct w as [|d w]; [reflexivity|].
  change (last (c :: d :: w)) with (last (d :: w)).
  destruct (last (d :: w)) eqn:E; [reflexivity|]. apply last_None in E. discriminate.
Qed.

Lemma prev_after_last (p : option ascii) (w : str) :
  w <> [] -> prev_after p w = last w.
Proof.
  intros Hw. unfold prev_after. destruct (last w) eqn:E; [reflexivity|].
  apply last_None in E. contradiction.
Qed.

Lemma nomatch_drop (m : matcher) (w rest : str) (p : option ascii) :
  nomatch m p (w ++ rest) -> nomatch m (prev_after p w) rest.
Proof.
  revert p. induction w as [|c w IH]; intros p; [exact id|].
  cbn [app nomatch]. intros [_ H]. rewrite prev_after_cons. auto.
Qed.

(** A text put before a text with no match, when no match starts in
    it. *)
Lemma nomatch_app (m : matcher) (r t : str) (p : option ascii) :
  (forall q r1 d r2, r = r1 ++ d :: r2 -> m q (d :: r2 ++ t) = None) ->
  nomatch m (prev_after p r) t -> nomatch m p (r ++ t).
Proof.
  revert p. induction r as [|c r IH]; intros p Hin Ht; [exact Ht|].
  cbn [app nomatch]. split; [apply (Hin p [] c r eq_refl)|].
  apply IH.
  - intros q r1 d r2 E. apply (Hin q (c :: r1) d r2). now rewrite E.
  - rewrite prev_after_cons in Ht. exact Ht.
Qed.

(** The first position decides nothing when the text starts outside a
    word. *)
Lemma nomatch_prev (m : matcher) (s : str) (p p' : option ascii) :
  (forall q c t, is_word c = false -> m q (c :: t) = None) ->
  (forall q, m q [] = None) ->
  p' = p \/ is_wordo (head s) = false ->
  nomatch m p s -> nomatch m p' s.
Proof.
  intros Hhead Hnil [->|Hw]; [exact id|].
  destruct s as [|c s]; cbn; [intros _; apply Hnil|].
  intros [_ H]. split; [apply Hhead, Hw | exact H].
Qed.

Section Scan.
Variables (mA mB : matcher) (I : option ascii -> str -> Prop).

Hypothesis HA_nil : forall p, mA p [] = None.
Hypothesis HA_head : forall p c s, is_word c = false -> mA p (c :: s) = None.
Hypothesis HB_nil : forall p, mB p [] = None.

(** A match of [mB]: the text matched is not empty, no match of [mA] starts
    in the replacement, and either the replacement ends as the match did
    or the match is followed by a code unit outside a word. *)
Hypothesis HB_hit : forall p c s n r,
  mB p (c :: s) = Some (n, r) ->
  exists w rest,
    c :: s = w ++ rest /\ length w = n /\ w <> [] /\ r <> []
    /\ (forall q t r1 d r2, r = r1 ++ d :: r2 -> mA q (d :: r2 ++ t) = None)
    /\ (last r = last w \/ is_wordo (head rest) = false).

(** Where [mB] copies a code unit, [mA] does not match in the input, and
    does not match in the output either. *)
Hypothesis HI_copy : forall p c s,
  I p (c :: s) -> mB p (c :: s) = None ->
  mA p (c :: s) = None /\ I (Some c) s
  /\ mA p (c :: replace_from mB 0 (Some c) s) = None.
Hypothesis HI_hit : forall p w rest n r,
  I p (w ++ rest) -> mB p (w ++ rest) = Some (n, r) -> length w = n -> w <> [] ->
  I (prev_after p w) rest.

Lemma scan_nomatch_len (k : nat) :
  forall s p p',
    length s <= k ->
    p' = p \/ is_wordo (head s) = false ->
    I p s -> nomatch mA p' (replace_from mB 0 p s).
Proof.
  induction k as [|k IH]; intros s p p' Hlen Hrel HI.
  - destruct s; [|cbn in Hlen; lia]. cbn. rewrite HB_nil. cbn. apply HA_nil.
  - destruct s as [|c s]; [cbn; rewrite HB_nil; cbn; apply HA_nil|].
    cbn [replace_from]. destruct (mB p (c :: s)) as [[n r]|] eqn:Hm.
    + destruct (HB_hit _ _ _ _ _ Hm) as (w & rest & E & Hn & Hw & Hr & Hfree & Hend).
      destruct n as [|n]; [destruct w; [contradiction | discriminate]|].
      assert (Hskip : replace_from mB n (Some c) s
                      = replace_from mB 0 (prev_after p w) rest).
      { destruct w as [|c0 w]; [contradiction|]. cbn [app] in E.
        injection E as <- ->. cbn in Hn. injection Hn as <-.
        rewrite prev_after_cons. clear. revert c.
        induction w as [|d w IHw]; intros c; [reflexivity|].
        cbn [length app replace_from]. rewrite prev_after_cons. apply IHw. }
      rewrite Hskip. apply nomatch_app; [exact (fun q => Hfree q _)|].
      rewrite (prev_after_last p' r Hr).
      apply IH.
      * apply (f_equal (@length ascii)) in E. rewrite length_app in E. cbn in E, Hlen.
        destruct w; [contradiction|]. cbn in E. lia.
      * destruct Hend as [Hend|Hend]; [left|right; exact Hend].
        now rewrite Hend, (prev_after_last p w Hw).
      * rewrite E in HI, Hm. eapply HI_hit; eassumption.
    + destruct (HI_copy _ _ _ HI Hm) as (HmA & HI' & Hout).
      cbn [nomatch]. split.
      * destruct Hrel as [->|Hw]; [exact Hout | apply HA_head, Hw].
      * apply IH; [cbn in Hlen; lia | now left | exact HI'].
Qed.

Lemma scan_nomatch (s : str) (p : option ascii) :
  I p s -> nomatch mA p (replace_from mB 0 p s).
Proof. apply (scan_nomatch_len (length s)); [lia | now left]. Qed.

End Scan.

(** A pattern that reads a text no further than its first code unit of
    the class [stop] cannot tell the output of a scan from its input, when
    the scan replaces nothing before that code unit and leaves it in
    place. *)
Section Agree.
Variables (mA mB : matcher) (stop : ascii -> bool).

Hypothesis HA_loc : forall p s s', upto stop s = upto stop s' -> mA p s = mA p s'.
Hypothesis HB_nil : forall p, mB p [] = None.
Hypothesis HB_shape : forall p c s n r,
  mB p (c :: s) = Some (n, r) ->
  (stop c = true /\ head r = Some c) \/ (stop c = false /\ is_stopo stop p = true).

Lemma upto_head (r t : str) (c : ascii) :
  stop c = true -> head r = Some c -> upto stop (r ++ t) = [c].
Proof. destruct r as [|d r]; [discriminate|]. cbn. intros Hc [= ->]. now rewrite Hc. Qed.

Lemma scan_agree (s : str) (q : option ascii) :
  is_stopo stop q = false -> upto stop (replace_from mB 0 q s) = upto stop s.
Proof.
  revert q. induction s as [|c s IH]; intros q Hq; cbn [replace_from].
  - now rewrite HB_nil.
  - destruct (mB q (c :: s)) as [[n r]|] eqn:Hm.
    + destruct (HB_shape _ _ _ _ _ Hm) as [[Hc Hr]|[_ Hq']]; [|congruence].
      cbn [upto]. rewrite Hc.
      destruct n; [apply (upto_head r _ c Hc Hr)|apply (upto_head r _ c Hc Hr)].
    + cbn [upto]. destruct (stop c) eqn:Hc; [reflexivity|]. f_equal. now apply IH.
Qed.

Lemma copy_step (p : option ascii) (c : ascii) (s : str) :
  mA p (c :: s) = None -> mA p (c :: replace_from mB 0 (Some c) s) = None.
Proof.
  intros H. rewrite <- H. apply HA_loc. cbn [upto].
  destruct (stop c) eqn:Hc; [reflexivity|]. f_equal. now apply scan_agree.
Qed.

End Agree.

(** ** The pattern of the long numbers *)

Lemma span_drop (p : ascii -> bool) (s : str) :
  span p s ++ drop (length (span p s)) s = s.
Proof.
  induction s as [|c s IH]; [reflexivity|]. cbn. destruct (p c); [|reflexivity].
  cbn. now rewrite IH.
Qed.

Lemma span_forallb (p : ascii -> bool) (s : str) : forallb p (span p s) = true.
Proof.
  induction s as [|c s IH]; [reflexivity|]. cbn. destruct (p c) eqn:Hc; [|reflexivity].
  cbn. now rewrite Hc.
Qed.

Lemma last_forallb (p : ascii -> bool) (s : str) (c : ascii) :
  forallb p s = true -> last s = Some c -> p c = true.
Proof.
  intros H Hl. rewrite forallb_forall in H. apply H.
  apply list_elem_of_In. apply last_Some in Hl as [l' ->].
  apply elem_of_app. right. now left.
Qed.

Lemma is_digit_word (c : ascii) : is_digit c = true -> is_word c = true.
Proof. unfold is_word. intros ->. now rewrite !orb_true_r. Qed.

Lemma m_num_nil (p : option ascii) : m_num p [] = None.
Proof. unfold m_num. cbn. now rewrite andb_false_r. Qed.

Lemma m_num_nondigit (p : option ascii) (c : ascii) (s : str) :
  is_digit c = false -> m_num p (c :: s) = None.
Proof. intros H. unfold m_num. cbn [span]. rewrite H. cbn. now rewrite andb_false_r. Qed.

Lemma m_num_head (p : option ascii) (c : ascii) (s : str) :
  is_word c = false -> m_num p (c :: s) = None.
Proof.
  intros H. apply m_num_nondigit. destruct (is_digit c) eqn:E; [|reflexivity].
  apply is_digit_word in E. congruence.
Qed.

(** What a class that avoids [stop] sees of a text. *)
Lemma span_upto (stop d : ascii -> bool) (s : str) :
  (forall c, d c = true -> stop c = false) ->
  span d (upto stop s) = span d s
  /\ head (drop (length (span d s)) (upto stop s)) = head (drop (length (span d s)) s)
  /\ head (upto stop s) = head s.
Proof.
  intros Hd. induction s as [|c s (IH1 & IH2 & IH3)]; [auto|]. cbn [upto span].
  destruct (stop c) eqn:Hs.
  - destruct (d c) eqn:Hc; [apply Hd in Hc; congruence|]. cbn. rewrite Hc. auto.
  - cbn [span]. destruct (d c); cbn; [|auto]. rewrite IH1. auto.
Qed.

Lemma m_num_upto (stop : ascii -> bool) (p : option ascii) (s : str) :
  (forall c, is_digit c = true -> stop c = false) ->
  m_num p (upto stop s) = m_num p s.
Proof.
  intros Hd. unfold m_num.
  destruct (span_upto stop is_digit s Hd) as (E1 & E2 & E3).
  rewrite E1, E2, E3. reflexivity.
Qed.

Lemma m_num_loc (stop : ascii -> bool) (p : option ascii) (s s' : str) :
  (forall c, is_digit c = true -> stop c = false) ->
  upto stop s = upto stop s' -> m_num p s = m_num p s'.
Proof.
  intros Hd E. rewrite <- (m_num_upto stop p s Hd), <- (m_num_upto stop p s' Hd).
  now rewrite E.
Qed.

(** A match of the pattern: a whole word made of digits. *)
Lemma m_num_hit (p : option ascii) (c : ascii) (s : str) (n : nat) (r : str) :
  m_num p (c :: s) = Some (n, r) ->
  exists w rest,
    c :: s = w ++ rest /\ length w = n /\ w <> [] /\ r = lit "<num>"
    /\ is_wordo (head rest) = false /\ is_wordo p = false /\ is_word c = true.
Proof.
  unfold m_num. set (ds := span is_digit (c :: s)).
  destruct (word_boundary p (head (c :: s))) eqn:Hb1; [|discriminate].
  destruct (13 <=? length ds) eqn:Hlen; [|discriminate].
  destruct (word_boundary (last ds) (head (drop (length ds) (c :: s)))) eqn:Hb2;
    [|discriminate].
  cbn [andb]. intros [= <- <-].
  assert (Hc : is_digit c = true).
  { unfold ds in Hlen. cbn [span] in Hlen. destruct (is_digit c); [reflexivity|discriminate]. }
  exists ds, (drop (length ds) (c :: s)).
  split; [symmetry; apply span_drop|]. split; [reflexivity|].
  split; [unfold ds; cbn [span]; rewrite Hc; discriminate|]. split; [reflexivity|].
  assert (Hl : is_wordo (last ds) = true).
  { destruct (last ds) as [x|] eqn:El.
    - cbn. apply is_digit_word. eapply last_forallb; [apply span_forallb | exact El].
    - apply last_None in El. unfold ds in El. cbn [span] in El. rewrite Hc in El.
      discriminate. }
  unfold word_boundary in *. rewrite Hl in Hb2. cbn [head is_wordo] in Hb1.
  rewrite (is_digit_word c Hc) in Hb1.
  split; [now destruct (is_wordo (head (drop (length ds) (c :: s))))|].
  split; [now destruct (is_wordo p) | now apply is_digit_word].
Qed.

(** No long number starts in a text without digits. *)
Lemma num_free (r : str) :
  forallb (fun c => negb (is_digit c)) r = true ->
  forall q t r1 d r2, r = r1 ++ d :: r2 -> m_num q (d :: r2 ++ t) = None.
Proof.
  intros H q t r1 d r2 ->. apply m_num_nondigit.
  rewrite forallb_app in H. apply andb_true_iff in H as [_ H]. cbn in H.
  apply andb_true_iff in H as [H _]. now apply negb_true_iff.
Qed.

(** ** The pattern of the UUIDs *)

Lemma is_hex_word (c : ascii) : is_hex c = true -> is_word c = true.
Proof.
  unfold is_hex, is_word, is_lower, is_upper, is_digit, between.
  rewrite !orb_true_iff, !andb_true_iff, !N.leb_le, N.eqb_eq. lia.
Qed.

Lemma is_hex_hexdash (c : ascii) : is_hex c = true -> is_hexdash c = true.
Proof. unfold is_hexdash. now intros ->. Qed.

Lemma uuid_classes_hexdash :
  Forall (fun cls : ascii -> bool => forall x, cls x = true -> is_hexdash x = true)
    uuid_classes.
Proof.
  assert (Hv : forall x, is_version x = true -> is_hexdash x = true).
  { intros x H. apply is_hex_hexdash. unfold is_hex. now rewrite (is_version_digit x H). }
  assert (Hr : forall x, is_variant x = true -> is_hexdash x = true).
  { intros x. unfold is_variant, is_hexdash, is_hex, is_digit, between.
    rewrite !orb_true_iff, !andb_true_iff, !N.leb_le. lia. }
  assert (Hd : forall x, is_dash x = true -> is_hexdash x = true).
  { intros x H. unfold is_hexdash. rewrite H. apply orb_true_r. }
  unfold uuid_classes. cbn [repeat app].
  repeat (constructor; [first [exact is_hex_hexdash | exact Hd | exact Hv | exact Hr]|]).
  constructor.
Qed.

(** A text that matches a sequence of classes is at least as long, and
    its code units are in the classes. *)
Lemma match_classes_take (stop : ascii -> bool) (cs : list (ascii -> bool)) (s : str) :
  Forall (fun cls : ascii -> bool => forall x, cls x = true -> stop x = false) cs ->
  match_classes cs s = true ->
  length cs <= length s /\ forallb (fun c => negb (stop c)) (take (length cs) s) = true.
Proof.
  intros Hcs. revert s. induction Hcs as [|cls cs Hcls Hcs IH]; intros s; cbn.
  - intros _. split; [lia | reflexivity].
  - destruct s as [|c s]; [discriminate|]. intros H.
    apply andb_true_iff in H as [Hc H]. destruct (IH s H) as [Hlen Hall].
    cbn. rewrite (Hcls c Hc), Hall. split; [lia | reflexivity].
Qed.

Lemma match_classes_upto (stop : ascii -> bool) (cs : list (ascii -> bool)) (s : str) :
  Forall (fun cls : ascii -> bool => forall x, cls x = true -> stop x = false) cs ->
  match_classes cs (upto stop s) = match_classes cs s.
Proof.
  intros Hcs. revert s. induction Hcs as [|cls cs Hcls Hcs IH]; intros s.
  - destruct s; cbn; [reflexivity|]. destruct (stop a); reflexivity.
  - destruct s as [|c s]; [reflexivity|]. cbn [upto].
    destruct (stop c) eqn:Hs.
    + cbn. destruct (cls c) eqn:Hc; [apply Hcls in Hc; congruence | reflexivity].
    + cbn. now rewrite IH.
Qed.

Lemma upto_head_same (stop : ascii -> bool) (s : str) : head (upto stop s) = head s.
Proof. destruct s as [|c s]; [reflexivity|]. cbn. now destruct (stop c). Qed.

Lemma upto_take (stop : ascii -> bool) (n : nat) (s : str) :
  n <= length s -> forallb (fun c => negb (stop c)) (take n s) = true ->
  take n (upto stop s) = take n s /\ head (drop n (upto stop s)) = head (drop n s).
Proof.
  revert s. induction n as [|n IH]; intros s Hlen Hall.
  - cbn. split; [reflexivity | apply upto_head_same].
  - destruct s as [|c s]; [cbn in Hlen; lia|]. cbn in Hall.
    apply andb_true_iff in Hall as [Hc Hall]. apply negb_true_iff in Hc.
    cbn [upto]. rewrite Hc. cbn. destruct (IH s) as [E1 E2]; [cbn in Hlen; lia | exact Hall|].
    now rewrite E1, E2.
Qed.

Lemma uuid_classes_length : length uuid_classes = 36.
Proof. reflexivity. Qed.

Lemma m_uuid_nil (p : option ascii) : m_uuid p [] = None.
Proof. unfold m_uuid. cbn. now rewrite andb_false_r. Qed.

Lemma m_uuid_nonhex (p : option ascii) (c : ascii) (s : str) :
  is_hex c = false -> m_uuid p (c :: s) = None.
Proof.
  intros H. unfold m_uuid, uuid_classes. cbn [repeat app match_classes]. rewrite H.
  cbn. now rewrite andb_false_r.
Qed.

Lemma m_uuid_head (p : option ascii) (c : ascii) (s : str) :
  is_word c = false -> m_uuid p (c :: s) = None.
Proof.
  intros H. apply m_uuid_nonhex. destruct (is_hex c) eqn:E; [|reflexivity].
  apply is_hex_word in E. congruence.
Qed.

Lemma m_uuid_upto (stop : ascii -> bool) (p : option ascii) (s : str) :
  (forall c, is_hexdash c = true -> stop c = false) ->
  m_uuid p (upto stop s) = m_uuid p s.
Proof.
  intros Hd. unfold m_uuid.
  assert (Hcs : Forall (fun cls : ascii -> bool => forall x, cls x = true -> stop x = false)
                  uuid_classes).
  { eapply Forall_impl; [apply uuid_classes_hexdash|]. cbn. auto. }
  rewrite (match_classes_upto stop _ s Hcs), upto_head_same.
  destruct (match_classes uuid_classes s) eqn:Hm; [|now rewrite !andb_false_r].
  destruct (match_classes_take stop _ s Hcs Hm) as [Hlen Hall].
  rewrite uuid_classes_length in *.
  destruct (upto_take stop 36 s Hlen Hall) as [-> ->]. reflexivity.
Qed.

Lemma m_uuid_loc (stop : ascii -> bool) (p : option ascii) (s s' : str) :
  (forall c, is_hexdash c = true -> stop c = false) ->
  upto stop s = upto stop s' -> m_uuid p s = m_uuid p s'.
Proof.
  intros Hd E. rewrite <- (m_uuid_upto stop p s Hd), <- (m_uuid_upto stop p s' Hd).
  now rewrite E.
Qed.

Lemma match_classes_lookup (cs : list (ascii -> bool)) (s : str) :
  match_classes cs s = true ->
  forall i cls, cs !! i = Some cls -> exists x, s !! i = Some x /\ cls x = true.
Proof.
  revert s. induction cs as [|c0 cs IH]; intros s H i cls Hi; [discriminate|].
  destruct s as [|x s]; [discriminate|]. cbn in H.
  apply andb_true_iff in H as [Hx H]. destruct i as [|i]; cbn in *.
  - injection Hi as <-. eauto.
  - eauto.
Qed.

Lemma match_classes_length (cs : list (ascii -> bool)) (s : str) :
  match_classes cs s = true -> length cs <= length s.
Proof.
  revert s. induction cs as [|c0 cs IH]; intros s H; cbn; [lia|].
  destruct s as [|x s]; [discriminate|]. cbn in H.
  apply andb_true_iff in H as [_ H]. apply IH in H. cbn. lia.
Qed.

(** A match of the pattern: thirty-six code units that end a word. *)
Lemma m_uuid_hit (p : option ascii) (c : ascii) (s : str) (n : nat) (r : str) :
  m_uuid p (c :: s) = Some (n, r) ->
  exists w rest,
    c :: s = w ++ rest /\ length w = n /\ w <> [] /\ r = lit "<uuid>"
    /\ is_wordo (head rest) = false /\ is_wordo p = false /\ is_word c = true.
Proof.
  unfold m_uuid.
  destruct (word_boundary p (head (c :: s))) eqn:Hb1; [|discriminate].
  destruct (match_classes uuid_classes (c :: s)) eqn:Hm; [|discriminate].
  destruct (word_boundary (last (take 36 (c :: s))) (head (drop 36 (c :: s)))) eqn:Hb2;
    [|discriminate].
  cbn [andb]. intros [= <- <-].
  pose proof (match_classes_length _ _ Hm) as Hlen. rewrite uuid_classes_length in Hlen.
  destruct (match_classes_lookup _ _ Hm 0 is_hex eq_refl) as (x0 & E0 & Hx0).
  destruct (match_classes_lookup _ _ Hm 35 is_hex eq_refl) as (x35 & E35 & Hx35).
  cbn in E0. injection E0 as <-.
  exists (take 36 (c :: s)), (drop 36 (c :: s)).
  split; [symmetry; apply take_drop|].
  split; [rewrite length_take; lia|].
  split; [discriminate|]. split; [reflexivity|].
  assert (Hl : last (take 36 (c :: s)) = Some x35).
  { rewrite last_lookup, length_take. replace (Init.Nat.pred (36 `min` length (c :: s))) with 35 by lia.
    rewrite lookup_take_lt by lia. exact E35. }
  rewrite Hl in Hb2. unfold word_boundary in *. cbn [is_wordo head] in *.
  rewrite (is_hex_word _ Hx35) in Hb2. rewrite (is_hex_word _ Hx0) in Hb1.
  split; [now destruct (is_wordo (head (drop 36 (c :: s))))|].
  split; [now destruct (is_wordo p) | now apply is_hex_word].
Qed.

(** No UUID starts in a short text that ends outside the classes of the
    pattern. *)
Lemma uuid_free (r : str) (x : ascii) :
  length r <= 36 -> last r = Some x -> is_hexdash x = false ->
  forall q t r1 d r2, r = r1 ++ d :: r2 -> m_uuid q (d :: r2 ++ t) = None.
Proof.
  intros Hlen Hl Hx q t r1 d r2 ->. unfold m_uuid.
  destruct (match_classes uuid_classes (d :: r2 ++ t)) eqn:Hm; [|now rewrite andb_false_r].
  exfalso.
  assert (Hi : length r2 < 36).
  { rewrite length_app in Hlen. cbn in Hlen. lia. }
  destruct (lookup_lt_is_Some_2 uuid_classes (length r2)) as [cls Hcls];
    [rewrite uuid_classes_length; exact Hi|].
  destruct (match_classes_lookup _ _ Hm _ _ Hcls) as (y & Ey & Hy).
  pose proof uuid_classes_hexdash as Hall. rewrite Forall_forall in Hall.
  apply list_elem_of_lookup_2 in Hcls. specialize (Hall cls Hcls y Hy).
  assert (y = x); [|congruence].
  rewrite last_app in Hl. cbn [last] in Hl.
  pose proof (lookup_app_l (d :: r2) t (length r2)) as Ea.
  assert (El : last (d :: r2) = Some y).
  { rewrite last_lookup. cbn [length Init.Nat.pred]. rewrite <- Ea by (cbn; lia). exact Ey. }
  rewrite El in Hl. congruence.
Qed.

(** ** The first two scans *)

Lemma nonword_stopo (p : option ascii) : is_wordo p = false -> is_stopo nonword p = true.
Proof. destruct p as [c|]; [|reflexivity]. cbn. unfold nonword. now intros ->. Qed.

Lemma digit_not_nonword (c : ascii) : is_digit c = true -> nonword c = false.
Proof. intros H. unfold nonword. now rewrite (is_digit_word c H). Qed.

Lemma m_num_shape (p : option ascii) (c : ascii) (s : str) (n : nat) (r : str) :
  m_num p (c :: s) = Some (n, r) ->
  (nonword c = true /\ head r = Some c) \/ (nonword c = false /\ is_stopo nonword p = true).
Proof.
  intros H. apply m_num_hit in H as (w & rest & _ & _ & _ & _ & _ & Hp & Hc).
  right. split; [unfold nonword; now rewrite Hc | now apply nonword_stopo].
Qed.

Lemma m_uuid_shape (p : option ascii) (c : ascii) (s : str) (n : nat) (r : str) :
  m_uuid p (c :: s) = Some (n, r) ->
  (nonword c = true /\ head r = Some c) \/ (nonword c = false /\ is_stopo nonword p = true).
Proof.
  intros H. apply m_uuid_hit in H as (w & rest & _ & _ & _ & _ & _ & Hp & Hc).
  right. split; [unfold nonword; now rewrite Hc | now apply nonword_stopo].
Qed.

(** After the scan for long numbers no long number is left. *)
Lemma num_scan_nomatch (s : str) (p : option ascii) :
  nomatch m_num p (replace_from m_num 0 p s).
Proof.
  apply (scan_nomatch m_num m_num (fun _ _ => True));
    [exact m_num_nil | exact m_num_head | exact m_num_nil | | | auto | exact I].
  - intros q c t n r H. apply m_num_hit in H as (w & rest & E & Hn & Hw & -> & Hr & _ & _).
    exists w, rest. split; [exact E|]. split; [exact Hn|]. split; [exact Hw|].
    split; [discriminate|]. split; [apply num_free; reflexivity | right; exact Hr].
  - intros q c t _ H. split; [exact H|]. split; [exact I|].
    apply (copy_step m_num m_num nonword);
      [intros; apply (m_num_loc nonword); [exact digit_not_nonword | assumption]
      | exact m_num_nil | exact m_num_shape | exact H].
Qed.

(** The scan for UUIDs makes no long number. *)
Lemma num_nomatch_uuid (s : str) (p : option ascii) :
  nomatch m_num p s -> nomatch m_num p (replace_from m_uuid 0 p s).
Proof.
  apply (scan_nomatch m_num m_uuid (nomatch m_num));
    [exact m_num_nil | exact m_num_head | exact m_uuid_nil | | | ].
  - intros q c t n r H. apply m_uuid_hit in H as (w & rest & E & Hn & Hw & -> & Hr & _ & _).
    exists w, rest. split; [exact E|]. split; [exact Hn|]. split; [exact Hw|].
    split; [discriminate|]. split; [apply num_free; reflexivity | right; exact Hr].
  - intros q c t [Hm Hn] H. split; [exact Hm|]. split; [exact Hn|].
    apply (copy_step m_num m_uuid nonword);
      [intros; apply (m_num_loc nonword); [exact digit_not_nonword | assumption]
      | exact m_uuid_nil | exact m_uuid_shape | exact Hm].
  - intros q w rest n r H _ _ _. now apply nomatch_drop.
Qed.

(** The scan for UUIDs copies a stretch that stays inside the classes of
    the pattern. *)
Lemma uuid_scan_take (n : nat) :
  forall s q,
    (forall i, i < n ->
       exists x, replace_from m_uuid 0 q s !! i = Some x /\ is_hexdash x = true) ->
    take n (replace_from m_uuid 0 q s) = take n s
    /\ drop n (replace_from m_uuid 0 q s)
       = replace_from m_uuid 0 (prev_after q (take n s)) (drop n s).
Proof.
  induction n as [|n IH]; intros s q Hall; [split; reflexivity|].
  destruct s as [|c s].
  { destruct (Hall 0) as (x & Hx & _); [lia|]. cbn in Hx. rewrite m_uuid_nil in Hx.
    discriminate. }
  cbn [replace_from] in *. destruct (m_uuid q (c :: s)) as [[k r]|] eqn:Hm.
  - exfalso. apply m_uuid_hit in Hm as (w & rest & _ & <- & Hw & -> & _).
    destruct (Hall 0) as (x & Hx & Hd); [lia|].
    destruct w as [|? w]; [contradiction|]. cbn in Hx. injection Hx as <-.
    discriminate.
  - cbn [take drop]. rewrite prev_after_cons.
    destruct (IH s (Some c)) as [E1 E2].
    { intros i Hi. destruct (Hall (S i)) as (x & Hx & Hd); [lia|]. eauto. }
    now rewrite E1, E2.
Qed.

Lemma uuid_scan_head (s : str) (q : option ascii) :
  is_wordo q = true -> head (replace_from m_uuid 0 q s) = head s.
Proof.
  intros Hq. destruct s as [|c s]; cbn [replace_from].
  - now rewrite m_uuid_nil.
  - destruct (m_uuid q (c :: s)) as [[k r]|] eqn:Hm; [|reflexivity].
    apply m_uuid_hit in Hm as (_ & _ & _ & _ & _ & _ & _ & Hp & _). congruence.
Qed.

Lemma match_classes_prefix (cs : list (ascii -> bool)) (s s' : str) :
  take (length cs) s = take (length cs) s' -> match_classes cs s = match_classes cs s'.
Proof.
  revert s s'. induction cs as [|c0 cs IH]; intros s s' E; [reflexivity|].
  destruct s as [|x s], s' as [|x' s']; try discriminate; [reflexivity|].
  cbn in E. injection E as -> E. cbn. now rewrite (IH s s' E).
Qed.

(** Where the scan for UUIDs copies a code unit, no UUID starts there in
    its output. *)
Lemma uuid_copy_step (p : option ascii) (c : ascii) (s : str) :
  m_uuid p (c :: s) = None -> m_uuid p (c :: replace_from m_uuid 0 (Some c) s) = None.
Proof.
  intros Hin. set (out := replace_from m_uuid 0 (Some c) s).
  destruct (m_uuid p (c :: out)) as [[k r]|] eqn:Hout; [exfalso|reflexivity].
  unfold m_uuid in Hout, Hin.
  destruct (word_boundary p (head (c :: out))) eqn:Hb1; [|discriminate].
  destruct (match_classes uuid_classes (c :: out)) eqn:Hm; [|discriminate].
  destruct (word_boundary (last (take 36 (c :: out))) (head (drop 36 (c :: out)))) eqn:Hb2;
    [|discriminate].
  clear Hout. cbn [head] in *. rewrite Hb1 in Hin. cbn [andb] in Hin.
  assert (Hall : forall i, i < 35 -> exists x, out !! i = Some x /\ is_hexdash x = true).
  { intros i Hi.
    destruct (lookup_lt_is_Some_2 uuid_classes (S i)) as [cls Hcls];
      [rewrite uuid_classes_length; lia|].
    destruct (match_classes_lookup _ _ Hm _ _ Hcls) as (y & Ey & Hy).
    pose proof uuid_classes_hexdash as Hhd. rewrite Forall_forall in Hhd.
    apply list_elem_of_lookup_2 in Hcls. exists y. split; [exact Ey | eauto]. }
  destruct (uuid_scan_take 35 s (Some c) Hall) as [E1 E2]. fold out in E1, E2.
  assert (Et : take 36 (c :: out) = take 36 (c :: s)) by (cbn; now rewrite E1).
  rewrite (match_classes_prefix uuid_classes (c :: s) (c :: out)) in Hin
    by (rewrite uuid_classes_length; now rewrite Et).
  rewrite Hm in Hin. cbn [andb] in Hin.
  destruct (match_classes_lookup _ _ Hm 35 is_hex eq_refl) as (x35 & E35 & Hx35).
  pose proof (match_classes_length _ _ Hm) as Hlen. rewrite uuid_classes_length in Hlen.
  assert (Hl : last (take 36 (c :: out)) = Some x35).
  { rewrite last_lookup, length_take.
    replace (Init.Nat.pred (36 `min` length (c :: out))) with 35 by lia.
    rewrite lookup_take_lt by lia. exact E35. }
  assert (Hh : head (drop 36 (c :: out)) = head (drop 36 (c :: s))).
  { cbn [drop]. rewrite E2. apply uuid_scan_head.
    assert (Hp : prev_after (Some c) (take 35 s) = Some x35).
    { rewrite <- (prev_after_cons None c (take 35 s)).
      rewrite (prev_after_last None (c :: take 35 s)) by discriminate.
      rewrite <- Hl, Et. reflexivity. }
    rewrite Hp. cbn. now apply is_hex_word. }
  rewrite <- Et, <- Hh, Hb2 in Hin. discriminate.
Qed.

(** After the scan for UUIDs no UUID is left. *)
Lemma uuid_scan_nomatch (s : str) (p : option ascii) :
  nomatch m_uuid p (replace_from m_uuid 0 p s).
Proof.
  apply (scan_nomatch m_uuid m_uuid (fun _ _ => True));
    [exact m_uuid_nil | exact m_uuid_head | exact m_uuid_nil | | | auto | exact I].
  - intros q c t n r H. apply m_uuid_hit in H as (w & rest & E & Hn & Hw & -> & Hr & _ & _).
    exists w, rest. split; [exact E|]. split; [exact Hn|]. split; [exact Hw|].
    split; [discriminate|]. split; [|right; exact Hr].
    apply (uuid_free (lit "<uuid>") ">"%char); [cbn; lia | reflexivity | reflexivity].
  - intros q c t _ H. split; [exact H|]. split; [exact I|]. now apply uuid_copy_step.
Qed.

(** ** The pattern of the timestamps *)

Lemma is_dquote_eq (c : ascii) : is_dquote c = true -> c = dquote.
Proof.
  unfold is_dquote, code. intros H. apply N.eqb_eq in H.
  rewrite <- (ascii_N_embedding c), H. reflexivity.
Qed.

Lemma lower_letter (c : ascii) : is_lower (lower_char c) = true -> is_letter c = true.
Proof. destruct c as [[] [] [] [] [] [] [] []]; vm_compute; intros H; congruence. Qed.

Lemma lower_fixed (c : ascii) : is_lower c = true -> lower_char c = c.
Proof. destruct c as [[] [] [] [] [] [] [] []]; vm_compute; intros H; congruence. Qed.

Lemma letter_plain (c : ascii) :
  is_letter c = true ->
  is_digit c = false /\ is_dquote c = false /\ is_space c = false /\ (code c =? 58)%N = false.
Proof.
  destruct c as [[] [] [] [] [] [] [] []]; vm_compute; intros H; try discriminate H;
    repeat split.
Qed.

Lemma eq_ci_letter (a c : ascii) : is_lower a = true -> eq_ci a c = true -> is_letter c = true.
Proof.
  intros Ha H. apply lower_letter. unfold eq_ci in H.
  apply orb_true_iff in H as [H|H].
  - apply bool_decide_eq_true in H. subst c. now rewrite (lower_fixed a Ha).
  - apply andb_true_iff in H as [_ H]. apply bool_decide_eq_true in H.
    now rewrite <- H, (lower_fixed a Ha).
Qed.

Lemma prefix_ci_letters (key s : str) :
  forallb is_lower key = true -> prefix_ci key s = true ->
  length key <= length s /\ forallb is_letter (take (length key) s) = true.
Proof.
  revert s. induction key as [|a key IH]; intros s Hk H; cbn.
  - split; [lia | reflexivity].
  - destruct s as [|c s]; [discriminate|]. cbn in H, Hk.
    apply andb_true_iff in H as [Hc H]. apply andb_true_iff in Hk as [Ha Hk].
    destruct (IH s Hk H) as [Hlen Hall]. cbn.
    rewrite (eq_ci_letter a c Ha Hc), Hall. split; [lia | reflexivity].
Qed.

Lemma prefix_ci_take (key s : str) :
  prefix_ci key (take (length key) s) = prefix_ci key s.
Proof.
  revert s. induction key as [|a key IH]; intros s; [reflexivity|].
  destruct s as [|c s]; [reflexivity|]. cbn. now rewrite IH.
Qed.

Lemma prefix_ci_app (key k t : str) :
  length k = length key -> prefix_ci key (k ++ t) = prefix_ci key k.
Proof.
  intros Hl. rewrite <- (prefix_ci_take key (k ++ t)), <- Hl, take_app_length.
  reflexivity.
Qed.

Lemma ts_keys_lower : Forall (fun key => forallb is_lower key = true) ts_keys.
Proof. repeat constructor. Qed.

Lemma ts_keys_length : Forall (fun key : str => 1 <= length key <= 9) ts_keys.
Proof. repeat constructor; cbn; lia. Qed.

(** The text of a key is made of letters. *)
Lemma ts_key_letters (k : str) :
  is_ts_key k = true -> forallb is_letter k = true /\ 1 <= length k <= 9.
Proof.
  unfold is_ts_key. intros H. apply existsb_exists in H as (key & Hin & H).
  apply andb_true_iff in H as [Hl Hp]. apply Nat.eqb_eq in Hl.
  pose proof ts_keys_lower as Hlow. pose proof ts_keys_length as Hlen.
  rewrite Forall_forall in Hlow, Hlen. apply list_elem_of_In in Hin.
  destruct (prefix_ci_letters key k (Hlow key Hin) Hp) as [_ Hall].
  rewrite <- Hl, firstn_all in Hall. split; [exact Hall|].
  rewrite Hl. apply Hlen, Hin.
Qed.

Lemma letters_nonquote (k : str) : forallb is_letter k = true -> forallb nonquote k = true.
Proof.
  intros H. apply forallb_forall. intros c Hc. rewrite forallb_forall in H.
  destruct (letter_plain c (H c Hc)) as (_ & Hq & _). unfold nonquote. now rewrite Hq.
Qed.

Lemma spaces_nonquote (w : str) : forallb is_space w = true -> forallb nonquote w = true.
Proof.
  intros H. apply forallb_forall. intros c Hc. rewrite forallb_forall in H.
  specialize (H c Hc). unfold nonquote.
  destruct (is_dquote c) eqn:Hq; [|reflexivity].
  apply is_dquote_eq in Hq. subst c. discriminate H.
Qed.

(** A text without double quote before a double quote: the two are told
    apart in one way only. *)
Lemma quote_split (u u' a b : str) :
  forallb nonquote u = true -> forallb nonquote u' = true ->
  u ++ dquote :: a = u' ++ dquote :: b -> u = u' /\ a = b.
Proof.
  revert u'. induction u as [|c u IH]; intros u' Hu Hu' E.
  - destruct u' as [|c' u']; [now injection E as ->|].
    cbn in E, Hu'. injection E as <- _. discriminate.
  - destruct u' as [|c' u'].
    + cbn in E, Hu. injection E as -> _. discriminate.
    + cbn in E, Hu, Hu'. injection E as -> E.
      apply andb_true_iff in Hu as [_ Hu]. apply andb_true_iff in Hu' as [_ Hu'].
      destruct (IH u' Hu Hu' E) as [-> ->]. auto.
Qed.

Lemma span_nonquote (v rest : str) :
  forallb nonquote v = true -> span nonquote (v ++ dquote :: rest) = v.
Proof. intros H. apply span_all; [exact H | reflexivity]. Qed.

Lemma span_spaces (w : str) (c : ascii) (rest : str) :
  forallb is_space w = true -> is_space c = false -> span is_space (w ++ c :: rest) = w.
Proof. intros H Hc. apply span_all; [exact H | cbn; now rewrite Hc]. Qed.

(** The tail of the pattern, from the colon to the closing quote. *)
Lemma ts_tail_spec (s : str) (n : nat) :
  ts_tail s = Some n ->
  exists ws1 ws2 v rest,
    s = ws1 ++ ":"%char :: ws2 ++ dquote :: v ++ dquote :: rest
    /\ forallb is_space ws1 = true /\ forallb is_space ws2 = true
    /\ truthy v = true /\ forallb nonquote v = true
    /\ n = length ws1 + 1 + length ws2 + 1 + length v + 1.
Proof.
  unfold ts_tail.
  pose proof (span_drop is_space s) as E1. pose proof (span_forallb is_space s) as H1.
  set (ws1 := span is_space s) in *.
  destruct (drop (length ws1) s) as [|c s1]; [discriminate|].
  destruct (code c =? 58)%N eqn:Hc; [|discriminate].
  pose proof (span_drop is_space s1) as E2. pose proof (span_forallb is_space s1) as H2.
  set (ws2 := span is_space s1) in *.
  destruct (drop (length ws2) s1) as [|q s2]; [discriminate|].
  destruct (is_dquote q) eqn:Hq; [|discriminate].
  pose proof (span_drop nonquote s2) as E3. pose proof (span_forallb nonquote s2) as H3.
  fold nonquote. set (v := span nonquote s2) in *.
  destruct v as [|v0 v'] eqn:Ev; [discriminate|].
  destruct (drop (length (v0 :: v')) s2) as [|q' rest]; [discriminate|].
  destruct (is_dquote q') eqn:Hq'; [|discriminate].
  intros [= <-]. apply is_dquote_eq in Hq, Hq'. subst q q'.
  assert (c = ":"%char) as ->.
  { apply N.eqb_eq in Hc. rewrite <- (ascii_N_embedding c). unfold code in Hc.
    now rewrite Hc. }
  exists ws1, ws2, (v0 :: v'), rest. rewrite <- E1, <- E2, <- E3.
  repeat split; auto.
Qed.

Lemma ts_tail_intro (ws1 ws2 v rest : str) :
  forallb is_space ws1 = true -> forallb is_space ws2 = true ->
  truthy v = true -> forallb nonquote v = true ->
  ts_tail (ws1 ++ ":"%char :: ws2 ++ dquote :: v ++ dquote :: rest)
  = Some (length ws1 + 1 + length ws2 + 1 + length v + 1).
Proof.
  intros H1 H2 Hv H3. unfold ts_tail.
  rewrite (span_spaces ws1 ":"%char _ H1 eq_refl), drop_app_length.
  change (code ":" =? 58)%N with true. cbv iota.
  rewrite (span_spaces ws2 dquote _ H2 eq_refl), drop_app_length.
  change (is_dquote dquote) with true. cbv iota.
  fold nonquote. rewrite (span_nonquote v rest H3).
  destruct v as [|v0 v']; [discriminate|].
  rewrite drop_app_length. reflexivity.
Qed.

Lemma is_ts_key_iff (k : str) :
  is_ts_key k = true
  <-> exists key, In key ts_keys /\ length k = length key /\ prefix_ci key k = true.
Proof.
  unfold is_ts_key. rewrite existsb_exists. split.
  - intros (key & Hin & H). apply andb_true_iff in H as [Hl Hp].
    apply Nat.eqb_eq in Hl. eauto.
  - intros (key & Hin & Hl & Hp). exists key. split; [exact Hin|].
    now rewrite Hl, Nat.eqb_refl, Hp.
Qed.

Lemma ts_alternatives_spec (ks : list str) (s : str) (n : nat) (r : str) :
  ts_alternatives ks s = Some (n, r) ->
  exists k rest1 m,
    s = k ++ dquote :: rest1
    /\ (exists key, In key ks /\ length k = length key /\ prefix_ci key k = true)
    /\ ts_tail rest1 = Some m
    /\ n = 1 + length k + 1 + m /\ r = ts_repl k.
Proof.
  induction ks as [|key ks IH]; [discriminate|]. cbn [ts_alternatives].
  assert (Hnext : ts_alternatives ks s = Some (n, r) ->
                  exists k rest1 m,
                    s = k ++ dquote :: rest1
                    /\ (exists key0, In key0 (key :: ks) /\ length k = length key0
                                     /\ prefix_ci key0 k = true)
                    /\ ts_tail rest1 = Some m
                    /\ n = 1 + length k + 1 + m /\ r = ts_repl k).
  { intros H. destruct (IH H) as (k & rest1 & m & E & (key0 & Hin & Hk) & Ht & En & Er).
    exists k, rest1, m. repeat split; auto. exists key0. split; [now right | exact Hk]. }
  destruct (prefix_ci key s) eqn:Hp; [|exact Hnext].
  destruct (drop (length key) s) as [|q s1] eqn:Hd; [exact Hnext|].
  destruct (is_dquote q) eqn:Hq; [|exact Hnext].
  destruct (ts_tail s1) as [m|] eqn:Ht; [|exact Hnext].
  intros [= <- <-]. apply is_dquote_eq in Hq. subst q.
  assert (Hlen : length key < length s).
  { destruct (Nat.lt_ge_cases (length key) (length s)) as [H|H]; [exact H|].
    rewrite drop_ge in Hd by exact H. discriminate. }
  exists (take (length key) s), s1, m.
  assert (Hl : length (take (length key) s) = length key) by (rewrite length_take; lia).
  split; [now rewrite <- Hd, take_drop|].
  split; [exists key; split; [now left|]; split; [exact Hl | now rewrite prefix_ci_take]|].
  split; [exact Ht|]. rewrite Hl. split; reflexivity.
Qed.

Lemma ts_alternatives_intro (ks : list str) (k rest1 : str) (m : nat) :
  Forall (fun key => forallb is_lower key = true) ks ->
  (exists key, In key ks /\ length k = length key /\ prefix_ci key k = true) ->
  forallb nonquote k = true ->
  ts_tail rest1 = Some m ->
  ts_alternatives ks (k ++ dquote :: rest1) = Some (1 + length k + 1 + m, ts_repl k).
Proof.
  intros Hlow Hkey Hk Ht. set (s := k ++ dquote :: rest1).
  induction Hlow as [|key0 ks Hlow0 Hlow IH]; [destruct Hkey as (? & [] & _)|].
  cbn [ts_alternatives].
  assert (Hown : forall key : str, length k = length key ->
                   drop (length key) s = dquote :: rest1 /\ take (length key) s = k).
  { intros key Hl. unfold s. rewrite <- Hl. now rewrite drop_app_length, take_app_length. }
  assert (Hother : prefix_ci key0 s = true ->
                   forall q s1, drop (length key0) s = q :: s1 -> is_dquote q = true ->
                   length k = length key0).
  { intros Hp q s1 Hd Hq.
    destruct (prefix_ci_letters key0 s Hlow0 Hp) as [Hlen Hall].
    destruct (Nat.lt_total (length key0) (length k)) as [Hlt|[E|Hgt]]; [exfalso| auto |exfalso].
    - unfold s in Hd. rewrite drop_app_le in Hd by lia.
      destruct (drop (length key0) k) as [|x k'] eqn:Hdk.
      { apply (f_equal (@length ascii)) in Hdk. rewrite length_drop in Hdk. cbn in Hdk. lia. }
      cbn in Hd. injection Hd as -> _.
      assert (Hin : In q k).
      { eapply In_drop. rewrite Hdk. now left. }
      rewrite forallb_forall in Hk. specialize (Hk q Hin). unfold nonquote in Hk.
      rewrite Hq in Hk. discriminate.
    - assert (Hin : In dquote (take (length key0) s)).
      { apply list_elem_of_In, elem_of_take. exists (length k). split; [|exact Hgt].
        unfold s. now rewrite list_lookup_middle. }
      apply letters_nonquote in Hall. rewrite forallb_forall in Hall.
      specialize (Hall dquote Hin). discriminate. }
  destruct (prefix_ci key0 s) eqn:Hp.
  - destruct (drop (length key0) s) as [|q s1] eqn:Hd.
    + apply IH. destruct Hkey as (key & [<-|Hin] & Hl & Hpk); [|eauto].
      destruct (Hown key0 Hl) as [Hd' _]. congruence.
    + destruct (is_dquote q) eqn:Hq.
      * pose proof (Hother eq_refl q s1 eq_refl Hq) as Hl.
        destruct (Hown key0 Hl) as [Hd' Htk]. rewrite Hd' in Hd.
        injection Hd as <- <-. rewrite Ht, Htk, Hl. reflexivity.
      * apply IH. destruct Hkey as (key & [<-|Hin] & Hl & Hpk); [|eauto].
        destruct (Hown key0 Hl) as [Hd' _]. rewrite Hd' in Hd.
        injection Hd as <- _. discriminate.
  - apply IH. destruct Hkey as (key & [<-|Hin] & Hl & Hpk); [|eauto].
    unfold s in Hp. rewrite (prefix_ci_app key0 k _ Hl) in Hp. congruence.
Qed.

Lemma ts_text_length (k ws1 ws2 v : str) :
  length (ts_text k ws1 ws2 v)
  = 1 + length k + 1 + (length ws1 + 1 + length ws2 + 1 + length v + 1).
Proof.
  unfold ts_text. cbn [length]. rewrite length_app. cbn [length]. rewrite length_app.
  cbn [length]. rewrite length_app. cbn [length]. rewrite length_app. cbn [length]. lia.
Qed.

Lemma ts_text_app (k ws1 ws2 v rest : str) :
  ts_text k ws1 ws2 v ++ rest
  = dquote :: k ++ dquote :: ws1 ++ ":"%char :: ws2 ++ dquote :: v ++ dquote :: rest.
Proof.
  unfold ts_text. cbn. f_equal. rewrite <- !app_assoc. cbn. f_equal. f_equal.
  rewrite <- !app_assoc. cbn. f_equal. f_equal. rewrite <- !app_assoc. cbn. f_equal. f_equal.
  now rewrite <- app_assoc.
Qed.

(** A match of the pattern, by its parts. *)
Lemma m_ts_spec (p : option ascii) (s : str) (n : nat) (r : str) :
  m_ts p s = Some (n, r) ->
  exists k ws1 ws2 v rest,
    ts_ok k ws1 ws2 v = true /\ s = ts_text k ws1 ws2 v ++ rest
    /\ n = length (ts_text k ws1 ws2 v) /\ r = ts_repl k.
Proof.
  unfold m_ts. destruct s as [|q s]; [discriminate|].
  destruct (is_dquote q) eqn:Hq; [|discriminate]. apply is_dquote_eq in Hq. subst q.
  intros H. apply ts_alternatives_spec in H as (k & rest1 & m & -> & Hkey & Ht & -> & ->).
  apply ts_tail_spec in Ht as (ws1 & ws2 & v & rest & -> & H1 & H2 & Hv & H3 & ->).
  exists k, ws1, ws2, v, rest. unfold ts_ok.
  rewrite (proj2 (is_ts_key_iff k) Hkey), H1, H2, Hv, H3.
  split; [reflexivity|]. split; [now rewrite ts_text_app|].
  split; [now rewrite ts_text_length | reflexivity].
Qed.

Lemma m_ts_intro (p : option ascii) (k ws1 ws2 v rest : str) :
  ts_ok k ws1 ws2 v = true ->
  m_ts p (ts_text k ws1 ws2 v ++ rest) = Some (length (ts_text k ws1 ws2 v), ts_repl k).
Proof.
  unfold ts_ok. rewrite !andb_true_iff. intros [[[[Hk H1] H2] Hv] H3].
  rewrite ts_text_app, ts_text_length. unfold m_ts.
  change (is_dquote dquote) with true. cbv iota.
  apply ts_alternatives_intro.
  - exact ts_keys_lower.
  - now apply is_ts_key_iff.
  - apply letters_nonquote. now apply ts_key_letters.
  - now apply ts_tail_intro.
Qed.

(** ** The third scan *)

Lemma replace_from_pass (m : matcher) (w rest : str) (p : option ascii) :
  replace_from m (length w) p (w ++ rest) = replace_from m 0 (prev_after p w) rest.
Proof.
  revert p. induction w as [|c w IH]; intros p; [reflexivity|].
  cbn [length app replace_from]. rewrite prev_after_cons. apply IH.
Qed.

Lemma replace_from_hit (m : matcher) (w rest r : str) (p : option ascii) :
  w <> [] -> m p (w ++ rest) = Some (length w, r) ->
  replace_from m 0 p (w ++ rest) = r ++ replace_from m 0 (prev_after p w) rest.
Proof.
  intros Hw H. destruct w as [|c w]; [contradiction|].
  cbn [app replace_from] in *. rewrite H. cbn [length]. f_equal.
  rewrite prev_after_cons. apply replace_from_pass.
Qed.

Lemma ts_scan_prev (s : str) (p p' : option ascii) :
  replace_from m_ts 0 p s = replace_from m_ts 0 p' s.
Proof. apply replace_from_prev. reflexivity. Qed.

Lemma ts_text_nonempty (k ws1 ws2 v : str) : ts_text k ws1 ws2 v <> [].
Proof. discriminate. Qed.

Lemma ts_text_last (k ws1 ws2 v : str) : last (ts_text k ws1 ws2 v) = Some dquote.
Proof.
  unfold ts_text.
  change (dquote :: k ++ dquote :: ws1 ++ ":"%char :: ws2 ++ dquote :: v ++ [dquote])
    with ((dquote :: k) ++ (dquote :: ws1) ++ (":"%char :: ws2) ++ (dquote :: v) ++ [dquote]).
  rewrite !app_assoc. apply last_snoc.
Qed.

Lemma ts_repl_last (k : str) : last (ts_repl k) = Some dquote.
Proof.
  assert (E : ts_repl k = ((dquote :: k) ++ qlit "':'<ts>") ++ [dquote]).
  { unfold ts_repl. cbn [app]. f_equal. now rewrite <- app_assoc. }
  rewrite E. apply last_snoc.
Qed.

Lemma ts_repl_text (k : str) : ts_repl k = ts_text k [] [] (lit "<ts>").
Proof. reflexivity. Qed.

Lemma ts_repl_ok (k : str) : is_ts_key k = true -> ts_ok k [] [] (lit "<ts>") = true.
Proof. unfold ts_ok. now intros ->. Qed.

Lemma ts_ok_key (k ws1 ws2 v : str) : ts_ok k ws1 ws2 v = true -> is_ts_key k = true.
Proof. unfold ts_ok. rewrite !andb_true_iff. tauto. Qed.

(** A step of the scan: a code unit is copied, or a match is replaced. *)
Lemma ts_scan_cases (c : ascii) (s : str) (p : option ascii) :
  (m_ts p (c :: s) = None
   /\ replace_from m_ts 0 p (c :: s) = c :: replace_from m_ts 0 None s)
  \/ (exists k ws1 ws2 v rest,
        ts_ok k ws1 ws2 v = true /\ c :: s = ts_text k ws1 ws2 v ++ rest
        /\ replace_from m_ts 0 p (c :: s) = ts_repl k ++ replace_from m_ts 0 None rest).
Proof.
  destruct (m_ts p (c :: s)) as [[n r]|] eqn:Hm.
  - right. destruct (m_ts_spec _ _ _ _ Hm) as (k & ws1 & ws2 & v & rest & Hok & E & -> & ->).
    exists k, ws1, ws2, v, rest. split; [exact Hok|]. split; [exact E|].
    rewrite E in Hm |- *. rewrite (replace_from_hit _ _ _ _ _ (ts_text_nonempty _ _ _ _) Hm).
    f_equal. apply ts_scan_prev.
  - left. split; [reflexivity|]. cbn [replace_from]. rewrite Hm. f_equal. apply ts_scan_prev.
Qed.

Lemma ts_hit (p : option ascii) (c : ascii) (s : str) (n : nat) (r : str) :
  m_ts p (c :: s) = Some (n, r) ->
  exists w rest k,
    c :: s = w ++ rest /\ length w = n /\ w <> [] /\ r = ts_repl k
    /\ is_ts_key k = true /\ last r = last w /\ c = dquote.
Proof.
  intros H. destruct (m_ts_spec _ _ _ _ H) as (k & ws1 & ws2 & v & rest & Hok & E & -> & ->).
  exists (ts_text k ws1 ws2 v), rest, k. split; [exact E|]. split; [reflexivity|].
  split; [discriminate|]. split; [reflexivity|]. split; [eapply ts_ok_key; eassumption|].
  split; [now rewrite ts_repl_last, ts_text_last|].
  unfold ts_text in E. now injection E as ->.
Qed.

Lemma ts_repl_no_digit (k : str) :
  is_ts_key k = true -> forallb (fun c => negb (is_digit c)) (ts_repl k) = true.
Proof.
  intros Hk. apply ts_key_letters in Hk as [Hk _]. unfold ts_repl. cbn [forallb].
  rewrite forallb_app. cbn. rewrite andb_true_r. apply forallb_forall. intros c Hc.
  rewrite forallb_forall in Hk. destruct (letter_plain c (Hk c Hc)) as (-> & _). reflexivity.
Qed.

Lemma ts_repl_length (k : str) : is_ts_key k = true -> length (ts_repl k) <= 36.
Proof.
  intros Hk. apply ts_key_letters in Hk as [_ Hk]. unfold ts_repl. cbn [length].
  rewrite length_app. cbn. lia.
Qed.

Lemma m_ts_nil (p : option ascii) : m_ts p [] = None.
Proof. reflexivity. Qed.

Lemma m_ts_shape (p : option ascii) (c : ascii) (s : str) (n : nat) (r : str) :
  m_ts p (c :: s) = Some (n, r) ->
  (is_dquote c = true /\ head r = Some c)
  \/ (is_dquote c = false /\ is_stopo is_dquote p = true).
Proof.
  intros H. apply ts_hit in H as (w & rest & k & _ & _ & _ & -> & _ & _ & ->).
  left. split; reflexivity.
Qed.

Lemma digit_not_quote (c : ascii) : is_digit c = true -> is_dquote c = false.
Proof.
  unfold is_digit, is_dquote, between. rewrite andb_true_iff, !N.leb_le.
  intros H. apply N.eqb_neq. lia.
Qed.

Lemma hexdash_not_quote (c : ascii) : is_hexdash c = true -> is_dquote c = false.
Proof.
  unfold is_hexdash, is_hex, is_dash, is_digit, is_dquote, between.
  rewrite !orb_true_iff, !andb_true_iff, !N.leb_le, N.eqb_eq.
  intros H. apply N.eqb_neq. lia.
Qed.

(** The scan for timestamps makes no long number and no UUID. *)
Lemma num_nomatch_ts (s : str) (p : option ascii) :
  nomatch m_num p s -> nomatch m_num p (replace_from m_ts 0 p s).
Proof.
  apply (scan_nomatch m_num m_ts (nomatch m_num));
    [exact m_num_nil | exact m_num_head | exact m_ts_nil | | | ].
  - intros q c t n r H. apply ts_hit in H as (w & rest & k & E & Hn & Hw & -> & Hk & Hl & _).
    exists w, rest. split; [exact E|]. split; [exact Hn|]. split; [exact Hw|].
    split; [discriminate|]. split; [|left; exact Hl].
    apply num_free. now apply ts_repl_no_digit.
  - intros q c t [Hm Hn] H. split; [exact Hm|]. split; [exact Hn|].
    apply (copy_step m_num m_ts is_dquote);
      [intros; apply (m_num_loc is_dquote); [exact digit_not_quote | assumption]
      | exact m_ts_nil | exact m_ts_shape | exact Hm].
  - intros q w rest n r H _ _ _. now apply nomatch_drop.
Qed.

Lemma uuid_nomatch_ts (s : str) (p : option ascii) :
  nomatch m_uuid p s -> nomatch m_uuid p (replace_from m_ts 0 p s).
Proof.
  apply (scan_nomatch m_uuid m_ts (nomatch m_uuid));
    [exact m_uuid_nil | exact m_uuid_head | exact m_ts_nil | | | ].
  - intros q c t n r H. apply ts_hit in H as (w & rest & k & E & Hn & Hw & -> & Hk & Hl & _).
    exists w, rest. split; [exact E|]. split; [exact Hn|]. split; [exact Hw|].
    split; [discriminate|]. split; [|left; exact Hl].
    apply (uuid_free (ts_repl k) dquote);
      [now apply ts_repl_length | apply ts_repl_last | reflexivity].
  - intros q c t [Hm Hn] H. split; [exact Hm|]. split; [exact Hn|].
    apply (copy_step m_uuid m_ts is_dquote);
      [intros; apply (m_uuid_loc is_dquote); [exact hexdash_not_quote | assumption]
      | exact m_ts_nil | exact m_ts_shape | exact Hm].
  - intros q w rest n r H _ _ _. now apply nomatch_drop.
Qed.

(** ** The third scan on its own output *)

Lemma ts_scan_nonquote (c : ascii) (s : str) :
  is_dquote c = false ->
  replace_from m_ts 0 None (c :: s) = c :: replace_from m_ts 0 None s.
Proof.
  intros Hc.
  destruct (ts_scan_cases c s None) as [[_ E] | (k & a & b & v & rest & _ & E & _)];
    [exact E|].
  rewrite ts_text_app in E. injection E as -> _. discriminate Hc.
Qed.

Lemma ts_scan_quote_head (s : str) :
  exists Y, replace_from m_ts 0 None (dquote :: s) = dquote :: Y.
Proof.
  destruct (ts_scan_cases dquote s None) as [[_ E] | (k & a & b & v & rest & _ & _ & E)];
    rewrite E; eexists; reflexivity.
Qed.

(** What the scan puts before the first double quote of its output, it has
    copied. *)
Lemma ts_scan_prefix_inv (u Y s : str) :
  forallb nonquote u = true -> replace_from m_ts 0 None s = u ++ Y ->
  exists s1, s = u ++ s1 /\ replace_from m_ts 0 None s1 = Y.
Proof.
  revert s. induction u as [|d u IH]; intros s Hu E; [exists s; auto|].
  cbn [forallb] in Hu. apply andb_true_iff in Hu as [Hd Hu].
  destruct s as [|c s]; [discriminate E|].
  destruct (is_dquote c) eqn:Hc.
  - apply is_dquote_eq in Hc. subst c. destruct (ts_scan_quote_head s) as [Y' E'].
    rewrite E' in E. injection E as <- _. discriminate Hd.
  - rewrite (ts_scan_nonquote _ _ Hc) in E. injection E as -> E.
    destruct (IH s Hu E) as (s1 & -> & E1). exists s1. auto.
Qed.

Lemma ts_scan_quote_inv (Y s : str) :
  replace_from m_ts 0 None s = dquote :: Y -> exists s1, s = dquote :: s1.
Proof.
  destruct s as [|c s]; [discriminate|]. intros E.
  destruct (is_dquote c) eqn:Hc.
  - apply is_dquote_eq in Hc. subst c. eauto.
  - rewrite (ts_scan_nonquote _ _ Hc) in E. injection E as -> _. discriminate Hc.
Qed.

Lemma ts_text_regroup (k ws1 ws2 v rest : str) :
  dquote :: k ++ dquote :: (ws1 ++ ":"%char :: ws2) ++ dquote :: v ++ dquote :: rest
  = ts_text k ws1 ws2 v ++ rest.
Proof. rewrite ts_text_app, <- app_assoc. reflexivity. Qed.

(** Where the pattern does not match the input, it does not match once the
    rest has been scanned: the key, the colon and the value of a match in the
    output were copied from the input, or the value is a key the scan kept. *)
Lemma ts_copy_step (p : option ascii) (c : ascii) (s : str) :
  m_ts p (c :: s) = None -> m_ts p (c :: replace_from m_ts 0 None s) = None.
Proof.
  intros Hn. destruct (m_ts p (c :: replace_from m_ts 0 None s)) as [[n r]|] eqn:Hm;
    [|reflexivity].
  exfalso.
  destruct (m_ts_spec _ _ _ _ Hm) as (k & ws1 & ws2 & v & rest & Hok & E & _ & _).
  rewrite ts_text_app in E. injection E as -> E.
  pose proof Hok as Hok'. unfold ts_ok in Hok'. rewrite !andb_true_iff in Hok'.
  destruct Hok' as [[[[Hk H1] H2] Hv] H3].
  destruct (ts_key_letters k Hk) as [Hkl Hklen].
  destruct (ts_scan_prefix_inv k _ s (letters_nonquote _ Hkl) E) as (s1 & -> & E1).
  destruct (ts_scan_quote_inv _ _ E1) as (s2 & ->).
  destruct (ts_scan_cases dquote s2 None)
    as [[_ E2] | (k2 & a & b & v2 & rest2 & Hok2 & _ & E2)]; rewrite E2 in E1.
  - injection E1 as E1.
    assert (Hsep : forallb nonquote (ws1 ++ ":"%char :: ws2) = true).
    { rewrite forallb_app. cbn [forallb]. rewrite !spaces_nonquote by assumption.
      reflexivity. }
    assert (E1' : replace_from m_ts 0 None s2
                  = (ws1 ++ ":"%char :: ws2) ++ dquote :: v ++ dquote :: rest)
      by (rewrite E1, <- app_assoc; reflexivity).
    destruct (ts_scan_prefix_inv _ _ _ Hsep E1') as (s3 & -> & E3).
    destruct (ts_scan_quote_inv _ _ E3) as (s4 & ->).
    destruct (ts_scan_cases dquote s4 None)
      as [[_ E4] | (k4 & a & b & v4 & rest4 & Hok4 & Et & E4)]; rewrite E4 in E3.
    + injection E3 as E3.
      destruct (ts_scan_prefix_inv _ _ _ H3 E3) as (s5 & -> & E5).
      destruct (ts_scan_quote_inv _ _ E5) as (s6 & ->).
      rewrite ts_text_regroup, m_ts_intro in Hn by exact Hok. discriminate Hn.
    + rewrite ts_repl_text, ts_text_app in E3. injection E3 as E3.
      apply ts_ok_key, ts_key_letters in Hok4 as [Hk4 _].
      apply quote_split in E3 as [-> _]; [|now apply letters_nonquote | exact H3].
      rewrite ts_text_app in Et. injection Et as ->.
      rewrite ts_text_regroup, m_ts_intro in Hn by exact Hok. discriminate Hn.
  - rewrite ts_repl_text, ts_text_app in E1. injection E1 as E1.
    apply ts_ok_key, ts_key_letters in Hok2 as [Hk2 Hlen2].
    destruct k2 as [|d k2]; [cbn in Hlen2; lia|].
    cbn [forallb] in Hk2. apply andb_true_iff in Hk2 as [Hd _].
    destruct (letter_plain d Hd) as (_ & _ & Hsp & Hcol).
    destruct ws1 as [|e ws1]; cbn in E1; injection E1 as -> _.
    + discriminate Hcol.
    + cbn [forallb] in H1. rewrite Hsp in H1. discriminate H1.
Qed.

(** The third scan leaves its own output as it is. *)
Lemma ts_scan_fixed (m : nat) (s : str) :
  length s <= m ->
  replace_from m_ts 0 None (replace_from m_ts 0 None s) = replace_from m_ts 0 None s.
Proof.
  revert s. induction m as [|m IH]; intros s Hlen.
  - destruct s; [reflexivity | cbn in Hlen; lia].
  - destruct s as [|c s]; [reflexivity|].
    destruct (ts_scan_cases c s None)
      as [[Hn E] | (k & a & b & v & rest & Hok & Et & E)]; rewrite E.
    + pose proof (ts_copy_step None c s Hn) as Hn'.
      cbn [replace_from]. rewrite Hn'. f_equal.
      rewrite (ts_scan_prev _ (Some c) None). apply IH. cbn in Hlen. lia.
    + pose proof (ts_repl_ok k (ts_ok_key _ _ _ _ Hok)) as Hok'.
      rewrite ts_repl_text.
      rewrite (replace_from_hit m_ts _ _ _ None (ts_text_nonempty _ _ _ _)
                 (m_ts_intro None k [] [] (lit "<ts>") _ Hok')).
      rewrite <- ts_repl_text. f_equal.
      rewrite (ts_scan_prev _ _ None). apply IH.
      apply (f_equal (@length ascii)) in Et. rewrite length_app in Et.
      cbn [length] in Et, Hlen. unfold ts_text in Et. cbn [length] in Et. lia.
Qed.

(** C9: redacting a redacted text changes nothing: after the first
    replacement no word of thirteen or more digits is left, after the
    second no UUID either, the third brings neither of them back, and it
    leaves its own output as it is.  (route.ts, lines 53-58) *)
Theorem redactVolatile_idempotent (text : str) :
  redactVolatile (redactVolatile text) = redactVolatile text.
Proof.
  unfold redactVolatile, replace_all.
  set (s1 := replace_from m_num 0 None text).
  set (s2 := replace_from m_uuid 0 None s1).
  set (s3 := replace_from m_ts 0 None s2).
  assert (Hnum : nomatch m_num None s3).
  { apply num_nomatch_ts, num_nomatch_uuid, num_scan_nomatch. }
  assert (Huuid : nomatch m_uuid None s3).
  { apply uuid_nomatch_ts, uuid_scan_nomatch. }
  rewrite (nomatch_id _ _ _ Hnum), (nomatch_id _ _ _ Huuid).
  apply (ts_scan_fixed (length s2)). lia.
Qed.
